(** * distcache: a shallow embedding of the cache data plane

    The development follows the C++ sources of the repository:
    - [include/distcache/version_vector.h]: module [version_vector];
    - [include/distcache/cache_entry.h], [include/distcache/metrics.h] and
      [src/cache/storage_engine.cpp]: modules [CacheEntry], [Metrics] and
      [ShardedHashTable];
    - [src/main.cpp]: module [CacheServiceImpl];
    - [src/replication/replication_manager.cpp]: module [replication];
    - [src/persistence/wal.cpp]: module [WAL];
    - [src/cluster/snapshot_manager.cpp] and
      [src/persistence/recovery_manager.cpp]: modules [SnapshotManager] and
      [RecoveryManager];
    - [src/cluster/hash_ring.cpp] and
      [src/cluster/rebalance_orchestrator.cpp]: modules [HashRing] and
      [RebalanceOrchestrator].
    The definitions come first; the lemmas about each module follow in a
    module of the same name with the suffix [_facts].

    Conventions.  [int64_t] and [int32_t] values are integers of [Z]; signed
    overflow is undefined behaviour in C++, so signed arithmetic is written
    on [Z] and agrees with the program wherever the program is defined.
    [size_t] and [uint64_t] values are integers of [Z] reduced modulo 2^64
    at every arithmetic step, as unsigned arithmetic does.  Readings of the
    clock are explicit arguments.  [std::unordered_map] and [std::map] with
    string keys are [gmap string _]; where the program iterates over one, the
    lemmas are proved for every enumeration order. *)

From Stdlib Require Import ZArith Lia Bool DecimalString Ascii.
From Stdlib Require Floats.PrimFloat Floats.SpecFloat Floats.FloatOps.
From stdpp Require Import gmap strings list fin_maps sorting.

#[local] Open Scope Z_scope.

(** ** Machine arithmetic *)

Definition size_t_wrap (z : Z) : Z := z mod 2 ^ 64.

(** An [int] of 32 bits, in two's complement.  Where an [int] product does
    not fit, C++ leaves the result undefined; the model takes the wrapped
    value, which is the product itself wherever the product fits. *)
Definition int32_wrap (z : Z) : Z := (z + 2 ^ 31) mod 2 ^ 32 - 2 ^ 31.

(** [std::to_string] on an integer. *)
Definition to_string (z : Z) : string := NilZero.string_of_int (Z.to_int z).

(** ** Version vectors ([version_vector.h]) *)

Module version_vector.

(** [using VersionVector = std::unordered_map<std::string, int64_t>] *)
Abbreviation VersionVector := (gmap string Z).

Inductive ComparisonResult : Set := EQUAL | LESS | GREATER | CONCURRENT.

#[global] Instance ComparisonResult_eq_dec : EqDecision ComparisonResult.
Proof. solve_decision. Defined.

(** [v.count(node_id) ? v.at(node_id) : 0] *)
Definition at_or_zero (v : VersionVector) (node_id : string) : Z :=
  match v !! node_id with
  | Some ver => ver
  | None => 0
  end.

(** The comparison loop of [Compare] over the collected node ids, with
    its early [return CONCURRENT], followed by the final three-way test. *)
Fixpoint Compare_loop (v1 v2 : VersionVector) (all_nodes : list string)
    (v1_dominates v2_dominates : bool) : ComparisonResult :=
  match all_nodes with
  | [] =>
      if v1_dominates && negb v2_dominates then GREATER
      else if v2_dominates && negb v1_dominates then LESS
      else EQUAL
  | node_id :: rest =>
      let ver1 := at_or_zero v1 node_id in
      let ver2 := at_or_zero v2 node_id in
      let v1_dominates' := if ver1 >? ver2 then true else v1_dominates in
      let v2_dominates' :=
        if ver1 >? ver2 then v2_dominates
        else if ver2 >? ver1 then true else v2_dominates in
      if v1_dominates' && v2_dominates' then CONCURRENT
      else Compare_loop v1 v2 rest v1_dominates' v2_dominates'
  end.

(** The first two loops of [Compare]: the keys of [v1] in the order
    [order1], then the keys of [v2] absent from [v1] in the order
    [order2]. *)
Definition collect_nodes (v1 : VersionVector) (order1 order2 : list string)
    : list string :=
  order1 ++ filter (λ node_id, v1 !! node_id = None) order2.

(** [Compare] for given enumeration orders of the two maps. *)
Definition Compare_in (order1 order2 : list string) (v1 v2 : VersionVector)
    : ComparisonResult :=
  Compare_loop v1 v2 (collect_nodes v1 order1 order2) false false.

Definition keys_of (v : VersionVector) : list string := (map_to_list v).*1.

Definition Compare (v1 v2 : VersionVector) : ComparisonResult :=
  Compare_in (keys_of v1) (keys_of v2) v1 v2.

(** One iteration of the loop of [Merge]. *)
Definition Merge_step (result : VersionVector) (p : string * Z) : VersionVector :=
  match result !! p.1 with
  | None => <[p.1 := p.2]> result
  | Some cur => <[p.1 := Z.max cur p.2]> result
  end.

Definition Merge_in (order2 : list (string * Z)) (v1 : VersionVector)
    : VersionVector :=
  foldl Merge_step v1 order2.

Definition Merge (v1 v2 : VersionVector) : VersionVector :=
  Merge_in (map_to_list v2) v1.

Definition Increment (vv : VersionVector) (node_id : string) : Z * VersionVector :=
  match vv !! node_id with
  | None => (1, <[node_id := 1]> vv)
  | Some ver => (ver + 1, <[node_id := ver + 1]> vv)
  end.

Definition GetVersion (vv : VersionVector) (node_id : string) : Z :=
  match vv !! node_id with
  | Some ver => ver
  | None => 0
  end.

Definition Dominates (v1 v2 : VersionVector) : bool :=
  bool_decide (Compare v1 v2 = GREATER).

Definition AreConcurrent (v1 v2 : VersionVector) : bool :=
  bool_decide (Compare v1 v2 = CONCURRENT).

(** *** Specification-level relations

    [v1] exceeds [v2] somewhere; [v1] dominates [v2] (the documentation of
    [Dominates]: "v1 >= v2 for all nodes and v1 > v2 for at least one");
    the two vectors agree on every node.  Absent entries count as 0. *)
Definition exceeds (v1 v2 : VersionVector) : Prop :=
  ∃ n, GetVersion v2 n < GetVersion v1 n.

Definition dominates (v1 v2 : VersionVector) : Prop :=
  (∀ n, GetVersion v2 n ≤ GetVersion v1 n) ∧ exceeds v1 v2.

Definition same_versions (v1 v2 : VersionVector) : Prop :=
  ∀ n, GetVersion v1 n = GetVersion v2 n.

Definition non_negative (v : VersionVector) : Prop :=
  map_Forall (λ _ ver, 0 ≤ ver) v.

(** The vectors of the program: every stored version is a count of
    increments, at least 1.  [Increment] starts a node at 1, and
    [Increment] and [Merge] keep such vectors such. *)
Definition counted (v : VersionVector) : Prop :=
  map_Forall (λ _ ver, 1 ≤ ver) v.

(** "For every node n, Merge(a,b)[n] = max(a[n], b[n]), absent entries
    counting as 0", read through [GetVersion]. *)
Definition merge_is_pointwise_max (a b : VersionVector) : Prop :=
  ∀ n, GetVersion (Merge a b) n = Z.max (GetVersion a n) (GetVersion b n).

(** The boolean the loop computes for "some listed node has a larger
    version in [v1] than in [v2]". *)
Definition exceeds_on (nodes : list string) (v1 v2 : VersionVector) : bool :=
  existsb (λ n, at_or_zero v1 n >? at_or_zero v2 n) nodes.

(** An enumeration [order] lists the keys of [v]. *)
Definition enumerates (order : list string) (v : VersionVector) : Prop :=
  ∀ n, n ∈ order ↔ is_Some (v !! n).

Definition classify (d1 d2 : bool) : ComparisonResult :=
  if d1 && d2 then CONCURRENT
  else if d1 then GREATER
  else if d2 then LESS
  else EQUAL.

End version_vector.

(** ** Cache entries ([cache_entry.h]) *)

(** What the program takes from the platform: the size of the [CacheEntry]
    struct and the standard library's string hash. *)
Class Platform := {
  sizeof_CacheEntry : Z;
  std_hash : string → Z
}.

Module CacheEntry.

Record t := mk {
  key : string;
  value : list Byte.byte;
  ttl_seconds : option Z;
  expires_at_ms : option Z;
  version : Z;
  created_at_ms : Z;
  modified_at_ms : Z;
  last_accessed_ms : Z;
  version_vector : gmap string Z
}.

(** [CacheEntry(std::string k, std::vector<uint8_t> v, std::optional<int32_t> ttl)];
    [now] is the reading of [get_current_time_ms()].  The product
    [ttl_seconds.value() * 1000] is an [int]. *)
Definition make (now : Z) (k : string) (v : list Byte.byte) (ttl : option Z) : t :=
  {| key := k;
     value := v;
     ttl_seconds := ttl;
     expires_at_ms :=
       match ttl with
       | Some seconds => Some (now + int32_wrap (seconds * 1000))
       | None => None
       end;
     version := 1;
     created_at_ms := now;
     modified_at_ms := now;
     last_accessed_ms := now;
     version_vector := ∅ |}.

(** [is_expired()], with the clock reading [now]. *)
Definition is_expired (now : Z) (e : t) : bool :=
  match expires_at_ms e with
  | None => false
  | Some expires => now >? expires
  end.

(** [touch()] *)
Definition touch (now : Z) (e : t) : t :=
  {| key := key e; value := value e; ttl_seconds := ttl_seconds e;
     expires_at_ms := expires_at_ms e; version := version e;
     created_at_ms := created_at_ms e; modified_at_ms := modified_at_ms e;
     last_accessed_ms := now; version_vector := version_vector e |}.

(** [total_size()]: [sizeof(CacheEntry) + key.size() + value.size()]. *)
Definition total_size `{Platform} (e : t) : Z :=
  size_t_wrap (sizeof_CacheEntry + Z.of_nat (String.length (key e))
               + Z.of_nat (length (value e))).

End CacheEntry.

(** ** Conflict resolution ([version_vector.h]) *)

Module ConflictResolver.
Import version_vector.

Inductive ConflictResolutionStrategy : Set :=
| LAST_WRITE_WINS | VECTOR_DOMINANCE | CUSTOM.

(** [ConflictResolver::ResolveConflict]: the index of the winning entry,
    0 for [entry1], 1 for [entry2]. *)
Definition ResolveConflict (entry1 entry2 : CacheEntry.t)
    (strategy : ConflictResolutionStrategy) : Z :=
  match strategy with
  | LAST_WRITE_WINS =>
      if CacheEntry.modified_at_ms entry1 >? CacheEntry.modified_at_ms entry2 then 0
      else if CacheEntry.modified_at_ms entry2 >? CacheEntry.modified_at_ms entry1 then 1
      else if CacheEntry.version entry1 >=? CacheEntry.version entry2 then 0 else 1
  | VECTOR_DOMINANCE =>
      match Compare (CacheEntry.version_vector entry1)
                    (CacheEntry.version_vector entry2) with
      | GREATER => 0
      | LESS => 1
      | _ =>
          if CacheEntry.modified_at_ms entry1 >=? CacheEntry.modified_at_ms entry2
          then 0 else 1
      end
  | CUSTOM => 0
  end.

(** [MergeVersionVectors] *)
Definition MergeVersionVectors (v1 v2 : VersionVector) : VersionVector :=
  Merge v1 v2.

End ConflictResolver.

(** ** Metrics ([metrics.h]) *)

Module Metrics.

Record t := mk {
  cache_hits : Z;
  cache_misses : Z;
  sets_total : Z;
  deletes_total : Z;
  evictions_total : Z;
  entries_count : Z;
  memory_bytes : Z
}.

Definition zero : t := mk 0 0 0 0 0 0 0.

Definition hit (m : t) : t :=
  mk (size_t_wrap (cache_hits m + 1)) (cache_misses m) (sets_total m)
     (deletes_total m) (evictions_total m) (entries_count m) (memory_bytes m).

Definition miss (m : t) : t :=
  mk (cache_hits m) (size_t_wrap (cache_misses m + 1)) (sets_total m)
     (deletes_total m) (evictions_total m) (entries_count m) (memory_bytes m).

(** [sets_total.fetch_add(1); entries_count.store(n); memory_bytes.store(b)] *)
Definition on_insert (n b : Z) (m : t) : t :=
  mk (cache_hits m) (cache_misses m) (size_t_wrap (sets_total m + 1))
     (deletes_total m) (evictions_total m) n b.

(** [sets_total.fetch_add(1); memory_bytes.store(b)] *)
Definition on_cas (b : Z) (m : t) : t :=
  mk (cache_hits m) (cache_misses m) (size_t_wrap (sets_total m + 1))
     (deletes_total m) (evictions_total m) (entries_count m) b.

Definition on_delete (n b : Z) (m : t) : t :=
  mk (cache_hits m) (cache_misses m) (sets_total m)
     (size_t_wrap (deletes_total m + 1)) (evictions_total m) n b.

Definition on_evict (n b : Z) (m : t) : t :=
  mk (cache_hits m) (cache_misses m) (sets_total m)
     (deletes_total m) (size_t_wrap (evictions_total m + 1)) n b.

End Metrics.

(** ** The sharded storage engine ([storage_engine.h], [storage_engine.cpp])

    A shard's [CacheData] pairs an entry with an iterator into the shard's
    LRU list; the iterator designates the list node holding the entry's
    key, so the model keeps the entry alone and finds the node by key.
    Every operation first selects [shards_[hash(key) % shards_.size()]];
    with an empty shard vector that modulo is undefined, and the model
    returns [None]. *)

Module ShardedHashTable.

Record Shard := mkShard {
  data : gmap string CacheEntry.t;
  lru_list : list string;
  memory_bytes : Z
}.

Definition empty_shard : Shard := mkShard ∅ [] 0.

Record t := mk {
  shards_ : list Shard;
  max_memory_bytes_ : Z;
  total_memory_bytes_ : Z;
  total_entries_ : Z;
  metrics_ : Metrics.t
}.

(** [ShardedHashTable(size_t num_shards, size_t max_memory_bytes)] *)
Definition make (num_shards : nat) (max_memory_bytes : Z) : t :=
  {| shards_ := replicate num_shards empty_shard;
     max_memory_bytes_ := max_memory_bytes;
     total_memory_bytes_ := 0;
     total_entries_ := 0;
     metrics_ := Metrics.zero |}.

Definition set_shard (i : nat) (shard : Shard) (s : t) : t :=
  {| shards_ := <[i := shard]> (shards_ s);
     max_memory_bytes_ := max_memory_bytes_ s;
     total_memory_bytes_ := total_memory_bytes_ s;
     total_entries_ := total_entries_ s;
     metrics_ := metrics_ s |}.

Definition set_metrics (m : Metrics.t) (s : t) : t :=
  {| shards_ := shards_ s;
     max_memory_bytes_ := max_memory_bytes_ s;
     total_memory_bytes_ := total_memory_bytes_ s;
     total_entries_ := total_entries_ s;
     metrics_ := m |}.

(** The two atomic counters after [total_memory_bytes_] and
    [total_entries_] took the values [mem] and [n]. *)
Definition set_totals (mem n : Z) (s : t) : t :=
  {| shards_ := shards_ s;
     max_memory_bytes_ := max_memory_bytes_ s;
     total_memory_bytes_ := mem;
     total_entries_ := n;
     metrics_ := metrics_ s |}.

Definition get_shard_index `{Platform} (key : string) (s : t) : nat :=
  Z.to_nat (std_hash key mod Z.of_nat (length (shards_ s))).

(** [lru_list.splice(lru_list.begin(), lru_list, it)]: the node of [key]
    moves to the front. *)
Definition move_to_front (key : string) (l : list string) : list string :=
  key :: filter (λ k, k ≠ key) l.

(** [lru_list.erase(it)] *)
Definition lru_erase (key : string) (l : list string) : list string :=
  filter (λ k, k ≠ key) l.

Definition needs_eviction (s : t) (new_entry_size : Z) : bool :=
  size_t_wrap (total_memory_bytes_ s + new_entry_size) >? max_memory_bytes_ s.

(** The loop of [evict_if_needed].  [lru_back_first] is the shard's LRU list
    read from the back; each iteration pops the back node, so the recursion
    is structural.  The shard argument always has
    [lru_list = rev lru_back_first]. *)
Fixpoint evict_loop `{Platform} (lru_back_first : list string)
    (required_space : Z) (shard : Shard) (s : t) : Shard * t :=
  match lru_back_first with
  | [] => (shard, s)
  | lru_key :: rest =>
      if needs_eviction s required_space then
        match data shard !! lru_key with
        | Some e =>
            let entry_size := CacheEntry.total_size e in
            let shard' :=
              {| data := delete lru_key (data shard);
                 lru_list := rev rest;
                 memory_bytes := size_t_wrap (memory_bytes shard - entry_size) |} in
            let mem := size_t_wrap (total_memory_bytes_ s - entry_size) in
            let n := size_t_wrap (total_entries_ s - 1) in
            let s' := set_metrics (Metrics.on_evict n mem (metrics_ s))
                                  (set_totals mem n s) in
            evict_loop rest required_space shard' s'
        | None =>
            let shard' :=
              {| data := data shard; lru_list := rev rest;
                 memory_bytes := memory_bytes shard |} in
            evict_loop rest required_space shard' s
        end
      else (shard, s)
  end.

Definition evict_if_needed `{Platform} (shard : Shard) (required_space : Z)
    (s : t) : Shard * t :=
  evict_loop (rev (lru_list shard)) required_space shard s.

(** [get]: [now1] and [now2] are the clock readings of the expiry checks
    under the read lock and under the write lock, [now3] the one of
    [touch()]. *)
Definition get `{Platform} (now1 now2 now3 : Z) (key : string) (s : t)
    : option (option CacheEntry.t * t) :=
  let i := get_shard_index key s in
  shard ← shards_ s !! i;
  let missed := set_metrics (Metrics.miss (metrics_ s)) s in
  match data shard !! key with
  | None => Some (None, missed)
  | Some e =>
      if CacheEntry.is_expired now1 e then Some (None, missed)
      else if CacheEntry.is_expired now2 e then Some (None, missed)
      else
        let e' := CacheEntry.touch now3 e in
        let shard' :=
          {| data := <[key := e']> (data shard);
             lru_list := move_to_front key (lru_list shard);
             memory_bytes := memory_bytes shard |} in
        Some (Some e', set_metrics (Metrics.hit (metrics_ s)) (set_shard i shard' s))
  end.

Definition set `{Platform} (key : string) (entry : CacheEntry.t) (s : t)
    : option (bool * t) :=
  let i := get_shard_index key s in
  shard ← shards_ s !! i;
  let entry_size := CacheEntry.total_size entry in
  match data shard !! key with
  | Some old =>
      let old_size := CacheEntry.total_size old in
      let shard' :=
        {| data := <[key := entry]> (data shard);
           lru_list := move_to_front key (lru_list shard);
           memory_bytes :=
             size_t_wrap (size_t_wrap (memory_bytes shard - old_size) + entry_size) |} in
      let mem :=
        size_t_wrap (size_t_wrap (total_memory_bytes_ s - old_size) + entry_size) in
      Some (true, set_totals mem (total_entries_ s) (set_shard i shard' s))
  | None =>
      let '(shard1, s1) :=
        if needs_eviction s entry_size
        then evict_if_needed shard entry_size s
        else (shard, s) in
      let shard' :=
        {| data := <[key := entry]> (data shard1);
           lru_list := key :: lru_list shard1;
           memory_bytes := size_t_wrap (memory_bytes shard1 + entry_size) |} in
      let mem := size_t_wrap (total_memory_bytes_ s1 + entry_size) in
      let n := size_t_wrap (total_entries_ s1 + 1) in
      Some (true,
            set_metrics (Metrics.on_insert n mem (metrics_ s1))
                        (set_totals mem n (set_shard i shard' s1)))
  end.

Definition del `{Platform} (key : string) (s : t) : option (bool * t) :=
  let i := get_shard_index key s in
  shard ← shards_ s !! i;
  match data shard !! key with
  | None => Some (false, s)
  | Some e =>
      let entry_size := CacheEntry.total_size e in
      let shard' :=
        {| data := delete key (data shard);
           lru_list := lru_erase key (lru_list shard);
           memory_bytes := size_t_wrap (memory_bytes shard - entry_size) |} in
      let mem := size_t_wrap (total_memory_bytes_ s - entry_size) in
      let n := size_t_wrap (total_entries_ s - 1) in
      Some (true,
            set_metrics (Metrics.on_delete n mem (metrics_ s))
                        (set_totals mem n (set_shard i shard' s)))
  end.

Record CASResult := mkCASResult {
  success : bool;
  new_version : Z;
  actual_version : Z;
  error : string
}.

(** [compare_and_swap]: [now1] is the clock reading of the expiry check,
    [now2] the one that stamps the new entry. *)
Definition compare_and_swap `{Platform} (now1 now2 : Z) (key : string)
    (expected_version : Z) (new_entry : CacheEntry.t) (s : t)
    : option (CASResult * t) :=
  let i := get_shard_index key s in
  shard ← shards_ s !! i;
  match data shard !! key with
  | None => Some (mkCASResult false 0 0 "Key not found", s)
  | Some cur =>
      if CacheEntry.is_expired now1 cur then
        Some (mkCASResult false 0 0 "Key expired", s)
      else
        let actual := CacheEntry.version cur in
        if negb (actual =? expected_version) then
          Some (mkCASResult false 0 actual "Version mismatch", s)
        else
          let old_size := CacheEntry.total_size cur in
          let stamped :=
            {| CacheEntry.key := CacheEntry.key new_entry;
               CacheEntry.value := CacheEntry.value new_entry;
               CacheEntry.ttl_seconds := CacheEntry.ttl_seconds new_entry;
               CacheEntry.expires_at_ms := CacheEntry.expires_at_ms new_entry;
               CacheEntry.version := actual + 1;
               CacheEntry.created_at_ms := CacheEntry.created_at_ms new_entry;
               CacheEntry.modified_at_ms := now2;
               CacheEntry.last_accessed_ms := now2;
               CacheEntry.version_vector := CacheEntry.version_vector new_entry |} in
          let new_size := CacheEntry.total_size stamped in
          let shard' :=
            {| data := <[key := stamped]> (data shard);
               lru_list := move_to_front key (lru_list shard);
               memory_bytes :=
                 size_t_wrap (size_t_wrap (memory_bytes shard - old_size) + new_size) |} in
          let mem :=
            size_t_wrap (size_t_wrap (total_memory_bytes_ s - old_size) + new_size) in
          Some (mkCASResult true (actual + 1) 0 "",
                set_metrics (Metrics.on_cas mem (metrics_ s))
                            (set_totals mem (total_entries_ s) (set_shard i shard' s)))
  end.

(** [exists] (a keyword of the term language, hence the underscore). *)
Definition exists_ `{Platform} (now : Z) (key : string) (s : t) : option bool :=
  let i := get_shard_index key s in
  shard ← shards_ s !! i;
  match data shard !! key with
  | None => Some false
  | Some e => Some (negb (CacheEntry.is_expired now e))
  end.

Definition size (s : t) : Z := total_entries_ s.

Definition memory_usage (s : t) : Z := total_memory_bytes_ s.

Definition max_memory (s : t) : Z := max_memory_bytes_ s.

Definition clear (s : t) : t :=
  {| shards_ := (λ _, empty_shard) <$> shards_ s;
     max_memory_bytes_ := max_memory_bytes_ s;
     total_memory_bytes_ := 0;
     total_entries_ := 0;
     metrics_ := metrics_ s |}.

(** [for_each]: the non-expired entries, shard by shard.  [now_at k] is the
    clock reading of the expiry check made when the entry of [k] is
    visited. *)
Definition for_each (now_at : string → Z) (s : t) : list (string * CacheEntry.t) :=
  shard ← shards_ s;
  filter (λ p, CacheEntry.is_expired (now_at p.1) p.2 = false)
         (map_to_list (data shard)).

(** *** What is physically stored *)

Definition entries_bytes `{Platform} (d : gmap string CacheEntry.t) : Z :=
  map_fold (λ _ e acc, CacheEntry.total_size e + acc) 0 d.

Definition shard_bytes `{Platform} (shard : Shard) : Z :=
  entries_bytes (data shard).

Definition shard_entries (shard : Shard) : Z :=
  Z.of_nat (base.size (data shard)).

Definition Zsum_with {A} (f : A → Z) (l : list A) : Z :=
  foldr (λ x acc, f x + acc) 0 l.

(** Number of entries in the shard maps, and the sum of their sizes. *)
Definition stored_entries (s : t) : Z :=
  Zsum_with shard_entries (shards_ s).

Definition stored_bytes `{Platform} (s : t) : Z :=
  Zsum_with shard_bytes (shards_ s).

(** The entry stored under [key], expired or not. *)
Definition stored `{Platform} (key : string) (s : t) : option CacheEntry.t :=
  shard ← shards_ s !! get_shard_index key s;
  data shard !! key.

(** The LRU list of a shard holds each key of the shard's map once. *)
Definition lru_ok (shard : Shard) : Prop :=
  NoDup (lru_list shard) ∧ ∀ k, k ∈ lru_list shard ↔ is_Some (data shard !! k).

(** The accounting invariant: the two atomic counters, and each shard's
    own byte count, agree with what the shard maps hold. *)
Record accounted `{Platform} (s : t) : Prop := {
  accounted_entries : total_entries_ s = size_t_wrap (stored_entries s);
  accounted_bytes : total_memory_bytes_ s = size_t_wrap (stored_bytes s);
  accounted_shards :
    Forall (λ shard, memory_bytes shard = size_t_wrap (shard_bytes shard)
                     ∧ lru_ok shard) (shards_ s)
}.

(** The engine's operations, as data, for stating properties of arbitrary
    sequences of calls. *)
Inductive op :=
| OpGet (now1 now2 now3 : Z) (key : string)
| OpSet (key : string) (entry : CacheEntry.t)
| OpDel (key : string)
| OpCAS (now1 now2 : Z) (key : string) (expected_version : Z) (new_entry : CacheEntry.t)
| OpExists (now : Z) (key : string)
| OpClear.

Definition step `{Platform} (o : op) (s : t) : option t :=
  match o with
  | OpGet now1 now2 now3 key => snd <$> get now1 now2 now3 key s
  | OpSet key entry => snd <$> set key entry s
  | OpDel key => snd <$> del key s
  | OpCAS now1 now2 key expected new_entry =>
      snd <$> compare_and_swap now1 now2 key expected new_entry s
  | OpExists now key => (λ _, s) <$> exists_ now key s
  | OpClear => Some (clear s)
  end.

Fixpoint run `{Platform} (ops : list op) (s : t) : option t :=
  match ops with
  | [] => Some s
  | o :: rest => s' ← step o s; run rest s'
  end.

(** Every key sits in the shard its hash selects. *)
Definition placed `{Platform} (s : t) : Prop :=
  ∀ i shard k,
    shards_ s !! i = Some shard → is_Some (data shard !! k) →
    get_shard_index k s = i.

(** The number of [get] calls in a sequence of operations. *)
Definition count_gets (ops : list op) : Z :=
  Zsum_with (λ o, match o with OpGet _ _ _ _ => 1 | _ => 0 end) ops.

(** The states of an engine with at least one shard: those a sequence of
    operations reaches from a freshly constructed engine. *)
Definition reachable `{Platform} (s : t) : Prop :=
  ∃ num_shards max_memory_bytes ops,
    (0 < num_shards)%nat ∧ run ops (make num_shards max_memory_bytes) = Some s.

(** [s'] differs from [s] in the shard of [key] only, where every other
    key keeps its entry or, if [may_evict], loses it. *)
Definition reshaped `{Platform} (may_evict : bool) (key : string) (s s' : t) : Prop :=
  ∃ shard shard',
    shards_ s !! get_shard_index key s = Some shard ∧
    shards_ s' = <[get_shard_index key s := shard']> (shards_ s) ∧
    ∀ k, k ≠ key →
      data shard' !! k = data shard !! k ∨
      (may_evict = true ∧ data shard !! key = None ∧ data shard' !! k = None).

End ShardedHashTable.

(** ** The cache service handlers ([main.cpp]) *)

Module CacheServiceImpl.

Inductive StatusCode : Set :=
| OK | INVALID_ARGUMENT | UNAUTHENTICATED | PERMISSION_DENIED | RESOURCE_EXHAUSTED.

(** What the collaborators outside the handlers answer for one request:
    [CHECK_RATE_LIMIT] passes when no limiter is configured or the limiter
    allows the client; [REQUIRE_AUTH] runs only when [g_require_auth] is
    set; [VALIDATE_OR_RETURN] passes when no validator is configured or the
    input is valid. *)
Record Checks := mkChecks {
  rate_limit_allows : bool;
  require_auth : bool;
  authenticated : bool;
  authorized : bool;
  validation_passes : bool
}.

(** The status a handler returns before touching the engine, if any. *)
Definition rejected (c : Checks) : option StatusCode :=
  if negb (rate_limit_allows c) then Some RESOURCE_EXHAUSTED
  else if require_auth c && negb (authenticated c) then Some UNAUTHENTICATED
  else if require_auth c && negb (authorized c) then Some PERMISSION_DENIED
  else if negb (validation_passes c) then Some INVALID_ARGUMENT
  else None.

(** A server started without rate limiter, authentication or validator. *)
Definition no_checks : Checks := mkChecks true false false false true.

Record SetRequest := mkSetRequest {
  set_key : string;
  set_value : string;
  set_ttl_seconds : option Z
}.

Record SetResponse := mkSetResponse {
  set_success : bool;
  set_version : Z
}.

Record GetResponse := mkGetResponse {
  get_found : bool;
  get_value : list Byte.byte;
  get_version : Z
}.

(** [CacheServiceImpl() : storage_(256, 1024 * 1024 * 1024)] *)
Definition make : ShardedHashTable.t :=
  ShardedHashTable.make 256 (1024 * 1024 * 1024).

(** The [Get] handler; [now1], [now2], [now3] are the clock readings the
    engine's [get] makes. *)
Definition Get `{Platform} (c : Checks) (now1 now2 now3 : Z) (key : string)
    (storage_ : ShardedHashTable.t)
    : option (StatusCode * GetResponse * ShardedHashTable.t) :=
  match rejected c with
  | Some status => Some (status, mkGetResponse false [] 0, storage_)
  | None =>
      '(entry, storage') ← ShardedHashTable.get now1 now2 now3 key storage_;
      match entry with
      | Some e =>
          Some (OK, mkGetResponse true (CacheEntry.value e) (CacheEntry.version e),
                storage')
      | None => Some (OK, mkGetResponse false [] 0, storage')
      end
  end.

(** The [Set] handler ([Set] is a sort of the term language, hence the
    underscore); [now] is the clock reading of the [CacheEntry]
    constructor.  The response's version is the constant 1. *)
Definition Set_ `{Platform} (c : Checks) (now : Z) (request : SetRequest)
    (storage_ : ShardedHashTable.t)
    : option (StatusCode * SetResponse * ShardedHashTable.t) :=
  match rejected c with
  | Some status => Some (status, mkSetResponse false 0, storage_)
  | None =>
      let value := String.list_byte_of_string (set_value request) in
      let entry :=
        CacheEntry.make now (set_key request) value (set_ttl_seconds request) in
      '(success, storage') ← ShardedHashTable.set (set_key request) entry storage_;
      Some (OK, mkSetResponse success 1, storage')
  end.

End CacheServiceImpl.

(** ** Replication ([replication_manager.h], [replication_manager.cpp]) *)

Module replication.

Inductive Operation : Set := SET | DELETE.

#[global] Instance Operation_eq_dec : EqDecision Operation.
Proof. solve_decision. Defined.

(** *** The primary's queue ([ReplicationManager]) *)

Record Config := mkConfig {
  node_id : string;
  replication_factor : Z;
  batch_size : Z;
  batch_interval_ms : Z;
  rpc_timeout_ms : Z;
  max_queue_size : Z;
  enable_compression : bool
}.

Definition default_config (node : string) : Config :=
  mkConfig node 2 100 50 2000 10000 false.

Record QueuedEntry := mkQueuedEntry {
  q_op : Operation;
  q_key : string;
  q_value : string;
  q_ttl_seconds : Z;
  q_version : Z;
  queued_at : Z
}.

(** [queue_] is a [std::queue]: [push] appends at the back, [front] and
    [pop] work at the head of the list. *)
Record ReplicationManager := mkReplicationManager {
  config_ : Config;
  queue_ : list QueuedEntry;
  queued_ops_ : Z
}.

Definition make (config : Config) : ReplicationManager :=
  mkReplicationManager config [] 0.

Definition push (entry : QueuedEntry) (m : ReplicationManager) : ReplicationManager :=
  {| config_ := config_ m;
     queue_ := queue_ m ++ [entry];
     queued_ops_ := size_t_wrap (queued_ops_ m + 1) |}.

(** [QueueWrite]; [now] is the reading of the steady clock. *)
Definition QueueWrite (now : Z) (key value : string) (ttl_seconds version : Z)
    (m : ReplicationManager) : bool * ReplicationManager :=
  if Z.of_nat (length (queue_ m)) >=? max_queue_size (config_ m) then (false, m)
  else (true, push (mkQueuedEntry SET key value ttl_seconds version now) m).

(** [QueueDelete]: the entry's value is the empty string. *)
Definition QueueDelete (now : Z) (key : string) (version : Z)
    (m : ReplicationManager) : bool * ReplicationManager :=
  if Z.of_nat (length (queue_ m)) >=? max_queue_size (config_ m) then (false, m)
  else (true, push (mkQueuedEntry DELETE key "" 0 version now) m).

(** C5 as stated: on a full queue the oldest entry leaves and the new one
    enters. *)
Definition drops_oldest_and_takes_new (result : bool * ReplicationManager)
    (m : ReplicationManager) (new_entry : QueuedEntry) : Prop :=
  ∃ oldest rest,
    queue_ m = oldest :: rest ∧ result.1 = true ∧
    queue_ result.2 = rest ++ [new_entry].

(** *** The follower's apply ([ReplicationServiceImpl]) *)

Record ReplicationEntry := mkReplicationEntry {
  op : Operation;
  key : string;
  value : string;
  ttl_seconds : Z;
  version : Z
}.

Record ReplicationBatch := mkReplicationBatch {
  source_node_id : string;
  timestamp : Z;
  entries : list ReplicationEntry
}.

Record ReplicationAck := mkReplicationAck {
  success : bool;
  error : string;
  last_applied_timestamp : Z
}.

Record ReplicationServiceImpl := mkReplicationServiceImpl {
  storage_ : ShardedHashTable.t;
  batches_received_ : Z;
  entries_applied_ : Z;
  entries_failed_ : Z;
  last_applied_timestamp_ : Z
}.

(** The [CacheEntry] that [Replicate] builds for a SET: a default-constructed
    entry whose value, TTL (when positive), version, creation and last-access
    times are then assigned.  The key stays empty and no expiry is computed;
    [modified_at_ms] is never written, [uninit] stands for whatever it
    holds. *)
Definition replicated_entry (now uninit : Z) (entry : ReplicationEntry)
    : CacheEntry.t :=
  {| CacheEntry.key := "";
     CacheEntry.value := String.list_byte_of_string (value entry);
     CacheEntry.ttl_seconds :=
       if ttl_seconds entry >? 0 then Some (ttl_seconds entry) else None;
     CacheEntry.expires_at_ms := None;
     CacheEntry.version := version entry;
     CacheEntry.created_at_ms := now;
     CacheEntry.modified_at_ms := uninit;
     CacheEntry.last_accessed_ms := now;
     CacheEntry.version_vector := ∅ |}.

(** One iteration of the loop of [Replicate] on the triple
    (storage, applied, failed). *)
Definition apply_entry `{Platform} (now uninit : Z) (entry : ReplicationEntry)
    (acc : ShardedHashTable.t * Z * Z) : option (ShardedHashTable.t * Z * Z) :=
  let '(storage, applied, failed) := acc in
  match op entry with
  | SET =>
      '(ok, storage') ← ShardedHashTable.set (key entry)
                          (replicated_entry now uninit entry) storage;
      if ok : bool then Some (storage', size_t_wrap (applied + 1), failed)
      else Some (storage', applied, size_t_wrap (failed + 1))
  | DELETE =>
      '(_, storage') ← ShardedHashTable.del (key entry) storage;
      Some (storage', size_t_wrap (applied + 1), failed)
  end.

(** The loop, entry [i] of the batch reading the clock as [now_at i]. *)
Fixpoint apply_entries `{Platform} (now_at : nat → Z) (uninit : Z) (i : nat)
    (entries : list ReplicationEntry) (acc : ShardedHashTable.t * Z * Z)
    : option (ShardedHashTable.t * Z * Z) :=
  match entries with
  | [] => Some acc
  | entry :: rest =>
      acc' ← apply_entry (now_at i) uninit entry acc;
      apply_entries now_at uninit (S i) rest acc'
  end.

Definition Replicate `{Platform} (now_at : nat → Z) (uninit : Z)
    (request : ReplicationBatch) (svc : ReplicationServiceImpl)
    : option (ReplicationAck * ReplicationServiceImpl) :=
  '(storage', applied, failed) ←
    apply_entries now_at uninit 0 (entries request) (storage_ svc, 0, 0);
  let ack :=
    {| success := bool_decide (failed = 0);
       error :=
         if bool_decide (0 < failed)
         then "Failed to apply " +:+ to_string failed +:+ " entries"
         else "";
       last_applied_timestamp := timestamp request |} in
  Some (ack,
        {| storage_ := storage';
           batches_received_ := size_t_wrap (batches_received_ svc + 1);
           entries_applied_ := size_t_wrap (entries_applied_ svc + applied);
           entries_failed_ := size_t_wrap (entries_failed_ svc + failed);
           last_applied_timestamp_ := timestamp request |}).

(** The version stored under [k] on a follower. *)
Definition stored_version `{Platform} (k : string) (svc : ReplicationServiceImpl)
    : option Z :=
  CacheEntry.version <$> ShardedHashTable.stored k (storage_ svc).

(** C4 as stated, for one replicated SET: an entry older than the stored one
    is rejected (the stored version stays and the acknowledgement is not a
    success), and the stored version does not decrease. *)
Definition version_regression_guard `{Platform} (now uninit : Z)
    (entry : ReplicationEntry) (svc : ReplicationServiceImpl) : Prop :=
  ∀ cur ack svc',
    stored_version (key entry) svc = Some cur →
    version entry < cur →
    Replicate (λ _, now) uninit (mkReplicationBatch "primary" now [entry]) svc
      = Some (ack, svc') →
    stored_version (key entry) svc' = Some cur.

End replication.

(** ** The write-ahead log ([wal.h], [wal.cpp])

    The log directory is part of the state: a map from log ids (the stems
    of the [.wal] files) to files, each holding the records that reached
    it. *)

Module WAL.

Inductive EntryType : Set := SET | DELETE | CAS.

Record WALEntry := mkWALEntry {
  type : EntryType;
  sequence_number : Z;
  timestamp_ms : Z;
  key : string;
  value : list Byte.byte;
  version : Z;
  ttl_seconds : option Z;
  expected_version : option Z
}.

(** The serializer of the generated [wal.pb.h], taken as a parameter: the
    length of the serialized header (log id, create time, node id) or
    record, or [None] when [SerializeToString] fails. *)
Class Wire := {
  header_wire_size : string → Z → string → option Z;
  entry_wire_size : WALEntry → option Z
}.

Record Config := mkConfig {
  node_id : string;
  max_file_size_bytes : Z;
  max_log_files : Z;
  sync_on_write : bool;
  sync_batch_size : Z;
  enable_compression : bool
}.

(** A file of the log directory: whether its header was written, and the
    records written after it. *)
Record LogFile := mkLogFile {
  file_size : Z;
  header_written : bool;
  records : list WALEntry
}.

(** [log_file_], a [std::ofstream]: the id of the file it was opened on,
    whether it is open, and whether a write on it failed (after which the
    stream ignores writes). *)
Record Stream := mkStream {
  stream_id : string;
  stream_open : bool;
  stream_failed : bool
}.

Record t := mk {
  config_ : Config;
  current_log_id_ : string;
  log_file_ : option Stream;
  current_file_size_ : Z;
  last_sequence_ : Z;
  is_open_ : bool;
  total_entries_written_ : Z;
  total_syncs_ : Z;
  total_rotations_ : Z;
  directory : gmap string LogFile
}.

(** What the environment answers during one call: the clock, whether a file
    can be opened for appending, whether the bytes handed to the stream
    reach the file. *)
Record Env := mkEnv {
  now : Z;
  can_open : bool;
  write_succeeds : bool
}.

(** A call either returns or blocks for ever on [mutex_], a non-recursive
    [std::mutex] the calling thread already holds. *)
Inductive outcome (A : Type) : Type :=
| Returns (a : A)
| Deadlock.
Arguments Returns {A} a.
Arguments Deadlock {A}.

(** [WAL(const Config&)] on a log directory holding [dir]. *)
Definition make (config : Config) (dir : gmap string LogFile) : t :=
  {| config_ := config; current_log_id_ := ""; log_file_ := None;
     current_file_size_ := 0; last_sequence_ := 0; is_open_ := false;
     total_entries_written_ := 0; total_syncs_ := 0; total_rotations_ := 0;
     directory := dir |}.

Definition GenerateLogId (env : Env) (w : t) : string :=
  "wal-" +:+ node_id (config_ w) +:+ "-" +:+ to_string (now env).

Definition ShouldRotate (w : t) : bool :=
  current_file_size_ w >=? max_file_size_bytes (config_ w).

(** [std::ofstream(path, binary | app)]: on success the file exists
    afterwards, created empty when it was absent. *)
Definition open_append (env : Env) (id : string) (dir : gmap string LogFile)
    : Stream * gmap string LogFile :=
  if can_open env then
    (mkStream id true false,
     match dir !! id with
     | Some _ => dir
     | None => <[id := mkLogFile 0 false []]> dir
     end)
  else (mkStream id false false, dir).

(** The bytes of a header or of a record handed to the stream: they reach
    the file when the stream is sound, the write succeeds and the file is
    still in the directory. *)
Definition stream_write (env : Env) (f : LogFile → LogFile) (st : Stream)
    (dir : gmap string LogFile) : Stream * gmap string LogFile :=
  if stream_failed st then (st, dir)
  else if write_succeeds env then (st, alter f (stream_id st) dir)
  else (mkStream (stream_id st) (stream_open st) true, dir).

Definition with_header (n : Z) (f : LogFile) : LogFile :=
  mkLogFile (file_size f + 4 + n) true (records f).

Definition with_record (n : Z) (e : WALEntry) (f : LogFile) : LogFile :=
  mkLogFile (file_size f + 4 + n) (header_written f) (records f ++ [e]).

Definition string_le (a b : string) : Prop := Is_true (String.leb a b).

#[global] Instance string_le_dec : RelDecision string_le.
Proof. intros a b. unfold string_le. apply _. Defined.

(** [ListWALFiles], then [std::sort]: the log ids in lexicographic order. *)
Definition sorted_ids (dir : gmap string LogFile) : list string :=
  merge_sort string_le (map_to_list dir).*1.

(** [Open] *)
Definition Open `{Wire} (env : Env) (w : t) : t :=
  if is_open_ w then w
  else
    let id := GenerateLogId env w in
    let '(st, dir) := open_append env id (directory w) in
    let opened :=
      {| config_ := config_ w; current_log_id_ := id; log_file_ := Some st;
         current_file_size_ := current_file_size_ w;
         last_sequence_ := last_sequence_ w; is_open_ := false;
         total_entries_written_ := total_entries_written_ w;
         total_syncs_ := total_syncs_ w; total_rotations_ := total_rotations_ w;
         directory := dir |} in
    if negb (stream_open st) then opened
    else
      let on_disk := default 0 (file_size <$> dir !! id) in
      if on_disk =? 0 then
        match header_wire_size id (now env) (node_id (config_ w)) with
        | None => opened
        | Some n =>
            let '(st', dir') := stream_write env (with_header n) st dir in
            {| config_ := config_ w; current_log_id_ := id; log_file_ := Some st';
               current_file_size_ := size_t_wrap (4 + n);
               last_sequence_ := last_sequence_ w; is_open_ := true;
               total_entries_written_ := total_entries_written_ w;
               total_syncs_ := total_syncs_ w;
               total_rotations_ := total_rotations_ w;
               directory := dir' |}
        end
      else
        {| config_ := config_ w; current_log_id_ := id; log_file_ := Some st;
           current_file_size_ := on_disk;
           last_sequence_ := last_sequence_ w; is_open_ := true;
           total_entries_written_ := total_entries_written_ w;
           total_syncs_ := total_syncs_ w; total_rotations_ := total_rotations_ w;
           directory := dir |}.

(** [Close]; [pending_entries_] is never filled, so there is nothing to
    flush but the stream. *)
Definition Close (w : t) : t :=
  if negb (is_open_ w) then w
  else
    {| config_ := config_ w; current_log_id_ := current_log_id_ w;
       log_file_ :=
         (λ st, mkStream (stream_id st) false (stream_failed st)) <$> log_file_ w;
       current_file_size_ := current_file_size_ w;
       last_sequence_ := last_sequence_ w; is_open_ := false;
       total_entries_written_ := total_entries_written_ w;
       total_syncs_ := total_syncs_ w; total_rotations_ := total_rotations_ w;
       directory := directory w |}.

(** [WriteEntryToFile] *)
Definition WriteEntryToFile `{Wire} (env : Env) (entry : WALEntry) (w : t)
    : bool * t :=
  match log_file_ w with
  | None => (false, w)
  | Some st =>
      if negb (stream_open st) then (false, w)
      else
        match entry_wire_size entry with
        | None => (false, w)
        | Some n =>
            let '(st', dir') := stream_write env (with_record n entry) st (directory w) in
            (true,
             {| config_ := config_ w; current_log_id_ := current_log_id_ w;
                log_file_ := Some st';
                current_file_size_ := size_t_wrap (current_file_size_ w + (4 + n));
                last_sequence_ := last_sequence_ w; is_open_ := is_open_ w;
                total_entries_written_ := total_entries_written_ w;
                total_syncs_ := total_syncs_ w;
                total_rotations_ := total_rotations_ w;
                directory := dir' |})
        end
  end.

(** [Sync] takes [mutex_]; [mutex_held] tells whether the caller holds it
    already. *)
Definition Sync (mutex_held : bool) (w : t) : outcome (bool * t) :=
  if mutex_held then Deadlock
  else
    match log_file_ w with
    | Some st =>
        if stream_open st then
          Returns (true,
            {| config_ := config_ w; current_log_id_ := current_log_id_ w;
               log_file_ := log_file_ w;
               current_file_size_ := current_file_size_ w;
               last_sequence_ := last_sequence_ w; is_open_ := is_open_ w;
               total_entries_written_ := total_entries_written_ w;
               total_syncs_ := size_t_wrap (total_syncs_ w + 1);
               total_rotations_ := total_rotations_ w;
               directory := directory w |})
        else Returns (false, w)
    | None => Returns (false, w)
    end.

(** The files [RotateLog] removes: the first [size - max_log_files] ids in
    sorted order, when there are more than [max_log_files]. *)
Definition cleanup (max_log_files : Z) (dir : gmap string LogFile)
    : gmap string LogFile :=
  let ids := sorted_ids dir in
  if Z.of_nat (length ids) >? max_log_files then
    foldl (λ d id, delete id d) dir
          (take (Z.to_nat (Z.of_nat (length ids) - max_log_files)) ids)
  else dir.

(** [RotateLog] *)
Definition RotateLog `{Wire} (env : Env) (w : t) : bool * t :=
  let id := GenerateLogId env w in
  let '(st, dir) := open_append env id (directory w) in
  if negb (stream_open st) then
    (false,
     {| config_ := config_ w; current_log_id_ := id; log_file_ := Some st;
        current_file_size_ := current_file_size_ w;
        last_sequence_ := last_sequence_ w; is_open_ := false;
        total_entries_written_ := total_entries_written_ w;
        total_syncs_ := total_syncs_ w; total_rotations_ := total_rotations_ w;
        directory := dir |})
  else
    match header_wire_size id (now env) (node_id (config_ w)) with
    | None =>
        (false,
         {| config_ := config_ w; current_log_id_ := id; log_file_ := Some st;
            current_file_size_ := current_file_size_ w;
            last_sequence_ := last_sequence_ w; is_open_ := is_open_ w;
            total_entries_written_ := total_entries_written_ w;
            total_syncs_ := total_syncs_ w;
            total_rotations_ := total_rotations_ w;
            directory := dir |})
    | Some n =>
        let '(st', dir') := stream_write env (with_header n) st dir in
        (true,
         {| config_ := config_ w; current_log_id_ := id; log_file_ := Some st';
            current_file_size_ := size_t_wrap (4 + n);
            last_sequence_ := last_sequence_ w; is_open_ := is_open_ w;
            total_entries_written_ := total_entries_written_ w;
            total_syncs_ := total_syncs_ w;
            total_rotations_ := size_t_wrap (total_rotations_ w + 1);
            directory := cleanup (max_log_files (config_ w)) dir' |})
    end.

Definition with_sequence (seq : Z) (e : WALEntry) : WALEntry :=
  mkWALEntry (type e) seq (timestamp_ms e) (key e) (value e) (version e)
             (ttl_seconds e) (expected_version e).

Definition advance_sequence (w : t) : t :=
  {| config_ := config_ w; current_log_id_ := current_log_id_ w;
     log_file_ := log_file_ w; current_file_size_ := current_file_size_ w;
     last_sequence_ := last_sequence_ w + 1; is_open_ := is_open_ w;
     total_entries_written_ := total_entries_written_ w;
     total_syncs_ := total_syncs_ w; total_rotations_ := total_rotations_ w;
     directory := directory w |}.

Definition count_written (w : t) : t :=
  {| config_ := config_ w; current_log_id_ := current_log_id_ w;
     log_file_ := log_file_ w; current_file_size_ := current_file_size_ w;
     last_sequence_ := last_sequence_ w; is_open_ := is_open_ w;
     total_entries_written_ := size_t_wrap (total_entries_written_ w + 1);
     total_syncs_ := total_syncs_ w; total_rotations_ := total_rotations_ w;
     directory := directory w |}.

(** [AppendEntry].  The sequence number is taken, and the counter moved,
    before rotation and before the write.  With [sync_on_write] the
    function ends in [Sync()] while it still holds [mutex_]. *)
Definition AppendEntry `{Wire} (env : Env) (entry : WALEntry) (w : t)
    : outcome (bool * t) :=
  if negb (is_open_ w) then Returns (false, w)
  else
    let numbered_entry := with_sequence (last_sequence_ w + 1) entry in
    let w1 := advance_sequence w in
    let '(rotated, w2) :=
      if ShouldRotate w1 then RotateLog env w1 else (true, w1) in
    if negb rotated then Returns (false, w2)
    else
      let '(written, w3) := WriteEntryToFile env numbered_entry w2 in
      if negb written then Returns (false, w3)
      else
        let w4 := count_written w3 in
        if sync_on_write (config_ w4) then Sync true w4
        else Returns (true, w4).

(** [AppendSet], [AppendDelete], [AppendCAS] *)
Definition AppendSet `{Wire} (env : Env) (key : string) (entry : CacheEntry.t)
    (w : t) : outcome (bool * t) :=
  AppendEntry env
    (mkWALEntry SET 0 (CacheEntry.created_at_ms entry) key (CacheEntry.value entry)
                (CacheEntry.version entry) (CacheEntry.ttl_seconds entry) None) w.

(** The [version] field of the record that [AppendDelete] builds is never
    assigned; [uninit] stands for whatever it holds. *)
Definition AppendDelete `{Wire} (env : Env) (uninit : Z) (key : string) (w : t)
    : outcome (bool * t) :=
  AppendEntry env (mkWALEntry DELETE 0 (now env) key [] uninit None None) w.

Definition AppendCAS `{Wire} (env : Env) (key : string) (entry : CacheEntry.t)
    (expected : Z) (w : t) : outcome (bool * t) :=
  AppendEntry env
    (mkWALEntry CAS 0 (CacheEntry.created_at_ms entry) key (CacheEntry.value entry)
                (CacheEntry.version entry) (CacheEntry.ttl_seconds entry)
                (Some expected)) w.

(** All records held by the files of a log directory. *)
Definition dir_records (dir : gmap string LogFile) : list WALEntry :=
  p ← map_to_list dir; records p.2.

Definition written_records (w : t) : list WALEntry :=
  dir_records (directory w).

(** Every record of [dir'] is a record of [dir] or one of [extra]. *)
Definition records_within (extra : list WALEntry)
    (dir dir' : gmap string LogFile) : Prop :=
  ∀ e, e ∈ dir_records dir' → e ∈ dir_records dir ∨ e ∈ extra.

(** No record of the directory carries a sequence number beyond the
    counter. *)
Definition sequence_bounded (w : t) : Prop :=
  ∀ e, e ∈ written_records w → sequence_number e ≤ last_sequence_ w.

(** C7 as stated: an append that returns failure has not advanced the
    sequence counter. *)
Definition failure_keeps_sequence `{Wire} (env : Env) (entry : WALEntry) (w : t)
    : Prop :=
  ∀ w', AppendEntry env entry w = Returns (false, w') →
        last_sequence_ w' = last_sequence_ w.

(** *** Runs of calls *)

(** The public calls that write: [Open], [Close], an append
    ([AppendSet], [AppendDelete] and [AppendCAS] all end in [AppendEntry]),
    [Sync] and [RotateLog], each with what the environment answers. *)
Inductive call :=
| CallOpen (env : Env)
| CallClose
| CallAppend (env : Env) (entry : WALEntry)
| CallSync
| CallRotateLog (env : Env).

Definition perform `{Wire} (c : call) (w : t) : outcome t :=
  match c with
  | CallOpen env => Returns (Open env w)
  | CallClose => Returns (Close w)
  | CallAppend env entry =>
      match AppendEntry env entry w with
      | Returns (_, w') => Returns w'
      | Deadlock => Deadlock
      end
  | CallSync =>
      match Sync false w with
      | Returns (_, w') => Returns w'
      | Deadlock => Deadlock
      end
  | CallRotateLog env => Returns (RotateLog env w).2
  end.

Fixpoint perform_all `{Wire} (calls : list call) (w : t) : outcome t :=
  match calls with
  | [] => Returns w
  | c :: rest =>
      match perform c w with
      | Returns w' => perform_all rest w'
      | Deadlock => Deadlock
      end
  end.

(** Records in the order of strictly increasing sequence numbers. *)
Definition sequence_lt (a b : WALEntry) : Prop :=
  sequence_number a < sequence_number b.

(** The records of a directory are numbered within [1 .. bound], each file
    holds them in increasing order, and no two files share a number. *)
Definition well_numbered (bound : Z) (dir : gmap string LogFile) : Prop :=
  0 ≤ bound ∧
  (∀ id f, dir !! id = Some f →
     StronglySorted sequence_lt (records f) ∧
     Forall (λ e, 1 ≤ sequence_number e ≤ bound) (records f)) ∧
  (∀ id1 id2 f1 f2 e1 e2,
     dir !! id1 = Some f1 → dir !! id2 = Some f2 →
     e1 ∈ records f1 → e2 ∈ records f2 →
     sequence_number e1 = sequence_number e2 → id1 = id2).

End WAL.

(** ** Snapshots ([snapshot_manager.h], [snapshot_manager.cpp])

    The snapshot directory is part of the state, a map from file paths to
    files.  A file is its first line, its snapshot id and its tuples; a
    missing path is a file that cannot be opened. *)

Module SnapshotManager.

Record SnapshotMetadata := mkSnapshotMetadata {
  snapshot_id : string;
  timestamp : Z;
  num_keys : Z;
  total_bytes : Z;
  node_id : string;
  checksum : string;
  file_path : string
}.

(** One binary tuple of a snapshot file:
    [(key, value, ttl, version, created_at_ms, expires_at_ms)]. *)
Record Tuple := mkTuple {
  t_key : string;
  t_value : list Byte.byte;
  t_ttl : Z;
  t_version : Z;
  t_created_at_ms : Z;
  t_expires_at_ms : Z
}.

Record SnapshotFile := mkSnapshotFile {
  first_line : string;
  file_snapshot_id : string;
  tuples : list Tuple
}.

Record t := mk {
  snapshots_ : list SnapshotMetadata;
  storage_ : ShardedHashTable.t;
  total_restores_ : Z;
  total_restores_failed_ : Z;
  files : gmap string SnapshotFile
}.

(** The entry [ReadSnapshotFromFile] rebuilds from a tuple: a TTL and an
    expiry are kept when positive; [modified_at_ms] and [last_accessed_ms]
    are never assigned, [uninit] stands for what they hold. *)
Definition entry_of_tuple (uninit : Z) (tu : Tuple) : string * CacheEntry.t :=
  (t_key tu,
   {| CacheEntry.key := t_key tu;
      CacheEntry.value := t_value tu;
      CacheEntry.ttl_seconds := if t_ttl tu >? 0 then Some (t_ttl tu) else None;
      CacheEntry.expires_at_ms :=
        if t_expires_at_ms tu >? 0 then Some (t_expires_at_ms tu) else None;
      CacheEntry.version := t_version tu;
      CacheEntry.created_at_ms := t_created_at_ms tu;
      CacheEntry.modified_at_ms := uninit;
      CacheEntry.last_accessed_ms := uninit;
      CacheEntry.version_vector := ∅ |}).

(** The tuple [WriteSnapshotToFile] writes for an entry. *)
Definition tuple_of_entry (key : string) (e : CacheEntry.t) : Tuple :=
  mkTuple key (CacheEntry.value e) (default 0 (CacheEntry.ttl_seconds e))
          (CacheEntry.version e) (CacheEntry.created_at_ms e)
          (default 0 (CacheEntry.expires_at_ms e)).

(** [ReadSnapshotFromFile]: [None] when it returns [false]. *)
Definition ReadSnapshotFromFile (uninit : Z) (path : string)
    (fs : gmap string SnapshotFile) : option (list (string * CacheEntry.t)) :=
  match fs !! path with
  | None => None
  | Some file =>
      if bool_decide (first_line file = "DISTCACHE_SNAPSHOT_V1")
      then Some (entry_of_tuple uninit <$> tuples file)
      else None
  end.

Definition hex_digit (d : Z) : string :=
  String.substring (Z.to_nat d) 1 "0123456789abcdef".

(** [std::hex << std::setfill('0') << std::setw(16)] on a [size_t]. *)
Definition hex16 (c : Z) : string :=
  foldr (λ i acc, hex_digit ((c / 16 ^ Z.of_nat i) mod 16) +:+ acc) ""
        (reverse (seq 0 16)).

(** [CalculateChecksum] *)
Definition CalculateChecksum `{Platform} (entries : list (string * CacheEntry.t))
    : string :=
  hex16
    (foldl
       (λ checksum p,
          Z.lxor checksum
            (size_t_wrap
               (std_hash p.1
                + std_hash (String.string_of_list_byte (CacheEntry.value p.2))
                + 2654435769
                + size_t_wrap (Z.shiftl checksum 6)
                + Z.shiftr checksum 2)))
       0 entries).

(** [GetSnapshotMetadata]: [std::find_if] over [snapshots_]. *)
Definition GetSnapshotMetadata (id : string) (sm : t) : option SnapshotMetadata :=
  list_find (λ meta, snapshot_id meta = id) (snapshots_ sm) ≫= λ p, Some p.2.

Definition ListSnapshots (sm : t) : list SnapshotMetadata := snapshots_ sm.

Definition restore_failed (sm : t) : t :=
  {| snapshots_ := snapshots_ sm; storage_ := storage_ sm;
     total_restores_ := total_restores_ sm;
     total_restores_failed_ := size_t_wrap (total_restores_failed_ sm + 1);
     files := files sm |}.

(** The loop of [RestoreFromSnapshot]: [storage_->set(key, entry)] for each
    entry read. *)
Fixpoint set_all `{Platform} (entries : list (string * CacheEntry.t))
    (storage : ShardedHashTable.t) : option ShardedHashTable.t :=
  match entries with
  | [] => Some storage
  | (key, entry) :: rest =>
      '(_, storage') ← ShardedHashTable.set key entry storage;
      set_all rest storage'
  end.

(** [RestoreFromSnapshot].  The metadata's checksum is not consulted. *)
Definition RestoreFromSnapshot `{Platform} (uninit : Z) (id : string) (sm : t)
    : option (bool * t) :=
  match GetSnapshotMetadata id sm with
  | None => Some (false, restore_failed sm)
  | Some metadata =>
      match ReadSnapshotFromFile uninit (file_path metadata) (files sm) with
      | None => Some (false, restore_failed sm)
      | Some entries =>
          storage' ← set_all entries (storage_ sm);
          Some (true,
                {| snapshots_ := snapshots_ sm; storage_ := storage';
                   total_restores_ := size_t_wrap (total_restores_ sm + 1);
                   total_restores_failed_ := total_restores_failed_ sm;
                   files := files sm |})
      end
  end.

(** The same manager with the checksum [c] recorded in every metadata
    entry. *)
Definition with_checksum (c : string) (meta : SnapshotMetadata) : SnapshotMetadata :=
  mkSnapshotMetadata (snapshot_id meta) (timestamp meta) (num_keys meta)
                     (total_bytes meta) (node_id meta) c (file_path meta).

Definition relabel (c : string) (sm : t) : t :=
  {| snapshots_ := with_checksum c <$> snapshots_ sm; storage_ := storage_ sm;
     total_restores_ := total_restores_ sm;
     total_restores_failed_ := total_restores_failed_ sm;
     files := files sm |}.

(** "The checksum validates": the file can be read and the checksum of what
    it holds is the one recorded in the metadata. *)
Definition validates `{Platform} (uninit : Z) (fs : gmap string SnapshotFile)
    (meta : SnapshotMetadata) : bool :=
  match ReadSnapshotFromFile uninit (file_path meta) fs with
  | Some entries => bool_decide (CalculateChecksum entries = checksum meta)
  | None => false
  end.

(** The comparator of the [std::sort] in [PruneOldSnapshots], oldest
    first.  [std::sort] may leave snapshots of one timestamp in any order:
    it is an argument, and [sorts_by_timestamp] is what is known of it. *)
Definition by_timestamp (a b : SnapshotMetadata) : Prop := timestamp a ≤ timestamp b.

#[global] Instance by_timestamp_dec : RelDecision by_timestamp.
Proof. intros a b. unfold by_timestamp. apply _. Defined.

Definition sorts_by_timestamp
    (std_sort : list SnapshotMetadata → list SnapshotMetadata) : Prop :=
  ∀ l, std_sort l ≡ₚ l ∧ Sorted by_timestamp (std_sort l).

(** [std::filesystem::remove] for each of the snapshots. *)
Definition remove_files (removed : list SnapshotMetadata)
    (fs : gmap string SnapshotFile) : gmap string SnapshotFile :=
  foldl (λ fs meta, delete (file_path meta) fs) fs removed.

(** [PruneOldSnapshots] with [max_snapshots_retained]. *)
Definition PruneOldSnapshots
    (std_sort : list SnapshotMetadata → list SnapshotMetadata)
    (max_snapshots_retained : Z) (sm : t) : t :=
  if Z.of_nat (length (snapshots_ sm)) <=? max_snapshots_retained then sm
  else
    let sorted := std_sort (snapshots_ sm) in
    let to_delete := Z.to_nat (Z.of_nat (length sorted) - max_snapshots_retained) in
    {| snapshots_ := drop to_delete sorted;
       storage_ := storage_ sm;
       total_restores_ := total_restores_ sm;
       total_restores_failed_ := total_restores_failed_ sm;
       files := remove_files (take to_delete sorted) (files sm) |}.

End SnapshotManager.

(** ** Recovery ([recovery_manager.h], [recovery_manager.cpp]) *)

Module RecoveryManager.

Record RecoveryResult := mkRecoveryResult {
  success : bool;
  error_message : string;
  snapshot_restored : bool;
  snapshot_id : string;
  snapshot_keys_count : Z;
  wal_replayed : bool;
  wal_files_count : Z;
  wal_entries_replayed : Z;
  last_sequence_number : Z;
  recovery_duration_ms : Z
}.

Definition initial_result : RecoveryResult :=
  mkRecoveryResult false "" false "" 0 false 0 0 0 0.

(** The comparator of the [std::sort] in [RestoreSnapshot]:
    [a.timestamp > b.timestamp], latest first. *)
Definition later (a b : SnapshotManager.SnapshotMetadata) : Prop :=
  SnapshotManager.timestamp b ≤ SnapshotManager.timestamp a.

#[global] Instance later_dec : RelDecision later.
Proof. intros a b. unfold later. apply _. Defined.

(** The sorted list.  [std::sort] leaves the order of snapshots with equal
    timestamps unspecified; the merge sort fixes one such order. *)
Definition latest_first (snapshots : list SnapshotManager.SnapshotMetadata)
    : list SnapshotManager.SnapshotMetadata :=
  merge_sort later snapshots.

(** [RestoreSnapshot]: only [snapshots[0]] of the sorted list is tried. *)
Definition RestoreSnapshot `{Platform} (uninit : Z) (result : RecoveryResult)
    (sm : SnapshotManager.t)
    : option (bool * RecoveryResult * SnapshotManager.t) :=
  match latest_first (SnapshotManager.ListSnapshots sm) with
  | [] => Some (false, result, sm)
  | latest :: _ =>
      '(restored, sm') ←
        SnapshotManager.RestoreFromSnapshot uninit
          (SnapshotManager.snapshot_id latest) sm;
      if restored : bool then
        Some (true,
              {| success := success result;
                 error_message := error_message result;
                 snapshot_restored := true;
                 snapshot_id := SnapshotManager.snapshot_id latest;
                 snapshot_keys_count := SnapshotManager.num_keys latest;
                 wal_replayed := wal_replayed result;
                 wal_files_count := wal_files_count result;
                 wal_entries_replayed := wal_entries_replayed result;
                 last_sequence_number := last_sequence_number result;
                 recovery_duration_ms := recovery_duration_ms result |},
              sm')
      else Some (false, result, sm')
  end.

(** What C3 asks for: the newest snapshot whose checksum validates. *)
Definition newest_valid `{Platform} (uninit : Z) (sm : SnapshotManager.t)
    : option SnapshotManager.SnapshotMetadata :=
  (list_find (λ meta, SnapshotManager.validates uninit (SnapshotManager.files sm) meta = true)
             (latest_first (SnapshotManager.ListSnapshots sm))) ≫= λ p, Some p.2.

(** *** Replaying the log ([ReplayWAL], [ApplyWALEntry]) *)

(** The [CacheEntry] that [ApplyWALEntry] builds for a SET or a CAS record:
    a default-constructed entry whose key, value, version, TTL and creation
    time are assigned, and whose expiry is the record's timestamp plus the
    TTL in milliseconds, the product [ttl_seconds.value() * 1000] being an
    [int].  [modified_at_ms] and [last_accessed_ms] are never assigned,
    [uninit] stands for what they hold. *)
Definition recovered_entry (uninit : Z) (entry : WAL.WALEntry) : CacheEntry.t :=
  {| CacheEntry.key := WAL.key entry;
     CacheEntry.value := WAL.value entry;
     CacheEntry.ttl_seconds := WAL.ttl_seconds entry;
     CacheEntry.expires_at_ms :=
       match WAL.ttl_seconds entry with
       | Some seconds =>
           Some (WAL.timestamp_ms entry + int32_wrap (seconds * 1000))
       | None => None
       end;
     CacheEntry.version := WAL.version entry;
     CacheEntry.created_at_ms := WAL.timestamp_ms entry;
     CacheEntry.modified_at_ms := uninit;
     CacheEntry.last_accessed_ms := uninit;
     CacheEntry.version_vector := ∅ |}.

(** [ApplyWALEntry]: the results of [set] and [del] are dropped. *)
Definition ApplyWALEntry `{Platform} (uninit : Z) (entry : WAL.WALEntry)
    (storage : ShardedHashTable.t) : option (bool * ShardedHashTable.t) :=
  match WAL.type entry with
  | WAL.SET | WAL.CAS =>
      '(_, storage') ← ShardedHashTable.set (WAL.key entry)
                         (recovered_entry uninit entry) storage;
      Some (true, storage')
  | WAL.DELETE =>
      '(_, storage') ← ShardedHashTable.del (WAL.key entry) storage;
      Some (true, storage')
  end.

(** The comparator of the [std::sort] over the collected records,
    [a.sequence_number < b.sequence_number], as the order it sorts into.
    [std::sort] leaves the order of records with equal sequence numbers
    unspecified: [ReplayWAL] below takes the sort as a parameter, and
    [sorts_by_sequence] is what is known of it. *)
Definition by_sequence (a b : WAL.WALEntry) : Prop :=
  WAL.sequence_number a ≤ WAL.sequence_number b.

#[global] Instance by_sequence_dec : RelDecision by_sequence.
Proof. intros a b. unfold by_sequence. apply _. Defined.

Definition sorts_by_sequence (std_sort : list WAL.WALEntry → list WAL.WALEntry)
    : Prop :=
  ∀ l, std_sort l ≡ₚ l ∧ Sorted by_sequence (std_sort l).

(** The records [ReplayWAL] collects: the files are read in the order of
    their sorted names, a file that cannot be read is skipped, and a record
    is kept when its sequence number is above [snapshot_sequence].
    [ReadWALFile id] is what reading the file returns, [None] for
    [false]. *)
Definition collect_entries (ReadWALFile : string → option (list WAL.WALEntry))
    (wal_files : list string) (snapshot_sequence : Z) : list WAL.WALEntry :=
  wal_file_id ← merge_sort WAL.string_le wal_files;
  match ReadWALFile wal_file_id with
  | None => []
  | Some entries =>
      filter (λ entry, snapshot_sequence < WAL.sequence_number entry) entries
  end.

(** The replay loop on (replayed, last_sequence, storage). *)
Fixpoint replay `{Platform} (uninit : Z) (all_entries : list WAL.WALEntry)
    (acc : Z * Z * ShardedHashTable.t) : option (Z * Z * ShardedHashTable.t) :=
  match all_entries with
  | [] => Some acc
  | entry :: rest =>
      let '(replayed, last_sequence, storage) := acc in
      '(applied, storage') ← ApplyWALEntry uninit entry storage;
      replay uninit rest
        (if applied : bool
         then (size_t_wrap (replayed + 1), WAL.sequence_number entry, storage')
         else (replayed, last_sequence, storage'))
  end.

Definition not_replayed (result : RecoveryResult) : RecoveryResult :=
  {| success := success result; error_message := error_message result;
     snapshot_restored := snapshot_restored result;
     snapshot_id := snapshot_id result;
     snapshot_keys_count := snapshot_keys_count result;
     wal_replayed := false;
     wal_files_count := wal_files_count result;
     wal_entries_replayed := wal_entries_replayed result;
     last_sequence_number := last_sequence_number result;
     recovery_duration_ms := recovery_duration_ms result |}.

(** [ReplayWAL]; [wal_files] is what [ListWALFiles] returned. *)
Definition ReplayWAL `{Platform}
    (std_sort : list WAL.WALEntry → list WAL.WALEntry)
    (ReadWALFile : string → option (list WAL.WALEntry)) (uninit : Z)
    (wal_files : list string) (result : RecoveryResult) (snapshot_sequence : Z)
    (storage : ShardedHashTable.t)
    : option (bool * RecoveryResult * ShardedHashTable.t) :=
  if bool_decide (wal_files = []) then Some (true, not_replayed result, storage)
  else
    let all_entries := collect_entries ReadWALFile wal_files snapshot_sequence in
    if bool_decide (all_entries = []) then Some (true, not_replayed result, storage)
    else
      '(replayed, last_sequence, storage') ←
        replay uninit (std_sort all_entries) (0, 0, storage);
      Some (true,
            {| success := success result; error_message := error_message result;
               snapshot_restored := snapshot_restored result;
               snapshot_id := snapshot_id result;
               snapshot_keys_count := snapshot_keys_count result;
               wal_replayed := true;
               wal_files_count := Z.of_nat (length wal_files);
               wal_entries_replayed := replayed;
               last_sequence_number := last_sequence;
               recovery_duration_ms := recovery_duration_ms result |},
            storage').

(** What the engine holds under the key of a record once the record is
    applied. *)
Definition applied_value (uninit : Z) (entry : WAL.WALEntry) : option CacheEntry.t :=
  match WAL.type entry with
  | WAL.DELETE => None
  | _ => Some (recovered_entry uninit entry)
  end.

End RecoveryManager.

(** ** The placement ring ([hash_ring.h], [hash_ring.cpp]) *)

Module HashRing.

Definition rotl64 (x : Z) (r : Z) : Z :=
  size_t_wrap (Z.lor (Z.shiftl x r) (Z.shiftr x (64 - r))).

(** The value of a block of bytes read as one little-endian integer. *)
Definition little_endian (block : list Byte.byte) : Z :=
  foldr (λ b acc, Z.of_N (Byte.to_N b) + 256 * acc) 0 block.

Definition c1 : Z := 0x87c37b91114253d5.
Definition c2 : Z := 0x4cf5ad432745937f.

Definition mix_k1 (k1 : Z) : Z :=
  size_t_wrap (rotl64 (size_t_wrap (k1 * c1)) 31 * c2).

(** The body loop of [murmur_hash3_64] over [nblocks] blocks of 8 bytes;
    returns [h1], [h2] and the bytes left for the tail. *)
Fixpoint murmur_body (nblocks : nat) (data : list Byte.byte) (h1 h2 : Z)
    : Z * Z * list Byte.byte :=
  match nblocks with
  | O => (h1, h2, data)
  | S n =>
      let k1 := mix_k1 (little_endian (take 8 data)) in
      let h1 := Z.lxor h1 k1 in
      let h1 := rotl64 h1 27 in
      let h1 := size_t_wrap (h1 + h2) in
      let h1 := size_t_wrap (h1 * 5 + 0x52dce729) in
      let h2 := rotl64 h2 31 in
      murmur_body n (drop 8 data) h1 h2
  end.

Definition fmix64 (k : Z) : Z :=
  let k := Z.lxor k (Z.shiftr k 33) in
  let k := size_t_wrap (k * 0xff51afd7ed558ccd) in
  let k := Z.lxor k (Z.shiftr k 33) in
  let k := size_t_wrap (k * 0xc4ceb9fe1a85ec53) in
  Z.lxor k (Z.shiftr k 33).

(** [murmur_hash3_64(key, len, seed = 0)], blocks read little-endian. *)
Definition murmur_hash3_64 (data : list Byte.byte) : Z :=
  let len := Z.of_nat (length data) in
  let '(h1, h2, tail) := murmur_body (length data / 8) data 0 0 in
  let h1 :=
    match tail with
    | [] => h1
    | _ => Z.lxor h1 (mix_k1 (little_endian tail))
    end in
  let h1 := Z.lxor h1 len in
  let h2 := Z.lxor h2 len in
  let h1 := size_t_wrap (h1 + h2) in
  let h2 := size_t_wrap (h2 + h1) in
  let h1 := fmix64 h1 in
  let h2 := fmix64 h2 in
  size_t_wrap (h1 + h2).

Definition hash (str : string) : Z :=
  murmur_hash3_64 (String.list_byte_of_string str).

Record Node := mkNode {
  id : string;
  address : string
}.

(** [ring_] is a [std::map<uint64_t, std::string>], [nodes_] a
    [std::map<std::string, Node>]. *)
Record t := mk {
  virtual_nodes_per_node_ : nat;
  ring_ : gmap Z string;
  nodes_ : gmap string Node
}.

(** [HashRing(replication_factor, virtual_nodes_per_node)] *)
Definition make (virtual_nodes_per_node : nat) : t := mk virtual_nodes_per_node ∅ ∅.

Definition vnode_key (node_id : string) (i : nat) : string :=
  node_id +:+ ":" +:+ to_string (Z.of_nat i).

Definition add_node (node : Node) (r : t) : bool * t :=
  match nodes_ r !! id node with
  | Some _ => (false, r)
  | None =>
      (true,
       {| virtual_nodes_per_node_ := virtual_nodes_per_node_ r;
          ring_ := foldl (λ ring i, <[hash (vnode_key (id node) i) := id node]> ring)
                         (ring_ r) (seq 0 (virtual_nodes_per_node_ r));
          nodes_ := <[id node := node]> (nodes_ r) |})
  end.

Definition remove_node (node_id : string) (r : t) : bool * t :=
  match nodes_ r !! node_id with
  | None => (false, r)
  | Some _ =>
      (true,
       {| virtual_nodes_per_node_ := virtual_nodes_per_node_ r;
          ring_ := foldl (λ ring i, delete (hash (vnode_key node_id i)) ring)
                         (ring_ r) (seq 0 (virtual_nodes_per_node_ r));
          nodes_ := delete node_id (nodes_ r) |})
  end.

(** The entry with the least position among [l]. *)
Definition least (l : list (Z * string)) : option (Z * string) :=
  foldr (λ p acc,
           match acc with
           | None => Some p
           | Some q => if p.1 <? q.1 then Some p else Some q
           end) None l.

(** [find_next_node]: [ring_.lower_bound(hash_value)], [None] for
    [ring_.end()]. *)
Definition find_next_node (hash_value : Z) (r : t) : option (Z * string) :=
  least (filter (λ p, hash_value ≤ p.1) (map_to_list (ring_ r))).

(** [ring_.begin()] *)
Definition ring_begin (r : t) : option (Z * string) :=
  least (map_to_list (ring_ r)).

Definition get_node (key : string) (r : t) : option Node :=
  if bool_decide (ring_ r = ∅) then None
  else
    let iter :=
      match find_next_node (hash key) r with
      | Some p => Some p
      | None => ring_begin r
      end in
    '(_, node_id) ← iter;
    nodes_ r !! node_id.

(** The virtual node that owns the hash value [h] on the ring [m]: the
    one [get_node] dereferences. *)
Definition owner_entry (h : Z) (m : gmap Z string) : option (Z * string) :=
  match least (filter (λ p, h ≤ p.1) (map_to_list m)) with
  | Some p => Some p
  | None => least (map_to_list m)
  end.

(** [p] is where the search from [h] ends on a ring with positions
    [m]. *)
Definition first_from (h p : Z) (m : gmap Z string) : Prop :=
  (h ≤ p ∧ ∀ q, is_Some (m !! q) → h ≤ q → p ≤ q) ∨
  ((∀ q, is_Some (m !! q) → q < h) ∧ ∀ q, is_Some (m !! q) → p ≤ q).

(** [get_all_nodes], [node_count], [virtual_node_count] *)
Definition get_all_nodes (r : t) : list Node := (map_to_list (nodes_ r)).*2.

Definition node_count (r : t) : Z := Z.of_nat (size (nodes_ r)).

Definition virtual_node_count (r : t) : Z := Z.of_nat (size (ring_ r)).

(** The order in which the iterators of [ring_], a [std::map], run. *)
Definition position_le (a b : Z * string) : Prop := a.1 ≤ b.1.

#[global] Instance position_le_dec : RelDecision position_le.
Proof. intros a b. unfold position_le. apply _. Defined.

Definition in_ring_order (r : t) : list (Z * string) :=
  merge_sort position_le (map_to_list (ring_ r)).

(** The virtual nodes an iterator meets when it starts at
    [ring_.lower_bound(hash_value)] (at [ring_.begin()] if that is the end),
    is incremented, wraps around at the end, and stops when it is back at
    its start. *)
Definition walk_from (hash_value : Z) (r : t) : list (Z * string) :=
  filter (λ p, hash_value ≤ p.1) (in_ring_order r)
  ++ filter (λ p, p.1 < hash_value) (in_ring_order r).

(** The loop of [get_replicas] over the virtual nodes still to visit. *)
Fixpoint collect_replicas (n : nat) (nodes : gmap string Node)
    (walk : list (Z * string)) (replicas : list Node) (seen_nodes : gset string)
    : list Node :=
  match walk with
  | [] => replicas
  | (_, node_id) :: rest =>
      if (length replicas <? n)%nat then
        if decide (node_id ∈ seen_nodes) then
          collect_replicas n nodes rest replicas seen_nodes
        else
          match nodes !! node_id with
          | Some node =>
              collect_replicas n nodes rest (replicas ++ [node])
                               ({[node_id]} ∪ seen_nodes)
          | None => collect_replicas n nodes rest replicas seen_nodes
          end
      else replicas
  end.

(** [get_replicas(key, n)] *)
Definition get_replicas (key : string) (n : Z) (r : t) : list Node :=
  if bool_decide (ring_ r = ∅) || (n =? 0) then []
  else
    collect_replicas (Z.to_nat (Z.min n (node_count r))) (nodes_ r)
                     (walk_from (hash key) r) [] ∅.

(** The calls that change a ring, and the ring a sequence of them builds
    from an empty one. *)
Inductive ring_op :=
| AddNode (node : Node)
| RemoveNode (node_id : string).

Definition ring_step (r : t) (o : ring_op) : t :=
  match o with
  | AddNode node => (add_node node r).2
  | RemoveNode node_id => (remove_node node_id r).2
  end.

Definition built (virtual_nodes_per_node : nat) (ops : list ring_op) : t :=
  foldl ring_step (make virtual_nodes_per_node) ops.

(** The positions of the virtual nodes of [node_id]. *)
Definition positions_of (node_id : string) (r : t) : list Z :=
  (λ i, hash (vnode_key node_id i)) <$> seq 0 (virtual_nodes_per_node_ r).

(** Every virtual node on the ring belongs to a registered node and sits
    on one of that node's positions; nodes are registered under their
    ids. *)
Definition well_formed (r : t) : Prop :=
  (∀ p x, ring_ r !! p = Some x →
          is_Some (nodes_ r !! x) ∧ p ∈ positions_of x r) ∧
  (∀ k node, nodes_ r !! k = Some node → id node = k).

(** No virtual node of another node sits on a position of [node_id]
    (no two virtual nodes of different nodes hashed to one position). *)
Definition owns_its_positions (node_id : string) (r : t) : Prop :=
  map_Forall (λ p x, p ∈ positions_of node_id r → x = node_id) (ring_ r).

#[global] Instance owns_its_positions_dec node_id r :
  Decision (owns_its_positions node_id r).
Proof. unfold owns_its_positions. apply _. Defined.

(** The ids of the nodes that have a virtual node on the ring. *)
Definition nodes_on_ring (r : t) : gset string :=
  list_to_set (map_to_list (ring_ r)).*2.

End HashRing.

(** ** The replication worker ([replication_manager.cpp]) *)

Module ReplicationWorker.
Import replication.

(** The manager with the counters the worker moves. *)
Record Worker := mkWorker {
  manager : ReplicationManager;
  replicated_ops_ : Z;
  failed_ops_ : Z;
  batches_sent_ : Z
}.

Definition start (config : Config) : Worker := mkWorker (make config) 0 0 0.

(** The loop that collects a batch: entries leave the front of the queue
    while the batch is shorter than [batch_size]. *)
Fixpoint collect_batch (batch_size : Z) (queue batch : list QueuedEntry)
    : list QueuedEntry * list QueuedEntry :=
  match queue with
  | [] => (batch, [])
  | entry :: rest =>
      if Z.of_nat (length batch) <? batch_size
      then collect_batch batch_size rest (batch ++ [entry])
      else (batch, queue)
  end.

(** The entry of the wire batch built for a queued entry: value and TTL
    are set for a SET only. *)
Definition wire_entry (entry : QueuedEntry) : ReplicationEntry :=
  match q_op entry with
  | SET => mkReplicationEntry SET (q_key entry) (q_value entry)
                              (q_ttl_seconds entry) (q_version entry)
  | DELETE => mkReplicationEntry DELETE (q_key entry) "" 0 (q_version entry)
  end.

(** [SendBatch]; [now] is the reading of the system clock and
    [delivered replica batch] tells whether the [Replicate] call to
    [replica] returned an OK status with a successful acknowledgement. *)
Definition SendBatch (config : Config) (ring : HashRing.t) (now : Z)
    (delivered : HashRing.Node → ReplicationBatch → bool)
    (entries : list QueuedEntry) : bool :=
  match entries with
  | [] => true
  | first :: _ =>
      let replicas :=
        HashRing.get_replicas (q_key first) (replication_factor config) ring in
      if bool_decide (replicas = []) then false
      else
        let replicas :=
          filter (λ n, HashRing.id n ≠ node_id config) replicas in
        if bool_decide (replicas = []) then true
        else
          let batch :=
            mkReplicationBatch (node_id config) now (wire_entry <$> entries) in
          foldl (λ all_succeeded replica,
                   if delivered replica batch then all_succeeded else false)
                true replicas
  end.

(** One turn of the loop of [ReplicationWorker] once it has the lock and is
    still running; returns the batch it sent, if any, with the result of
    [SendBatch]. *)
Definition worker_turn (ring : HashRing.t) (now : Z)
    (delivered : HashRing.Node → ReplicationBatch → bool) (w : Worker)
    : Worker * option (list QueuedEntry * bool) :=
  let m := manager w in
  let '(batch, queue) := collect_batch (batch_size (config_ m)) (queue_ m) [] in
  let m' := mkReplicationManager (config_ m) queue (queued_ops_ m) in
  if bool_decide (batch = []) then
    (mkWorker m' (replicated_ops_ w) (failed_ops_ w) (batches_sent_ w), None)
  else
    let sent := SendBatch (config_ m) ring now delivered batch in
    let n := Z.of_nat (length batch) in
    (mkWorker m'
       (if sent then size_t_wrap (replicated_ops_ w + n) else replicated_ops_ w)
       (if sent then failed_ops_ w else size_t_wrap (failed_ops_ w + n))
       (size_t_wrap (batches_sent_ w + 1)),
     Some (batch, sent)).

(** What happens to a manager: a caller queues a write or a delete, or the
    worker takes a turn. *)
Inductive event :=
| EvQueueWrite (now : Z) (key value : string) (ttl_seconds version : Z)
| EvQueueDelete (now : Z) (key : string) (version : Z)
| EvWorkerTurn (ring : HashRing.t) (now : Z)
               (delivered : HashRing.Node → ReplicationBatch → bool).

(** The record of a run: the entries the queue accepted and the batches the
    worker sent, both in order. *)
Record Trace := mkTrace {
  accepted : list QueuedEntry;
  batches : list (list QueuedEntry * bool)
}.

Definition on_manager (f : ReplicationManager → bool * ReplicationManager)
    (w : Worker) : bool * Worker :=
  let '(ok, m) := f (manager w) in
  (ok, mkWorker m (replicated_ops_ w) (failed_ops_ w) (batches_sent_ w)).

Definition happen (st : Worker * Trace) (ev : event) : Worker * Trace :=
  let '(w, tr) := st in
  match ev with
  | EvQueueWrite now key value ttl_seconds version =>
      let '(ok, w') := on_manager (QueueWrite now key value ttl_seconds version) w in
      (w', if ok : bool
           then mkTrace (accepted tr ++ [mkQueuedEntry SET key value ttl_seconds version now])
                        (batches tr)
           else tr)
  | EvQueueDelete now key version =>
      let '(ok, w') := on_manager (QueueDelete now key version) w in
      (w', if ok : bool
           then mkTrace (accepted tr ++ [mkQueuedEntry DELETE key "" 0 version now])
                        (batches tr)
           else tr)
  | EvWorkerTurn ring now delivered =>
      let '(w', sent) := worker_turn ring now delivered w in
      (w', match sent with
           | Some b => mkTrace (accepted tr) (batches tr ++ [b])
           | None => tr
           end)
  end.

Definition history (config : Config) (events : list event) : Worker * Trace :=
  foldl happen (start config, mkTrace [] []) events.

(** The number of entries in the batches that were sent with result
    [sent]. *)
Definition entries_sent (sent : bool) (bs : list (list QueuedEntry * bool)) : Z :=
  ShardedHashTable.Zsum_with (λ b, if Bool.eqb b.2 sent then Z.of_nat (length b.1) else 0) bs.

(** What a run keeps true. *)
Definition consistent (config : Config) (st : Worker * Trace) : Prop :=
  let w := st.1 in
  let tr := st.2 in
  config_ (manager w) = config ∧
  concat (batches tr).*1 ++ queue_ (manager w) = accepted tr ∧
  Forall (λ b, b.1 ≠ [] ∧ Z.of_nat (length b.1) ≤ batch_size config) (batches tr) ∧
  Z.of_nat (length (queue_ (manager w))) ≤ Z.max 0 (max_queue_size config) ∧
  queued_ops_ (manager w) = size_t_wrap (Z.of_nat (length (accepted tr))) ∧
  replicated_ops_ w = size_t_wrap (entries_sent true (batches tr)) ∧
  failed_ops_ w = size_t_wrap (entries_sent false (batches tr)) ∧
  batches_sent_ w = size_t_wrap (Z.of_nat (length (batches tr))).

End ReplicationWorker.

(** ** Membership and failure detection ([membership_manager.h],
    [membership_manager.cpp]) *)

Module MembershipManager.

Inductive NodeStatus : Set := HEALTHY | UNHEALTHY | DEAD.

#[global] Instance NodeStatus_eq_dec : EqDecision NodeStatus.
Proof. solve_decision. Defined.

Definition uint32_wrap (z : Z) : Z := z mod 2 ^ 32.

Record NodeInfo := mkNodeInfo {
  node : HashRing.Node;
  status : NodeStatus;
  last_heartbeat : Z;
  consecutive_failures : Z;
  total_checks : Z;
  failed_checks : Z
}.

Record Config := mkConfig {
  self_node_id : string;
  heartbeat_interval_ms : Z;
  health_timeout_ms : Z;
  failure_threshold : Z;
  dead_threshold : Z
}.

(** [nodes_] is a [std::unordered_map<std::string, NodeInfo>]. *)
Record t := mk {
  config_ : Config;
  nodes_ : gmap string NodeInfo;
  health_checks_sent_ : Z;
  health_checks_failed_ : Z
}.

Definition make (config : Config) : t := mk config ∅ 0 0.

Definition set_nodes (nodes : gmap string NodeInfo) (m : t) : t :=
  mk (config_ m) nodes (health_checks_sent_ m) (health_checks_failed_ m).

(** [AddNode]; [now] is the reading of the steady clock. *)
Definition AddNode (now : Z) (n : HashRing.Node) (m : t) : t :=
  match nodes_ m !! HashRing.id n with
  | Some _ => m
  | None =>
      set_nodes (<[HashRing.id n := mkNodeInfo n HEALTHY now 0 0 0]> (nodes_ m)) m
  end.

Definition RemoveNode (node_id : string) (m : t) : t :=
  match nodes_ m !! node_id with
  | None => m
  | Some _ => set_nodes (delete node_id (nodes_ m)) m
  end.

Definition GetNodeInfo (node_id : string) (m : t) : option NodeInfo :=
  nodes_ m !! node_id.

Definition IsNodeHealthy (node_id : string) (m : t) : bool :=
  match nodes_ m !! node_id with
  | None => false
  | Some info => bool_decide (status info = HEALTHY)
  end.

(** [GetHealthyNodes]: in the iteration order of the map, which the
    standard leaves open. *)
Definition GetHealthyNodes (m : t) : list HashRing.Node :=
  node <$> filter (λ info, status info = HEALTHY) (map_to_list (nodes_ m)).*2.

Definition GetHealthyNodeCount (m : t) : Z :=
  Z.of_nat (length (filter (λ info, status info = HEALTHY)
                           (map_to_list (nodes_ m)).*2)).

(** [UpdateNodeStatus]: the node's status is set when it changes; the
    result lists the change, which the source hands to [event_callback_]
    when one is set ([if (event_callback_)]) and drops otherwise.  The
    callback itself is not part of the state. *)
Definition UpdateNodeStatus (node_id : string) (new_status : NodeStatus) (m : t)
    : t * list (HashRing.Node * NodeStatus) :=
  match nodes_ m !! node_id with
  | None => (m, [])
  | Some info =>
      if bool_decide (status info = new_status) then (m, [])
      else
        (set_nodes
           (<[node_id := mkNodeInfo (node info) new_status (last_heartbeat info)
                           (consecutive_failures info) (total_checks info)
                           (failed_checks info)]> (nodes_ m)) m,
         [(node info, new_status)])
  end.

(** [CheckNodeHealth]: [healthy] is whether the stub was created and the
    [HealthCheck] call returned an OK status with [SERVING]. *)
Definition CheckNodeHealth (healthy : bool) (m : t) : bool * t :=
  (healthy,
   mk (config_ m) (nodes_ m) (size_t_wrap (health_checks_sent_ m + 1))
      (if healthy then health_checks_failed_ m
       else size_t_wrap (health_checks_failed_ m + 1))).

(** The body of the inner loop of [HeartbeatWorker] for one node of the
    list it took: the health check, then the update of the node's entry
    if it is still in the map. *)
Definition check_node (now : Z) (healthy : bool) (checked : NodeInfo) (m : t)
    : t * list (HashRing.Node * NodeStatus) :=
  let '(healthy, m) := CheckNodeHealth healthy m in
  let node_id := HashRing.id (node checked) in
  match nodes_ m !! node_id with
  | None => (m, [])
  | Some info =>
      let total := size_t_wrap (total_checks info + 1) in
      if healthy : bool then
        let m1 :=
          set_nodes (<[node_id := mkNodeInfo (node info) (status info) now 0 total
                                    (failed_checks info)]> (nodes_ m)) m in
        if bool_decide (status info ≠ HEALTHY)
        then UpdateNodeStatus node_id HEALTHY m1
        else (m1, [])
      else
        let failures := uint32_wrap (consecutive_failures info + 1) in
        let m1 :=
          set_nodes (<[node_id := mkNodeInfo (node info) (status info)
                                    (last_heartbeat info) failures total
                                    (size_t_wrap (failed_checks info + 1))]>
                       (nodes_ m)) m in
        if dead_threshold (config_ m) <=? failures then
          if bool_decide (status info ≠ DEAD)
          then UpdateNodeStatus node_id DEAD m1
          else (m1, [])
        else if failure_threshold (config_ m) <=? failures then
          if bool_decide (status info ≠ UNHEALTHY) && bool_decide (status info ≠ DEAD)
          then UpdateNodeStatus node_id UNHEALTHY m1
          else (m1, [])
        else (m1, [])
  end.

(** The nodes the worker takes to check: all but the manager's own. *)
Definition nodes_to_check (m : t) : list NodeInfo :=
  filter (λ info, HashRing.id (node info) ≠ self_node_id (config_ m))
         (map_to_list (nodes_ m)).*2.

(** One turn of the outer loop of [HeartbeatWorker]: [healthy_at] answers
    the health checks, [now_at] is the clock at each of them, and the
    turn stops early, after [stopped_after] nodes, when [running_] is
    cleared meanwhile. *)
Fixpoint check_all (now_at : nat → Z) (healthy_at : HashRing.Node → bool)
    (i : nat) (to_check : list NodeInfo) (m : t)
    : t * list (HashRing.Node * NodeStatus) :=
  match to_check with
  | [] => (m, [])
  | checked :: rest =>
      let '(m1, events) :=
        check_node (now_at i) (healthy_at (node checked)) checked m in
      let '(m2, more_events) := check_all now_at healthy_at (S i) rest m1 in
      (m2, events ++ more_events)
  end.

Definition HeartbeatWorker_turn (now_at : nat → Z)
    (healthy_at : HashRing.Node → bool) (stopped_after : option nat) (m : t)
    : t * list (HashRing.Node * NodeStatus) :=
  let to_check := nodes_to_check m in
  check_all now_at healthy_at 0
    (match stopped_after with
     | Some n => take n to_check
     | None => to_check
     end) m.

(** What [GetStats] counts. *)
Record Stats := mkStats {
  total_nodes : Z;
  healthy_nodes : Z;
  unhealthy_nodes : Z;
  dead_nodes : Z;
  health_checks_sent : Z;
  health_checks_failed : Z
}.

Definition count_status (s : NodeStatus) (m : t) : Z :=
  Z.of_nat (length (filter (λ info, status info = s) (map_to_list (nodes_ m)).*2)).

Definition GetStats (m : t) : Stats :=
  mkStats (Z.of_nat (size (nodes_ m))) (count_status HEALTHY m)
          (count_status UNHEALTHY m) (count_status DEAD m)
          (health_checks_sent_ m) (health_checks_failed_ m).

(** What happens to a manager. *)
Inductive event :=
| EvAddNode (now : Z) (n : HashRing.Node)
| EvRemoveNode (node_id : string)
| EvWorkerTurn (now_at : nat → Z) (healthy_at : HashRing.Node → bool)
               (stopped_after : option nat).

Definition happen (m : t) (ev : event) : t :=
  match ev with
  | EvAddNode now n => AddNode now n m
  | EvRemoveNode node_id => RemoveNode node_id m
  | EvWorkerTurn now_at healthy_at stopped_after =>
      (HeartbeatWorker_turn now_at healthy_at stopped_after m).1
  end.

Definition history (config : Config) (events : list event) : t :=
  foldl happen (make config) events.

Definition turn_of (ev : event) : Z :=
  match ev with EvWorkerTurn _ _ _ => 1 | _ => 0 end.

Definition worker_turns (events : list event) : Z :=
  ShardedHashTable.Zsum_with turn_of events.

(** The status the thresholds give to a number of consecutive failed
    checks. *)
Definition status_of_failures (config : Config) (failures : Z) : NodeStatus :=
  if failures =? 0 then HEALTHY
  else if dead_threshold config <=? failures then DEAD
  else if failure_threshold config <=? failures then UNHEALTHY
  else HEALTHY.

(** The entry a node has after one check, from the entry it had. *)
Definition checked_info (config : Config) (now : Z) (healthy : bool)
    (info : NodeInfo) : NodeInfo :=
  let total := size_t_wrap (total_checks info + 1) in
  if healthy then mkNodeInfo (node info) HEALTHY now 0 total (failed_checks info)
  else
    let failures := uint32_wrap (consecutive_failures info + 1) in
    mkNodeInfo (node info)
      (if dead_threshold config <=? failures then DEAD
       else if failure_threshold config <=? failures then
         match status info with DEAD => DEAD | _ => UNHEALTHY end
       else status info)
      (last_heartbeat info) failures total (size_t_wrap (failed_checks info + 1)).

Definition with_status (s : NodeStatus) (info : NodeInfo) : NodeInfo :=
  mkNodeInfo (node info) s (last_heartbeat info) (consecutive_failures info)
             (total_checks info) (failed_checks info).

(** The invariant of a run with at most [turns] worker turns: each entry
    sits under its node's id, its status is the one its count of
    consecutive failures gives, and the manager's own entry is never
    checked. *)
Definition tracked (config : Config) (turns : Z) (m : t) : Prop :=
  0 ≤ turns ∧ config_ m = config ∧
  ∀ k info, nodes_ m !! k = Some info →
    HashRing.id (node info) = k ∧
    status info = status_of_failures config (consecutive_failures info) ∧
    0 ≤ consecutive_failures info ≤ turns ∧
    (k = self_node_id config →
     consecutive_failures info = 0 ∧ total_checks info = 0).

End MembershipManager.

(** ** The coordinator ([coordinator_server.h], [coordinator_server.cpp])

    [SaveState] writes a file that nothing reads back ([LoadState] opens
    it and parses nothing); the file is not part of the state below. *)

Module CoordinatorServer.

Record NodeState := mkNodeState {
  id : string;
  address : string;
  status : string;
  last_heartbeat : Z;
  metadata : gmap string string
}.

Record Config := mkConfig {
  storage_path : string;
  heartbeat_timeout_ms : Z;
  replication_factor : Z;
  virtual_nodes_per_node : nat
}.

(** [nodes_] is a [std::unordered_map<std::string, NodeState>],
    [ring_version_] an [int64_t]. *)
Record t := mk {
  config_ : Config;
  nodes_ : gmap string NodeState;
  ring_version_ : Z;
  ring_ : HashRing.t;
  heartbeats_received_ : Z;
  registrations_ : Z
}.

(** [CoordinatorServer(config, metrics)] *)
Definition make (config : Config) : t :=
  mk config ∅ 1 (HashRing.make (virtual_nodes_per_node config)) 0 0.

Record NodeRequest := mkNodeRequest {
  req_node_id : string;
  req_address : string;
  req_metadata : gmap string string
}.

Inductive StatusCode : Set := OK | NOT_FOUND.

(** [RegisterNode]: the response is [(success, ring_version)]; [now] is the
    reading of the steady clock.  The result of [add_node] is dropped. *)
Definition RegisterNode (now : Z) (request : NodeRequest) (c : t)
    : (StatusCode * bool * Z) * t :=
  let state :=
    mkNodeState (req_node_id request) (req_address request) "HEALTHY" now
                (req_metadata request) in
  let is_new := bool_decide (nodes_ c !! req_node_id request = None) in
  let nodes := <[req_node_id request := state]> (nodes_ c) in
  let '(ring, version) :=
    if is_new then
      ((HashRing.add_node
          (HashRing.mkNode (req_node_id request) (req_address request)) (ring_ c)).2,
       ring_version_ c + 1)
    else (ring_ c, ring_version_ c) in
  ((OK, true, version),
   mk (config_ c) nodes version ring (heartbeats_received_ c)
      (size_t_wrap (registrations_ c + 1))).

(** [Heartbeat]: the response is [(success, ring_version, ring_changed)]. *)
Definition Heartbeat (now : Z) (node_id : string) (c : t)
    : (StatusCode * bool * Z * bool) * t :=
  match nodes_ c !! node_id with
  | None => ((NOT_FOUND, false, 0, false), c)
  | Some state =>
      let state' :=
        mkNodeState (id state) (address state)
          (if bool_decide (status state ≠ "HEALTHY") then "HEALTHY" else status state)
          now (metadata state) in
      ((OK, true, ring_version_ c, false),
       mk (config_ c) (<[node_id := state']> (nodes_ c)) (ring_version_ c) (ring_ c)
          (size_t_wrap (heartbeats_received_ c + 1)) (registrations_ c))
  end.

(** The admin calls [AddNode] and [RemoveNode]: the response is
    [(success, error, new_ring_version)]. *)
Definition AddNode (now : Z) (request : NodeRequest) (c : t)
    : (StatusCode * bool * string * Z) * t :=
  match nodes_ c !! req_node_id request with
  | Some _ => ((OK, false, "Node already exists", 0), c)
  | None =>
      let state :=
        mkNodeState (req_node_id request) (req_address request) "HEALTHY" now
                    (req_metadata request) in
      let ring :=
        (HashRing.add_node
           (HashRing.mkNode (req_node_id request) (req_address request)) (ring_ c)).2 in
      ((OK, true, "", ring_version_ c + 1),
       mk (config_ c) (<[req_node_id request := state]> (nodes_ c))
          (ring_version_ c + 1) ring (heartbeats_received_ c) (registrations_ c))
  end.

Definition RemoveNode (node_id : string) (c : t)
    : (StatusCode * bool * string * Z) * t :=
  match nodes_ c !! node_id with
  | None => ((OK, false, "Node not found", 0), c)
  | Some _ =>
      ((OK, true, "", ring_version_ c + 1),
       mk (config_ c) (delete node_id (nodes_ c)) (ring_version_ c + 1)
          (HashRing.remove_node node_id (ring_ c)).2
          (heartbeats_received_ c) (registrations_ c))
  end.

(** What a response lists for a node: id, address, status, last
    heartbeat. *)
Record NodeInfo := mkNodeInfo {
  info_id : string;
  info_address : string;
  info_status : string;
  info_last_heartbeat : Z
}.

Definition info_of (state : NodeState) : NodeInfo :=
  mkNodeInfo (id state) (address state) (status state) (last_heartbeat state).

(** The node states in the iteration order of the map. *)
Definition states (c : t) : list NodeState := (map_to_list (nodes_ c)).*2.

Record GetRingResponse := mkGetRingResponse {
  ring_response_version : Z;
  ring_response_replication_factor : Z;
  ring_response_virtual_nodes_per_node : nat;
  ring_response_changed : bool;
  ring_response_nodes : list NodeInfo
}.

(** [GetRing]: the nodes whose status is ["HEALTHY"]. *)
Definition GetRing (current_version : Z) (c : t) : GetRingResponse :=
  mkGetRingResponse (ring_version_ c) (replication_factor (config_ c))
    (virtual_nodes_per_node (config_ c))
    (bool_decide (current_version ≠ ring_version_ c))
    (info_of <$> filter (λ state, status state = "HEALTHY") (states c)).

Definition uint32_wrap (z : Z) : Z := z mod 2 ^ 32.

(** The status [GetClusterStatus] reports for a node at time [now]; the
    doubled timeout is computed in [uint32_t]. *)
Definition current_status (config : Config) (now : Z) (state : NodeState) : string :=
  let elapsed := now - last_heartbeat state in
  if uint32_wrap (heartbeat_timeout_ms config * 2) <? elapsed then "DEAD"
  else if heartbeat_timeout_ms config <? elapsed then "UNHEALTHY"
  else status state.

Record ClusterStatus := mkClusterStatus {
  cluster_nodes : list NodeInfo;
  total_nodes : Z;
  healthy_nodes : Z;
  unhealthy_nodes : Z;
  dead_nodes : Z;
  cluster_ring_version : Z
}.

Definition count_where (P : string → bool) (l : list string) : Z :=
  Z.of_nat (length (filter (λ s, P s = true) l)).

Definition GetClusterStatus (now : Z) (c : t) : ClusterStatus :=
  let reported := current_status (config_ c) now <$> states c in
  mkClusterStatus
    ((λ state, mkNodeInfo (id state) (address state)
                 (current_status (config_ c) now state) (last_heartbeat state))
       <$> states c)
    (Z.of_nat (size (nodes_ c)))
    (count_where (λ s, bool_decide (s = "HEALTHY")) reported)
    (count_where (λ s, negb (bool_decide (s = "HEALTHY"))
                       && bool_decide (s = "UNHEALTHY")) reported)
    (count_where (λ s, negb (bool_decide (s = "HEALTHY"))
                       && negb (bool_decide (s = "UNHEALTHY"))) reported)
    (ring_version_ c).

(** The calls that change the coordinator. *)
Inductive call :=
| CallRegisterNode (now : Z) (request : NodeRequest)
| CallHeartbeat (now : Z) (node_id : string)
| CallAddNode (now : Z) (request : NodeRequest)
| CallRemoveNode (node_id : string).

Definition perform (c : t) (x : call) : t :=
  match x with
  | CallRegisterNode now request => (RegisterNode now request c).2
  | CallHeartbeat now node_id => (Heartbeat now node_id c).2
  | CallAddNode now request => (AddNode now request c).2
  | CallRemoveNode node_id => (RemoveNode node_id c).2
  end.

Definition history (config : Config) (calls : list call) : t :=
  foldl perform (make config) calls.

(** The change of the ring a call asks for, read off the table of nodes:
    [RegisterNode] and [AddNode] add the node when the table does not hold
    its id, [RemoveNode] removes the node when the table holds its id;
    [Heartbeat], and the three calls in the other case, ask for none. *)
Definition ring_change (c : t) (x : call) : list HashRing.ring_op :=
  match x with
  | CallRegisterNode _ request | CallAddNode _ request =>
      if bool_decide (nodes_ c !! req_node_id request = None)
      then [HashRing.AddNode
              (HashRing.mkNode (req_node_id request) (req_address request))]
      else []
  | CallHeartbeat _ _ => []
  | CallRemoveNode node_id =>
      if bool_decide (nodes_ c !! node_id = None) then []
      else [HashRing.RemoveNode node_id]
  end.

(** The changes a sequence of calls asks for, in order. *)
Fixpoint ring_changes (c : t) (calls : list call) : list HashRing.ring_op :=
  match calls with
  | [] => []
  | x :: calls => ring_change c x ++ ring_changes (perform c x) calls
  end.

(** The table of nodes and the ring name the same nodes, every status is
    ["HEALTHY"], and the ring version counts the changes of the ring. *)
Definition in_step (config : Config) (c : t) : Prop :=
  config_ c = config ∧
  (∃ ops, ring_ c = HashRing.built (virtual_nodes_per_node config) ops ∧
          ring_version_ c = 1 + Z.of_nat (length ops)) ∧
  (∀ node_id, is_Some (nodes_ c !! node_id)
              ↔ is_Some (HashRing.nodes_ (ring_ c) !! node_id)) ∧
  (∀ node_id state, nodes_ c !! node_id = Some state →
                    id state = node_id ∧ status state = "HEALTHY").

(** The status [GetClusterStatus] reports when the stored status is
    ["HEALTHY"]. *)
Definition status_by_age (config : Config) (now last : Z) : string :=
  if uint32_wrap (heartbeat_timeout_ms config * 2) <? now - last then "DEAD"
  else if heartbeat_timeout_ms config <? now - last then "UNHEALTHY"
  else "HEALTHY".

End CoordinatorServer.

(** ** Failover ([failover_manager.h], [failover_manager.cpp]) *)

Module FailoverManager.

Record Config := mkConfig {
  node_id : string;
  replication_factor : Z;
  failover_timeout_ms : Z;
  auto_failover_enabled : bool
}.

Record FailoverInfo := mkFailoverInfo {
  failover_id : string;
  failed_node_id : string;
  new_primary_id : string;
  started_at : Z;
  completed_at : Z;
  in_progress : bool;
  keys_migrated : Z;
  status : string
}.

(** [ring_] is the ring the manager shares; [failovers_] is a
    [std::unordered_map<std::string, FailoverInfo>]; [callback_] tells
    whether the [std::function] holds a target. *)
Record t := mk {
  config_ : Config;
  ring_ : HashRing.t;
  failovers_ : gmap string FailoverInfo;
  total_failovers_ : Z;
  successful_failovers_ : Z;
  failed_failovers_ : Z;
  callback_ : bool
}.

Definition make (config : Config) (ring : HashRing.t) : t :=
  mk config ring ∅ 0 0 0 false.

(** [SetFailoverCallback]; [callback] tells whether the function handed
    over holds a target. *)
Definition SetFailoverCallback (callback : bool) (m : t) : t :=
  mk (config_ m) (ring_ m) (failovers_ m) (total_failovers_ m)
     (successful_failovers_ m) (failed_failovers_ m) callback.

Fixpoint zeros (n : nat) : string :=
  match n with
  | O => ""
  | S n => "0" +:+ zeros n
  end.

(** [std::setfill('0') << std::setw(4)] on a number below 10000. *)
Definition setw4 (n : Z) : string :=
  let digits := to_string n in
  zeros (4 - String.length digits) +:+ digits.

(** [GenerateFailoverId]; [timestamp] is the system clock in
    milliseconds. *)
Definition GenerateFailoverId (timestamp : Z) (m : t) : string :=
  "failover-" +:+ to_string timestamp +:+ "-" +:+ setw4 (total_failovers_ m mod 10000).

(** [SelectNewPrimary]: the replicas of the failed node's id, taken as a
    key; the empty string when there is no candidate. *)
Definition SelectNewPrimary (failed : string) (m : t) : string :=
  let replicas :=
    HashRing.get_replicas failed (replication_factor (config_ m)) (ring_ m) in
  match filter (λ replica, HashRing.id replica ≠ failed) replicas with
  | replica :: _ => HashRing.id replica
  | [] => ""
  end.

(** [UpdateTopology]: the result of [remove_node] is dropped. *)
Definition UpdateTopology (failed new_primary : string) (ring : HashRing.t)
    : bool * HashRing.t :=
  (true, (HashRing.remove_node failed ring).2).

(** [ExecuteFailover]; [now] is the steady clock when the failover ends.
    The last component lists the arguments of the callback, which is
    called after a completed failover [if (callback_)]. *)
Definition ExecuteFailover (now : Z) (id : string) (m : t)
    : t * list (string * string) :=
  match failovers_ m !! id with
  | None => (m, [])
  | Some info =>
      let '(updated, ring) :=
        UpdateTopology (failed_node_id info) (new_primary_id info) (ring_ m) in
      if updated : bool then
        (mk (config_ m) ring
            (<[id := mkFailoverInfo (failover_id info) (failed_node_id info)
                       (new_primary_id info) (started_at info) now false
                       (keys_migrated info) "complete"]> (failovers_ m))
            (total_failovers_ m)
            (size_t_wrap (successful_failovers_ m + 1)) (failed_failovers_ m)
            (callback_ m),
         if callback_ m then [(failed_node_id info, new_primary_id info)] else [])
      else
        (mk (config_ m) ring
            (<[id := mkFailoverInfo (failover_id info) (failed_node_id info)
                       (new_primary_id info) (started_at info) now false
                       (keys_migrated info) "failed"]> (failovers_ m))
            (total_failovers_ m) (successful_failovers_ m)
            (size_t_wrap (failed_failovers_ m + 1)) (callback_ m),
         [])
  end.

(** [InitiateFailover]: [timestamp] is the system clock, [started] and
    [completed] the steady clock at the start and at the end.  Returns
    the failover id, empty on failure. *)
Definition InitiateFailover (timestamp started completed : Z) (failed : string)
    (m : t) : string * t * list (string * string) :=
  if negb (auto_failover_enabled (config_ m)) then ("", m, [])
  else
    let id := GenerateFailoverId timestamp m in
    let new_primary := SelectNewPrimary failed m in
    if bool_decide (new_primary = "") then
      ("",
       mk (config_ m) (ring_ m) (failovers_ m) (total_failovers_ m)
          (successful_failovers_ m) (size_t_wrap (failed_failovers_ m + 1))
          (callback_ m),
       [])
    else
      let info := mkFailoverInfo id failed new_primary started 0 true 0 "initiated" in
      let m1 :=
        mk (config_ m) (ring_ m) (<[id := info]> (failovers_ m))
           (size_t_wrap (total_failovers_ m + 1))
           (successful_failovers_ m) (failed_failovers_ m) (callback_ m) in
      let '(m2, called) := ExecuteFailover completed id m1 in
      (id, m2, called).

Definition IsFailoverInProgress (id : string) (m : t) : bool :=
  match failovers_ m !! id with
  | Some info => in_progress info
  | None => false
  end.

Definition GetFailoverStatus (id : string) (m : t) : option FailoverInfo :=
  failovers_ m !! id.

Definition GetActiveFailovers (m : t) : list FailoverInfo :=
  filter (λ info, in_progress info = true) (map_to_list (failovers_ m)).*2.

(** [CancelFailover]; [now] is the steady clock. *)
Definition CancelFailover (now : Z) (id : string) (m : t) : bool * t :=
  match failovers_ m !! id with
  | Some info =>
      if in_progress info then
        (true,
         mk (config_ m) (ring_ m)
            (<[id := mkFailoverInfo (failover_id info) (failed_node_id info)
                       (new_primary_id info) (started_at info) now false
                       (keys_migrated info) "cancelled"]> (failovers_ m))
            (total_failovers_ m) (successful_failovers_ m) (failed_failovers_ m)
            (callback_ m))
      else (false, m)
  | None => (false, m)
  end.

End FailoverManager.

(** ** Quorum reads and writes ([quorum_coordinator.h],
    [quorum_coordinator.cpp])

    The calls to the replicas are made by other threads through the
    network; what each of them brought back is an argument of the
    functions below. *)

Module QuorumCoordinator.

Record QuorumConfig := mkQuorumConfig {
  write_quorum : Z;
  read_quorum : Z;
  total_replicas : Z;
  timeout_ms : Z
}.

(** [QuorumCoordinator(config)] and [UpdateConfig] throw when a quorum
    exceeds the number of replicas: [None]. *)
Definition make (config : QuorumConfig) : option QuorumConfig :=
  if total_replicas config <? write_quorum config then None
  else if total_replicas config <? read_quorum config then None
  else Some config.

Definition UpdateConfig (new_config : QuorumConfig) (config_ : QuorumConfig)
    : option QuorumConfig :=
  make new_config.

(** [OperationResult<T>] of the client. *)
Record OperationResult (T : Type) := mkOperationResult {
  success : bool;
  value : option T;
  error : string;
  node_id : string;
  version : Z;
  timestamp_ms : Z;
  version_vector : gmap string Z;
  version_mismatch : bool
}.
Arguments mkOperationResult {T}.
Arguments success {T}.
Arguments value {T}.
Arguments error {T}.
Arguments node_id {T}.
Arguments version {T}.
Arguments timestamp_ms {T}.
Arguments version_vector {T}.
Arguments version_mismatch {T}.

(** What the wait for one replica ends in: the deadline had passed before
    the wait, the wait timed out, [get()] threw, or the call's result. *)
Inductive reply (T : Type) :=
| DeadlinePassed
| TimedOut
| Threw (what : string)
| Replied (result : OperationResult T).
Arguments DeadlinePassed {T}.
Arguments TimedOut {T}.
Arguments Threw {T}.
Arguments Replied {T}.

Record WriteResult := mkWriteResult {
  write_success : bool;
  write_version : Z;
  replicas_acknowledged : Z;
  write_errors : list string
}.

Record ReadResult := mkReadResult {
  read_success : bool;
  read_value : option string;
  read_version : Z;
  read_timestamp_ms : Z;
  read_version_vector : gmap string Z;
  replicas_responded : Z;
  read_errors : list string
}.

(** The loop of [QuorumWrite] over the replicas, on
    (max_version, acknowledged, errors). *)
Definition collect_write (acc : Z * Z * list string) (replica : string * reply bool)
    : Z * Z * list string :=
  let '(max_version, acknowledged, errors) := acc in
  let '(address, answer) := replica in
  match answer with
  | DeadlinePassed =>
      (max_version, acknowledged, errors ++ ["Timeout waiting for replica " +:+ address])
  | TimedOut =>
      (max_version, acknowledged, errors ++ ["Timeout from replica " +:+ address])
  | Threw what =>
      (max_version, acknowledged,
       errors ++ ["Exception from " +:+ address +:+ ": " +:+ what])
  | Replied result =>
      if success result then
        (Z.max max_version (version result), acknowledged + 1, errors)
      else
        (max_version, acknowledged,
         errors ++ ["Write failed on " +:+ address +:+ ": " +:+ error result])
  end.

(** [QuorumWrite]; [replicas] pairs each replica address with what its
    call brought back. *)
Definition QuorumWrite (config_ : QuorumConfig) (replicas : list (string * reply bool))
    : WriteResult :=
  match replicas with
  | [] => mkWriteResult false 0 0 ["No replica addresses provided"]
  | _ =>
      let '(max_version, acknowledged, errors) :=
        foldl collect_write (0, 0, []) replicas in
      mkWriteResult (write_quorum config_ <=? acknowledged) max_version acknowledged
                    errors
  end.

(** [error.find(s) != npos] *)
Fixpoint contains (s text : string) : bool :=
  String.prefix s text
  || match text with
     | EmptyString => false
     | String _ rest => contains s rest
     end.

(** The loop of [QuorumCAS], on
    (max_version, acknowledged, version_mismatch, errors). *)
Definition collect_cas (acc : Z * Z * bool * list string)
    (replica : string * reply bool) : Z * Z * bool * list string :=
  let '(max_version, acknowledged, mismatch, errors) := acc in
  let '(address, answer) := replica in
  match answer with
  | DeadlinePassed =>
      (max_version, acknowledged, mismatch,
       errors ++ ["Timeout waiting for replica " +:+ address])
  | TimedOut =>
      (max_version, acknowledged, mismatch,
       errors ++ ["Timeout from replica " +:+ address])
  | Threw what =>
      (max_version, acknowledged, mismatch,
       errors ++ ["Exception from " +:+ address +:+ ": " +:+ what])
  | Replied result =>
      if success result then
        (Z.max max_version (version result), acknowledged + 1, mismatch, errors)
      else
        (max_version, acknowledged,
         if contains "version" (error result) || contains "mismatch" (error result)
         then true else mismatch,
         errors ++ ["CAS failed on " +:+ address +:+ ": " +:+ error result])
  end.

Definition QuorumCAS (config_ : QuorumConfig) (replicas : list (string * reply bool))
    : WriteResult :=
  match replicas with
  | [] => mkWriteResult false 0 0 ["No replica addresses provided"]
  | _ =>
      let '(max_version, acknowledged, mismatch, errors) :=
        foldl collect_cas (0, 0, false, []) replicas in
      mkWriteResult ((write_quorum config_ <=? acknowledged) && negb mismatch)
                    max_version acknowledged errors
  end.

Record ReplicaResponse := mkReplicaResponse {
  resp_value : string;
  resp_version : Z;
  resp_timestamp_ms : Z;
  resp_version_vector : gmap string Z
}.

(** The loop of [QuorumRead], on (responses, errors). *)
Definition collect_read (acc : list ReplicaResponse * list string)
    (replica : string * reply string) : list ReplicaResponse * list string :=
  let '(responses, errors) := acc in
  let '(address, answer) := replica in
  match answer with
  | DeadlinePassed => (responses, errors ++ ["Timeout waiting for replica " +:+ address])
  | TimedOut => (responses, errors ++ ["Timeout from replica " +:+ address])
  | Threw what =>
      (responses, errors ++ ["Exception from " +:+ address +:+ ": " +:+ what])
  | Replied result =>
      if success result then
        match value result with
        | Some v =>
            (responses ++ [mkReplicaResponse v (version result) (timestamp_ms result)
                                             (version_vector result)],
             errors)
        | None => (responses, errors ++ ["Key not found on " +:+ address])
        end
      else
        (responses, errors ++ ["Read failed on " +:+ address +:+ ": " +:+ error result])
  end.

(** The comparator handed to [std::max_element]. *)
Definition older (a b : ReplicaResponse) : bool :=
  if bool_decide (resp_version a ≠ resp_version b)
  then resp_version a <? resp_version b
  else resp_timestamp_ms a <? resp_timestamp_ms b.

(** [std::max_element]: the first element no other exceeds. *)
Definition max_element {A} (less : A → A → bool) (l : list A) : option A :=
  match l with
  | [] => None
  | first :: rest =>
      Some (foldl (λ largest x, if less largest x then x else largest) first rest)
  end.

(** The addresses picked for read repair: position [i] of the address list
    for each position [i] of the responses with a version below the
    latest. *)
Definition stale_replicas (addresses : list string) (responses : list ReplicaResponse)
    (latest_version : Z) : list string :=
  omap (λ p, if resp_version p.2 <? latest_version then addresses !! p.1 else None)
       (imap pair responses).

(** The read repair [QuorumRead] starts on a detached thread:
    [ReadRepair(key, value, version, stale_replicas)]. *)
Record Repair := mkRepair {
  repair_value : string;
  repair_version : Z;
  repair_replicas : list string
}.

Definition QuorumRead (config_ : QuorumConfig) (replicas : list (string * reply string))
    : ReadResult * option Repair :=
  match replicas with
  | [] => (mkReadResult false None 0 0 ∅ 0 ["No replica addresses provided"], None)
  | _ =>
      let '(responses, errors) := foldl collect_read ([], []) replicas in
      let responded := Z.of_nat (length responses) in
      if responded <? read_quorum config_ then
        (mkReadResult false None 0 0 ∅ responded errors, None)
      else
        match max_element older responses with
        | None => (mkReadResult false None 0 0 ∅ responded errors, None)
        | Some latest =>
            let stale := stale_replicas replicas.*1 responses (resp_version latest) in
            (mkReadResult true (Some (resp_value latest)) (resp_version latest)
                          (resp_timestamp_ms latest) (resp_version_vector latest)
                          responded errors,
             match stale with
             | [] => None
             | _ => Some (mkRepair (resp_value latest) (resp_version latest) stale)
             end)
        end
  end.

(** The responses a read counts: those of the replicas that answered with
    a value. *)
Definition answers (replicas : list (string * reply string)) : list ReplicaResponse :=
  omap (λ replica,
          match replica.2 with
          | Replied result =>
              if success result then
                (λ v, mkReplicaResponse v (version result) (timestamp_ms result)
                                        (version_vector result)) <$> value result
              else None
          | _ => None
          end) replicas.

(** The writes a quorum write counts. *)
Definition acknowledgements (replicas : list (string * reply bool))
    : list (OperationResult bool) :=
  omap (λ replica,
          match replica.2 with
          | Replied result => if success result then Some result else None
          | _ => None
          end) replicas.

(** The error texts of the replicas that refused a write. *)
Definition refusals (replicas : list (string * reply bool)) : list string :=
  omap (λ replica,
          match replica.2 with
          | Replied result => if success result then None else Some (error result)
          | _ => None
          end) replicas.

(** A refusal that [QuorumCAS] takes for a version mismatch. *)
Definition tells_mismatch (error_text : string) : bool :=
  contains "version" error_text || contains "mismatch" error_text.

(** [v] is the greatest version among the acknowledgements, and 0 when
    there is none above 0. *)
Definition greatest_version (acks : list (OperationResult bool)) (v : Z) : Prop :=
  0 ≤ v
  ∧ (∀ ack, ack ∈ acks → version ack ≤ v)
  ∧ (v = 0 ∨ ∃ ack, ack ∈ acks ∧ version ack = v).

(** [r] is not newer than [latest]: versions first, then timestamps. *)
Definition not_newer (r latest : ReplicaResponse) : Prop :=
  resp_version r < resp_version latest
  ∨ (resp_version r = resp_version latest
     ∧ resp_timestamp_ms r ≤ resp_timestamp_ms latest).

(** [latest] is the first of the newest responses. *)
Definition first_newest (responses : list ReplicaResponse) (latest : ReplicaResponse)
    : Prop :=
  ∃ i : nat,
    responses !! i = Some latest
    ∧ (∀ r, r ∈ responses → not_newer r latest)
    ∧ (∀ (j : nat) r, (j < i)%nat → responses !! j = Some r →
         ¬ not_newer latest r).

End QuorumCoordinator.

(** ** Authentication tokens ([auth_token.h], [auth_token.cpp])

    A [std::string] is the list of its characters; an [unsigned char] is
    its code, between 0 and 255.  [val] and [valb] are [int]s: a left shift
    is taken in 32-bit two's complement, a right shift is arithmetic. *)

Module TokenValidator.

Definition int_wrap (z : Z) : Z := (z + 2 ^ 31) mod 2 ^ 32 - 2 ^ 31.

Definition code (c : ascii) : Z := Z.of_N (N_of_ascii c).

Definition char (z : Z) : ascii := ascii_of_N (Z.to_N z).

Definition base64_chars : list ascii :=
  String.list_ascii_of_string
    "ABCDEFGHIJKLMNOPQRSTUVWXYZabcdefghijklmnopqrstuvwxyz0123456789+/".

(** [base64_chars[i]]; the index is masked to 6 bits at every use. *)
Definition base64_char (i : Z) : ascii :=
  nth (Z.to_nat i) base64_chars (char 0).

(** The loop [while (valb >= 0)] of [base64_encode]; each turn lowers
    [valb] by 6, so [valb / 6 + 1] turns end it. *)
Fixpoint emit (turns : nat) (val valb : Z) (output : list ascii) : Z * list ascii :=
  match turns with
  | O => (valb, output)
  | S turns =>
      if 0 <=? valb then
        emit turns val (valb - 6)
             (output ++ [base64_char (Z.land (Z.shiftr val valb) 63)])
      else (valb, output)
  end.

(** One turn of the loop over the input, on (val, valb, output). *)
Definition encode_step (state : Z * Z * list ascii) (c : ascii) : Z * Z * list ascii :=
  let '(val, valb, output) := state in
  let val := int_wrap (Z.shiftl val 8) + code c in
  let valb := valb + 8 in
  let '(valb, output) := emit (Z.to_nat (valb / 6 + 1)) val valb output in
  (val, valb, output).

(** [while (output.size() % 4) output.push_back('=')]: at most 3 turns. *)
Fixpoint pad (turns : nat) (output : list ascii) : list ascii :=
  match turns with
  | O => output
  | S turns =>
      if bool_decide (Z.of_nat (length output) mod 4 ≠ 0)
      then pad turns (output ++ [char 61])
      else output
  end.

Definition encode_chars (input : list ascii) : list ascii :=
  let '(val, valb, output) := foldl encode_step (0, -6, []) input in
  let output :=
    if -6 <? valb
    then output ++ [base64_char (Z.land (Z.shiftr (int_wrap (Z.shiftl val 8)) (valb + 8))
                                        63)]
    else output in
  pad 3 output.

Definition base64_encode (input : string) : string :=
  String.string_of_list_ascii (encode_chars (String.list_ascii_of_string input)).

Definition decode_table : list Z :=
  [-1;-1;-1;-1;-1;-1;-1;-1;-1;-1;-1;-1;-1;-1;-1;-1;
   -1;-1;-1;-1;-1;-1;-1;-1;-1;-1;-1;-1;-1;-1;-1;-1;
   -1;-1;-1;-1;-1;-1;-1;-1;-1;-1;-1;62;-1;-1;-1;63;
   52;53;54;55;56;57;58;59;60;61;-1;-1;-1;-1;-1;-1;
   -1; 0; 1; 2; 3; 4; 5; 6; 7; 8; 9;10;11;12;13;14;
   15;16;17;18;19;20;21;22;23;24;25;-1;-1;-1;-1;-1;
   -1;26;27;28;29;30;31;32;33;34;35;36;37;38;39;40;
   41;42;43;44;45;46;47;48;49;50;51;-1;-1;-1;-1;-1;
   -1;-1;-1;-1;-1;-1;-1;-1;-1;-1;-1;-1;-1;-1;-1;-1;
   -1;-1;-1;-1;-1;-1;-1;-1;-1;-1;-1;-1;-1;-1;-1;-1;
   -1;-1;-1;-1;-1;-1;-1;-1;-1;-1;-1;-1;-1;-1;-1;-1;
   -1;-1;-1;-1;-1;-1;-1;-1;-1;-1;-1;-1;-1;-1;-1;-1;
   -1;-1;-1;-1;-1;-1;-1;-1;-1;-1;-1;-1;-1;-1;-1;-1;
   -1;-1;-1;-1;-1;-1;-1;-1;-1;-1;-1;-1;-1;-1;-1;-1;
   -1;-1;-1;-1;-1;-1;-1;-1;-1;-1;-1;-1;-1;-1;-1;-1;
   -1;-1;-1;-1;-1;-1;-1;-1;-1;-1;-1;-1;-1;-1;-1;-1].

(** [decode_table[c]] for an [unsigned char]. *)
Definition decoded (c : ascii) : Z := nth (Z.to_nat (code c)) decode_table (-1).

(** The loop of [base64_decode], which stops at the first character
    outside the alphabet. *)
Fixpoint decode_loop (val valb : Z) (output : list ascii) (input : list ascii)
    : list ascii :=
  match input with
  | [] => output
  | c :: rest =>
      if decoded c =? -1 then output
      else
        let val := int_wrap (Z.shiftl val 6) + decoded c in
        let valb := valb + 6 in
        if 0 <=? valb then
          decode_loop val (valb - 8) (output ++ [char (Z.land (Z.shiftr val valb) 255)])
                      rest
        else decode_loop val valb output rest
  end.

Definition decode_chars (input : list ascii) : list ascii :=
  decode_loop 0 (-8) [] input.

Definition base64_decode (input : string) : string :=
  String.string_of_list_ascii (decode_chars (String.list_ascii_of_string input)).

(** The encoding read off in groups of three bytes: four characters for
    a full group; two characters and "==" for one byte left over, three
    characters and "=" for two. *)
Fixpoint quads (input : list ascii) : list ascii :=
  match input with
  | [] => []
  | [a] =>
      [base64_char (code a / 4); base64_char (code a mod 4 * 16); char 61; char 61]
  | [a; b] =>
      [base64_char (code a / 4); base64_char (code a mod 4 * 16 + code b / 16);
       base64_char (code b mod 16 * 4); char 61]
  | a :: b :: c :: rest =>
      [base64_char (code a / 4); base64_char (code a mod 4 * 16 + code b / 16);
       base64_char (code b mod 16 * 4 + code c / 64); base64_char (code c mod 64)]
      ++ quads rest
  end.

(** What [base64_encode] does after the loop over the input. *)
Definition finish (state : Z * Z * list ascii) : list ascii :=
  let '(val, valb, output) := state in
  pad 3 (if -6 <? valb
         then output ++ [base64_char (Z.land (Z.shiftr (int_wrap (Z.shiftl val 8))
                                                       (valb + 8)) 63)]
         else output).

End TokenValidator.

(** ** Rate limiting ([rate_limiter.h], [rate_limiter.cpp])

    A [double] is a binary64 float.  A time point of the steady clock is
    its count of ticks; [ticks_per_us] is the number of ticks in a
    microsecond.  Every reading of the clock is an argument. *)

Module TokenBucket.

Definition double : Type := PrimFloat.float.

(** [static_cast<double>] of an integer: the nearest binary64 float. *)
Definition to_double (z : Z) : double :=
  FloatOps.SF2Prim (SpecFloat.binary_normalize 53 1024 z 0 false).

Record t := mk {
  capacity_ : Z;
  refill_rate_ : double;
  tokens_ : double;
  last_refill_ : Z
}.

Definition make (capacity : Z) (refill_rate : double) (now : Z) : t :=
  mk capacity refill_rate (to_double capacity) now.

(** [std::min(a, b)] *)
Definition std_min (a b : double) : double := if PrimFloat.ltb b a then b else a.

Definition refill (ticks_per_us : Z) (now : Z) (b : t) : t :=
  let elapsed :=
    PrimFloat.div (to_double (Z.quot (now - last_refill_ b) ticks_per_us))
                  (to_double 1000000) in
  let new_tokens := PrimFloat.mul elapsed (refill_rate_ b) in
  mk (capacity_ b) (refill_rate_ b)
     (std_min (to_double (capacity_ b)) (PrimFloat.add (tokens_ b) new_tokens))
     now.

Definition try_consume (ticks_per_us : Z) (tokens : Z) (now : Z) (b : t) : bool * t :=
  let b := refill ticks_per_us now b in
  if PrimFloat.leb (to_double tokens) (tokens_ b)
  then (true, mk (capacity_ b) (refill_rate_ b)
                 (PrimFloat.sub (tokens_ b) (to_double tokens)) (last_refill_ b))
  else (false, b).

Definition available_tokens (b : t) : double := tokens_ b.

Definition reset (now : Z) (b : t) : t :=
  mk (capacity_ b) (refill_rate_ b) (to_double (capacity_ b)) now.

End TokenBucket.

Module RateLimiter.

Record Config := mkConfig {
  client_capacity : Z;
  client_refill_rate : TokenBucket.double;
  global_capacity : Z;
  global_refill_rate : TokenBucket.double;
  enable_per_client : bool;
  enable_global : bool;
  max_clients : Z;
  cleanup_interval_seconds : Z
}.

Record t := mk {
  config_ : Config;
  global_bucket_ : option TokenBucket.t;
  client_buckets_ : gmap string TokenBucket.t;
  last_access_ : gmap string Z
}.

Definition make (config : Config) (now : Z) : t :=
  mk config
     (if enable_global config
      then Some (TokenBucket.make (global_capacity config) (global_refill_rate config) now)
      else None)
     ∅ ∅.

(** [std::chrono::steady_clock::time_point::max()] *)
Definition time_point_max : Z := 2 ^ 63 - 1.

Section clock.
(** The number of ticks of the steady clock in a microsecond, and the
    order in which a loop goes through [last_access_]. *)
Variable ticks_per_us : Z.
Variable iteration : gmap string Z → list (string * Z).

(** [cleanup_inactive_clients] *)
Definition cleanup_inactive_clients (now : Z) (r : t) : t :=
  let threshold := cleanup_interval_seconds (config_ r) * (1000000 * ticks_per_us) in
  let to_remove :=
    (filter (λ p, threshold < now - p.2) (iteration (last_access_ r))).*1 in
  foldl (λ r client_id,
           mk (config_ r) (global_bucket_ r) (delete client_id (client_buckets_ r))
              (delete client_id (last_access_ r)))
        r to_remove.

(** The search for the oldest access time in [get_or_create_bucket]. *)
Definition oldest (entries : list (string * Z)) : string * Z :=
  foldl (λ found p, if p.2 <? found.2 then p else found) ("", time_point_max) entries.

(** The clock readings of one [allow_request]: in the global bucket's
    [refill], in [cleanup_inactive_clients], in the new bucket's
    constructor, for the new client's [last_access_], in the client
    bucket's [refill], and for the [last_access_] of an allowed request. *)
Record Readings := mkReadings {
  at_global : Z;
  at_cleanup : Z;
  at_bucket : Z;
  at_created : Z;
  at_client : Z;
  at_allowed : Z
}.

(** [get_or_create_bucket]: the limiter with a bucket for the client. *)
Definition get_or_create_bucket (client_id : string) (now : Readings) (r : t) : t :=
  match client_buckets_ r !! client_id with
  | Some _ => r
  | None =>
      let r :=
        if max_clients (config_ r) <=? Z.of_nat (size (client_buckets_ r)) then
          let r := cleanup_inactive_clients (at_cleanup now) r in
          if max_clients (config_ r) <=? Z.of_nat (size (client_buckets_ r)) then
            let oldest_client := (oldest (iteration (last_access_ r))).1 in
            if bool_decide (oldest_client ≠ "") then
              mk (config_ r) (global_bucket_ r)
                 (delete oldest_client (client_buckets_ r))
                 (delete oldest_client (last_access_ r))
            else r
          else r
        else r in
      mk (config_ r) (global_bucket_ r)
         (<[client_id := TokenBucket.make (client_capacity (config_ r))
                           (client_refill_rate (config_ r)) (at_bucket now)]>
            (client_buckets_ r))
         (<[client_id := at_created now]> (last_access_ r))
  end.

(** [allow_request] *)
Definition allow_request (client_id : string) (tokens : Z) (now : Readings) (r : t)
    : bool * t :=
  let global :=
    match enable_global (config_ r), global_bucket_ r with
    | true, Some bucket =>
        let '(ok, bucket) :=
          TokenBucket.try_consume ticks_per_us tokens (at_global now) bucket in
        (ok, mk (config_ r) (Some bucket) (client_buckets_ r) (last_access_ r))
    | _, _ => (true, r)
    end in
  let '(ok, r) := global in
  if negb ok then (false, r)
  else if enable_per_client (config_ r) then
    let r := get_or_create_bucket client_id now r in
    match client_buckets_ r !! client_id with
    | None => (false, r)
    | Some bucket =>
        let '(ok, bucket) :=
          TokenBucket.try_consume ticks_per_us tokens (at_client now) bucket in
        let r := mk (config_ r) (global_bucket_ r)
                    (<[client_id := bucket]> (client_buckets_ r)) (last_access_ r) in
        if negb ok then (false, r)
        else (true, mk (config_ r) (global_bucket_ r) (client_buckets_ r)
                       (<[client_id := at_allowed now]> (last_access_ r)))
    end
  else (true, r).

Definition client_count (r : t) : Z := Z.of_nat (size (client_buckets_ r)).

Definition clear (now : Z) (r : t) : t :=
  mk (config_ r) (TokenBucket.reset now <$> global_bucket_ r) ∅ ∅.

Definition set_config (config : Config) (r : t) : t :=
  mk config (global_bucket_ r) (client_buckets_ r) (last_access_ r).

(** The calls made on a limiter. *)
Inductive call :=
| CallAllowRequest (client_id : string) (tokens : Z) (now : Readings)
| CallCleanup (now : Z)
| CallClear (now : Z).

Definition perform (r : t) (c : call) : t :=
  match c with
  | CallAllowRequest client_id tokens now => (allow_request client_id tokens now r).2
  | CallCleanup now => cleanup_inactive_clients now r
  | CallClear now => clear now r
  end.

Definition history (config : Config) (now : Z) (calls : list call) : t :=
  foldl perform (make config now) calls.

End clock.

(** The calls name their clients and read the clock below its greatest
    time point. *)
Definition named (c : call) : Prop :=
  match c with
  | CallAllowRequest client_id _ now =>
      client_id ≠ "" ∧ at_created now < time_point_max ∧ at_allowed now < time_point_max
  | _ => True
  end.

(** The two tables hold the same clients, none with an empty id, and no
    access time is the greatest time point. *)
Definition in_step (r : t) : Prop :=
  dom (client_buckets_ r) = dom (last_access_ r)
  ∧ last_access_ r !! "" = None
  ∧ map_Forall (λ _ time, time < time_point_max) (last_access_ r).

(** The limiter without a client: the two [erase] calls. *)
Definition without (client_id : string) (r : t) : t :=
  mk (config_ r) (global_bucket_ r) (delete client_id (client_buckets_ r))
     (delete client_id (last_access_ r)).

(** The tables are in step, hold at most [max_clients] clients, and the
    configuration is [config]. *)
Definition within (config : Config) (r : t) : Prop :=
  in_step r
  ∧ Z.of_nat (size (client_buckets_ r)) ≤ max_clients config
  ∧ config_ r = config.

End RateLimiter.

(** ** The rebalance orchestrator ([rebalance_orchestrator.h],
    [rebalance_orchestrator.cpp])

    [start_rebalance] and [start_drain] plan the jobs and hand each one to
    a detached thread that runs [execute_job]; the model covers the
    planning, which returns the jobs handed over, and the run of a job,
    which scans the engine again for the keys of its target.  Cancelling a
    job while it runs and the hourly removal of finished jobs are left
    out. *)

Module RebalanceOrchestrator.

Record RebalanceJob := mkRebalanceJob {
  job_id : string;
  source_node_id : string;
  target_node_id : string;
  started_at : Z;
  keys_migrated : Z;
  keys_total : Z;
  completed : bool;
  failed : bool;
  error_message : string
}.

(** [Statistics], without [average_migration_rate], which no code path
    writes. *)
Record Statistics := mkStatistics {
  total_jobs : Z;
  successful_jobs : Z;
  failed_jobs : Z;
  active_jobs : Z;
  total_keys_migrated : Z
}.

Record t := mk {
  storage_ : ShardedHashTable.t;
  old_ring_ : HashRing.t;
  new_ring_ : HashRing.t;
  batch_size_ : Z;
  jobs_ : gmap string RebalanceJob;
  job_counter_ : Z;
  stats_ : Statistics
}.

Definition make (storage : ShardedHashTable.t) (old_ring new_ring : HashRing.t)
    (batch_size : Z) : t :=
  mk storage old_ring new_ring batch_size ∅ 0 (mkStatistics 0 0 0 0 0).

(** The clock readings of one planning call: the expiry check [for_each]
    makes at each key, and, for the job numbered [n], the seconds that go
    into its id and its start time. *)
Record Clock := mkClock {
  expiry_check_at : string → Z;
  seconds_at : Z → Z;
  started_at_of : Z → Z
}.

(** [std::setfill('0') << std::setw(4)] on the job counter. *)
Definition pad4 (n : Z) : string :=
  let digits := to_string n in
  String.concat "" (replicate (4 - String.length digits) "0") +:+ digits.

Definition generate_job_id (clock : Clock) (o : t) : string * t :=
  let counter := job_counter_ o in
  ("job-" +:+ to_string (seconds_at clock counter) +:+ "-" +:+ pad4 counter,
   {| storage_ := storage_ o; old_ring_ := old_ring_ o; new_ring_ := new_ring_ o;
      batch_size_ := batch_size_ o; jobs_ := jobs_ o;
      job_counter_ := counter + 1; stats_ := stats_ o |}).

(** The owners of [key] in the old and the new ring, when both exist and
    differ: the migration path of a key that moves. *)
Definition migration_path (key : string) (o : t) : option (string * string) :=
  match HashRing.get_node key (old_ring_ o), HashRing.get_node key (new_ring_ o) with
  | Some old_node, Some new_node =>
      if bool_decide (HashRing.id old_node ≠ HashRing.id new_node)
      then Some (HashRing.id old_node, HashRing.id new_node)
      else None
  | _, _ => None
  end.

(** [calculate_affected_keys] *)
Definition calculate_affected_keys (clock : Clock) (o : t) : list string :=
  filter (λ key, is_Some (migration_path key o))
         (ShardedHashTable.for_each (expiry_check_at clock) (storage_ o)).*1.

(** [group_keys_by_migration_path] *)
Definition group_keys_by_migration_path (keys : list string) (o : t)
    : gmap (string * string) (list string) :=
  foldl (λ paths key,
           match migration_path key o with
           | Some path => <[path := default [] (paths !! path) ++ [key]]> paths
           | None => paths
           end) ∅ keys.

(** The order of [std::pair<std::string, std::string>], in which a
    [std::map] keyed by pairs is traversed. *)
Definition path_le (a b : (string * string) * list string) : Prop :=
  Is_true (String.ltb a.1.1 b.1.1
           || (String.eqb a.1.1 b.1.1 && String.leb a.1.2 b.1.2)).

#[global] Instance path_le_dec : RelDecision path_le.
Proof. intros a b. unfold path_le. apply _. Defined.

Definition in_path_order (paths : gmap (string * string) (list string))
    : list ((string * string) * list string) :=
  merge_sort path_le (map_to_list paths).

(** The job-creation loop shared by [start_rebalance] and [start_drain]:
    one job per migration path, registered in [jobs_] and handed to a
    detached thread that runs [execute_job] on it.  The thread also
    captures a copy of the keys of the path, which [execute_job] is not
    given; a path contributes its two node ids and the number of its keys.
    Returns the first job id and the jobs handed over. *)
Fixpoint create_jobs (clock : Clock)
    (paths : list ((string * string) * list string))
    (first_job_id : string) (o : t)
    : string * list RebalanceJob * t :=
  match paths with
  | [] => (first_job_id, [], o)
  | ((source_node, target_node), keys) :: rest =>
      let counter := job_counter_ o in
      let '(id, o1) := generate_job_id clock o in
      let first := if bool_decide (first_job_id = "") then id else first_job_id in
      let job :=
        mkRebalanceJob id source_node target_node (started_at_of clock counter)
                       0 (Z.of_nat (length keys)) false false "" in
      let o2 :=
        {| storage_ := storage_ o1; old_ring_ := old_ring_ o1;
           new_ring_ := new_ring_ o1; batch_size_ := batch_size_ o1;
           jobs_ := <[id := job]> (jobs_ o1);
           job_counter_ := job_counter_ o1; stats_ := stats_ o1 |} in
      let '(first', spawned, o3) := create_jobs clock rest first o2 in
      (first', job :: spawned, o3)
  end.

Definition count_jobs (n : Z) (o : t) : t :=
  {| storage_ := storage_ o; old_ring_ := old_ring_ o; new_ring_ := new_ring_ o;
     batch_size_ := batch_size_ o; jobs_ := jobs_ o;
     job_counter_ := job_counter_ o;
     stats_ :=
       mkStatistics (total_jobs (stats_ o) + n) (successful_jobs (stats_ o))
                    (failed_jobs (stats_ o)) (active_jobs (stats_ o) + n)
                    (total_keys_migrated (stats_ o)) |}.

Definition plan (clock : Clock) (keys : list string) (o : t)
    : string * list RebalanceJob * t :=
  let paths := in_path_order (group_keys_by_migration_path keys o) in
  let '(first, spawned, o') := create_jobs clock paths "" o in
  (first, spawned, count_jobs (Z.of_nat (length paths)) o').

(** [start_rebalance] *)
Definition start_rebalance (clock : Clock) (o : t)
    : string * list RebalanceJob * t :=
  match calculate_affected_keys clock o with
  | [] => ("", [], o)
  | affected_keys => plan clock affected_keys o
  end.

(** [start_drain]: the keys come from [for_each] over the engine, and are
    then grouped by the same [group_keys_by_migration_path]. *)
Definition start_drain (clock : Clock) (timeout_seconds : Z) (o : t)
    : string * list RebalanceJob * t :=
  match (ShardedHashTable.for_each (expiry_check_at clock) (storage_ o)).*1 with
  | [] => ("", [], o)
  | all_keys => plan clock all_keys o
  end.

(** *** Running a job *)

(** The sharding client as [migrate_batch] sees it: whether
    [client_->Set(key, value, ttl)] reports success.  A call that throws
    counts as a failure, [migrate_batch] returns [false] either way. *)
Definition ShardingClient : Type := string → string → option Z → bool.

Definition SetCall : Type := string * string * option Z.

(** The first loop of [execute_job]: the unexpired entries of the engine
    whose owner in the new ring is the target of the job, in the order of
    [for_each]; [scan_at] is the expiry check [for_each] makes at each
    key. *)
Definition keys_to_migrate (scan_at : string → Z) (job : RebalanceJob) (o : t)
    : list (string * CacheEntry.t) :=
  filter (λ p, HashRing.id <$> HashRing.get_node p.1 (new_ring_ o)
               = Some (target_node_id job))
         (ShardedHashTable.for_each scan_at (storage_ o)).

(** The loop of [migrate_batch] over the keys of a batch: it stops at the
    first [Set] that fails.  Returns the calls made. *)
Fixpoint send_entries (client : ShardingClient)
    (batch : list (string * CacheEntry.t)) : bool * list SetCall :=
  match batch with
  | [] => (true, [])
  | (key, entry) :: rest =>
      let value_str := String.string_of_list_byte (CacheEntry.value entry) in
      let ttl := CacheEntry.ttl_seconds entry in
      if client key value_str ttl
      then let '(ok, calls) := send_entries client rest in
           (ok, (key, value_str, ttl) :: calls)
      else (false, [(key, value_str, ttl)])
  end.

(** [migrate_batch] *)
Definition migrate_batch (client : ShardingClient)
    (batch : list (string * CacheEntry.t)) (target_node : string) (o : t)
    : bool * list SetCall :=
  match list_find (λ node, HashRing.id node = target_node)
                  (HashRing.get_all_nodes (new_ring_ o)) with
  | None => (false, [])
  | Some _ => send_entries client batch
  end.

(** [cleanup_migrated_keys]: [del] throws nothing, so the result is
    [true]. *)
Fixpoint cleanup_migrated_keys `{Platform} (keys : list string)
    (storage : ShardedHashTable.t) : option (bool * ShardedHashTable.t) :=
  match keys with
  | [] => Some (true, storage)
  | key :: rest =>
      '(_, storage') ← ShardedHashTable.del key storage;
      cleanup_migrated_keys rest storage'
  end.

Definition with_progress (migrated : Z) (job : RebalanceJob) : RebalanceJob :=
  mkRebalanceJob (job_id job) (source_node_id job) (target_node_id job)
                 (started_at job) migrated (keys_total job) (completed job)
                 (failed job) (error_message job).

Definition with_failure (message : string) (job : RebalanceJob) : RebalanceJob :=
  mkRebalanceJob (job_id job) (source_node_id job) (target_node_id job)
                 (started_at job) (keys_migrated job) (keys_total job)
                 (completed job) true message.

(** The batch loop of [execute_job], [remaining] being the keys from index
    [i] on.  Each turn takes one unit of [fuel]; with [batch_size_ = 0] the
    index does not advance, and the loop leaves only through a failed
    batch.  The index arithmetic is taken not to wrap. *)
Fixpoint migrate_batches `{Platform} (fuel : nat) (client : ShardingClient)
    (remaining : list (string * CacheEntry.t)) (job : RebalanceJob)
    (storage : ShardedHashTable.t) (calls : list SetCall) (o : t)
    : option (RebalanceJob * ShardedHashTable.t * list SetCall) :=
  match remaining with
  | [] => Some (job, storage, calls)
  | _ =>
      match fuel with
      | O => None
      | S fuel' =>
          if failed job then Some (job, storage, calls)
          else
            let size := Z.to_nat (batch_size_ o) in
            let batch := take size remaining in
            let '(ok, sent) := migrate_batch client batch (target_node_id job) o in
            if ok then
              '(_, storage') ← cleanup_migrated_keys batch.*1 storage;
              migrate_batches fuel' client (drop size remaining)
                (with_progress (keys_migrated job + Z.of_nat (length batch)) job)
                storage' (calls ++ sent) o
            else Some (with_failure "Failed to migrate batch" job, storage,
                       calls ++ sent)
      end
  end.

(** [execute_job] on a job taken from [jobs_]: the outcome is written to
    the job, which [jobs_] shares, and to the statistics.  [None] stands
    for a loop that does not end. *)
Definition execute_job `{Platform} (scan_at : string → Z) (client : ShardingClient)
    (job : RebalanceJob) (o : t) : option (RebalanceJob * list SetCall * t) :=
  let found := keys_to_migrate scan_at job o in
  let job1 :=
    mkRebalanceJob (job_id job) (source_node_id job) (target_node_id job)
                   (started_at job) (keys_migrated job) (Z.of_nat (length found))
                   (completed job) (failed job) (error_message job) in
  '(job2, storage', calls) ←
    migrate_batches (length found) client found job1 (storage_ o) [] o;
  let job3 :=
    mkRebalanceJob (job_id job2) (source_node_id job2) (target_node_id job2)
                   (started_at job2) (keys_migrated job2) (keys_total job2)
                   true (failed job2) (error_message job2) in
  let stats := stats_ o in
  let stats' :=
    if failed job3
    then mkStatistics (total_jobs stats) (successful_jobs stats)
                      (failed_jobs stats + 1) (active_jobs stats - 1)
                      (total_keys_migrated stats)
    else mkStatistics (total_jobs stats) (successful_jobs stats + 1)
                      (failed_jobs stats) (active_jobs stats - 1)
                      (total_keys_migrated stats + keys_migrated job3) in
  Some (job3, calls,
        {| storage_ := storage'; old_ring_ := old_ring_ o;
           new_ring_ := new_ring_ o; batch_size_ := batch_size_ o;
           jobs_ := alter (λ _, job3) (job_id job3) (jobs_ o);
           job_counter_ := job_counter_ o; stats_ := stats' |}).

(** The threads of the jobs handed over, in the schedule in which each job
    runs to its end before the next one starts, in the order of their
    creation. *)
Fixpoint run_jobs `{Platform} (scan_at : string → Z) (client : ShardingClient)
    (jobs : list RebalanceJob) (o : t) : option (list SetCall * t) :=
  match jobs with
  | [] => Some ([], o)
  | job :: rest =>
      '(_, calls, o1) ← execute_job scan_at client job o;
      '(calls', o2) ← run_jobs scan_at client rest o1;
      Some (calls ++ calls', o2)
  end.

(** [start_drain] followed by its jobs. *)
Definition drain `{Platform} (clock : Clock) (scan_at : string → Z)
    (client : ShardingClient) (timeout_seconds : Z) (o : t)
    : option (string * list SetCall * t) :=
  let '(first, spawned, o1) := start_drain clock timeout_seconds o in
  '(calls, o2) ← run_jobs scan_at client spawned o1;
  Some (first, calls, o2).

(** A key is assigned to a job when the job, once run, collects it. *)
Definition assigned (scan_at : string → Z) (spawned : list RebalanceJob) (o : t)
    (key : string) : Prop :=
  ∃ job, job ∈ spawned ∧ key ∈ (keys_to_migrate scan_at job o).*1.

(** C8 as stated: every key present in the engine when the drain starts is
    assigned to some migration job. *)
Definition drain_covers_engine `{Platform} (clock : Clock) (scan_at : string → Z)
    (timeout_seconds : Z) (o : t) : Prop :=
  ∀ key, is_Some (ShardedHashTable.stored key (storage_ o)) →
         assigned scan_at (start_drain clock timeout_seconds o).1.2 o key.

End RebalanceOrchestrator.

(** ** A platform for the worked examples

    The struct size of a 64-bit libstdc++ build, and FNV-1a standing in for
    [std::hash<std::string>], whose algorithm the C++ standard leaves to the
    implementation.  The general theorems hold for every platform. *)

Definition fnv1a_64 (s : string) : Z :=
  foldl (λ h b, size_t_wrap (Z.lxor h (Z.of_N (Byte.to_N b)) * 1099511628211))
        14695981039346656037 (String.list_byte_of_string s).

Definition example_platform : Platform :=
  {| sizeof_CacheEntry := 168; std_hash := fnv1a_64 |}.

Definition bytes (s : string) : list Byte.byte := String.list_byte_of_string s.

(** A short session on a four-shard engine with a 1000-byte cap: two
    inserts (the first with a TTL of 0 seconds, created at time 1000), a read
    at time 2000, a replacement, and a delete. *)
Definition example_session : list ShardedHashTable.op :=
  [ ShardedHashTable.OpSet "a" (CacheEntry.make 1000 "a" (bytes "x") (Some 0));
    ShardedHashTable.OpSet "b" (CacheEntry.make 1001 "b" (bytes "yy") None);
    ShardedHashTable.OpGet 2000 2000 2000 "a";
    ShardedHashTable.OpSet "b" (CacheEntry.make 2001 "b" (bytes "zzzz") None);
    ShardedHashTable.OpSet "c" (CacheEntry.make 2002 "c" (bytes "w") None);
    ShardedHashTable.OpDel "c" ].

(** The engine the session leaves. *)
Definition example_engine : ShardedHashTable.t :=
  default (ShardedHashTable.make 4 1000)
    (ShardedHashTable.run (H := example_platform) example_session
       (ShardedHashTable.make 4 1000)).

(** A one-shard engine capped at 400 bytes that holds ["a"] and ["b"], 170
    bytes each: a third entry of that size does not fit. *)
Definition two_inserts : list ShardedHashTable.op :=
  [ ShardedHashTable.OpSet "a" (CacheEntry.make 1 "a" (bytes "1") None);
    ShardedHashTable.OpSet "b" (CacheEntry.make 2 "b" (bytes "2") None) ].

Definition full_engine : ShardedHashTable.t :=
  default (ShardedHashTable.make 1 400)
    (ShardedHashTable.run (H := example_platform) two_inserts
       (ShardedHashTable.make 1 400)).

(** An engine holding ["counter"] at version 1, and one whose memory cap
    (100 bytes) is below the size of any entry. *)
Definition engine_after_set (num_shards : nat) (max_memory_bytes : Z)
    (key : string) (entry : CacheEntry.t) : ShardedHashTable.t :=
  match ShardedHashTable.set (H := example_platform) key entry
          (ShardedHashTable.make num_shards max_memory_bytes) with
  | Some (_, s) => s
  | None => ShardedHashTable.make num_shards max_memory_bytes
  end.

Definition counter_engine : ShardedHashTable.t :=
  engine_after_set 4 1000 "counter" (CacheEntry.make 1000 "counter" (bytes "1") None).

(** A follower holding ["k"] at version 5, a replicated SET for ["k"] with
    the older version 3, and a full two-slot replication queue. *)
Definition follower_at_5 : replication.ReplicationServiceImpl :=
  replication.mkReplicationServiceImpl
    (engine_after_set 4 1000 "k"
       (replication.replicated_entry 1000 0
          (replication.mkReplicationEntry replication.SET "k" "new" 0 5)))
    1 1 0 1000.

Definition stale_entry : replication.ReplicationEntry :=
  replication.mkReplicationEntry replication.SET "k" "old" 0 3.

(** A replicated SET that carries a time to live of 60 seconds. *)
Definition ttl_entry : replication.ReplicationEntry :=
  replication.mkReplicationEntry replication.SET "session" "token" 60 1.

Definition full_queue : replication.ReplicationManager :=
  replication.mkReplicationManager
    (replication.mkConfig "node1" 2 100 50 2000 2 false)
    [ replication.mkQueuedEntry replication.SET "k1" "v1" 60 1 10;
      replication.mkQueuedEntry replication.SET "k2" "v2" 60 2 20 ]
    2.

(** A serializer for the worked examples (every message serializes; the
    sizes grow with the strings), a log configuration with a 100-byte file
    cap and no sync on write, and a record to append. *)
Definition example_wire : WAL.Wire :=
  {| WAL.header_wire_size := λ id _ node,
       Some (20 + Z.of_nat (String.length id) + Z.of_nat (String.length node));
     WAL.entry_wire_size := λ e,
       Some (30 + Z.of_nat (String.length (WAL.key e))
                + Z.of_nat (length (WAL.value e))) |}.

Definition example_wal_config : WAL.Config :=
  WAL.mkConfig "node1" 100 10 false 100 false.

Definition example_record (k v : string) : WAL.WALEntry :=
  WAL.mkWALEntry WAL.SET 0 500 k (bytes v) 1 None None.

Definition returned {A} (o : WAL.outcome (bool * A)) (fallback : A) : A :=
  match o with
  | WAL.Returns (_, a) => a
  | WAL.Deadlock => fallback
  end.

(** A log opened at time 1000 that took two records: its file has grown to
    119 bytes, past the cap, so the next append rotates. *)
Definition wal_due_for_rotation : WAL.t :=
  let w0 := WAL.Open (H := example_wire) (WAL.mkEnv 1000 true true)
              (WAL.make example_wal_config ∅) in
  let w1 := returned (WAL.AppendEntry (H := example_wire) (WAL.mkEnv 1001 true true)
                        (example_record "k1" "v1") w0) w0 in
  returned (WAL.AppendEntry (H := example_wire) (WAL.mkEnv 1002 true true)
              (example_record "k2" "v2") w1) w1.

(** Two snapshots for the recovery examples.  The older one (timestamp
    100) is intact: its metadata records the checksum of the entries its
    file holds.  The newer one (timestamp 200) recorded the checksum of the
    entry ("a","2") but its file is damaged, in one example so that it
    cannot be read (wrong first line), in the other so that it reads back
    other bytes. *)
Definition old_entries : list (string * CacheEntry.t) :=
  [ SnapshotManager.entry_of_tuple 0
      (SnapshotManager.mkTuple "a" (bytes "1") 0 1 50 0) ].

Definition new_entries : list (string * CacheEntry.t) :=
  [ SnapshotManager.entry_of_tuple 0
      (SnapshotManager.mkTuple "a" (bytes "2") 0 2 150 0) ].

Definition old_snapshot : SnapshotManager.SnapshotMetadata :=
  SnapshotManager.mkSnapshotMetadata "snapshot-node1-100" 100 1 60 "node1"
    (SnapshotManager.CalculateChecksum (H := example_platform) old_entries)
    "snapshots/snapshot-node1-100.snapshot".

Definition new_snapshot : SnapshotManager.SnapshotMetadata :=
  SnapshotManager.mkSnapshotMetadata "snapshot-node1-200" 200 1 60 "node1"
    (SnapshotManager.CalculateChecksum (H := example_platform) new_entries)
    "snapshots/snapshot-node1-200.snapshot".

Definition old_file : SnapshotManager.SnapshotFile :=
  SnapshotManager.mkSnapshotFile "DISTCACHE_SNAPSHOT_V1" "snapshot-node1-100"
    [ SnapshotManager.mkTuple "a" (bytes "1") 0 1 50 0 ].

Definition unreadable_file : SnapshotManager.SnapshotFile :=
  SnapshotManager.mkSnapshotFile "DISTCACHE_SNAPSH" "" [].

Definition altered_file : SnapshotManager.SnapshotFile :=
  SnapshotManager.mkSnapshotFile "DISTCACHE_SNAPSHOT_V1" "snapshot-node1-200"
    [ SnapshotManager.mkTuple "a" (bytes "X") 0 2 150 0 ].

Definition snapshots_with (newer_file : SnapshotManager.SnapshotFile)
    : SnapshotManager.t :=
  SnapshotManager.mk [old_snapshot; new_snapshot]
    (ShardedHashTable.make 4 1000) 0 0
    {[ "snapshots/snapshot-node1-100.snapshot" := old_file;
       "snapshots/snapshot-node1-200.snapshot" := newer_file ]}.

(** A run of a log: opened at time 1000, three appends, the third of which
    rotates. *)
Definition example_calls : list WAL.call :=
  [ WAL.CallOpen (WAL.mkEnv 1000 true true);
    WAL.CallAppend (WAL.mkEnv 1001 true true) (example_record "k1" "v1");
    WAL.CallAppend (WAL.mkEnv 1002 true true) (example_record "k2" "v2");
    WAL.CallAppend (WAL.mkEnv 2000 true true) (example_record "k3" "v3") ].

Definition example_log : WAL.t :=
  match WAL.perform_all (H := example_wire) example_calls
          (WAL.make example_wal_config ∅) with
  | WAL.Returns w => w
  | WAL.Deadlock => WAL.make example_wal_config ∅
  end.

(** A log with the default [sync_on_write], opened at time 1000. *)
Definition durable_wal : WAL.t :=
  WAL.Open (H := example_wire) (WAL.mkEnv 1000 true true)
    (WAL.make (WAL.mkConfig "node1" 100 10 true 100 false) ∅).

(** A log that keeps one file, opened at time 999. *)
Definition single_file_wal : WAL.t :=
  WAL.Open (H := example_wire) (WAL.mkEnv 999 true true)
    (WAL.make (WAL.mkConfig "node1" 100 1 false 100 false) ∅).

(** A log directory of two files: the older one holds a SET and a DELETE of
    ["a"] and a SET of ["b"] with a time to live, the newer one cannot be
    read. *)
Definition example_wal_files : list string := ["wal-node1-200"; "wal-node1-100"].

Definition example_ReadWALFile (wal_file_id : string) : option (list WAL.WALEntry) :=
  if bool_decide (wal_file_id = "wal-node1-100") then
    Some [ WAL.mkWALEntry WAL.SET 1 1000 "a" (bytes "1") 1 None None;
           WAL.mkWALEntry WAL.SET 3 1200 "b" (bytes "2") 1 (Some 60) None;
           WAL.mkWALEntry WAL.DELETE 2 1100 "a" [] 0 None None ]
  else None.

(** The manager of [node1] watches [node2], which fails three checks in a
    row. *)
Definition example_membership_config : MembershipManager.Config :=
  MembershipManager.mkConfig "node1" 1000 3000 3 6.

Definition example_membership_events : list MembershipManager.event :=
  [ MembershipManager.EvAddNode 0 (HashRing.mkNode "node1" "localhost:50051");
    MembershipManager.EvAddNode 0 (HashRing.mkNode "node2" "localhost:50052");
    MembershipManager.EvWorkerTurn (λ _, 1000) (λ _, false) None;
    MembershipManager.EvWorkerTurn (λ _, 2000) (λ _, false) None;
    MembershipManager.EvWorkerTurn (λ _, 3000) (λ _, false) None ].

(** A drain of [node-a] in a cluster of [node-a] and [node-b] (4 virtual
    nodes each): the old ring has both nodes, the new ring only [node-b].
    The engine of [node-a] holds ["user:2"], which it owns in the old ring,
    and ["user:1"], which [node-b] owns in both rings. *)
Definition ring_a_b : HashRing.t :=
  (HashRing.add_node (HashRing.mkNode "node-b" "localhost:50052")
     (HashRing.add_node (HashRing.mkNode "node-a" "localhost:50051")
        (HashRing.make 4)).2).2.

Definition ring_b : HashRing.t :=
  (HashRing.add_node (HashRing.mkNode "node-b" "localhost:50052")
     (HashRing.make 4)).2.

(** The failover manager of [node-b] on the ring of [node-a] and
    [node-b], with a callback set. *)
Definition example_failover_manager : FailoverManager.t :=
  FailoverManager.SetFailoverCallback true
    (FailoverManager.make (FailoverManager.mkConfig "node-b" 2 30000 true) ring_a_b).

(** A quorum of 2 out of 3 replicas, and what the replicas can bring
    back. *)
Definition example_quorum_config : QuorumCoordinator.QuorumConfig :=
  QuorumCoordinator.mkQuorumConfig 2 2 3 5000.

Definition example_replicas : list string :=
  ["localhost:50051"; "localhost:50052"; "localhost:50053"].

Definition stored (node : string) (version : Z)
    : QuorumCoordinator.OperationResult bool :=
  QuorumCoordinator.mkOperationResult true (Some true) "" node version 0 ∅ false.

Definition found (node value : string) (version timestamp_ms : Z)
    : QuorumCoordinator.OperationResult string :=
  QuorumCoordinator.mkOperationResult true (Some value) "" node version timestamp_ms ∅
                                      false.

(** A limiter that tracks at most two clients, with a burst of two
    requests for each of them, and three clients that call in turn. *)
Definition example_limiter_config : RateLimiter.Config :=
  RateLimiter.mkConfig 2 (TokenBucket.to_double 1) 100 (TokenBucket.to_double 10)
                       true true 2 300.

Definition at_time (now : Z) : RateLimiter.Readings :=
  RateLimiter.mkReadings now now now now now now.

Definition example_limiter_calls : list RateLimiter.call :=
  [RateLimiter.CallAllowRequest "10.0.0.1" 1 (at_time 1000000000);
   RateLimiter.CallAllowRequest "10.0.0.2" 1 (at_time 2000000000);
   RateLimiter.CallAllowRequest "10.0.0.3" 1 (at_time 3000000000);
   RateLimiter.CallAllowRequest "10.0.0.3" 5 (at_time 3000000001);
   RateLimiter.CallCleanup 400000000000].

(** Three snapshots of [node-a], and the directory with their files. *)
Definition example_snapshots : list SnapshotManager.SnapshotMetadata :=
  [SnapshotManager.mkSnapshotMetadata "snapshot-node-a-3000" 3000 0 0 "node-a" ""
                                      "snapshots/snapshot-node-a-3000.snapshot";
   SnapshotManager.mkSnapshotMetadata "snapshot-node-a-1000" 1000 0 0 "node-a" ""
                                      "snapshots/snapshot-node-a-1000.snapshot";
   SnapshotManager.mkSnapshotMetadata "snapshot-node-a-2000" 2000 0 0 "node-a" ""
                                      "snapshots/snapshot-node-a-2000.snapshot"].

Definition example_snapshot_manager : SnapshotManager.t :=
  {| SnapshotManager.snapshots_ := example_snapshots;
     SnapshotManager.storage_ := ShardedHashTable.make 4 100000;
     SnapshotManager.total_restores_ := 0;
     SnapshotManager.total_restores_failed_ := 0;
     SnapshotManager.files :=
       list_to_map
         ((λ meta, (SnapshotManager.file_path meta,
                    SnapshotManager.mkSnapshotFile "DISTCACHE_SNAPSHOT_V1"
                      (SnapshotManager.snapshot_id meta) []))
            <$> example_snapshots) |}.

Definition engine_of_node_a : ShardedHashTable.t :=
  default (ShardedHashTable.make 4 100000)
    (ShardedHashTable.run (H := example_platform)
       [ ShardedHashTable.OpSet "user:1" (CacheEntry.make 1000 "user:1" (bytes "Alice") None);
         ShardedHashTable.OpSet "user:2" (CacheEntry.make 1001 "user:2" (bytes "Bob") None) ]
       (ShardedHashTable.make 4 100000)).

Definition draining_node_a : RebalanceOrchestrator.t :=
  RebalanceOrchestrator.make engine_of_node_a ring_a_b ring_b 100.

Definition example_clock : RebalanceOrchestrator.Clock :=
  RebalanceOrchestrator.mkClock (λ _, 5000) (λ _, 5) (λ _, 5000).

(** A drain of [node-a] in a cluster of three: the old ring has [node-a],
    [node-b] and [node-c], the new ring [node-b] and [node-c].  The engine
    of [node-a] holds ["user:14"], which it owns in the old ring and
    [node-b] owns in the new one, and ["user:2"], which [node-c] owns in
    both rings. *)
Definition ring_a_b_c : HashRing.t :=
  (HashRing.add_node (HashRing.mkNode "node-c" "localhost:50053") ring_a_b).2.

Definition ring_b_c : HashRing.t :=
  (HashRing.add_node (HashRing.mkNode "node-c" "localhost:50053") ring_b).2.

Definition engine_of_node_a_of_three : ShardedHashTable.t :=
  default (ShardedHashTable.make 4 100000)
    (ShardedHashTable.run (H := example_platform)
       [ ShardedHashTable.OpSet "user:14" (CacheEntry.make 1000 "user:14" (bytes "Carol") None);
         ShardedHashTable.OpSet "user:2" (CacheEntry.make 1001 "user:2" (bytes "Bob") None) ]
       (ShardedHashTable.make 4 100000)).

Definition draining_node_a_of_three : RebalanceOrchestrator.t :=
  RebalanceOrchestrator.make engine_of_node_a_of_three ring_a_b_c ring_b_c 100.

(** * Lemmas and theorems *)

(** ** Machine arithmetic *)

Lemma size_t_wrap_small z : 0 ≤ z < 2 ^ 64 → size_t_wrap z = z.
Proof. intros H. unfold size_t_wrap. by apply Z.mod_small. Qed.

Lemma size_t_wrap_range z : 0 ≤ size_t_wrap z < 2 ^ 64.
Proof. unfold size_t_wrap. apply Z.mod_pos_bound. lia. Qed.

Lemma size_t_wrap_add_l a b : size_t_wrap (size_t_wrap a + b) = size_t_wrap (a + b).
Proof. unfold size_t_wrap. by rewrite Zplus_mod_idemp_l. Qed.

Lemma size_t_wrap_sub_l a b : size_t_wrap (size_t_wrap a - b) = size_t_wrap (a - b).
Proof. unfold size_t_wrap. by rewrite Zminus_mod_idemp_l. Qed.

Lemma size_t_wrap_add_r a b : size_t_wrap (a + size_t_wrap b) = size_t_wrap (a + b).
Proof. unfold size_t_wrap. by rewrite Zplus_mod_idemp_r. Qed.

Lemma size_t_wrap_sub_r a b : size_t_wrap (a - size_t_wrap b) = size_t_wrap (a - b).
Proof. unfold size_t_wrap. by rewrite Zminus_mod_idemp_r. Qed.

Lemma int32_wrap_small z : - 2 ^ 31 ≤ z < 2 ^ 31 → int32_wrap z = z.
Proof.
  intros H. unfold int32_wrap. rewrite Z.mod_small; lia.
Qed.

(** A time to live of up to 2,147,483 seconds gives the product in
    milliseconds; from 2,147,484 seconds on the product does not fit. *)
Lemma ttl_ms_exact seconds :
  -2147483 ≤ seconds ≤ 2147483 → int32_wrap (seconds * 1000) = seconds * 1000.
Proof. intros H. apply int32_wrap_small. lia. Qed.

(** ** Version vectors *)

Module version_vector_facts.
Import version_vector.

Lemma Compare_loop_classify v1 v2 nodes d1 d2 :
  d1 && d2 = false →
  Compare_loop v1 v2 nodes d1 d2 =
    classify (d1 || exceeds_on nodes v1 v2) (d2 || exceeds_on nodes v2 v1).
Proof.
  revert d1 d2. induction nodes as [|n rest IH]; intros d1 d2 Hd; simpl.
  - rewrite !orb_false_r. unfold classify. by destruct d1, d2.
  - destruct (Z.gtb_spec (at_or_zero v1 n) (at_or_zero v2 n)) as [Hgt|Hle].
    + assert (Hflip : (at_or_zero v2 n >? at_or_zero v1 n) = false)
        by (rewrite Z.gtb_ltb; apply Z.ltb_ge; lia).
      rewrite Hflip.
      simpl. destruct d2; simpl.
      * unfold classify. by rewrite !orb_true_r.
      * rewrite IH by done. by rewrite orb_true_r.
    + destruct (Z.gtb_spec (at_or_zero v2 n) (at_or_zero v1 n)) as [Hgt'|Hle'];
        simpl.
      * destruct d1; simpl.
        -- unfold classify. by rewrite !orb_true_r.
        -- rewrite IH by done. by rewrite orb_true_r.
      * rewrite Hd. by rewrite IH.
Qed.

Lemma exceeds_on_spec nodes v1 v2 :
  exceeds_on nodes v1 v2 = true ↔ ∃ n, n ∈ nodes ∧ GetVersion v2 n < GetVersion v1 n.
Proof.
  unfold exceeds_on. rewrite existsb_exists. split; intros (n & Hn & Hgt);
    exists n; (split; [by apply list_elem_of_In|]).
  - apply Z.gtb_gt in Hgt. unfold GetVersion, at_or_zero in *. lia.
  - apply Z.gtb_gt. unfold GetVersion, at_or_zero in *. lia.
Qed.

Lemma keys_of_enumerates v : enumerates (keys_of v) v.
Proof.
  intros n. unfold keys_of. rewrite list_elem_of_fmap. split.
  - intros ([k x] & -> & Hin). apply elem_of_map_to_list in Hin. by eexists.
  - intros [x Hx]. exists (n, x). split; [done|]. by apply elem_of_map_to_list.
Qed.

Lemma collect_nodes_complete v1 v2 o1 o2 n :
  enumerates o1 v1 → enumerates o2 v2 →
  GetVersion v1 n ≠ GetVersion v2 n → n ∈ collect_nodes v1 o1 o2.
Proof.
  intros H1 H2 Hne. unfold collect_nodes. rewrite elem_of_app, list_elem_of_filter.
  unfold GetVersion in Hne.
  destruct (v1 !! n) as [x|] eqn:E1.
  - left. apply H1. by eexists.
  - right. split; [done|]. apply H2.
    destruct (v2 !! n) as [y|] eqn:E2; [by eexists | done].
Qed.

Lemma exceeds_on_collect v1 v2 o1 o2 :
  enumerates o1 v1 → enumerates o2 v2 →
  exceeds_on (collect_nodes v1 o1 o2) v1 v2 = true ↔ exceeds v1 v2.
Proof.
  intros H1 H2. rewrite exceeds_on_spec. split.
  - intros (n & _ & Hgt). by exists n.
  - intros (n & Hgt). exists n. split; [|done].
    eapply collect_nodes_complete; eauto. lia.
Qed.

Lemma exceeds_on_collect_flip v1 v2 o1 o2 :
  enumerates o1 v1 → enumerates o2 v2 →
  exceeds_on (collect_nodes v1 o1 o2) v2 v1 = true ↔ exceeds v2 v1.
Proof.
  intros H1 H2. rewrite exceeds_on_spec. split.
  - intros (n & _ & Hgt). by exists n.
  - intros (n & Hgt). exists n. split; [|done].
    eapply collect_nodes_complete; eauto. lia.
Qed.

(** The result of [Compare] does not depend on the enumeration orders:
    it is the classification of the two "exceeds" facts. *)
Lemma Compare_in_cases v1 v2 o1 o2 :
  enumerates o1 v1 → enumerates o2 v2 →
  ∃ d1 d2 : bool,
    (d1 = true ↔ exceeds v1 v2) ∧ (d2 = true ↔ exceeds v2 v1) ∧
    Compare_in o1 o2 v1 v2 = classify d1 d2.
Proof.
  intros H1 H2.
  exists (exceeds_on (collect_nodes v1 o1 o2) v1 v2),
         (exceeds_on (collect_nodes v1 o1 o2) v2 v1).
  split; [by apply exceeds_on_collect|].
  split; [by apply exceeds_on_collect_flip|].
  unfold Compare_in. by rewrite Compare_loop_classify.
Qed.

Lemma Merge_in_lookup (order2 : list (string * Z)) (v1 : VersionVector) n :
  NoDup order2.*1 →
  Merge_in order2 v1 !! n =
    union_with (λ a b, Some (Z.max a b)) (v1 !! n)
               ((list_to_map order2 : VersionVector) !! n).
Proof.
  unfold Merge_in. revert v1.
  induction order2 as [|[k x] rest IH]; intros v1 Hnd; simpl.
  - rewrite lookup_empty. by destruct (v1 !! n).
  - apply NoDup_cons in Hnd as [Hk Hnd]. rewrite IH by done.
    unfold Merge_step; simpl. destruct (decide (k = n)) as [->|Hne].
    + rewrite lookup_insert_eq.
      rewrite (not_elem_of_list_to_map_1 (M:=gmap string) rest n) by done.
      destruct (v1 !! n); by rewrite lookup_insert_eq.
    + rewrite (lookup_insert_ne _ k n) by done.
      by destruct (v1 !! k); rewrite lookup_insert_ne.
Qed.

Lemma Merge_lookup (v1 v2 : VersionVector) n :
  Merge v1 v2 !! n = union_with (λ a b, Some (Z.max a b)) (v1 !! n) (v2 !! n).
Proof.
  unfold Merge. rewrite Merge_in_lookup by apply NoDup_fst_map_to_list.
  by rewrite list_to_map_to_list.
Qed.

Lemma Compare_in_cases_match v1 v2 o1 o2 :
  enumerates o1 v1 → enumerates o2 v2 →
  match Compare_in o1 o2 v1 v2 with
  | EQUAL => ¬ exceeds v1 v2 ∧ ¬ exceeds v2 v1
  | LESS => ¬ exceeds v1 v2 ∧ exceeds v2 v1
  | GREATER => exceeds v1 v2 ∧ ¬ exceeds v2 v1
  | CONCURRENT => exceeds v1 v2 ∧ exceeds v2 v1
  end.
Proof.
  intros H1 H2.
  destruct (Compare_in_cases v1 v2 o1 o2 H1 H2) as (d1 & d2 & Hd1 & Hd2 & ->).
  destruct d1, d2; simpl; split;
    try (by apply Hd1); try (by apply Hd2);
    try (intros He; apply Hd1 in He; discriminate);
    try (intros He; apply Hd2 in He; discriminate).
Qed.

Lemma Compare_spec v1 v2 :
  match Compare v1 v2 with
  | EQUAL => ¬ exceeds v1 v2 ∧ ¬ exceeds v2 v1
  | LESS => ¬ exceeds v1 v2 ∧ exceeds v2 v1
  | GREATER => exceeds v1 v2 ∧ ¬ exceeds v2 v1
  | CONCURRENT => exceeds v1 v2 ∧ exceeds v2 v1
  end.
Proof. apply Compare_in_cases_match; apply keys_of_enumerates. Qed.

(** Whatever order the two hash maps are enumerated in, the comparison
    gives the same answer. *)
Lemma Compare_in_order_irrelevant v1 v2 o1 o2 :
  enumerates o1 v1 → enumerates o2 v2 →
  Compare_in o1 o2 v1 v2 = Compare v1 v2.
Proof.
  intros H1 H2.
  pose proof (Compare_in_cases_match v1 v2 o1 o2 H1 H2) as Ha.
  pose proof (Compare_spec v1 v2) as Hb.
  destruct (Compare_in o1 o2 v1 v2), (Compare v1 v2); try done;
    destruct Ha, Hb; contradiction.
Qed.

Lemma Merge_in_order_irrelevant (v1 v2 : VersionVector) order2 :
  order2 ≡ₚ map_to_list v2 → Merge_in order2 v1 = Merge v1 v2.
Proof.
  intros Hp.
  assert (Hnd : NoDup order2.*1) by (rewrite Hp; apply NoDup_fst_map_to_list).
  assert (Hmap : (list_to_map order2 : VersionVector) = v2).
  { rewrite (list_to_map_proper order2 (map_to_list v2)) by done.
    apply list_to_map_to_list. }
  apply map_eq. intros n. rewrite Merge_lookup, Merge_in_lookup by done.
  by rewrite Hmap.
Qed.

Lemma exceeds_irrefl v : ¬ exceeds v v.
Proof. intros [n Hn]. lia. Qed.

Lemma not_exceeds_le v1 v2 :
  ¬ exceeds v1 v2 → ∀ n, GetVersion v1 n ≤ GetVersion v2 n.
Proof.
  intros Hne n. destruct (Z_le_gt_dec (GetVersion v1 n) (GetVersion v2 n)); [done|].
  exfalso. apply Hne. exists n. lia.
Qed.

Lemma Compare_refl v : Compare v v = EQUAL.
Proof.
  pose proof (Compare_spec v v) as H. pose proof (exceeds_irrefl v) as Hi.
  destruct (Compare v v); [done | | |]; destruct H; contradiction.
Qed.

Lemma Compare_LESS_GREATER v1 v2 :
  Compare v1 v2 = LESS → Compare v2 v1 = GREATER.
Proof.
  intros HL. pose proof (Compare_spec v1 v2) as H12.
  pose proof (Compare_spec v2 v1) as H21. rewrite HL in H12.
  destruct H12 as [Hn He].
  destruct (Compare v2 v1); [| |done|]; destruct H21; contradiction.
Qed.

Lemma Compare_GREATER_dominates v1 v2 :
  Compare v1 v2 = GREATER ↔ dominates v1 v2.
Proof.
  pose proof (Compare_spec v1 v2) as H. unfold dominates. split.
  - intros HG. rewrite HG in H. destruct H as [He Hne].
    split; [by apply not_exceeds_le | done].
  - intros [Hle He].
    assert (¬ exceeds v2 v1) as Hne by (intros [n Hn]; specialize (Hle n); lia).
    destruct (Compare v1 v2); [| |done|]; destruct H; contradiction.
Qed.

Lemma Dominates_dominates v1 v2 : Dominates v1 v2 = true ↔ dominates v1 v2.
Proof.
  unfold Dominates. rewrite bool_decide_eq_true. apply Compare_GREATER_dominates.
Qed.

Lemma Compare_CONCURRENT v1 v2 :
  ¬ dominates v1 v2 → ¬ dominates v2 v1 → ¬ same_versions v1 v2 →
  Compare v1 v2 = CONCURRENT.
Proof.
  intros Hn12 Hn21 Hneq. pose proof (Compare_spec v1 v2) as H.
  destruct (Compare v1 v2); [| | |done]; exfalso; destruct H as [Ha Hb].
  - apply Hneq. intros n.
    pose proof (not_exceeds_le _ _ Ha n). pose proof (not_exceeds_le _ _ Hb n). lia.
  - apply Hn21. split; [by apply not_exceeds_le | done].
  - apply Hn12. split; [by apply not_exceeds_le | done].
Qed.

Lemma Merge_GetVersion_non_negative (a b : VersionVector) :
  non_negative a → non_negative b → merge_is_pointwise_max a b.
Proof.
  intros Ha Hb n. unfold GetVersion. rewrite Merge_lookup.
  destruct (a !! n) as [x|] eqn:Ea, (b !! n) as [y|] eqn:Eb; simpl; try done.
  - apply Ha in Ea. simpl in Ea. lia.
  - apply Hb in Eb. simpl in Eb. lia.
Qed.

Example Compare_test_equal :
  Compare {[ "node1" := 5; "node2" := 3 ]} {[ "node1" := 5; "node2" := 3 ]} = EQUAL.
Proof. by vm_compute. Qed.

Example Compare_test_less :
  Compare {[ "node1" := 5; "node2" := 3 ]} {[ "node1" := 6; "node2" := 3 ]} = LESS.
Proof. by vm_compute. Qed.

Example Compare_test_concurrent :
  Compare {[ "node1" := 5; "node2" := 3 ]} {[ "node1" := 4; "node2" := 5 ]} = CONCURRENT.
Proof. by vm_compute. Qed.

Example Merge_test :
  Merge {[ "node1" := 5; "node2" := 3 ]} {[ "node1" := 3; "node2" := 7; "node3" := 2 ]}
  = {[ "node1" := 5; "node2" := 7; "node3" := 2 ]}.
Proof. by vm_compute. Qed.

(** [Merge] copies the entry of a node that only one vector holds, so a
    negative version, which no vector of the program holds, would not be
    raised to 0. *)
Lemma Merge_copies_a_lone_negative_version :
  ¬ merge_is_pointwise_max ∅ {[ "n1" := -5 ]}.
Proof.
  intros H. specialize (H "n1"). vm_compute in H. discriminate.
Qed.

Lemma counted_non_negative v : counted v → non_negative v.
Proof. intros H n ver Hn. specialize (H n ver Hn). simpl in *. lia. Qed.

Lemma counted_empty : counted ∅.
Proof. apply map_Forall_empty. Qed.

Lemma Increment_counted v n : counted v → counted (Increment v n).2.
Proof.
  intros Hv. unfold Increment. destruct (v !! n) as [ver|] eqn:Hn; simpl.
  - apply map_Forall_insert_2; [|done]. specialize (Hv n ver Hn). simpl in Hv. lia.
  - by apply map_Forall_insert_2.
Qed.

Lemma Merge_counted a b : counted a → counted b → counted (Merge a b).
Proof.
  intros Ha Hb n ver. rewrite Merge_lookup.
  destruct (a !! n) as [x|] eqn:Ea, (b !! n) as [y|] eqn:Eb; simpl; try done.
  - intros [= <-]. specialize (Ha n x Ea). simpl in Ha. lia.
  - intros [= <-]. by apply (Ha n).
  - intros [= <-]. by apply (Hb n).
Qed.

Lemma counted_same_versions a b : counted a → counted b → same_versions a b → a = b.
Proof.
  intros Ha Hb Hsame. apply map_eq. intros n. specialize (Hsame n).
  unfold GetVersion in Hsame.
  destruct (a !! n) as [x|] eqn:Ea, (b !! n) as [y|] eqn:Eb; try done.
  - by subst.
  - specialize (Ha n x Ea). simpl in Ha. lia.
  - specialize (Hb n y Eb). simpl in Hb. lia.
Qed.

(** C9: for all version vectors [a] and [b], [Compare a a] is [EQUAL];
    [Compare a b = LESS] gives [Compare b a = GREATER]; when neither vector
    dominates the other and they are not equal, [Compare a b] is
    [CONCURRENT]; and [Merge(a,b)[n] = max(a[n], b[n])] for every node [n],
    absent entries counting as 0.  The vectors are those of the program,
    whose stored versions are counts of at least 1: [Increment] and [Merge]
    yield no others.  The first two laws hold for all maps, the third for
    all maps that differ at some node, the last for all maps without a
    negative version; [Merge] holds the maximum for a node both vectors
    have and the single stored value for a node only one has. *)
Theorem C9_version_vector_laws (a b : VersionVector) :
  Compare a a = EQUAL ∧
  (Compare a b = LESS → Compare b a = GREATER) ∧
  (¬ dominates a b → ¬ dominates b a → ¬ same_versions a b →
   Compare a b = CONCURRENT) ∧
  (∀ n, Merge a b !! n = union_with (λ x y, Some (Z.max x y)) (a !! n) (b !! n)) ∧
  (non_negative a → non_negative b → merge_is_pointwise_max a b) ∧
  (counted a → counted b →
   (¬ dominates a b → ¬ dominates b a → a ≠ b → Compare a b = CONCURRENT) ∧
   merge_is_pointwise_max a b ∧
   counted (Merge a b) ∧
   ∀ n, counted (Increment a n).2).
Proof.
  split; [apply Compare_refl|].
  split; [apply Compare_LESS_GREATER|].
  split; [apply Compare_CONCURRENT|].
  split; [apply Merge_lookup|].
  split; [apply Merge_GetVersion_non_negative|].
  intros Ha Hb. split; [|split; [|split]].
  - intros Hab Hba Hne. apply Compare_CONCURRENT; [done|done|].
    intros Hsame. by apply Hne, counted_same_versions.
  - by apply Merge_GetVersion_non_negative; apply counted_non_negative.
  - by apply Merge_counted.
  - intros n. by apply Increment_counted.
Qed.

Lemma C9_version_vector_laws_witness :
  counted {[ "node1" := 5; "node2" := 3 ]} ∧
  counted {[ "node1" := 3; "node2" := 7; "node3" := 2 ]} ∧
  merge_is_pointwise_max {[ "node1" := 5; "node2" := 3 ]}
                         {[ "node1" := 3; "node2" := 7; "node3" := 2 ]}.
Proof.
  assert (Ha : counted {[ "node1" := 5; "node2" := 3 ]})
    by (apply (bool_decide_unpack _); vm_compute; exact I).
  assert (Hb : counted {[ "node1" := 3; "node2" := 7; "node3" := 2 ]})
    by (apply (bool_decide_unpack _); vm_compute; exact I).
  split; [exact Ha|]. split; [exact Hb|].
  exact (proj1 (proj2 (proj2 (proj2 (proj2 (proj2 (proj2
           (C9_version_vector_laws _ _))))) Ha Hb))).
Defined.

Lemma Compare_flip v1 v2 :
  Compare v2 v1 =
    match Compare v1 v2 with
    | EQUAL => EQUAL | LESS => GREATER | GREATER => LESS | CONCURRENT => CONCURRENT
    end.
Proof.
  pose proof (Compare_spec v1 v2) as H12. pose proof (Compare_spec v2 v1) as H21.
  destruct (Compare v1 v2), (Compare v2 v1); try done;
    destruct H12, H21; contradiction.
Qed.

(** X1: [Merge] is the join of a semilattice on version vectors: as
    maps, [Merge a b] and [Merge b a] are equal, merging is associative, and
    merging a vector with itself gives the vector back.  Replicas that merge
    the same vectors in different orders therefore end with the same
    vector. *)
Theorem Merge_is_a_semilattice_join (a b c : VersionVector) :
  Merge a b = Merge b a ∧
  Merge (Merge a b) c = Merge a (Merge b c) ∧
  Merge a a = a.
Proof.
  repeat split; apply map_eq; intros n; rewrite !Merge_lookup.
  - destruct (a !! n), (b !! n); simpl; f_equal; lia.
  - destruct (a !! n), (b !! n), (c !! n); simpl; f_equal; lia.
  - destruct (a !! n); simpl; f_equal; lia.
Qed.

(** X2: [Increment(vv, node_id)] returns the node's previous version
    plus one (1 for a node the vector did not hold), stores it for the node
    and leaves every other node as it was; the vector after the call compares
    [GREATER] than the vector before it, and the one before [LESS] than the
    one after. *)
Theorem Increment_moves_the_vector_forward (vv : VersionVector) (node_id : string) :
  (Increment vv node_id).1 = GetVersion vv node_id + 1 ∧
  GetVersion (Increment vv node_id).2 node_id = (Increment vv node_id).1 ∧
  (∀ n, n ≠ node_id → (Increment vv node_id).2 !! n = vv !! n) ∧
  Compare (Increment vv node_id).2 vv = GREATER ∧
  Compare vv (Increment vv node_id).2 = LESS.
Proof.
  assert (Hver : (Increment vv node_id).1 = GetVersion vv node_id + 1).
  { unfold Increment, GetVersion. by destruct (vv !! node_id). }
  assert (Hget : GetVersion (Increment vv node_id).2 node_id = GetVersion vv node_id + 1).
  { unfold Increment, GetVersion. destruct (vv !! node_id); simpl;
      by rewrite lookup_insert_eq. }
  assert (Hother : ∀ n, n ≠ node_id → (Increment vv node_id).2 !! n = vv !! n).
  { intros n Hn. unfold Increment. destruct (vv !! node_id); simpl;
      by rewrite lookup_insert_ne. }
  assert (HG : Compare (Increment vv node_id).2 vv = GREATER).
  { apply Compare_GREATER_dominates. split.
    - intros n. destruct (decide (n = node_id)) as [->|Hn]; [lia|].
      unfold GetVersion. rewrite Hother by done. lia.
    - exists node_id. lia. }
  split; [done|]. split; [congruence|]. split; [done|]. split; [done|].
  rewrite (Compare_flip (Increment vv node_id).2 vv). by rewrite HG.
Qed.

End version_vector_facts.

(** ** Conflict resolution *)

Module ConflictResolver_facts.
Import version_vector version_vector_facts ConflictResolver.

(** X3: two replicas that resolve the same conflict with the entries
    in opposite order.  The result is the index of the winner among the
    arguments, so the replicas pick the same entry when one call returns 0
    and the other 1.  Under [LAST_WRITE_WINS] both calls return 0 (each
    replica keeps its first argument) exactly when the two entries tie on
    modification time and on version, and the calls never both return 1.
    Under [VECTOR_DOMINANCE] both return 0 exactly when neither version
    vector dominates the other and the modification times tie. *)
Theorem ResolveConflict_agreement (entry1 entry2 : CacheEntry.t) :
  let ties_lww :=
    CacheEntry.modified_at_ms entry1 = CacheEntry.modified_at_ms entry2 ∧
    CacheEntry.version entry1 = CacheEntry.version entry2 in
  let ties_vector :=
    Compare (CacheEntry.version_vector entry1) (CacheEntry.version_vector entry2)
      ≠ GREATER ∧
    Compare (CacheEntry.version_vector entry1) (CacheEntry.version_vector entry2)
      ≠ LESS ∧
    CacheEntry.modified_at_ms entry1 = CacheEntry.modified_at_ms entry2 in
  (ResolveConflict entry1 entry2 LAST_WRITE_WINS = 0 ∧
   ResolveConflict entry2 entry1 LAST_WRITE_WINS = 0 ↔ ties_lww) ∧
  (ResolveConflict entry1 entry2 LAST_WRITE_WINS = 0 ∨
   ResolveConflict entry2 entry1 LAST_WRITE_WINS = 0) ∧
  (ResolveConflict entry1 entry2 VECTOR_DOMINANCE = 0 ∧
   ResolveConflict entry2 entry1 VECTOR_DOMINANCE = 0 ↔ ties_vector) ∧
  (ResolveConflict entry1 entry2 VECTOR_DOMINANCE = 0 ∨
   ResolveConflict entry2 entry1 VECTOR_DOMINANCE = 0).
Proof.
  cbv zeta. unfold ResolveConflict.
  rewrite (Compare_flip (CacheEntry.version_vector entry1)
                        (CacheEntry.version_vector entry2)).
  set (m1 := CacheEntry.modified_at_ms entry1).
  set (m2 := CacheEntry.modified_at_ms entry2).
  set (x1 := CacheEntry.version entry1).
  set (x2 := CacheEntry.version entry2).
  destruct (Z.gtb_spec m1 m2), (Z.gtb_spec m2 m1), (Z.geb_spec x1 x2),
    (Z.geb_spec x2 x1), (Z.geb_spec m1 m2), (Z.geb_spec m2 m1);
    try lia;
    destruct (Compare (CacheEntry.version_vector entry1)
                      (CacheEntry.version_vector entry2));
    intuition (lia || congruence).
Qed.

End ConflictResolver_facts.

(** ** The storage engine *)

Module ShardedHashTable_facts.
Import ShardedHashTable.

Section accounting.
Context {platform : Platform}.

Lemma total_size_range e : 0 ≤ CacheEntry.total_size e < 2 ^ 64.
Proof. apply size_t_wrap_range. Qed.

Lemma Zsum_with_insert {A} (f : A → Z) (l : list A) i x y :
  l !! i = Some x → Zsum_with f (<[i := y]> l) = Zsum_with f l - f x + f y.
Proof.
  revert i. induction l as [|a l IH]; intros [|i] Hi; simplify_eq/=.
  - lia.
  - rewrite (IH i) by done. lia.
Qed.

Lemma Zsum_with_zero {A} (f : A → Z) (l : list A) :
  Forall (λ x, f x = 0) l → Zsum_with f l = 0.
Proof. induction 1 as [|x l Hx _ IH]; simpl; lia. Qed.

Lemma entries_bytes_empty : entries_bytes ∅ = 0.
Proof. unfold entries_bytes. by rewrite map_fold_empty. Qed.

Lemma entries_bytes_insert_new (d : gmap string CacheEntry.t) k e :
  d !! k = None →
  entries_bytes (<[k := e]> d) = CacheEntry.total_size e + entries_bytes d.
Proof.
  intros Hk. unfold entries_bytes.
  rewrite map_fold_insert_L; [done| |done]. intros. lia.
Qed.

Lemma entries_bytes_delete (d : gmap string CacheEntry.t) k e :
  d !! k = Some e →
  entries_bytes (delete k d) = entries_bytes d - CacheEntry.total_size e.
Proof.
  intros Hk. rewrite <- (insert_delete_id d k e) at 2 by done.
  rewrite entries_bytes_insert_new by apply lookup_delete_eq. lia.
Qed.

Lemma entries_bytes_replace (d : gmap string CacheEntry.t) k old e :
  d !! k = Some old →
  entries_bytes (<[k := e]> d)
  = entries_bytes d - CacheEntry.total_size old + CacheEntry.total_size e.
Proof.
  intros Hk. rewrite <- insert_delete_eq.
  rewrite entries_bytes_insert_new by apply lookup_delete_eq.
  rewrite (entries_bytes_delete d k old) by done. lia.
Qed.

Lemma size_insert_new (d : gmap string CacheEntry.t) k e :
  d !! k = None → Z.of_nat (base.size (<[k := e]> d)) = Z.of_nat (base.size d) + 1.
Proof. intros Hk. rewrite map_size_insert_None by done. lia. Qed.

Lemma size_replace (d : gmap string CacheEntry.t) k old e :
  d !! k = Some old → base.size (<[k := e]> d) = base.size d.
Proof. intros Hk. by rewrite map_size_insert_Some. Qed.

Lemma size_delete (d : gmap string CacheEntry.t) k e :
  d !! k = Some e → Z.of_nat (base.size (delete k d)) = Z.of_nat (base.size d) - 1.
Proof.
  intros Hk. rewrite map_size_delete, Hk.
  pose proof (map_size_non_empty_iff d) as Hne.
  assert (d ≠ ∅) as Hd by (intros ->; by rewrite lookup_empty in Hk).
  apply Hne in Hd. lia.
Qed.

(** Equations between reductions modulo 2^64, by linear arithmetic over
    the quotients. *)
Ltac wrap_eq :=
  unfold size_t_wrap in *;
  change (2 ^ 64) with 18446744073709551616 in *;
  Z.div_mod_to_equations; lia.

Lemma size_t_wrap_idemp z : size_t_wrap (size_t_wrap z) = size_t_wrap z.
Proof. apply size_t_wrap_small, size_t_wrap_range. Qed.

Lemma set_shard_id i shard s : shards_ s !! i = Some shard → set_shard i shard s = s.
Proof.
  intros Hi. destruct s as [l ? ? ? ?]; unfold set_shard; simpl in *.
  by rewrite list_insert_id.
Qed.

Lemma get_shard_index_lt key s :
  shards_ s ≠ [] → (get_shard_index key s < length (shards_ s))%nat.
Proof.
  intros Hne. unfold get_shard_index.
  assert (0 < Z.of_nat (length (shards_ s))) as Hpos
    by (destruct (shards_ s); [done | simpl; lia]).
  pose proof (Z.mod_pos_bound (std_hash key) _ Hpos). lia.
Qed.

Lemma get_shard_lookup key s :
  shards_ s ≠ [] → ∃ shard, shards_ s !! get_shard_index key s = Some shard.
Proof.
  intros Hne. apply lookup_lt_is_Some_2. by apply get_shard_index_lt.
Qed.

Lemma stored_entries_set_shard i shard shard' s :
  (i < length (shards_ s))%nat →
  stored_entries (set_shard i shard' s)
  = stored_entries (set_shard i shard s) - shard_entries shard + shard_entries shard'.
Proof.
  intros Hi. unfold stored_entries; simpl.
  rewrite <- (list_insert_insert_eq (shards_ s) i shard' shard).
  rewrite (Zsum_with_insert _ _ i shard shard'); [done|].
  by apply list_lookup_insert_eq.
Qed.

Lemma stored_bytes_set_shard i shard shard' s :
  (i < length (shards_ s))%nat →
  stored_bytes (set_shard i shard' s)
  = stored_bytes (set_shard i shard s) - shard_bytes shard + shard_bytes shard'.
Proof.
  intros Hi. unfold stored_bytes; simpl.
  rewrite <- (list_insert_insert_eq (shards_ s) i shard' shard).
  rewrite (Zsum_with_insert _ _ i shard shard'); [done|].
  by apply list_lookup_insert_eq.
Qed.

(** The shape every mutation has: the selected shard is replaced, the
    two counters move by the shard's change. *)
Lemma accounted_update i s shard shard' mem n m :
  (i < length (shards_ s))%nat →
  accounted (set_shard i shard s) →
  lru_ok shard' →
  memory_bytes shard' = size_t_wrap (shard_bytes shard') →
  n = size_t_wrap (total_entries_ s - shard_entries shard + shard_entries shard') →
  mem = size_t_wrap (total_memory_bytes_ s - shard_bytes shard + shard_bytes shard') →
  accounted (set_metrics m (set_totals mem n (set_shard i shard' s))).
Proof.
  intros Hi [He Hb Hs] Hlru Hmem -> ->. simpl in He, Hb, Hs. split; simpl.
  - change (size_t_wrap (total_entries_ s - shard_entries shard + shard_entries shard')
            = size_t_wrap (stored_entries (set_shard i shard' s))).
    rewrite (stored_entries_set_shard i shard shard') by done.
    rewrite He. wrap_eq.
  - change (size_t_wrap (total_memory_bytes_ s - shard_bytes shard + shard_bytes shard')
            = size_t_wrap (stored_bytes (set_shard i shard' s))).
    rewrite (stored_bytes_set_shard i shard shard') by done.
    rewrite Hb. wrap_eq.
  - rewrite <- (list_insert_insert_eq (shards_ s) i shard' shard).
    apply Forall_insert; [done|]. by split.
Qed.

Lemma accounted_shard i s shard :
  (i < length (shards_ s))%nat →
  accounted (set_shard i shard s) →
  memory_bytes shard = size_t_wrap (shard_bytes shard) ∧ lru_ok shard.
Proof.
  intros Hi [_ _ Hs]. simpl in Hs.
  eapply (Forall_lookup_1 _ _ i shard) in Hs; [done|].
  by apply list_lookup_insert_eq.
Qed.

Lemma accounted_totals_range s :
  accounted s →
  size_t_wrap (total_entries_ s) = total_entries_ s ∧
  size_t_wrap (total_memory_bytes_ s) = total_memory_bytes_ s.
Proof. intros [-> -> _]. by rewrite !size_t_wrap_idemp. Qed.

(** *** The LRU list follows the map *)

Lemma lru_ok_empty : lru_ok empty_shard.
Proof.
  split; simpl; [constructor|]. intros k. rewrite lookup_empty. split.
  - by intros ?%elem_of_nil.
  - by intros [? ?].
Qed.

Lemma lru_ok_push shard key e m :
  lru_ok shard → data shard !! key = None →
  lru_ok {| data := <[key := e]> (data shard);
            lru_list := key :: lru_list shard; memory_bytes := m |}.
Proof.
  intros [Hnd Hk] Hnone. split; simpl.
  - constructor; [|done]. intros Hin%Hk. rewrite Hnone in Hin. by destruct Hin.
  - intros k. rewrite elem_of_cons, Hk. destruct (decide (k = key)) as [->|Hne].
    + rewrite lookup_insert_eq. naive_solver.
    + rewrite lookup_insert_ne by done. naive_solver.
Qed.

Lemma lru_ok_move_to_front shard key e m :
  lru_ok shard → is_Some (data shard !! key) →
  lru_ok {| data := <[key := e]> (data shard);
            lru_list := move_to_front key (lru_list shard); memory_bytes := m |}.
Proof.
  intros [Hnd Hk] Hsome. unfold move_to_front. split; simpl.
  - constructor; [|by apply NoDup_filter].
    rewrite list_elem_of_filter. naive_solver.
  - intros k. rewrite elem_of_cons, list_elem_of_filter, Hk.
    destruct (decide (k = key)) as [->|Hne].
    + rewrite lookup_insert_eq. naive_solver.
    + rewrite lookup_insert_ne by done. naive_solver.
Qed.

Lemma lru_ok_erase shard key m :
  lru_ok shard →
  lru_ok {| data := delete key (data shard);
            lru_list := lru_erase key (lru_list shard); memory_bytes := m |}.
Proof.
  intros [Hnd Hk]. unfold lru_erase. split; simpl.
  - by apply NoDup_filter.
  - intros k. rewrite list_elem_of_filter, Hk.
    destruct (decide (k = key)) as [->|Hne].
    + rewrite lookup_delete_eq. split; [naive_solver | by intros [? ?]].
    + rewrite lookup_delete_ne by done. naive_solver.
Qed.

Lemma lru_ok_pop_back shard lru_key rest m :
  lru_ok shard → lru_list shard = rev (lru_key :: rest) →
  lru_ok {| data := delete lru_key (data shard); lru_list := rev rest;
            memory_bytes := m |}.
Proof.
  intros [Hnd Hk] Hl. simpl in Hl. rewrite Hl in Hnd, Hk.
  apply NoDup_app in Hnd as (Hnd & Hdisj & _).
  assert (lru_key ∉ rev rest) as Hnotin.
  { intros Hin. apply (Hdisj _ Hin). by apply list_elem_of_singleton. }
  split; simpl; [done|]. intros k. destruct (decide (k = lru_key)) as [->|Hne].
  - rewrite lookup_delete_eq. split; [done | by intros [? ?]].
  - rewrite lookup_delete_ne by done. rewrite <- Hk, elem_of_app, list_elem_of_singleton.
    naive_solver.
Qed.

Lemma lru_back_in_map shard lru_key rest :
  lru_ok shard → lru_list shard = rev (lru_key :: rest) →
  is_Some (data shard !! lru_key).
Proof.
  intros [_ Hk] Hl. apply Hk. rewrite Hl. simpl.
  apply elem_of_app. right. by apply list_elem_of_singleton.
Qed.

(** *** Eviction keeps the accounts *)

Lemma evict_loop_accounted i l req :
  ∀ shard s shard' s',
    (i < length (shards_ s))%nat →
    accounted (set_shard i shard s) →
    lru_list shard = rev l →
    evict_loop l req shard s = (shard', s') →
    accounted (set_shard i shard' s') ∧ shards_ s' = shards_ s ∧
    max_memory_bytes_ s' = max_memory_bytes_ s ∧ data shard' ⊆ data shard.
Proof.
  induction l as [|lru_key rest IH]; intros shard s shard' s' Hi Hacc Hl Hev;
    simpl in Hev.
  - by simplify_eq.
  - destruct (needs_eviction s req); [|by simplify_eq].
    destruct (accounted_shard i s shard Hi Hacc) as [Hmem Hlru].
    destruct (data shard !! lru_key) as [e|] eqn:He.
    + apply IH in Hev as (Hacc' & Hsh & Hmax & Hsub); simpl; try done.
      * split; [done|]. split; [done|]. split; [done|].
        etrans; [exact Hsub|]. simpl. apply delete_subseteq.
      * match goal with
        | |- accounted (set_shard i ?sh (set_metrics ?m (set_totals ?a ?b s))) =>
            change (accounted (set_metrics m (set_totals a b (set_shard i sh s))))
        end.
        apply (accounted_update i s shard); simpl; try done.
        -- by eapply lru_ok_pop_back.
        -- unfold shard_bytes in *; simpl.
           rewrite (entries_bytes_delete _ _ e) by done. rewrite Hmem. wrap_eq.
        -- unfold shard_entries; simpl. rewrite (size_delete _ _ e) by done.
           wrap_eq.
        -- unfold shard_bytes; simpl.
           rewrite (entries_bytes_delete _ _ e) by done. wrap_eq.
    + pose proof (lru_back_in_map shard lru_key rest Hlru Hl) as [? Hin].
      congruence.
Qed.

Lemma evict_if_needed_accounted i shard req s shard' s' :
  accounted s → shards_ s !! i = Some shard →
  evict_if_needed shard req s = (shard', s') →
  accounted (set_shard i shard' s') ∧ shards_ s' = shards_ s ∧
  max_memory_bytes_ s' = max_memory_bytes_ s ∧ data shard' ⊆ data shard.
Proof.
  intros Hacc Hi Hev. unfold evict_if_needed in Hev.
  eapply evict_loop_accounted; [| |by rewrite rev_involutive|exact Hev].
  - by eapply lookup_lt_Some.
  - by rewrite set_shard_id.
Qed.

(** *** Every operation keeps the accounts *)

Lemma make_accounted num_shards max_memory_bytes :
  accounted (make num_shards max_memory_bytes).
Proof.
  split; simpl.
  - unfold stored_entries; simpl. rewrite Zsum_with_zero; [done|].
    apply Forall_replicate. done.
  - unfold stored_bytes; simpl. rewrite Zsum_with_zero; [done|].
    apply Forall_replicate. unfold shard_bytes; simpl. apply entries_bytes_empty.
  - apply Forall_replicate. split; [|apply lru_ok_empty].
    unfold shard_bytes; simpl. by rewrite entries_bytes_empty.
Qed.

Lemma total_size_touch now e :
  CacheEntry.total_size (CacheEntry.touch now e) = CacheEntry.total_size e.
Proof. done. Qed.

Lemma accounted_set_metrics m s : accounted s → accounted (set_metrics m s).
Proof. by intros [? ? ?]. Qed.

Lemma get_accounted now1 now2 now3 key s r s' :
  accounted s → get now1 now2 now3 key s = Some (r, s') → accounted s'.
Proof.
  intros Hacc Hget. unfold get in Hget.
  destruct (shards_ s !! get_shard_index key s) as [shard|] eqn:Hi;
    simpl in Hget; [|done].
  assert (Hlt := lookup_lt_Some _ _ _ Hi).
  pose proof (accounted_totals_range s Hacc) as [Hre Hrb].
  rewrite <- (set_shard_id _ _ _ Hi) in Hacc.
  destruct (accounted_shard _ s shard Hlt Hacc) as [Hmem Hlru].
  destruct (data shard !! key) as [e|] eqn:He.
  2:{ simplify_eq. rewrite set_shard_id in Hacc by done.
      by apply accounted_set_metrics. }
  destruct (CacheEntry.is_expired now1 e).
  { simplify_eq. rewrite set_shard_id in Hacc by done.
    by apply accounted_set_metrics. }
  destruct (CacheEntry.is_expired now2 e).
  { simplify_eq. rewrite set_shard_id in Hacc by done.
    by apply accounted_set_metrics. }
  simplify_eq.
  match goal with
  | |- accounted (set_metrics ?m (set_shard ?i ?sh s)) =>
      change (accounted (set_metrics m
                (set_totals (total_memory_bytes_ s) (total_entries_ s)
                            (set_shard i sh s))))
  end.
  apply (accounted_update _ s shard); simpl; try done.
  - apply lru_ok_move_to_front; [done | by eexists].
  - unfold shard_bytes in *; simpl.
    rewrite (entries_bytes_replace _ _ e) by done.
    rewrite total_size_touch, Hmem. wrap_eq.
  - unfold shard_entries; simpl. rewrite (size_replace _ _ e) by done.
    rewrite <- Hre at 1. wrap_eq.
  - unfold shard_bytes; simpl.
    rewrite (entries_bytes_replace _ _ e) by done.
    rewrite total_size_touch. rewrite <- Hrb at 1. wrap_eq.
Qed.

Lemma replace_accounted i s shard key old e m :
  accounted s → shards_ s !! i = Some shard → data shard !! key = Some old →
  accounted
    (set_metrics m
       (set_totals
          (size_t_wrap (size_t_wrap (total_memory_bytes_ s - CacheEntry.total_size old)
                        + CacheEntry.total_size e))
          (total_entries_ s)
          (set_shard i
             {| data := <[key := e]> (data shard);
                lru_list := move_to_front key (lru_list shard);
                memory_bytes :=
                  size_t_wrap (size_t_wrap (memory_bytes shard - CacheEntry.total_size old)
                               + CacheEntry.total_size e) |} s))).
Proof.
  intros Hacc Hi Hold.
  assert (Hlt := lookup_lt_Some _ _ _ Hi).
  pose proof (accounted_totals_range s Hacc) as [Hre Hrb].
  rewrite <- (set_shard_id _ _ _ Hi) in Hacc.
  destruct (accounted_shard _ s shard Hlt Hacc) as [Hmem Hlru].
  apply (accounted_update _ s shard); simpl; try done.
  - apply lru_ok_move_to_front; [done | by eexists].
  - unfold shard_bytes in *; simpl.
    rewrite (entries_bytes_replace _ _ old) by done. rewrite Hmem. wrap_eq.
  - unfold shard_entries; simpl. rewrite (size_replace _ _ old) by done.
    rewrite <- Hre at 1. wrap_eq.
  - unfold shard_bytes; simpl.
    rewrite (entries_bytes_replace _ _ old) by done. wrap_eq.
Qed.

Lemma set_accounted key entry s b s' :
  accounted s → set key entry s = Some (b, s') → accounted s'.
Proof.
  intros Hacc Hset. unfold set in Hset.
  destruct (shards_ s !! get_shard_index key s) as [shard|] eqn:Hi;
    simpl in Hset; [|done].
  destruct (data shard !! key) as [old|] eqn:Hold.
  { simplify_eq.
    apply (replace_accounted _ s shard key old entry (metrics_ s)); done. }
  set (pre := if needs_eviction s (CacheEntry.total_size entry)
              then evict_if_needed shard (CacheEntry.total_size entry) s
              else (shard, s)) in Hset.
  assert (accounted (set_shard (get_shard_index key s) pre.1 pre.2) ∧
          shards_ pre.2 = shards_ s ∧ data pre.1 ⊆ data shard) as (Hacc1 & Hsh & Hsub).
  { subst pre. destruct (needs_eviction s _); simpl.
    - destruct (evict_if_needed shard _ s) as [shard1 s1] eqn:Hev.
      eapply evict_if_needed_accounted in Hev as (? & ? & ? & ?); eauto.
    - by rewrite set_shard_id. }
  destruct pre as [shard1 s1]. simpl in *. simplify_eq.
  assert (Hlt : (get_shard_index key s < length (shards_ s1))%nat)
    by (rewrite Hsh; by eapply lookup_lt_Some).
  destruct (accounted_shard _ s1 shard1 Hlt Hacc1) as [Hmem Hlru].
  assert (data shard1 !! key = None) as Hnone
    by (eapply lookup_weaken_None; eauto).
  apply (accounted_update _ s1 shard1); simpl; try done.
  - by apply lru_ok_push.
  - unfold shard_bytes in *; simpl.
    rewrite entries_bytes_insert_new by done. rewrite Hmem. wrap_eq.
  - unfold shard_entries; simpl. rewrite size_insert_new by done. wrap_eq.
  - unfold shard_bytes; simpl.
    rewrite entries_bytes_insert_new by done. wrap_eq.
Qed.

Lemma del_accounted key s b s' :
  accounted s → del key s = Some (b, s') → accounted s'.
Proof.
  intros Hacc Hdel. unfold del in Hdel.
  destruct (shards_ s !! get_shard_index key s) as [shard|] eqn:Hi;
    simpl in Hdel; [|done].
  destruct (data shard !! key) as [e|] eqn:He; [|by simplify_eq].
  simplify_eq.
  assert (Hlt := lookup_lt_Some _ _ _ Hi).
  rewrite <- (set_shard_id _ _ _ Hi) in Hacc.
  destruct (accounted_shard _ s shard Hlt Hacc) as [Hmem Hlru].
  apply (accounted_update _ s shard); simpl; try done.
  - by apply lru_ok_erase.
  - unfold shard_bytes in *; simpl.
    rewrite (entries_bytes_delete _ _ e) by done. rewrite Hmem. wrap_eq.
  - unfold shard_entries; simpl. rewrite (size_delete _ _ e) by done. wrap_eq.
  - unfold shard_bytes; simpl.
    rewrite (entries_bytes_delete _ _ e) by done. wrap_eq.
Qed.

Lemma compare_and_swap_accounted now1 now2 key expected new_entry s r s' :
  accounted s →
  compare_and_swap now1 now2 key expected new_entry s = Some (r, s') →
  accounted s'.
Proof.
  intros Hacc Hcas. unfold compare_and_swap in Hcas.
  destruct (shards_ s !! get_shard_index key s) as [shard|] eqn:Hi;
    simpl in Hcas; [|done].
  destruct (data shard !! key) as [cur|] eqn:Hcur; [|by simplify_eq].
  destruct (CacheEntry.is_expired now1 cur); [by simplify_eq|].
  destruct (negb (CacheEntry.version cur =? expected)); [by simplify_eq|].
  simplify_eq. by eapply replace_accounted.
Qed.

Lemma clear_accounted s : accounted s → accounted (clear s).
Proof.
  intros _. split; simpl.
  - unfold stored_entries; simpl. rewrite Zsum_with_zero; [done|].
    apply Forall_fmap, Forall_true. done.
  - unfold stored_bytes; simpl. rewrite Zsum_with_zero; [done|].
    apply Forall_fmap, Forall_true. intros ?. apply entries_bytes_empty.
  - apply Forall_fmap, Forall_true. intros ?. split; [|apply lru_ok_empty].
    simpl. unfold shard_bytes; simpl. by rewrite entries_bytes_empty.
Qed.

Lemma step_accounted o s s' : accounted s → step o s = Some s' → accounted s'.
Proof.
  intros Hacc Hstep. destruct o; simpl in Hstep.
  - destruct (get _ _ _ _ s) as [[r s1]|] eqn:E; simplify_eq/=.
    by eapply get_accounted.
  - destruct (set _ _ s) as [[r s1]|] eqn:E; simplify_eq/=.
    by eapply set_accounted.
  - destruct (del _ s) as [[r s1]|] eqn:E; simplify_eq/=.
    by eapply del_accounted.
  - destruct (compare_and_swap _ _ _ _ _ s) as [[r s1]|] eqn:E; simplify_eq/=.
    by eapply compare_and_swap_accounted.
  - destruct (exists_ _ _ s) as [r|] eqn:E; by simplify_eq/=.
  - simplify_eq. by apply clear_accounted.
Qed.

Lemma run_accounted ops s s' : accounted s → run ops s = Some s' → accounted s'.
Proof.
  revert s. induction ops as [|o rest IH]; intros s Hacc Hrun; simpl in Hrun.
  - by simplify_eq.
  - destruct (step o s) as [s1|] eqn:E; simpl in Hrun; [|done].
    eapply IH; [|done]. by eapply step_accounted.
Qed.

(** *** Operations return, and keep the shard vector's length *)

Lemma evict_loop_shards l req :
  ∀ shard s shard' s',
    evict_loop l req shard s = (shard', s') → shards_ s' = shards_ s.
Proof.
  induction l as [|k rest IH]; intros shard s shard' s' Hev; simpl in Hev.
  - by simplify_eq.
  - destruct (needs_eviction s req); [|by simplify_eq].
    destruct (data shard !! k); by apply IH in Hev.
Qed.

Lemma get_returns now1 now2 now3 key s :
  shards_ s ≠ [] →
  ∃ r s', get now1 now2 now3 key s = Some (r, s')
          ∧ length (shards_ s') = length (shards_ s).
Proof.
  intros [shard Hi]%(get_shard_lookup key). unfold get. rewrite Hi; simpl.
  destruct (data shard !! key); [|by eauto].
  destruct (CacheEntry.is_expired now1 _); [by eauto|].
  destruct (CacheEntry.is_expired now2 _); [by eauto|].
  eexists _, _. split; [done|]. simpl. by rewrite length_insert.
Qed.

Lemma set_returns key entry s :
  shards_ s ≠ [] →
  ∃ s', set key entry s = Some (true, s')
        ∧ length (shards_ s') = length (shards_ s).
Proof.
  intros [shard Hi]%(get_shard_lookup key). unfold set. rewrite Hi; simpl.
  destruct (data shard !! key).
  - eexists. split; [done|]. simpl. by rewrite length_insert.
  - destruct (needs_eviction s _).
    + destruct (evict_if_needed shard _ s) as [shard1 s1] eqn:Hev.
      eexists. split; [done|]. simpl. rewrite length_insert.
      unfold evict_if_needed in Hev. by rewrite (evict_loop_shards _ _ _ _ _ _ Hev).
    + eexists. split; [done|]. simpl. by rewrite length_insert.
Qed.

Lemma del_returns key s :
  shards_ s ≠ [] →
  ∃ r s', del key s = Some (r, s') ∧ length (shards_ s') = length (shards_ s).
Proof.
  intros [shard Hi]%(get_shard_lookup key). unfold del. rewrite Hi; simpl.
  destruct (data shard !! key); [|by eauto].
  eexists _, _. split; [done|]. simpl. by rewrite length_insert.
Qed.

Lemma compare_and_swap_returns now1 now2 key expected new_entry s :
  shards_ s ≠ [] →
  ∃ r s', compare_and_swap now1 now2 key expected new_entry s = Some (r, s')
          ∧ length (shards_ s') = length (shards_ s).
Proof.
  intros [shard Hi]%(get_shard_lookup key). unfold compare_and_swap.
  rewrite Hi; simpl.
  destruct (data shard !! key); [|by eauto].
  destruct (CacheEntry.is_expired now1 _); [by eauto|].
  destruct (negb _); [by eauto|].
  eexists _, _. split; [done|]. simpl. by rewrite length_insert.
Qed.

Lemma exists_returns now key s :
  shards_ s ≠ [] → ∃ r, exists_ now key s = Some r.
Proof.
  intros [shard Hi]%(get_shard_lookup key). unfold exists_. rewrite Hi; simpl.
  destruct (data shard !! key); eauto.
Qed.

Lemma nonempty_of_length (l l' : list Shard) :
  length l' = length l → l ≠ [] → l' ≠ [].
Proof. intros Hlen Hne ->. destruct l; simpl in *; done. Qed.

Lemma step_returns o s :
  shards_ s ≠ [] →
  ∃ s', step o s = Some s' ∧ length (shards_ s') = length (shards_ s).
Proof.
  intros Hne. destruct o; simpl.
  - destruct (get_returns now1 now2 now3 key s Hne) as (r & s' & -> & ?); eauto.
  - destruct (set_returns key entry s Hne) as (s' & -> & ?); eauto.
  - destruct (del_returns key s Hne) as (r & s' & -> & ?); eauto.
  - destruct (compare_and_swap_returns now1 now2 key expected_version new_entry s Hne)
      as (r & s' & -> & ?); eauto.
  - destruct (exists_returns now key s Hne) as (r & ->); eauto.
  - eexists. split; [done|]. simpl. by rewrite length_fmap.
Qed.

Lemma run_returns ops s :
  shards_ s ≠ [] →
  ∃ s', run ops s = Some s' ∧ length (shards_ s') = length (shards_ s).
Proof.
  revert s. induction ops as [|o rest IH]; intros s Hne; simpl; [by eauto|].
  destruct (step_returns o s Hne) as (s1 & -> & Hlen). simpl.
  destruct (IH s1) as (s' & Hrun & Hlen'); [by eapply nonempty_of_length|].
  exists s'. split; [done|]. congruence.
Qed.

Lemma make_nonempty num_shards max_memory_bytes :
  (0 < num_shards)%nat → shards_ (make num_shards max_memory_bytes) ≠ [].
Proof. intros Hn. destruct num_shards; [lia | done]. Qed.

(** *** Reading the shard maps *)

Lemma entries_bytes_nonneg (d : gmap string CacheEntry.t) : 0 ≤ entries_bytes d.
Proof.
  induction d as [|k e d Hk _ IH] using map_first_key_ind.
  - by rewrite entries_bytes_empty.
  - rewrite entries_bytes_insert_new by done.
    pose proof (total_size_range e). lia.
Qed.

Lemma Zsum_with_nonneg {A} (f : A → Z) (l : list A) :
  (∀ x, 0 ≤ f x) → 0 ≤ Zsum_with f l.
Proof. intros Hf. induction l as [|x l IH]; simpl; [done|]. specialize (Hf x). lia. Qed.

Lemma stored_entries_nonneg s : 0 ≤ stored_entries s.
Proof. apply Zsum_with_nonneg. intros ?. unfold shard_entries. lia. Qed.

Lemma stored_bytes_nonneg s : 0 ≤ stored_bytes s.
Proof. apply Zsum_with_nonneg. intros ?. apply entries_bytes_nonneg. Qed.

Lemma stored_written key shard' s s' :
  shards_ s ≠ [] →
  shards_ s' = <[get_shard_index key s := shard']> (shards_ s) →
  stored key s' = data shard' !! key.
Proof.
  intros Hne Hsh. unfold stored.
  assert (get_shard_index key s' = get_shard_index key s) as ->
    by (unfold get_shard_index; by rewrite Hsh, length_insert).
  rewrite Hsh, list_lookup_insert_eq; [done|]. by apply get_shard_index_lt.
Qed.

(** *** Expired entries stay in the map *)

Lemma stored_lookup key s e :
  stored key s = Some e →
  ∃ shard, shards_ s !! get_shard_index key s = Some shard ∧ data shard !! key = Some e.
Proof.
  unfold stored. destruct (shards_ s !! get_shard_index key s) as [shard|]; [|done].
  simpl. eauto.
Qed.

Lemma expired_entry_is_reported_absent_and_kept key e now s :
  stored key s = Some e → CacheEntry.is_expired now e = true →
  (∀ now2 now3, ∃ s1, get now now2 now3 key s = Some (None, s1)
                       ∧ shards_ s1 = shards_ s) ∧
  exists_ now key s = Some false ∧
  (∀ now2 expected new_entry,
     ∃ r, compare_and_swap now now2 key expected new_entry s = Some (r, s)
          ∧ success r = false ∧ error r = "Key expired").
Proof.
  intros (shard & Hi & He)%stored_lookup Hexp. repeat split.
  - intros now2 now3. unfold get. rewrite Hi; simpl. rewrite He, Hexp. by eauto.
  - unfold exists_. rewrite Hi; simpl. by rewrite He, Hexp.
  - intros now2 expected new_entry. unfold compare_and_swap.
    rewrite Hi; simpl. rewrite He, Hexp. by eauto.
Qed.

(** C10: after any sequence of [get], [set], [del], [compare_and_swap],
    [exists] and [clear] calls on a freshly built engine (including the
    evictions [set] performs), [size()] is the number of entries held in the
    shard maps and [memory_usage()] is the sum of [total_size()] over those
    entries, both as [size_t] values, hence exactly whenever the count and
    the sum fit in 64 bits.  An entry whose expiry has passed is still in
    its shard map and still counted: [get], [exists] and
    [compare_and_swap] report it absent or expired and leave the maps as
    they are. *)
Theorem C10_counters_track_the_shard_maps
    (num_shards : nat) (max_memory_bytes : Z) (ops : list op) :
  (0 < num_shards)%nat →
  ∃ s, run ops (make num_shards max_memory_bytes) = Some s ∧
       size s = size_t_wrap (stored_entries s) ∧
       memory_usage s = size_t_wrap (stored_bytes s) ∧
       (stored_entries s < 2 ^ 64 → size s = stored_entries s) ∧
       (stored_bytes s < 2 ^ 64 → memory_usage s = stored_bytes s) ∧
       ∀ key e now,
         stored key s = Some e → CacheEntry.is_expired now e = true →
         (∀ now2 now3, ∃ s1, get now now2 now3 key s = Some (None, s1)
                              ∧ shards_ s1 = shards_ s) ∧
         exists_ now key s = Some false ∧
         (∀ now2 expected new_entry,
            ∃ r, compare_and_swap now now2 key expected new_entry s = Some (r, s)
                 ∧ success r = false ∧ error r = "Key expired").
Proof.
  intros Hn.
  destruct (run_returns ops (make num_shards max_memory_bytes)) as (s & Hrun & _);
    [by apply make_nonempty|].
  exists s. split; [done|].
  pose proof (run_accounted ops _ s (make_accounted _ _) Hrun) as [He Hb _].
  unfold size, memory_usage. rewrite He, Hb.
  split; [done|]. split; [done|].
  split; [|split].
  - intros Hlt. apply size_t_wrap_small. pose proof (stored_entries_nonneg s). lia.
  - intros Hlt. apply size_t_wrap_small. pose proof (stored_bytes_nonneg s). lia.
  - intros key e now. apply expired_entry_is_reported_absent_and_kept.
Qed.

(** *** Compare-and-swap *)

(** C2: [compare_and_swap] has exactly four outcomes, decided by the entry
    stored under the key: no entry, failure with no new version; an expired
    entry, failure; a version other than the expected one, failure
    returning the actual version; otherwise success, the new entry stored
    with version and returned [new_version] equal to the prior version plus
    1 (an addition of [int64_t], defined in C++ for every prior version
    below the largest one).  Every failing outcome leaves the engine state
    unchanged. *)
Theorem C2_compare_and_swap_outcomes
    (now1 now2 : Z) (key : string) (expected_version : Z)
    (new_entry : CacheEntry.t) (s : t) :
  shards_ s ≠ [] →
  ∃ r s',
    compare_and_swap now1 now2 key expected_version new_entry s = Some (r, s') ∧
    (success r = false → s' = s) ∧
    match stored key s with
    | None =>
        success r = false ∧ new_version r = 0 ∧ error r = "Key not found"
    | Some cur =>
        if CacheEntry.is_expired now1 cur then
          success r = false ∧ new_version r = 0 ∧ error r = "Key expired"
        else if decide (CacheEntry.version cur = expected_version) then
          success r = true ∧ new_version r = CacheEntry.version cur + 1 ∧
          ∃ e', stored key s' = Some e' ∧
                CacheEntry.version e' = CacheEntry.version cur + 1 ∧
                CacheEntry.key e' = CacheEntry.key new_entry ∧
                CacheEntry.value e' = CacheEntry.value new_entry ∧
                CacheEntry.ttl_seconds e' = CacheEntry.ttl_seconds new_entry ∧
                CacheEntry.expires_at_ms e' = CacheEntry.expires_at_ms new_entry
        else
          success r = false ∧ new_version r = 0 ∧
          actual_version r = CacheEntry.version cur ∧ error r = "Version mismatch"
    end.
Proof.
  intros Hne. destruct (get_shard_lookup key s Hne) as [shard Hi].
  unfold compare_and_swap, stored at 1. rewrite Hi; simpl.
  destruct (data shard !! key) as [cur|] eqn:Hcur.
  2:{ eexists _, _. split; [done|]. by simpl. }
  destruct (CacheEntry.is_expired now1 cur).
  { eexists _, _. split; [done|]. by simpl. }
  destruct (decide (CacheEntry.version cur = expected_version)) as [Heq|Hneq].
  - apply Z.eqb_eq in Heq as Heqb. rewrite Heqb; simpl.
    eexists _, _. split; [done|]. split; [done|].
    split; [done|]. split; [done|].
    eexists. split.
    { erewrite (stored_written key _ s) by done. simpl. apply lookup_insert_eq. }
    by simpl.
  - apply Z.eqb_neq in Hneq as Hneqb. rewrite Hneqb; simpl.
    eexists _, _. split; [done|]. by simpl.
Qed.

(** *** [set] never fails *)

Lemma set_always_stores key entry s :
  shards_ s ≠ [] →
  ∃ s', set key entry s = Some (true, s') ∧ stored key s' = Some entry.
Proof.
  intros Hne. destruct (get_shard_lookup key s Hne) as [shard Hi].
  unfold set. rewrite Hi; simpl.
  destruct (data shard !! key) as [old|].
  - eexists. split; [done|].
    erewrite (stored_written key _ s) by done.
    simpl. apply lookup_insert_eq.
  - destruct (needs_eviction s _).
    + destruct (evict_if_needed shard _ s) as [shard1 s1] eqn:Hev.
      eexists. split; [done|].
      assert (shards_ s1 = shards_ s) as Hsh
        by (unfold evict_if_needed in Hev; by eapply evict_loop_shards).
      erewrite (stored_written key _ s); [|done|by simpl; rewrite Hsh].
      simpl. apply lookup_insert_eq.
    + eexists. split; [done|]. erewrite (stored_written key _ s) by done.
      simpl. apply lookup_insert_eq.
Qed.

Lemma set_stores key entry s :
  shards_ s ≠ [] →
  ∃ s', set key entry s = Some (true, s') ∧ stored key s' = Some entry
        ∧ shards_ s' ≠ [].
Proof.
  intros Hne. destruct (set_always_stores key entry s Hne) as (s' & Hset & Hst).
  destruct (set_returns key entry s Hne) as (s'' & Hset' & Hlen).
  exists s'. split; [done|]. split; [done|].
  assert (s'' = s') as -> by congruence. by eapply nonempty_of_length.
Qed.

Lemma get_stored_fresh now1 now2 now3 key e s :
  stored key s = Some e →
  CacheEntry.is_expired now1 e = false → CacheEntry.is_expired now2 e = false →
  ∃ s', get now1 now2 now3 key s = Some (Some (CacheEntry.touch now3 e), s').
Proof.
  intros (shard & Hi & He)%stored_lookup Hx1 Hx2. unfold get.
  rewrite Hi; simpl. rewrite He, Hx1, Hx2. by eauto.
Qed.


(** *** What an operation on one key does to the other keys *)

Lemma reshaped_refl b key s :
  shards_ s ≠ [] → reshaped b key s s.
Proof.
  intros [shard Hi]%(get_shard_lookup key). exists shard, shard.
  split; [done|]. split; [by rewrite list_insert_id|]. by left.
Qed.

Lemma reshaped_index b key s s' k :
  reshaped b key s s' → get_shard_index k s' = get_shard_index k s.
Proof.
  intros (shard & shard' & _ & Hsh & _). unfold get_shard_index.
  by rewrite Hsh, length_insert.
Qed.

Lemma reshaped_stored b key s s' k :
  reshaped b key s s' → k ≠ key →
  stored k s' = stored k s ∨
  (b = true ∧ stored k s' = None ∧ get_shard_index k s = get_shard_index key s
   ∧ stored key s = None).
Proof.
  intros Hre Hk. pose proof (reshaped_index _ _ _ _ k Hre) as Hidx.
  destruct Hre as (shard & shard' & Hi & Hsh & Hdata).
  unfold stored. rewrite Hidx, Hsh.
  destruct (decide (get_shard_index k s = get_shard_index key s)) as [Heq|Hne].
  - rewrite Heq, Hi. rewrite list_lookup_insert_eq by (by eapply lookup_lt_Some).
    simpl. destruct (Hdata k Hk) as [->|(-> & Hnone & ->)]; [by left|].
    right. by rewrite Hnone.
  - left. by rewrite list_lookup_insert_ne.
Qed.

Lemma reshaped_placed b key s s' :
  reshaped b key s s' → placed s → placed s'.
Proof.
  intros Hre Hpl i sh k Hi [e He].
  rewrite (reshaped_index _ _ _ _ k Hre).
  destruct Hre as (shard & shard' & Hsi & Hsh & Hdata).
  rewrite Hsh in Hi.
  destruct (decide (i = get_shard_index key s)) as [->|Hne].
  - rewrite list_lookup_insert_eq in Hi by (by eapply lookup_lt_Some).
    simplify_eq. destruct (decide (k = key)) as [->|Hk]; [done|].
    destruct (Hdata k Hk) as [Heq|(_ & _ & Hnone)]; [|congruence].
    apply (Hpl _ shard); [done|]. rewrite <- Heq. by eexists.
  - rewrite list_lookup_insert_ne in Hi by done. apply (Hpl _ sh); [done | by eexists].
Qed.

Lemma get_reshaped now1 now2 now3 key s r s' :
  get now1 now2 now3 key s = Some (r, s') → reshaped false key s s'.
Proof.
  unfold get. intros Hget.
  destruct (shards_ s !! get_shard_index key s) as [shard|] eqn:Hi;
    simpl in Hget; [|done].
  assert (reshaped false key s (set_metrics (Metrics.miss (metrics_ s)) s)) as Hmiss.
  { exists shard, shard. split; [done|]. split; [simpl; by rewrite list_insert_id|].
    by left. }
  destruct (data shard !! key) as [e|] eqn:He; [|by simplify_eq].
  destruct (CacheEntry.is_expired now1 e); [by simplify_eq|].
  destruct (CacheEntry.is_expired now2 e); [by simplify_eq|].
  simplify_eq. eexists shard, _. split; [done|]. split; [done|].
  intros k Hk. left. simpl. by rewrite lookup_insert_ne.
Qed.

Lemma del_reshaped key s r s' :
  del key s = Some (r, s') → reshaped false key s s'.
Proof.
  unfold del. intros Hdel.
  destruct (shards_ s !! get_shard_index key s) as [shard|] eqn:Hi;
    simpl in Hdel; [|done].
  destruct (data shard !! key) as [e|] eqn:He.
  - simplify_eq. eexists shard, _. split; [done|]. split; [done|].
    intros k Hk. left. simpl. by rewrite lookup_delete_ne.
  - simplify_eq. exists shard, shard. split; [done|].
    split; [by rewrite list_insert_id|]. by left.
Qed.

Lemma compare_and_swap_reshaped now1 now2 key expected new_entry s r s' :
  compare_and_swap now1 now2 key expected new_entry s = Some (r, s') →
  reshaped false key s s'.
Proof.
  unfold compare_and_swap. intros Hcas.
  destruct (shards_ s !! get_shard_index key s) as [shard|] eqn:Hi;
    simpl in Hcas; [|done].
  assert (reshaped false key s s) as Hsame.
  { exists shard, shard. split; [done|]. split; [by rewrite list_insert_id|]. by left. }
  destruct (data shard !! key) as [cur|] eqn:Hcur; [|by simplify_eq].
  destruct (CacheEntry.is_expired now1 cur); [by simplify_eq|].
  destruct (negb _); [by simplify_eq|].
  simplify_eq. eexists shard, _. split; [done|]. split; [done|].
  intros k Hk. left. simpl. by rewrite lookup_insert_ne.
Qed.

(** *** Eviction takes the least recently used keys *)

Lemma elem_of_rev {A} (l : list A) x : x ∈ rev l ↔ x ∈ l.
Proof. rewrite !list_elem_of_In. symmetry. apply in_rev. Qed.

Lemma evict_loop_spec l req :
  ∀ shard s shard' s',
    lru_ok shard → lru_list shard = rev l →
    evict_loop l req shard s = (shard', s') →
    ∃ evicted kept,
      l = evicted ++ kept ∧ lru_list shard' = rev kept ∧ lru_ok shard' ∧
      (∀ k, k ∈ evicted → data shard' !! k = None) ∧
      (∀ k, k ∉ evicted → data shard' !! k = data shard !! k) ∧
      (needs_eviction s' req = false ∨ kept = []) ∧
      (evicted = [] ∨ needs_eviction s req = true).
Proof.
  induction l as [|lru_key rest IH]; intros shard s shard' s' Hlru Hl Hev;
    simpl in Hev.
  - simplify_eq. exists [], []. split; [done|]. split; [done|]. split; [done|].
    split; [by intros k ?%elem_of_nil|]. split; [done|]. split; [by right | by left].
  - destruct (needs_eviction s req) eqn:Hneed.
    2:{ simplify_eq. exists [], (lru_key :: rest).
        split; [done|]. split; [done|]. split; [done|].
        split; [by intros k ?%elem_of_nil|]. split; [done|].
        split; by left. }
    destruct (lru_back_in_map shard lru_key rest Hlru Hl) as [e He].
    rewrite He in Hev.
    apply IH in Hev as (evicted & kept & -> & Hkept & Hlru' & Hgone & Hstay & Hfit & _);
      [| by eapply lru_ok_pop_back | done].
    exists (lru_key :: evicted), kept. split; [done|]. split; [done|].
    split; [done|]. split; [|split; [|split; [done | by right]]].
    + intros k [->|Hin]%elem_of_cons; [|by apply Hgone].
      destruct (decide (lru_key ∈ evicted)) as [Hin|Hnin]; [by apply Hgone|].
      rewrite Hstay by done. simpl. apply lookup_delete_eq.
    + intros k Hnin. apply not_elem_of_cons in Hnin as [Hne Hnin].
      rewrite Hstay by done. simpl. by rewrite lookup_delete_ne.
Qed.

Lemma set_new_key_shape key entry s shard s' :
  accounted s →
  shards_ s !! get_shard_index key s = Some shard → data shard !! key = None →
  set key entry s = Some (true, s') →
  ∃ shard' survivors evicted,
    shards_ s' = <[get_shard_index key s := shard']> (shards_ s) ∧
    lru_list shard = survivors ++ evicted ∧
    lru_list shard' = key :: survivors ∧
    data shard' !! key = Some entry ∧
    (∀ k, k ∈ evicted → data shard' !! k = None) ∧
    (∀ k, k ∉ evicted → k ≠ key → data shard' !! k = data shard !! k) ∧
    (evicted = [] ∨ needs_eviction s (CacheEntry.total_size entry) = true) ∧
    (memory_usage s' ≤ max_memory s' ∨ survivors = []).
Proof.
  intros Hacc Hi Hnone Hset. unfold set in Hset. rewrite Hi in Hset; simpl in Hset.
  rewrite Hnone in Hset.
  assert (Hlt := lookup_lt_Some _ _ _ Hi).
  assert (lru_ok shard) as Hlru.
  { destruct Hacc as [_ _ Hs]. by eapply (Forall_lookup_1 _ _ _ _ Hs Hi). }
  destruct (needs_eviction s (CacheEntry.total_size entry)) eqn:Hneed.
  - destruct (evict_if_needed shard _ s) as [shard1 s1] eqn:Hev.
    pose proof (evict_if_needed_accounted _ _ _ _ _ _ Hacc Hi Hev)
      as (_ & Hsh & Hmax & _).
    unfold evict_if_needed in Hev.
    apply evict_loop_spec in Hev
      as (evicted & kept & Hl & Hkept & Hlru1 & Hgone & Hstay & Hfit & _);
      [|done|by rewrite rev_involutive].
    simplify_eq. eexists _, (rev kept), (rev evicted).
    split; [by simpl; rewrite Hsh|].
    split.
    { rewrite <- (rev_involutive (lru_list shard)), Hl, rev_app_distr. done. }
    split; [by simpl; rewrite Hkept|].
    split; [simpl; apply lookup_insert_eq|].
    split.
    { intros k Hin. simpl. rewrite elem_of_rev in Hin.
      destruct (decide (k = key)) as [->|Hne].
      - exfalso. destruct Hlru as [_ Hk].
        assert (key ∈ lru_list shard) as Hkin.
        { rewrite <- (rev_involutive (lru_list shard)), Hl.
          rewrite elem_of_rev, elem_of_app. by left. }
        apply Hk in Hkin as [? ?]. congruence.
      - rewrite lookup_insert_ne by done. by apply Hgone. }
    split.
    { intros k Hnin Hne. simpl. rewrite lookup_insert_ne by done. apply Hstay.
      intros Hin. apply Hnin. by rewrite elem_of_rev. }
    split; [by right|].
    destruct Hfit as [Hfit|Hfit]; [left|right; by rewrite Hfit].
    unfold memory_usage, max_memory; simpl. rewrite Hmax.
    unfold needs_eviction in Hfit. rewrite Hmax in Hfit.
    rewrite Z.gtb_ltb in Hfit. apply Z.ltb_ge in Hfit. lia.
  - simplify_eq. eexists _, (lru_list shard), [].
    split; [done|]. split; [by rewrite app_nil_r|]. split; [done|].
    split; [simpl; apply lookup_insert_eq|].
    split; [by intros k ?%elem_of_nil|].
    split; [intros k _ Hne; simpl; by rewrite lookup_insert_ne|].
    split; [by left|]. left.
    unfold memory_usage, max_memory; simpl.
    unfold needs_eviction in Hneed. rewrite Z.gtb_ltb in Hneed.
    apply Z.ltb_ge in Hneed. lia.
Qed.

Lemma set_reshaped key entry s b s' :
  accounted s → set key entry s = Some (b, s') → reshaped true key s s'.
Proof.
  intros Hacc Hset.
  destruct (shards_ s !! get_shard_index key s) as [shard|] eqn:Hi.
  2:{ unfold set in Hset. by rewrite Hi in Hset. }
  destruct (data shard !! key) as [old|] eqn:Hold.
  - unfold set in Hset. rewrite Hi in Hset; simpl in Hset. rewrite Hold in Hset.
    simplify_eq. eexists shard, _. split; [done|]. split; [done|].
    intros k Hk. left. simpl. by rewrite lookup_insert_ne.
  - assert (b = true) as ->.
    { destruct (set_returns key entry s) as (s'' & Hs'' & _); [|congruence].
      intros Hnil. by rewrite Hnil in Hi. }
    destruct (set_new_key_shape _ _ _ _ _ Hacc Hi Hold Hset)
      as (shard' & survivors & evicted & Hsh & _ & _ & _ & Hgone & Hstay & _).
    exists shard, shard'. split; [done|]. split; [done|].
    intros k Hk. destruct (decide (k ∈ evicted)) as [Hin|Hnin].
    + right. split; [done|]. split; [done|]. by apply Hgone.
    + left. by apply Hstay.
Qed.

(** *** The placement invariant *)

Lemma make_placed num_shards max_memory_bytes :
  placed (make num_shards max_memory_bytes).
Proof.
  intros i shard k Hi [e He]. simpl in Hi.
  apply lookup_replicate in Hi as [-> _]. simpl in He. by rewrite lookup_empty in He.
Qed.

Lemma clear_placed s : placed (clear s).
Proof.
  intros i shard k Hi [e He]. simpl in Hi.
  rewrite list_lookup_fmap in Hi.
  destruct (shards_ s !! i); by simplify_eq/=.
Qed.

Lemma step_placed o s s' :
  accounted s → placed s → step o s = Some s' → placed s'.
Proof.
  intros Hacc Hpl Hstep. destruct o; simpl in Hstep.
  - destruct (get _ _ _ _ s) as [[r s1]|] eqn:E; simplify_eq/=.
    eapply reshaped_placed; [|done]. by eapply get_reshaped.
  - destruct (set _ _ s) as [[r s1]|] eqn:E; simplify_eq/=.
    eapply reshaped_placed; [|done]. by eapply set_reshaped.
  - destruct (del _ s) as [[r s1]|] eqn:E; simplify_eq/=.
    eapply reshaped_placed; [|done]. by eapply del_reshaped.
  - destruct (compare_and_swap _ _ _ _ _ s) as [[r s1]|] eqn:E; simplify_eq/=.
    eapply reshaped_placed; [|done]. by eapply compare_and_swap_reshaped.
  - destruct (exists_ _ _ s) as [r|] eqn:E; by simplify_eq/=.
  - simplify_eq. apply clear_placed.
Qed.

Lemma run_placed ops s s' :
  accounted s → placed s → run ops s = Some s' → placed s'.
Proof.
  revert s. induction ops as [|o rest IH]; intros s Hacc Hpl Hrun; simpl in Hrun.
  - by simplify_eq.
  - destruct (step o s) as [s1|] eqn:E; simpl in Hrun; [|done].
    eapply IH; [| |done].
    + by eapply step_accounted.
    + by eapply step_placed.
Qed.

(** *** Reachable states *)

Lemma reachable_invariants s :
  reachable s → accounted s ∧ placed s ∧ shards_ s ≠ [].
Proof.
  intros (n & m & ops & Hn & Hrun).
  split; [by eapply run_accounted; [apply make_accounted|]|].
  split; [by eapply run_placed; [apply make_accounted|apply make_placed|]|].
  destruct (run_returns ops (make n m)) as (s1 & Hrun1 & Hlen);
    [by apply make_nonempty|].
  assert (s1 = s) as -> by congruence.
  eapply nonempty_of_length; [done|]. by apply make_nonempty.
Qed.

Lemma reachable_step o s s' : reachable s → step o s = Some s' → reachable s'.
Proof.
  intros (n & m & ops & Hn & Hrun) Hstep. exists n, m, (ops ++ [o]).
  split; [done|]. clear Hn. revert Hrun. generalize (make n m).
  induction ops as [|o' rest IH]; intros s0 Hrun; simpl in *.
  - simplify_eq. by rewrite Hstep.
  - destruct (step o' s0) as [s1|]; simpl in *; [|done]. by apply IH.
Qed.

Lemma stored_placed s i shard k e :
  placed s → shards_ s !! i = Some shard → data shard !! k = Some e →
  stored k s = Some e.
Proof.
  intros Hpl Hi He. unfold stored.
  rewrite (Hpl i shard k Hi) by (by eexists). by rewrite Hi.
Qed.

(** *** [set] then [get] *)

(** X4: on an engine with at least one shard, [set(key, entry)]
    succeeds, and a [get(key)] that follows while the entry has not expired
    returns that entry with its last-access time set to the time of the
    read; the entry stays stored, the key is at the front of its shard's LRU
    list, and the hit counter has moved by one. *)
Theorem set_then_get_returns_the_entry
    (key : string) (entry : CacheEntry.t) (now1 now2 now3 : Z) (s : t) :
  shards_ s ≠ [] →
  CacheEntry.is_expired now1 entry = false →
  CacheEntry.is_expired now2 entry = false →
  ∃ s1 s2 shard,
    set key entry s = Some (true, s1) ∧
    get now1 now2 now3 key s1 = Some (Some (CacheEntry.touch now3 entry), s2) ∧
    stored key s2 = Some (CacheEntry.touch now3 entry) ∧
    shards_ s2 !! get_shard_index key s2 = Some shard ∧
    head (lru_list shard) = Some key ∧
    Metrics.cache_hits (metrics_ s2)
      = size_t_wrap (Metrics.cache_hits (metrics_ s1) + 1).
Proof.
  intros Hne Hx1 Hx2.
  destruct (set_stores key entry s Hne) as (s1 & Hset & Hst & Hne1).
  exists s1. apply stored_lookup in Hst as (shard & Hi & He).
  unfold get. rewrite Hi; simpl. rewrite He, Hx1, Hx2.
  eexists _, _. split; [done|]. split; [done|].
  split.
  { erewrite (stored_written key _ s1); [|done|done]. simpl. apply lookup_insert_eq. }
  split.
  { simpl. unfold get_shard_index at 1; simpl. rewrite length_insert.
    fold (get_shard_index key s1).
    apply list_lookup_insert_eq. by eapply lookup_lt_Some. }
  split; done.
Qed.

(** *** [del] *)

(** X5: [del(key)] returns [true] exactly when an entry was stored under
    the key, expired or not; when it returns [false] the engine is
    unchanged.  Afterwards nothing is stored under the key, [get] and
    [exists] report it absent, and every other key holds what it held
    before. *)
Theorem del_removes_the_key (key : string) (s : t) :
  shards_ s ≠ [] →
  ∃ b s',
    del key s = Some (b, s') ∧
    (b = true ↔ is_Some (stored key s)) ∧
    (b = false → s' = s) ∧
    stored key s' = None ∧
    (∀ k, k ≠ key → stored k s' = stored k s) ∧
    (∀ now1 now2 now3, ∃ s'', get now1 now2 now3 key s' = Some (None, s'')) ∧
    (∀ now, exists_ now key s' = Some false).
Proof.
  intros Hne. destruct (del_returns key s Hne) as (b & s' & Hdel & Hlen).
  exists b, s'. split; [done|].
  pose proof (del_reshaped _ _ _ _ Hdel) as Hre.
  destruct (get_shard_lookup key s Hne) as [shard Hi].
  assert (stored key s' = None ∧ (b = true ↔ is_Some (stored key s)) ∧
          (b = false → s' = s)) as (Hgone & Hb & Hsame).
  { unfold del in Hdel. rewrite Hi in Hdel; simpl in Hdel.
    unfold stored at 2. rewrite Hi; simpl.
    destruct (data shard !! key) as [e|] eqn:He; simplify_eq.
    - split; [|split; [by split; [eexists|] | done]].
      erewrite (stored_written key _ s); [|done|done]. simpl. apply lookup_delete_eq.
    - split; [|split; [|done]].
      + unfold stored. by rewrite Hi; simpl.
      + split; [done | by intros [? ?]]. }
  split; [done|]. split; [done|]. split; [done|].
  split.
  { intros k Hk. destruct (reshaped_stored _ _ _ _ k Hre Hk) as [?|(? & _)]; done. }
  assert (shards_ s' ≠ []) as Hne' by (by eapply nonempty_of_length).
  destruct (get_shard_lookup key s' Hne') as [shard' Hi'].
  assert (data shard' !! key = None) as Hnone.
  { unfold stored in Hgone. by rewrite Hi' in Hgone. }
  split.
  - intros now1 now2 now3. unfold get. rewrite Hi'; simpl. rewrite Hnone. by eexists.
  - intros now. unfold exists_. rewrite Hi'; simpl. by rewrite Hnone.
Qed.

(** *** Other keys *)

(** X6: in any state the engine reaches, [get] and [compare_and_swap]
    on one key leave the entry stored under every other key as it was.
    [set] does too, except that inserting a key that was not stored may
    evict other keys, and only keys of the shard the new key hashes to. *)
Theorem other_keys_are_left_alone (key k : string) (s : t) :
  reachable s → k ≠ key →
  (∀ now1 now2 now3 r s',
     get now1 now2 now3 key s = Some (r, s') → stored k s' = stored k s) ∧
  (∀ now1 now2 expected new_entry r s',
     compare_and_swap now1 now2 key expected new_entry s = Some (r, s') →
     stored k s' = stored k s) ∧
  (∀ entry b s',
     set key entry s = Some (b, s') →
     stored k s' = stored k s ∨
     (stored k s' = None ∧ stored key s = None ∧
      get_shard_index k s = get_shard_index key s)).
Proof.
  intros (Hacc & _ & _)%reachable_invariants Hk. split; [|split].
  - intros now1 now2 now3 r s' Hget%get_reshaped.
    destruct (reshaped_stored _ _ _ _ k Hget Hk) as [?|(? & _)]; done.
  - intros now1 now2 expected new_entry r s' Hcas%compare_and_swap_reshaped.
    destruct (reshaped_stored _ _ _ _ k Hcas Hk) as [?|(? & _)]; done.
  - intros entry b s' Hset. apply set_reshaped in Hset; [|done].
    destruct (reshaped_stored _ _ _ _ k Hset Hk) as [?|(_ & ? & ? & ?)]; auto.
Qed.

(** *** Eviction on insert *)

(** X7: inserting a key that is not stored evicts from the back of the
    LRU list of the key's shard, and from nowhere else.  The shard's list
    splits into the survivors (the more recently used keys, which keep their
    entries) and the evicted (the least recently used ones, which are
    gone); the new key goes to the front.  Keys are evicted only if the new
    entry does not fit under the memory cap, and eviction stops as soon as
    it fits: afterwards [memory_usage()] is within the cap, or else the
    shard holds nothing but the new key. *)
Theorem insert_evicts_least_recently_used
    (key : string) (entry : CacheEntry.t) (s : t) :
  reachable s → stored key s = None →
  ∃ s' shard shard' survivors evicted,
    set key entry s = Some (true, s') ∧
    shards_ s !! get_shard_index key s = Some shard ∧
    shards_ s' !! get_shard_index key s = Some shard' ∧
    lru_list shard = survivors ++ evicted ∧
    lru_list shard' = key :: survivors ∧
    (∀ k, k ∈ evicted → stored k s' = None) ∧
    (∀ k, k ∈ survivors → stored k s' = stored k s ∧ is_Some (stored k s)) ∧
    (evicted = [] ∨
     max_memory s < size_t_wrap (memory_usage s + CacheEntry.total_size entry)) ∧
    (memory_usage s' ≤ max_memory s' ∨ survivors = []).
Proof.
  intros (Hacc & Hpl & Hne)%reachable_invariants Hnone.
  destruct (get_shard_lookup key s Hne) as [shard Hi].
  assert (data shard !! key = None) as Hdata.
  { unfold stored in Hnone. by rewrite Hi in Hnone. }
  destruct (set_returns key entry s Hne) as (s' & Hset & Hlen).
  destruct (set_new_key_shape _ _ _ _ _ Hacc Hi Hdata Hset)
    as (shard' & survivors & evicted & Hsh & Hl & Hl' & _ & Hgone & Hstay & Hwhy & Hfit).
  assert (lru_ok shard) as [Hnd Hk].
  { destruct Hacc as [_ _ Hs]. by eapply (Forall_lookup_1 _ _ _ _ Hs Hi). }
  assert (Hlt := lookup_lt_Some _ _ _ Hi).
  assert (∀ k, k ∈ lru_list shard →
               get_shard_index k s = get_shard_index key s) as Hidx.
  { intros k Hin%Hk. by apply (Hpl _ shard). }
  assert (∀ k, k ∈ lru_list shard → stored k s' = data shard' !! k) as Hst'.
  { intros k Hin. unfold stored.
    assert (get_shard_index k s' = get_shard_index k s) as ->
      by (unfold get_shard_index; by rewrite Hsh, length_insert).
    rewrite (Hidx k Hin), Hsh. by rewrite list_lookup_insert_eq. }
  exists s', shard, shard', survivors, evicted.
  split; [done|]. split; [done|].
  split; [rewrite Hsh; by apply list_lookup_insert_eq|].
  split; [done|]. split; [done|].
  split.
  { intros k Hin. rewrite Hst' by (rewrite Hl, elem_of_app; by right).
    by apply Hgone. }
  split.
  { intros k Hin.
    assert (k ∈ lru_list shard) as Hkin by (rewrite Hl, elem_of_app; by left).
    assert (k ∉ evicted) as Hnin.
    { rewrite Hl in Hnd. apply NoDup_app in Hnd as (_ & Hdisj & _). by apply Hdisj. }
    assert (k ≠ key) as Hkk.
    { intros ->. apply Hk in Hkin as [? ?]. congruence. }
    rewrite Hst', Hstay by done.
    apply Hk in Hkin as [e He]. rewrite He.
    rewrite (stored_placed s _ shard k e) by done. by split; [|eexists]. }
  split; [|done].
  destruct Hwhy as [?|Hneed]; [by left|right].
  unfold needs_eviction in Hneed. unfold max_memory, memory_usage. 
  rewrite Z.gtb_ltb in Hneed. by apply Z.ltb_lt in Hneed.
Qed.

(** *** Iteration *)

Lemma NoDup_bind_indexed {A B} (f : A → list B) (l : list A) :
  (∀ x, x ∈ l → NoDup (f x)) →
  (∀ i j x y b, l !! i = Some x → l !! j = Some y → b ∈ f x → b ∈ f y → i = j) →
  NoDup (l ≫= f).
Proof.
  induction l as [|a l IH]; intros Hnd Hdisj; [constructor|].
  rewrite bind_cons. apply NoDup_app. split; [apply Hnd; by left|]. split.
  - intros b Hb (y & Hy & [j Hj]%list_elem_of_lookup_1)%list_elem_of_bind.
    by specialize (Hdisj 0%nat (S j) a y b eq_refl Hj Hb Hy).
  - apply IH.
    + intros x Hx. apply Hnd. by right.
    + intros i j x y b Hi Hj Hx Hy.
      by specialize (Hdisj (S i) (S j) x y b Hi Hj Hx Hy) as [= ->].
Qed.

Lemma fst_bind {A B C} (f : A → list (B * C)) (l : list A) :
  (l ≫= f).*1 = l ≫= (λ x, (f x).*1).
Proof.
  induction l as [|a l IH]; [done|]. by rewrite !bind_cons, fmap_app, IH.
Qed.

(** X8: in any state the engine reaches, [for_each] calls its
    function on exactly the stored entries that have not expired when they
    are visited, and on no key twice. *)
Theorem for_each_visits_each_live_entry_once (now_at : string → Z) (s : t) :
  reachable s →
  (∀ k e, (k, e) ∈ for_each now_at s ↔
          stored k s = Some e ∧ CacheEntry.is_expired (now_at k) e = false) ∧
  NoDup (for_each now_at s).*1.
Proof.
  intros (_ & Hpl & _)%reachable_invariants. split.
  - intros k e. unfold for_each. rewrite list_elem_of_bind. split.
    + intros (shard & [Hlive Hin%elem_of_map_to_list]%list_elem_of_filter
              & [i Hi]%list_elem_of_lookup_1).
      split; [by eapply stored_placed | done].
    + intros [(shard & Hi & He)%stored_lookup Hlive]. exists shard. split.
      * apply list_elem_of_filter. split; [done | by apply elem_of_map_to_list].
      * by eapply list_elem_of_lookup_2.
  - unfold for_each. rewrite fst_bind. apply NoDup_bind_indexed.
    + intros shard _. eapply sublist_NoDup; [apply (NoDup_fst_map_to_list (data shard))|].
      apply fmap_sublist, sublist_filter.
    + intros i j x y k Hi Hj Hx Hy.
      assert (∀ sh, k ∈ (filter (λ p, CacheEntry.is_expired (now_at p.1) p.2 = false)
                                (map_to_list (data sh))).*1 →
                    is_Some (data sh !! k)) as Hin.
      { intros sh ([k' e] & -> & [_ Hin%elem_of_map_to_list]%list_elem_of_filter)
                  %list_elem_of_fmap. by eexists. }
      rewrite <- (Hpl i x k Hi (Hin x Hx)). by apply (Hpl j y k Hj), Hin.
Qed.

(** *** Hit and miss counters *)

Lemma evict_loop_hits_misses l req :
  ∀ shard s shard' s',
    evict_loop l req shard s = (shard', s') →
    Metrics.cache_hits (metrics_ s') = Metrics.cache_hits (metrics_ s) ∧
    Metrics.cache_misses (metrics_ s') = Metrics.cache_misses (metrics_ s).
Proof.
  induction l as [|k rest IH]; intros shard s shard' s' Hev; simpl in Hev.
  - by simplify_eq.
  - destruct (needs_eviction s req); [|by simplify_eq].
    destruct (data shard !! k); by apply IH in Hev.
Qed.

Lemma step_hits_misses o s s' :
  step o s = Some s' →
  size_t_wrap (Metrics.cache_hits (metrics_ s') + Metrics.cache_misses (metrics_ s'))
  = size_t_wrap (Metrics.cache_hits (metrics_ s) + Metrics.cache_misses (metrics_ s)
                 + count_gets [o]).
Proof.
  intros Hstep. unfold count_gets, Zsum_with. destruct o; simpl in *.
  - unfold get in Hstep.
    destruct (shards_ s !! get_shard_index key s) as [shard|]; simpl in Hstep; [|done].
    destruct (data shard !! key) as [e|]; [|simplify_eq/=; wrap_eq].
    destruct (CacheEntry.is_expired now1 e); [simplify_eq/=; wrap_eq|].
    destruct (CacheEntry.is_expired now2 e); simplify_eq/=; wrap_eq.
  - unfold set in Hstep.
    destruct (shards_ s !! get_shard_index key s) as [shard|]; simpl in Hstep; [|done].
    destruct (data shard !! key) as [old|]; [simplify_eq/=; f_equal; lia|].
    destruct (needs_eviction s _).
    + destruct (evict_if_needed shard _ s) as [shard1 s1] eqn:Hev.
      apply evict_loop_hits_misses in Hev as [Hh Hm].
      simplify_eq/=. rewrite Hh, Hm. f_equal; lia.
    + simplify_eq/=. f_equal; lia.
  - unfold del in Hstep.
    destruct (shards_ s !! get_shard_index key s) as [shard|]; simpl in Hstep; [|done].
    destruct (data shard !! key) as [e|]; simplify_eq/=; f_equal; lia.
  - unfold compare_and_swap in Hstep.
    destruct (shards_ s !! get_shard_index key s) as [shard|]; simpl in Hstep; [|done].
    destruct (data shard !! key) as [cur|]; [|simplify_eq/=; f_equal; lia].
    destruct (CacheEntry.is_expired now1 cur); [simplify_eq/=; f_equal; lia|].
    destruct (negb _); simplify_eq/=; f_equal; lia.
  - destruct (exists_ now key s); simplify_eq/=. f_equal; lia.
  - simplify_eq/=. f_equal; lia.
Qed.

(** X9: after any sequence of operations on a fresh engine,
    [cache_hits + cache_misses] is the number of [get] calls made (as
    [uint64_t] values): every [get] counts as exactly one hit or one miss,
    and no other operation moves either counter. *)
Theorem every_get_counts_as_a_hit_or_a_miss
    (num_shards : nat) (max_memory_bytes : Z) (ops : list op) (s : t) :
  run ops (make num_shards max_memory_bytes) = Some s →
  size_t_wrap (Metrics.cache_hits (metrics_ s) + Metrics.cache_misses (metrics_ s))
  = size_t_wrap (count_gets ops).
Proof.
  assert (∀ s0, run ops s0 = Some s →
    size_t_wrap (Metrics.cache_hits (metrics_ s) + Metrics.cache_misses (metrics_ s))
    = size_t_wrap (Metrics.cache_hits (metrics_ s0) + Metrics.cache_misses (metrics_ s0)
                   + count_gets ops)) as Hgen.
  { induction ops as [|o rest IH]; intros s0 Hrun; simpl in Hrun.
    - simplify_eq. unfold count_gets, Zsum_with; simpl. f_equal; lia.
    - destruct (step o s0) as [s1|] eqn:Hstep; simpl in Hrun; [|done].
      rewrite (IH s1 Hrun). apply step_hits_misses in Hstep.
      unfold count_gets, Zsum_with in *. simpl in *. wrap_eq. }
  intros Hrun. rewrite (Hgen _ Hrun). simpl. f_equal; lia.
Qed.

(** *** [clear] *)

(** X10: after [clear()] the engine reports size 0 and memory usage 0,
    no key is stored and [for_each] visits nothing; the memory cap is kept,
    and the metrics are not reset (the gauges [entries_count] and
    [memory_bytes] keep their last values). *)
Theorem clear_empties_the_engine (s : t) :
  size (clear s) = 0 ∧ memory_usage (clear s) = 0 ∧
  (∀ key, stored key (clear s) = None) ∧
  (∀ now_at, for_each now_at (clear s) = []) ∧
  max_memory (clear s) = max_memory s ∧
  metrics_ (clear s) = metrics_ s.
Proof.
  split; [done|]. split; [done|]. split; [|split; [|done]].
  - intros key. unfold stored; simpl. rewrite list_lookup_fmap.
    by destruct (shards_ s !! _).
  - intros now_at. unfold for_each; simpl.
    induction (shards_ s) as [|shard l IH]; [done|].
    rewrite fmap_cons, bind_cons, IH. simpl. by rewrite map_to_list_empty.
Qed.

End accounting.

Section examples.
#[local] Existing Instance example_platform.

Lemma C10_counters_track_the_shard_maps_witness :
  (0 < 4)%nat ∧
  ∃ s, run example_session (make 4 1000) = Some s ∧
       size s = size_t_wrap (stored_entries s) ∧
       memory_usage s = size_t_wrap (stored_bytes s) ∧
       (stored_entries s < 2 ^ 64 → size s = stored_entries s) ∧
       (stored_bytes s < 2 ^ 64 → memory_usage s = stored_bytes s) ∧
       ∀ key e now,
         stored key s = Some e → CacheEntry.is_expired now e = true →
         (∀ now2 now3, ∃ s1, get now now2 now3 key s = Some (None, s1)
                              ∧ shards_ s1 = shards_ s) ∧
         exists_ now key s = Some false ∧
         (∀ now2 expected new_entry,
            ∃ r, compare_and_swap now now2 key expected new_entry s = Some (r, s)
                 ∧ success r = false ∧ error r = "Key expired").
Proof.
  assert (Hn : (0 < 4)%nat) by lia.
  split; [exact Hn|].
  exact (C10_counters_track_the_shard_maps 4 1000 example_session Hn).
Defined.

(** The session leaves the expired entry of ["a"] and the entry of ["b"]:
    two entries, 2 * 168 + 1 + 1 + 1 + 4 bytes. *)
Example example_session_counts :
  (λ s, (size s, stored_entries s, memory_usage s, stored_bytes s))
    <$> run example_session (make 4 1000)
  = Some (2, 2, 343, 343).
Proof. by vm_compute. Qed.

(** Eviction in the accounts: a one-shard engine capped at 400 bytes takes
    three entries of 170 bytes; the third insert evicts the least recently
    used one, ["a"]. *)
Example eviction_is_accounted :
  (λ s, (size s, stored_entries s, memory_usage s, stored_bytes s,
         CacheEntry.version <$> stored "a" s,
         Metrics.evictions_total (metrics_ s)))
    <$> run [ OpSet "a" (CacheEntry.make 1 "a" (bytes "1") None);
              OpSet "b" (CacheEntry.make 2 "b" (bytes "2") None);
              OpSet "c" (CacheEntry.make 3 "c" (bytes "3") None) ]
            (make 1 400)
  = Some (2, 2, 340, 340, None, 1).
Proof. by vm_compute. Qed.

Example example_session_expired_entry_hidden :
  (s ← run example_session (make 4 1000);
   r ← get 2000 2000 2000 "a" s;
   Some (r.1, CacheEntry.expires_at_ms <$> stored "a" s, size r.2))
  = Some (None, Some (Some 1000), 2).
Proof. by vm_compute. Qed.

Lemma C2_compare_and_swap_outcomes_witness :
  shards_ counter_engine ≠ [] ∧
  ∃ r s',
    compare_and_swap 2000 2001 "counter" 1
      (CacheEntry.make 2000 "counter" (bytes "2") None) counter_engine
    = Some (r, s') ∧
    (success r = false → s' = counter_engine) ∧
    match stored "counter" counter_engine with
    | None =>
        success r = false ∧ new_version r = 0 ∧ error r = "Key not found"
    | Some cur =>
        if CacheEntry.is_expired 2000 cur then
          success r = false ∧ new_version r = 0 ∧ error r = "Key expired"
        else if decide (CacheEntry.version cur = 1) then
          success r = true ∧ new_version r = CacheEntry.version cur + 1 ∧
          ∃ e', stored "counter" s' = Some e' ∧
                CacheEntry.version e' = CacheEntry.version cur + 1 ∧
                CacheEntry.key e' = "counter" ∧
                CacheEntry.value e' = bytes "2" ∧
                CacheEntry.ttl_seconds e' = None ∧
                CacheEntry.expires_at_ms e' = None
        else
          success r = false ∧ new_version r = 0 ∧
          actual_version r = CacheEntry.version cur ∧ error r = "Version mismatch"
    end.
Proof.
  assert (Hne : shards_ counter_engine ≠ []) by (vm_compute; discriminate).
  split; [exact Hne|].
  exact (C2_compare_and_swap_outcomes 2000 2001 "counter" 1
           (CacheEntry.make 2000 "counter" (bytes "2") None) counter_engine Hne).
Defined.

(** Scenario 3 of the specification: CAS with the current version succeeds
    and returns the next version; repeating it with the old version fails
    and reports the actual version. *)
Example cas_success_then_mismatch :
  ('(r1, s1) ← compare_and_swap 2000 2001 "counter" 1
                  (CacheEntry.make 2000 "counter" (bytes "2") None) counter_engine;
   '(r2, s2) ← compare_and_swap 3000 3001 "counter" 1
                  (CacheEntry.make 3000 "counter" (bytes "3") None) s1;
   Some (success r1, new_version r1, success r2, actual_version r2,
         CacheEntry.value <$> stored "counter" s2))
  = Some (true, 2, false, 2, Some (bytes "2")).
Proof. by vm_compute. Qed.

(** C6, on the code: an engine with a 100-byte cap is asked to insert an
    entry of 170 bytes.  [set] evicts what it can (nothing), stores the
    entry and returns [true]; [memory_usage()] ends above the cap.  No
    failure is reported. *)
Theorem C6_oversized_entry_is_stored :
  let entry := CacheEntry.make 1000 "k" (bytes "v") None in
  max_memory (make 4 100) < CacheEntry.total_size entry ∧
  ∃ s', set "k" entry (make 4 100) = Some (true, s') ∧
        stored "k" s' = Some entry ∧
        memory_usage s' = 170 ∧ max_memory s' = 100.
Proof.
  cbv zeta. split; [by vm_compute|].
  eexists. split; [by vm_compute|]. by vm_compute.
Qed.

Lemma example_engine_reachable : reachable example_engine.
Proof. exists 4%nat, 1000, example_session. split; [lia | by vm_compute]. Qed.

Lemma full_engine_reachable : reachable full_engine.
Proof. exists 1%nat, 400, two_inserts. split; [lia | by vm_compute]. Qed.

Lemma insert_evicts_least_recently_used_witness :
  let entry := CacheEntry.make 3 "c" (bytes "3") None in
  reachable full_engine ∧ stored "c" full_engine = None ∧
  ∃ s' shard shard' survivors evicted,
    set "c" entry full_engine = Some (true, s') ∧
    shards_ full_engine !! get_shard_index "c" full_engine = Some shard ∧
    shards_ s' !! get_shard_index "c" full_engine = Some shard' ∧
    lru_list shard = survivors ++ evicted ∧
    lru_list shard' = "c" :: survivors ∧
    (∀ k, k ∈ evicted → stored k s' = None) ∧
    (∀ k, k ∈ survivors →
          stored k s' = stored k full_engine ∧ is_Some (stored k full_engine)) ∧
    (evicted = [] ∨
     max_memory full_engine
       < size_t_wrap (memory_usage full_engine + CacheEntry.total_size entry)) ∧
    (memory_usage s' ≤ max_memory s' ∨ survivors = []).
Proof.
  cbv zeta.
  assert (Hnone : stored "c" full_engine = None) by (vm_compute; reflexivity).
  split; [exact full_engine_reachable|]. split; [exact Hnone|].
  exact (insert_evicts_least_recently_used "c" _ full_engine
           full_engine_reachable Hnone).
Defined.

(** The third insert evicts ["a"], the least recently used key, and keeps
    ["b"]. *)
Example insert_evicts_a :
  (λ r, (lru_list <$> shards_ r.2, CacheEntry.version <$> stored "a" r.2))
    <$> set "c" (CacheEntry.make 3 "c" (bytes "3") None) full_engine
  = Some ([["c"; "b"]], None).
Proof. by vm_compute. Qed.

Lemma for_each_visits_each_live_entry_once_witness :
  reachable example_engine ∧
  (∀ k e, (k, e) ∈ for_each (λ _, 3000) example_engine ↔
          stored k example_engine = Some e ∧ CacheEntry.is_expired 3000 e = false) ∧
  NoDup (for_each (λ _, 3000) example_engine).*1.
Proof.
  split; [exact example_engine_reachable|].
  exact (for_each_visits_each_live_entry_once (λ _, 3000) example_engine
           example_engine_reachable).
Defined.

(** After the session the engine still holds the expired ["a"]; iteration
    lists ["b"] alone. *)
Example for_each_skips_the_expired_entry :
  (for_each (λ _, 3000) example_engine).*1 = ["b"].
Proof. by vm_compute. Qed.

Lemma every_get_counts_as_a_hit_or_a_miss_witness :
  run example_session (make 4 1000) = Some example_engine ∧
  size_t_wrap (Metrics.cache_hits (metrics_ example_engine)
               + Metrics.cache_misses (metrics_ example_engine))
  = size_t_wrap (count_gets example_session).
Proof.
  assert (Hrun : run example_session (make 4 1000) = Some example_engine)
    by (vm_compute; reflexivity).
  split; [exact Hrun|].
  exact (every_get_counts_as_a_hit_or_a_miss 4 1000 example_session example_engine Hrun).
Defined.


Lemma set_then_get_returns_the_entry_witness :
  let entry := CacheEntry.make 1000 "a" (bytes "x") (Some 60) in
  shards_ (make 4 1000) ≠ [] ∧
  CacheEntry.is_expired 2000 entry = false ∧
  ∃ s1 s2 shard,
    set "a" entry (make 4 1000) = Some (true, s1) ∧
    get 2000 2000 2001 "a" s1 = Some (Some (CacheEntry.touch 2001 entry), s2) ∧
    stored "a" s2 = Some (CacheEntry.touch 2001 entry) ∧
    shards_ s2 !! get_shard_index "a" s2 = Some shard ∧
    head (lru_list shard) = Some "a" ∧
    Metrics.cache_hits (metrics_ s2)
      = size_t_wrap (Metrics.cache_hits (metrics_ s1) + 1).
Proof.
  cbv zeta.
  assert (Hne : shards_ (make 4 1000) ≠ []) by (vm_compute; discriminate).
  assert (Hx : CacheEntry.is_expired 2000
                 (CacheEntry.make 1000 "a" (bytes "x") (Some 60)) = false)
    by (vm_compute; reflexivity).
  split; [exact Hne|]. split; [exact Hx|].
  exact (set_then_get_returns_the_entry "a" _ 2000 2000 2001 (make 4 1000) Hne Hx Hx).
Defined.

Lemma del_removes_the_key_witness :
  shards_ example_engine ≠ [] ∧
  ∃ b s',
    del "b" example_engine = Some (b, s') ∧
    (b = true ↔ is_Some (stored "b" example_engine)) ∧
    (b = false → s' = example_engine) ∧
    stored "b" s' = None ∧
    (∀ k, k ≠ "b" → stored k s' = stored k example_engine) ∧
    (∀ now1 now2 now3, ∃ s'', get now1 now2 now3 "b" s' = Some (None, s'')) ∧
    (∀ now, exists_ now "b" s' = Some false).
Proof.
  assert (Hne : shards_ example_engine ≠ []) by (vm_compute; discriminate).
  split; [exact Hne|].
  exact (del_removes_the_key "b" example_engine Hne).
Defined.

Lemma other_keys_are_left_alone_witness :
  reachable example_engine ∧ "a" ≠ "b" ∧
  (∀ now1 now2 now3 r s',
     get now1 now2 now3 "b" example_engine = Some (r, s') →
     stored "a" s' = stored "a" example_engine) ∧
  (∀ now1 now2 expected new_entry r s',
     compare_and_swap now1 now2 "b" expected new_entry example_engine = Some (r, s') →
     stored "a" s' = stored "a" example_engine) ∧
  (∀ entry b s',
     set "b" entry example_engine = Some (b, s') →
     stored "a" s' = stored "a" example_engine ∨
     (stored "a" s' = None ∧ stored "b" example_engine = None ∧
      get_shard_index "a" example_engine = get_shard_index "b" example_engine)).
Proof.
  assert (Hk : "a" ≠ "b") by discriminate.
  split; [exact example_engine_reachable|]. split; [exact Hk|].
  exact (other_keys_are_left_alone "b" "a" example_engine example_engine_reachable Hk).
Defined.

End examples.

End ShardedHashTable_facts.

(** ** The cache service *)

Module CacheServiceImpl_facts.
Import CacheServiceImpl.

Section handlers.
Context {platform : Platform}.

Lemma service_make_nonempty : ShardedHashTable.shards_ make ≠ [].
Proof. by apply ShardedHashTable_facts.make_nonempty; lia. Qed.

Lemma Set_stores c now request s :
  rejected c = None → ShardedHashTable.shards_ s ≠ [] →
  ∃ s', Set_ c now request s = Some (OK, mkSetResponse true 1, s') ∧
        ShardedHashTable.stored (set_key request) s'
        = Some (CacheEntry.make now (set_key request)
                  (String.list_byte_of_string (set_value request))
                  (set_ttl_seconds request)) ∧
        ShardedHashTable.shards_ s' ≠ [].
Proof.
  intros Hc Hne. unfold Set_. rewrite Hc.
  destruct (ShardedHashTable_facts.set_stores (set_key request)
              (CacheEntry.make now (set_key request)
                 (String.list_byte_of_string (set_value request))
                 (set_ttl_seconds request)) s Hne) as (s' & -> & Hst & Hne').
  simpl. by eauto.
Qed.

(** Whatever the engine held for the key, the entry found after a [Set]
    without TTL carries version 1. *)
Lemma Get_after_Set c c' now now1 now2 now3 k v s :
  rejected c = None → rejected c' = None → ShardedHashTable.shards_ s ≠ [] →
  ∃ r s1 s2,
    Set_ c now (mkSetRequest k v None) s = Some (OK, r, s1) ∧ set_version r = 1 ∧
    Get c' now1 now2 now3 k s1
    = Some (OK, mkGetResponse true (String.list_byte_of_string v) 1, s2) ∧
    ShardedHashTable.shards_ s1 ≠ [].
Proof.
  intros Hc Hc' Hne.
  destruct (Set_stores c now (mkSetRequest k v None) s Hc Hne)
    as (s1 & HS & Hst & Hne1). simpl in Hst.
  destruct (ShardedHashTable_facts.get_stored_fresh now1 now2 now3 k _ s1 Hst)
    as (s2 & HG); [done..|].
  exists (mkSetResponse true 1), s1, s2. split; [done|]. split; [done|].
  split; [|done]. unfold Get. rewrite Hc', HG. done.
Qed.

Lemma second_Set_stores_version_1
    (c : Checks) (k v1 v2 : string) (t1 t2 now1 now2 now3 : Z) :
  rejected c = None →
  ∃ r1 s1 r2 s2 s3,
    Set_ c t1 (mkSetRequest k v1 None) make = Some (OK, r1, s1) ∧
    Set_ c t2 (mkSetRequest k v2 None) s1 = Some (OK, r2, s2) ∧
    set_version r2 = 1 ∧
    Get c now1 now2 now3 k s2
    = Some (OK, mkGetResponse true (String.list_byte_of_string v2) 1, s3).
Proof.
  intros Hc.
  destruct (Set_stores c t1 (mkSetRequest k v1 None) make Hc service_make_nonempty)
    as (s1 & HS1 & _ & Hne1).
  destruct (Get_after_Set c c t2 now1 now2 now3 k v2 s1 Hc Hc Hne1)
    as (r2 & s2 & s3 & HS2 & Hv & HG & _).
  by exists (mkSetResponse true 1), s1, r2, s2, s3.
Qed.

(** C1, on the code: on a fresh server with no request rejected, SET(k,v1)
    then SET(k,v2) then GET(k) answers [v2] with version 1, for every key
    and values.  Each [Set] builds its entry with the constructor's
    version 1 and the engine's [set] stores the entry it is given, so the
    replaced entry's version is 1 again and never "prior version + 1". *)
Theorem C1_second_set_stores_version_1
    (k v1 v2 : string) (t1 t2 now1 now2 now3 : Z) :
  ∃ r1 s1 r2 s2 s3,
    Set_ no_checks t1 (mkSetRequest k v1 None) make = Some (OK, r1, s1) ∧
    Set_ no_checks t2 (mkSetRequest k v2 None) s1 = Some (OK, r2, s2) ∧
    set_version r2 = 1 ∧
    Get no_checks now1 now2 now3 k s2
    = Some (OK, mkGetResponse true (String.list_byte_of_string v2) 1, s3).
Proof. by apply second_Set_stores_version_1. Qed.

End handlers.

(** Scenario 1 of the specification, run on the code: the first GET
    returns "Alice" with version 1, and the second GET returns "Bob" with
    version 1 again, where the specification expects 2. *)
Example basic_round_trip :
  ('(_, _, s1) ← Set_ (H := example_platform) no_checks 1000
                    (mkSetRequest "user:1" "Alice" None) make;
   '(_, g1, s2) ← Get (H := example_platform) no_checks 1500 1500 1500 "user:1" s1;
   '(_, r2, s3) ← Set_ (H := example_platform) no_checks 2000
                    (mkSetRequest "user:1" "Bob" None) s2;
   '(_, g2, s4) ← Get (H := example_platform) no_checks 3000 3000 3000 "user:1" s3;
   Some (g1, set_version r2, g2))
  = Some (mkGetResponse true (bytes "Alice") 1, 1,
          mkGetResponse true (bytes "Bob") 1).
Proof. by vm_compute. Qed.

End CacheServiceImpl_facts.

(** ** Replication *)

Module replication_facts.
Import replication.

(** *** The primary's queue *)

Lemma QueueWrite_full now key value ttl version m :
  max_queue_size (config_ m) ≤ Z.of_nat (length (queue_ m)) →
  QueueWrite now key value ttl version m = (false, m).
Proof.
  intros Hfull. unfold QueueWrite.
  destruct (Z.geb_spec (Z.of_nat (length (queue_ m))) (max_queue_size (config_ m)));
    [done | lia].
Qed.

Lemma QueueDelete_full now key version m :
  max_queue_size (config_ m) ≤ Z.of_nat (length (queue_ m)) →
  QueueDelete now key version m = (false, m).
Proof.
  intros Hfull. unfold QueueDelete.
  destruct (Z.geb_spec (Z.of_nat (length (queue_ m))) (max_queue_size (config_ m)));
    [done | lia].
Qed.

Lemma QueueWrite_room now key value ttl version m :
  Z.of_nat (length (queue_ m)) < max_queue_size (config_ m) →
  QueueWrite now key value ttl version m
  = (true, push (mkQueuedEntry SET key value ttl version now) m).
Proof.
  intros Hroom. unfold QueueWrite.
  destruct (Z.geb_spec (Z.of_nat (length (queue_ m))) (max_queue_size (config_ m)));
    [lia | done].
Qed.

Lemma QueueDelete_room now key version m :
  Z.of_nat (length (queue_ m)) < max_queue_size (config_ m) →
  QueueDelete now key version m
  = (true, push (mkQueuedEntry DELETE key "" 0 version now) m).
Proof.
  intros Hroom. unfold QueueDelete.
  destruct (Z.geb_spec (Z.of_nat (length (queue_ m))) (max_queue_size (config_ m)));
    [lia | done].
Qed.

(** C5, as stated, fails: with two entries in a queue of capacity two,
    [QueueWrite] returns [false] and admits nothing; the oldest entry
    stays. *)
Lemma C5_full_queue_counterexample :
  ¬ drops_oldest_and_takes_new (QueueWrite 30 "k3" "v3" 60 3 full_queue) full_queue
      (mkQueuedEntry SET "k3" "v3" 60 3 30).
Proof. intros (oldest & rest & _ & Hres & _). vm_compute in Hres. discriminate. Qed.

(** C5 (amended): when a mutation is enqueued on a full replication queue
    (queue size at or above the configured maximum), [QueueWrite] and
    [QueueDelete] return [false] and leave the queue, oldest entry
    included, as it was: the new entry is the one dropped.  Below the
    maximum the new entry is appended behind the queued ones and the call
    returns [true]. *)
Theorem C5_full_queue_rejects_the_new_entry
    (now : Z) (key value : string) (ttl version : Z) (m : ReplicationManager) :
  (max_queue_size (config_ m) ≤ Z.of_nat (length (queue_ m)) →
   QueueWrite now key value ttl version m = (false, m) ∧
   QueueDelete now key version m = (false, m)) ∧
  (Z.of_nat (length (queue_ m)) < max_queue_size (config_ m) →
   ∃ m1 m2,
     QueueWrite now key value ttl version m = (true, m1) ∧
     queue_ m1 = queue_ m ++ [mkQueuedEntry SET key value ttl version now] ∧
     QueueDelete now key version m = (true, m2) ∧
     queue_ m2 = queue_ m ++ [mkQueuedEntry DELETE key "" 0 version now]).
Proof.
  split.
  - intros Hfull. by rewrite QueueWrite_full, QueueDelete_full.
  - intros Hroom. rewrite QueueWrite_room, QueueDelete_room by done.
    by eexists _, _.
Qed.

Lemma C5_full_queue_rejects_the_new_entry_witness :
  max_queue_size (config_ full_queue) ≤ Z.of_nat (length (queue_ full_queue)) ∧
  QueueWrite 30 "k3" "v3" 60 3 full_queue = (false, full_queue) ∧
  QueueDelete 30 "k3" 3 full_queue = (false, full_queue).
Proof.
  assert (Hfull : max_queue_size (config_ full_queue)
                  ≤ Z.of_nat (length (queue_ full_queue))) by (simpl; lia).
  split; [exact Hfull|].
  exact (proj1 (C5_full_queue_rejects_the_new_entry 30 "k3" "v3" 60 3 full_queue) Hfull).
Defined.

(** The test [QueueLimit] of the repository: five writes fit a queue of
    five, the sixth is refused. *)
Example QueueLimit_test :
  let m0 := make (mkConfig "node1" 2 100 50 2000 5 false) in
  let m5 := foldl (λ m i, (QueueWrite 0 ("key" +:+ to_string i) "value" 60 i m).2)
                  m0 [0; 1; 2; 3; 4] in
  length (queue_ m5) = 5%nat ∧ (QueueWrite 0 "overflow" "value" 60 100 m5).1 = false.
Proof. by vm_compute. Qed.

(** *** The follower's apply *)

Section follower.
Context {platform : Platform}.

Lemma apply_entry_applies now uninit entry storage applied :
  ShardedHashTable.shards_ storage ≠ [] →
  ∃ storage',
    apply_entry now uninit entry (storage, applied, 0)
    = Some (storage', size_t_wrap (applied + 1), 0) ∧
    ShardedHashTable.shards_ storage' ≠ [] ∧
    (op entry = SET →
     ShardedHashTable.stored (key entry) storage'
     = Some (replicated_entry now uninit entry)).
Proof.
  intros Hne. unfold apply_entry. destruct (op entry).
  - destruct (ShardedHashTable_facts.set_stores (key entry)
                (replicated_entry now uninit entry) storage Hne)
      as (s' & -> & Hst & Hne'). simpl. by eauto.
  - destruct (ShardedHashTable_facts.del_returns (key entry) storage Hne)
      as (r & s' & -> & Hlen). simpl. eexists. split; [done|].
    split; [by eapply ShardedHashTable_facts.nonempty_of_length | done].
Qed.

Lemma apply_entries_cons now_at uninit i entry rest acc :
  apply_entries now_at uninit i (entry :: rest) acc
  = apply_entry (now_at i) uninit entry acc ≫= apply_entries now_at uninit (S i) rest.
Proof. done. Qed.

Lemma apply_entries_never_fail now_at uninit entries :
  ∀ i storage applied,
    ShardedHashTable.shards_ storage ≠ [] →
    ∃ storage' applied',
      apply_entries now_at uninit i entries (storage, applied, 0)
      = Some (storage', applied', 0).
Proof.
  induction entries as [|entry rest IH]; intros i storage applied Hne.
  - simpl. by eauto.
  - rewrite apply_entries_cons.
    destruct (apply_entry_applies (now_at i) uninit entry storage applied Hne)
      as (s' & -> & Hne' & _). simpl. by apply IH.
Qed.

Lemma Replicate_acknowledges now_at uninit batch svc :
  ShardedHashTable.shards_ (storage_ svc) ≠ [] →
  ∃ ack svc',
    Replicate now_at uninit batch svc = Some (ack, svc') ∧
    success ack = true ∧ error ack = "" ∧
    entries_failed_ svc' = size_t_wrap (entries_failed_ svc).
Proof.
  intros Hne. unfold Replicate.
  destruct (apply_entries_never_fail now_at uninit (entries batch) 0%nat
              (storage_ svc) 0 Hne) as (s' & a' & ->). simpl.
  eexists _, _. split; [done|]. simpl. split; [done|]. split; [done|].
  by rewrite Z.add_0_r.
Qed.

Lemma Replicate_single_SET now_at uninit source timestamp entry svc :
  ShardedHashTable.shards_ (storage_ svc) ≠ [] → op entry = SET →
  ∃ ack svc',
    Replicate now_at uninit (mkReplicationBatch source timestamp [entry]) svc
    = Some (ack, svc') ∧
    success ack = true ∧
    stored_version (key entry) svc' = Some (version entry).
Proof.
  intros Hne Hop. unfold Replicate.
  cbn [entries]. rewrite apply_entries_cons.
  destruct (apply_entry_applies (now_at 0%nat) uninit entry (storage_ svc) 0 Hne)
    as (s' & -> & _ & Hst). simpl.
  eexists _, _. split; [done|]. split; [done|].
  unfold stored_version; simpl. by rewrite Hst.
Qed.

Lemma del_erases key (s : ShardedHashTable.t) :
  ShardedHashTable.shards_ s ≠ [] →
  ∃ r s', ShardedHashTable.del key s = Some (r, s') ∧
          ShardedHashTable.stored key s' = None ∧
          ShardedHashTable.shards_ s' ≠ [].
Proof.
  intros Hne.
  destruct (ShardedHashTable_facts.del_returns key s Hne) as (r & s' & Hdel & Hlen).
  exists r, s'. split; [done|].
  split; [|by eapply ShardedHashTable_facts.nonempty_of_length].
  destruct (ShardedHashTable_facts.get_shard_lookup key s Hne) as [shard Hi].
  unfold ShardedHashTable.del in Hdel. rewrite Hi in Hdel. simpl in Hdel.
  destruct (ShardedHashTable.data shard !! key) as [e|] eqn:He; simplify_eq.
  - erewrite (ShardedHashTable_facts.stored_written key _ s); [|done|done].
    simpl. apply lookup_delete_eq.
  - unfold ShardedHashTable.stored. by rewrite Hi.
Qed.

(** What the engine holds under the key of a replicated entry once the
    entry is applied. *)
Lemma apply_entry_effect now uninit entry storage :
  ShardedHashTable.shards_ storage ≠ [] →
  ∃ storage',
    (∀ applied,
       apply_entry now uninit entry (storage, applied, 0)
       = Some (storage', size_t_wrap (applied + 1), 0)) ∧
    ShardedHashTable.shards_ storage' ≠ [] ∧
    ShardedHashTable.stored (key entry) storage'
    = match op entry with
      | SET => Some (replicated_entry now uninit entry)
      | DELETE => None
      end.
Proof.
  intros Hne. unfold apply_entry. destruct (op entry).
  - destruct (ShardedHashTable_facts.set_stores (key entry)
                (replicated_entry now uninit entry) storage Hne)
      as (s' & -> & Hst & Hne'). simpl. by eauto.
  - destruct (del_erases (key entry) storage Hne) as (r & s' & -> & Hst & Hne').
    simpl. by eauto.
Qed.

Lemma apply_entries_app now_at uninit before : ∀ i after acc,
  apply_entries now_at uninit i (before ++ after) acc
  = apply_entries now_at uninit i before acc
    ≫= apply_entries now_at uninit (i + length before) after.
Proof.
  induction before as [|entry before IH]; intros i after acc.
  - simpl. by rewrite Nat.add_0_r.
  - rewrite <- app_comm_cons, !apply_entries_cons.
    destruct (apply_entry (now_at i) uninit entry acc) as [acc'|]; simpl; [|done].
    rewrite IH.
    by replace (S i + length before)%nat with (i + S (length before))%nat by lia.
Qed.

Lemma apply_entries_shift now_at uninit entries : ∀ i k acc,
  apply_entries now_at uninit (k + i) entries acc
  = apply_entries (λ j, now_at (k + j)%nat) uninit i entries acc.
Proof.
  induction entries as [|entry rest IH]; intros i k acc; [done|].
  rewrite !apply_entries_cons.
  destruct (apply_entry _ uninit entry acc) as [acc'|]; simpl; [|done].
  rewrite <- IH. by replace (S (k + i)) with (k + S i)%nat by lia.
Qed.

(** The loop applies every entry: none fails, and the engine it leaves
    does not depend on the count it started from. *)
Lemma apply_entries_counts now_at uninit entries : ∀ i storage,
  ShardedHashTable.shards_ storage ≠ [] →
  ∃ storage',
    (∀ applied,
       apply_entries now_at uninit i entries (storage, size_t_wrap applied, 0)
       = Some (storage', size_t_wrap (applied + Z.of_nat (length entries)), 0)) ∧
    ShardedHashTable.shards_ storage' ≠ [].
Proof.
  induction entries as [|entry rest IH]; intros i storage Hne.
  - exists storage. split; [|done]. intros applied. simpl. by rewrite Z.add_0_r.
  - destruct (apply_entry_effect (now_at i) uninit entry storage Hne)
      as (s' & Hentry & Hne' & _).
    destruct (IH (S i) s' Hne') as (s'' & Hrest & Hne'').
    exists s''. split; [|done]. intros applied.
    rewrite apply_entries_cons, Hentry. simpl.
    rewrite size_t_wrap_add_l, Hrest.
    by replace (applied + Z.of_nat (S (length rest)))
      with (applied + 1 + Z.of_nat (length rest)) by lia.
Qed.

Lemma Replicate_runs now_at uninit batch svc :
  ShardedHashTable.shards_ (storage_ svc) ≠ [] →
  ∃ storage',
    (∀ applied,
       apply_entries now_at uninit 0 (entries batch)
         (storage_ svc, size_t_wrap applied, 0)
       = Some (storage', size_t_wrap (applied + Z.of_nat (length (entries batch))), 0)) ∧
    ShardedHashTable.shards_ storage' ≠ [] ∧
    Replicate now_at uninit batch svc
    = Some (mkReplicationAck true "" (timestamp batch),
            mkReplicationServiceImpl storage'
              (size_t_wrap (batches_received_ svc + 1))
              (size_t_wrap (entries_applied_ svc + Z.of_nat (length (entries batch))))
              (size_t_wrap (entries_failed_ svc))
              (timestamp batch)).
Proof.
  intros Hne.
  destruct (apply_entries_counts now_at uninit (entries batch) 0%nat (storage_ svc) Hne)
    as (s' & Hrun & Hne').
  exists s'. split; [done|]. split; [done|].
  unfold Replicate. specialize (Hrun 0).
  change (size_t_wrap 0) with 0 in Hrun. rewrite Z.add_0_l in Hrun.
  rewrite Hrun. simpl.
  by rewrite size_t_wrap_add_r, Z.add_0_r.
Qed.

(** C4 (amended): a follower applies every replicated entry, in the order
    of the batch: each batch is acknowledged as a success with no failed
    entry and every entry of it counted as applied; a replicated SET is
    stored by an unconditional engine [set] and a replicated DELETE removes
    the key, so right after any entry of a batch is applied the version
    stored for its key is the sender's version (nothing, for a DELETE),
    whether it is newer or older than the version stored before; and the
    engine left by the whole batch is the one left by applying the entries
    after that entry on top of that state.  No entry is rejected for being
    older. *)
Theorem C4_follower_applies_every_entry
    (now_at : nat → Z) (uninit : Z) (svc : ReplicationServiceImpl) :
  ShardedHashTable.shards_ (storage_ svc) ≠ [] →
  (∀ batch, ∃ ack svc',
     Replicate now_at uninit batch svc = Some (ack, svc') ∧
     success ack = true ∧ error ack = "" ∧
     entries_failed_ svc' = size_t_wrap (entries_failed_ svc) ∧
     entries_applied_ svc'
     = size_t_wrap (entries_applied_ svc + Z.of_nat (length (entries batch)))) ∧
  (∀ source timestamp entry, op entry = SET →
     ∃ ack svc',
       Replicate now_at uninit (mkReplicationBatch source timestamp [entry]) svc
       = Some (ack, svc') ∧
       success ack = true ∧
       stored_version (key entry) svc' = Some (version entry)) ∧
  (∀ source timestamp before entry after,
     ∃ ack1 svc1 ack2 svc2 ack svc',
       Replicate now_at uninit
         (mkReplicationBatch source timestamp (before ++ [entry])) svc
       = Some (ack1, svc1) ∧
       stored_version (key entry) svc1
       = match op entry with
         | SET => Some (version entry)
         | DELETE => None
         end ∧
       Replicate (λ i, now_at (length before + 1 + i)%nat) uninit
         (mkReplicationBatch source timestamp after) svc1
       = Some (ack2, svc2) ∧
       Replicate now_at uninit
         (mkReplicationBatch source timestamp (before ++ entry :: after)) svc
       = Some (ack, svc') ∧
       storage_ svc' = storage_ svc2).
Proof.
  intros Hne. split; [|split].
  - intros batch.
    destruct (Replicate_runs now_at uninit batch svc Hne) as (s' & _ & _ & ->).
    by eexists _, _.
  - intros source timestamp entry Hop. by apply Replicate_single_SET.
  - intros source timestamp before entry after.
    destruct (Replicate_runs now_at uninit
                (mkReplicationBatch source timestamp before) svc Hne)
      as (s0 & Hbefore & Hne0 & _). cbn [entries] in Hbefore.
    destruct (apply_entry_effect (now_at (length before)) uninit entry s0 Hne0)
      as (s1 & Hentry & Hne1 & Hstored).
    destruct (Replicate_runs now_at uninit
                (mkReplicationBatch source timestamp (before ++ [entry])) svc Hne)
      as (s1' & Hupto & _ & Hrep1). cbn [entries] in Hupto.
    assert (s1' = s1) as ->.
    { specialize (Hupto 0). rewrite apply_entries_app, Hbefore in Hupto.
      cbn [mbind option_bind] in Hupto.
      rewrite apply_entries_cons, Nat.add_0_l, Hentry in Hupto.
      cbn in Hupto. congruence. }
    set (svc1 := mkReplicationServiceImpl s1 _ _ _ _) in Hrep1.
    destruct (Replicate_runs (λ i, now_at (length before + 1 + i)%nat) uninit
                (mkReplicationBatch source timestamp after) svc1 Hne1)
      as (s2 & Hafter & _ & Hrep2). cbn [entries storage_ svc1] in Hafter.
    destruct (Replicate_runs now_at uninit
                (mkReplicationBatch source timestamp (before ++ entry :: after)) svc Hne)
      as (s2' & Hall & _ & Hrep). cbn [entries] in Hall.
    assert (s2' = s2) as ->.
    { specialize (Hall 0).
      change (before ++ entry :: after) with (before ++ [entry] ++ after) in Hall.
      rewrite app_assoc, apply_entries_app, (Hupto 0) in Hall.
      cbn [mbind option_bind] in Hall.
      rewrite length_app, Nat.add_0_l in Hall. cbn [length] in Hall.
      rewrite <- (Nat.add_0_r (length before + 1)), apply_entries_shift, Hafter in Hall.
      congruence. }
    eexists _, svc1, _, _, _, _.
    split; [exact Hrep1|]. split.
    { unfold stored_version. cbn [storage_ svc1]. rewrite Hstored.
      by destruct (op entry). }
    split; [exact Hrep2|]. split; [exact Hrep|]. done.
Qed.

(** X16: the entry a follower stores for a replicated SET has no
    expiry time, whatever time to live the primary sent: [get] on the
    follower returns it at every later time, with the value and the TTL
    field of the replicated entry. *)
Theorem replicated_entry_never_expires
    (now_at : nat → Z) (uninit : Z) (source : string) (timestamp : Z)
    (entry : ReplicationEntry) (svc : ReplicationServiceImpl) :
  ShardedHashTable.shards_ (storage_ svc) ≠ [] → op entry = SET →
  ∃ ack svc',
    Replicate now_at uninit (mkReplicationBatch source timestamp [entry]) svc
    = Some (ack, svc') ∧
    ∀ now1 now2 now3, ∃ e storage'',
      ShardedHashTable.get now1 now2 now3 (key entry) (storage_ svc')
      = Some (Some e, storage'') ∧
      CacheEntry.value e = String.list_byte_of_string (value entry) ∧
      CacheEntry.ttl_seconds e
      = (if ttl_seconds entry >? 0 then Some (ttl_seconds entry) else None) ∧
      CacheEntry.expires_at_ms e = None.
Proof.
  intros Hne Hop. unfold Replicate.
  cbn [entries]. rewrite apply_entries_cons.
  destruct (apply_entry_applies (now_at 0%nat) uninit entry
              (storage_ svc) 0 Hne) as (s' & -> & _ & Hst). simpl.
  eexists _, _. split; [done|]. simpl. intros now1 now2 now3.
  destruct (ShardedHashTable_facts.get_stored_fresh now1 now2 now3 (key entry)
              _ s' (Hst Hop)) as [s'' Hget]; [done|done|].
  exists (CacheEntry.touch now3 (replicated_entry (now_at 0%nat) uninit entry)), s''.
  by rewrite Hget.
Qed.

End follower.

(** C4, as stated, fails: the follower holds ["k"] at version 5 and receives
    a SET for ["k"] with version 3; the entry is applied and the stored
    version drops to 3. *)
Lemma C4_regression_counterexample :
  ¬ version_regression_guard (H := example_platform) 2000 0 stale_entry follower_at_5.
Proof.
  intros Hguard.
  assert (Hne : ShardedHashTable.shards_ (storage_ follower_at_5) ≠ [])
    by (vm_compute; discriminate).
  destruct (Replicate_single_SET (platform := example_platform) (λ _, 2000) 0
              "primary" 2000 stale_entry follower_at_5 Hne eq_refl)
    as (ack & svc' & Hrep & _ & Hv).
  assert (H5 : stored_version (H := example_platform) (key stale_entry) follower_at_5
               = Some 5) by (by vm_compute).
  specialize (Hguard 5 ack svc' H5 ltac:(simpl; lia) Hrep).
  rewrite Hv in Hguard. clear -Hguard. simpl in Hguard. discriminate.
Qed.

Lemma C4_follower_applies_every_entry_witness :
  ShardedHashTable.shards_ (storage_ follower_at_5) ≠ [] ∧
  ∃ ack svc',
    Replicate (H := example_platform) (λ _, 2000) 0
      (mkReplicationBatch "primary" 2000 [stale_entry]) follower_at_5
    = Some (ack, svc') ∧
    success ack = true ∧
    stored_version (H := example_platform) "k" svc' = Some 3.
Proof.
  assert (Hne : ShardedHashTable.shards_ (storage_ follower_at_5) ≠ [])
    by (vm_compute; discriminate).
  split; [exact Hne|].
  exact (proj1 (proj2 (C4_follower_applies_every_entry (platform := example_platform)
                         (λ _, 2000) 0 follower_at_5 Hne))
           "primary" 2000 stale_entry eq_refl).
Defined.

Lemma replicated_entry_never_expires_witness :
  ShardedHashTable.shards_ (storage_ follower_at_5) ≠ [] ∧
  op ttl_entry = SET ∧
  ∃ ack svc',
    Replicate (H := example_platform) (λ _, 2000) 0
      (mkReplicationBatch "primary" 2000 [ttl_entry]) follower_at_5
    = Some (ack, svc') ∧
    ∀ now1 now2 now3, ∃ e storage'',
      ShardedHashTable.get (H := example_platform) now1 now2 now3 "session"
        (storage_ svc')
      = Some (Some e, storage'') ∧
      CacheEntry.value e = String.list_byte_of_string "token" ∧
      CacheEntry.ttl_seconds e = Some 60 ∧
      CacheEntry.expires_at_ms e = None.
Proof.
  assert (Hne : ShardedHashTable.shards_ (storage_ follower_at_5) ≠ [])
    by (vm_compute; discriminate).
  split; [exact Hne|]. split; [reflexivity|].
  exact (replicated_entry_never_expires (platform := example_platform)
           (λ _, 2000) 0 "primary" 2000 ttl_entry follower_at_5 Hne eq_refl).
Defined.

End replication_facts.

(** ** The write-ahead log *)

Module WAL_facts.
Import WAL.

Section log.
Context {wire : Wire}.

Lemma elem_of_dir_records (dir : gmap string LogFile) e :
  e ∈ dir_records dir ↔ ∃ id f, dir !! id = Some f ∧ e ∈ records f.
Proof.
  unfold dir_records. rewrite list_elem_of_bind. split.
  - intros ([id f] & He & Hin%elem_of_map_to_list). by exists id, f.
  - intros (id & f & Hl & He). exists (id, f). split; [done|].
    by apply elem_of_map_to_list.
Qed.

Lemma records_within_refl extra dir : records_within extra dir dir.
Proof. intros e He. by left. Qed.

Lemma records_within_trans extra dir1 dir2 dir3 :
  records_within [] dir1 dir2 → records_within extra dir2 dir3 →
  records_within extra dir1 dir3.
Proof.
  intros H12 H23 e He. destruct (H23 e He) as [H2|?]; [|by right].
  destruct (H12 e H2) as [?|Hnil]; [by left|]. by apply elem_of_nil in Hnil.
Qed.

Lemma records_within_subseteq (dir dir' : gmap string LogFile) :
  dir' ⊆ dir → records_within [] dir dir'.
Proof.
  intros Hsub e (id & f & Hl & He)%elem_of_dir_records. left.
  apply elem_of_dir_records. exists id, f. split; [|done].
  by eapply lookup_weaken.
Qed.

Lemma open_append_records env id dir st dir' :
  open_append env id dir = (st, dir') → records_within [] dir dir'.
Proof.
  unfold open_append. destruct (can_open env); [|intros; simplify_eq; apply records_within_refl].
  destruct (dir !! id) as [f0|] eqn:Hid; intros ?; simplify_eq;
    [apply records_within_refl|].
  intros e (id' & f & Hl & He)%elem_of_dir_records.
  destruct (decide (id' = id)) as [->|Hne].
  - rewrite lookup_insert_eq in Hl. simplify_eq. simpl in He.
    by apply elem_of_nil in He.
  - rewrite lookup_insert_ne in Hl by done. left.
    apply elem_of_dir_records. by exists id', f.
Qed.

Lemma stream_write_header_records env n st dir st' dir' :
  stream_write env (with_header n) st dir = (st', dir') →
  records_within [] dir dir'.
Proof.
  unfold stream_write. destruct (stream_failed st);
    [intros; simplify_eq; apply records_within_refl|].
  destruct (write_succeeds env); intros ?; simplify_eq;
    [|apply records_within_refl].
  intros e (id' & f & Hl & He)%elem_of_dir_records. left.
  apply elem_of_dir_records. rewrite lookup_alter in Hl.
  case_decide as Hid; [|by exists id', f].
  subst id'. destruct (dir !! stream_id _) as [f0|] eqn:Hf0; simplify_eq/=.
  by eexists _, _.
Qed.

Lemma stream_write_record_records env n entry st dir st' dir' :
  stream_write env (with_record n entry) st dir = (st', dir') →
  records_within [entry] dir dir'.
Proof.
  unfold stream_write. destruct (stream_failed st);
    [intros; simplify_eq; apply records_within_refl|].
  destruct (write_succeeds env); intros ?; simplify_eq;
    [|apply records_within_refl].
  intros e (id' & f & Hl & He)%elem_of_dir_records.
  rewrite lookup_alter in Hl. case_decide as Hid.
  - subst id'. destruct (dir !! stream_id _) as [f0|] eqn:Hf0; simplify_eq/=.
    apply elem_of_app in He as [He|He]; [|by right].
    left. apply elem_of_dir_records. by eexists _, _.
  - left. apply elem_of_dir_records. by exists id', f.
Qed.

Lemma delete_all_subseteq (ids : list string) (dir : gmap string LogFile) :
  foldl (λ d id, delete id d) dir ids ⊆ dir.
Proof.
  revert dir. induction ids as [|id ids IH]; intros dir; simpl; [done|].
  etrans; [apply IH|]. apply delete_subseteq.
Qed.

Lemma cleanup_records max dir : records_within [] dir (cleanup max dir).
Proof.
  apply records_within_subseteq. unfold cleanup.
  destruct (_ >? _); [apply delete_all_subseteq | done].
Qed.

(** *** [RotateLog] *)

Lemma RotateLog_frame env w b w' :
  RotateLog env w = (b, w') →
  last_sequence_ w' = last_sequence_ w ∧ config_ w' = config_ w ∧
  total_entries_written_ w' = total_entries_written_ w ∧
  records_within [] (directory w) (directory w').
Proof.
  unfold RotateLog.
  destruct (open_append env _ (directory w)) as [st dir] eqn:Hop.
  pose proof (open_append_records _ _ _ _ _ Hop) as Hrec.
  destruct (negb (stream_open st)); [by intros; simplify_eq|].
  destruct (header_wire_size _ _ _) as [n|]; [|by intros; simplify_eq].
  destruct (stream_write env _ st dir) as [st' dir'] eqn:Hwr.
  intros ?; simplify_eq/=. repeat split.
  eapply records_within_trans; [exact Hrec|].
  eapply records_within_trans; [by eapply stream_write_header_records|].
  apply cleanup_records.
Qed.

Lemma RotateLog_cannot_open env w :
  can_open env = false →
  ∃ w', RotateLog env w = (false, w') ∧ is_open_ w' = false ∧
        directory w' = directory w.
Proof.
  intros Hno. unfold RotateLog, open_append. rewrite Hno. simpl. by eauto.
Qed.

(** *** [WriteEntryToFile] *)

Lemma WriteEntryToFile_frame env entry w b w' :
  WriteEntryToFile env entry w = (b, w') →
  last_sequence_ w' = last_sequence_ w ∧ config_ w' = config_ w ∧
  records_within [entry] (directory w) (directory w') ∧
  (b = false → w' = w).
Proof.
  unfold WriteEntryToFile.
  destruct (log_file_ w) as [st|];
    [|by intros; simplify_eq; repeat split; try apply records_within_refl].
  destruct (negb (stream_open st));
    [by intros; simplify_eq; repeat split; try apply records_within_refl|].
  destruct (entry_wire_size entry) as [n|];
    [|by intros; simplify_eq; repeat split; try apply records_within_refl].
  destruct (stream_write env _ st (directory w)) as [st' dir'] eqn:Hwr.
  intros ?; simplify_eq/=. repeat split; [|done].
  by eapply stream_write_record_records.
Qed.

Lemma WriteEntryToFile_cannot_write env entry w :
  (∀ st, log_file_ w = Some st → stream_open st = false)
  ∨ entry_wire_size entry = None →
  WriteEntryToFile env entry w = (false, w).
Proof.
  intros Hbad. unfold WriteEntryToFile.
  destruct (log_file_ w) as [st|]; [|done].
  destruct (stream_open st) eqn:Hopen; simpl.
  - destruct Hbad as [Hclosed|Hser].
    + specialize (Hclosed st eq_refl). congruence.
    + by rewrite Hser.
  - done.
Qed.

(** *** [AppendEntry] *)

Lemma AppendEntry_not_open env entry w :
  is_open_ w = false → AppendEntry env entry w = Returns (false, w).
Proof. intros Hc. unfold AppendEntry. by rewrite Hc. Qed.

Lemma AppendEntry_rotation_fails env entry w :
  is_open_ w = true → ShouldRotate w = true → can_open env = false →
  ∃ w', AppendEntry env entry w = Returns (false, w') ∧
        last_sequence_ w' = last_sequence_ w + 1 ∧ is_open_ w' = false ∧
        directory w' = directory w.
Proof.
  intros Ho Hrot Hno. unfold AppendEntry. rewrite Ho; simpl.
  change (ShouldRotate (advance_sequence w)) with (ShouldRotate w). rewrite Hrot.
  destruct (RotateLog_cannot_open env (advance_sequence w) Hno)
    as (w' & Hr & Hc & Hd).
  pose proof (RotateLog_frame _ _ _ _ Hr) as (Hseq & _).
  rewrite Hr; simpl. exists w'. by rewrite Hseq.
Qed.

Lemma AppendEntry_write_fails env entry w :
  is_open_ w = true → ShouldRotate w = false →
  (∀ st, log_file_ w = Some st → stream_open st = false)
  ∨ entry_wire_size (with_sequence (last_sequence_ w + 1) entry) = None →
  AppendEntry env entry w = Returns (false, advance_sequence w).
Proof.
  intros Ho Hrot Hbad. unfold AppendEntry. rewrite Ho; simpl.
  change (ShouldRotate (advance_sequence w)) with (ShouldRotate w). rewrite Hrot.
  rewrite WriteEntryToFile_cannot_write by done. done.
Qed.

(** Whatever [AppendEntry] returns on an open log, the counter has moved by
    exactly one, and the only record that can have been added carries the
    new number. *)
Lemma AppendEntry_open_returns env entry w b w' :
  is_open_ w = true → AppendEntry env entry w = Returns (b, w') →
  last_sequence_ w' = last_sequence_ w + 1 ∧
  records_within [with_sequence (last_sequence_ w + 1) entry]
                 (directory w) (directory w').
Proof.
  intros Ho. unfold AppendEntry. rewrite Ho; simpl.
  set (w1 := advance_sequence w).
  assert (∃ rotated w2,
            (if ShouldRotate w1 then RotateLog env w1 else (true, w1)) = (rotated, w2)
            ∧ last_sequence_ w2 = last_sequence_ w + 1
            ∧ records_within [] (directory w) (directory w2))
    as (rotated & w2 & -> & Hseq2 & Hrec2).
  { destruct (ShouldRotate w1).
    - destruct (RotateLog env w1) as [r w2] eqn:Hr.
      apply RotateLog_frame in Hr as (Hs & _ & _ & Hrec). by exists r, w2.
    - exists true, w1. repeat split. apply records_within_refl. }
  destruct rotated; simpl.
  2:{ intros ?; simplify_eq. split; [done|].
      intros e He. destruct (Hrec2 e He) as [?|Hnil]; [by left|].
      by apply elem_of_nil in Hnil. }
  destruct (WriteEntryToFile env _ w2) as [written w3] eqn:Hw.
  apply WriteEntryToFile_frame in Hw as (Hseq3 & Hcfg3 & Hrec3 & _).
  assert (records_within [with_sequence (last_sequence_ w + 1) entry]
                         (directory w) (directory w3)) as Hrec
    by (by eapply records_within_trans).
  destruct written; simpl; [|intros ?; simplify_eq; split; [congruence|done]].
  destruct (sync_on_write (config_ w3)); [done|].
  intros ?; simplify_eq. simpl. split; [congruence|done].
Qed.

(** With [sync_on_write] (the default of [Config]) an append that got as
    far as writing its record never returns: it calls [Sync()], which
    locks the mutex the append still holds. *)
Lemma AppendEntry_sync_on_write env entry w w' :
  sync_on_write (config_ w) = true → AppendEntry env entry w ≠ Returns (true, w').
Proof.
  intros Hsync. unfold AppendEntry. destruct (is_open_ w); [|done]. simpl.
  set (w1 := advance_sequence w).
  assert (∃ rotated w2,
            (if ShouldRotate w1 then RotateLog env w1 else (true, w1)) = (rotated, w2)
            ∧ config_ w2 = config_ w) as (rotated & w2 & -> & Hcfg2).
  { destruct (ShouldRotate w1).
    - destruct (RotateLog env w1) as [r w2] eqn:Hr.
      apply RotateLog_frame in Hr as (_ & Hc & _). by exists r, w2.
    - by exists true, w1. }
  destruct rotated; [|done]. simpl.
  destruct (WriteEntryToFile env _ w2) as [written w3] eqn:Hw.
  apply WriteEntryToFile_frame in Hw as (_ & Hcfg3 & _).
  destruct written; [|done]. simpl. by rewrite Hcfg3, Hcfg2, Hsync.
Qed.

Lemma AppendEntry_bounded env entry w b w' :
  sequence_bounded w → AppendEntry env entry w = Returns (b, w') →
  sequence_bounded w'.
Proof.
  intros Hb Happ. destruct (is_open_ w) eqn:Ho.
  - destruct (AppendEntry_open_returns env entry w b w' Ho Happ) as [Hseq Hrec].
    intros e He. rewrite Hseq. destruct (Hrec e He) as [Hold|Hnew].
    + specialize (Hb e Hold). lia.
    + apply list_elem_of_singleton in Hnew as ->. simpl. lia.
  - rewrite AppendEntry_not_open in Happ by done. by simplify_eq.
Qed.

Lemma make_bounded config : sequence_bounded (make config ∅).
Proof.
  intros e He. unfold written_records, dir_records in He. simpl in He.
  rewrite map_to_list_empty in He. by apply elem_of_nil in He.
Qed.

Lemma Open_bounded env w : sequence_bounded w → sequence_bounded (Open env w).
Proof.
  intros Hb. unfold Open. destruct (is_open_ w); [done|].
  destruct (open_append env _ (directory w)) as [st dir] eqn:Hop.
  pose proof (open_append_records _ _ _ _ _ Hop) as Hrec.
  assert (∀ e, e ∈ dir_records dir → sequence_number e ≤ last_sequence_ w) as Hdir.
  { intros e He. destruct (Hrec e He) as [?|Hnil]; [by apply Hb|].
    by apply elem_of_nil in Hnil. }
  destruct (negb (stream_open st)); [done|].
  destruct (_ =? 0); [|done].
  destruct (header_wire_size _ _ _) as [n|]; [|done].
  destruct (stream_write env _ st dir) as [st' dir'] eqn:Hwr.
  intros e He. simpl. apply Hdir.
  destruct (stream_write_header_records _ _ _ _ _ _ Hwr e He) as [?|Hnil]; [done|].
  by apply elem_of_nil in Hnil.
Qed.

(** *** Sequence numbers across the directory *)

Lemma well_numbered_mono b b' dir :
  b ≤ b' → well_numbered b dir → well_numbered b' dir.
Proof.
  intros Hle (H0 & Hfile & Hcross). split; [lia|]. split; [|done].
  intros id f Hf. destruct (Hfile id f Hf) as [Hs Hall]. split; [done|].
  eapply Forall_impl; [exact Hall|]. simpl. intros e ?. lia.
Qed.

Lemma well_numbered_subseteq b (dir dir' : gmap string LogFile) :
  dir' ⊆ dir → well_numbered b dir → well_numbered b dir'.
Proof.
  intros Hsub (H0 & Hfile & Hcross). split; [done|]. split.
  - intros id f Hf. apply (Hfile id). by eapply lookup_weaken.
  - intros id1 id2 f1 f2 e1 e2 H1 H2. apply Hcross; by eapply lookup_weaken.
Qed.

Lemma well_numbered_same_records b (dir : gmap string LogFile) id g :
  (∀ f, records (g f) = records f) →
  well_numbered b dir → well_numbered b (alter g id dir).
Proof.
  intros Hg (H0 & Hfile & Hcross).
  assert (∀ i f, alter g id dir !! i = Some f →
                 ∃ f0, dir !! i = Some f0 ∧ records f = records f0) as Hback.
  { intros i f. rewrite lookup_alter. case_decide as Hi.
    - subst i. destruct (dir !! id) as [f0|]; simpl; [|done].
      intros [= <-]. by exists f0.
    - intros Hf. by exists f. }
  split; [done|]. split.
  - intros i f (f0 & Hf0 & ->)%Hback. by apply (Hfile i).
  - intros id1 id2 f1 f2 e1 e2 (f01 & H1 & ->)%Hback (f02 & H2 & ->)%Hback.
    by apply Hcross.
Qed.

Lemma well_numbered_new_file b (dir : gmap string LogFile) id size header :
  dir !! id = None →
  well_numbered b dir → well_numbered b (<[id := mkLogFile size header []]> dir).
Proof.
  intros Hnew (H0 & Hfile & Hcross).
  assert (∀ i f e, <[id := mkLogFile size header []]> dir !! i = Some f →
                   e ∈ records f → dir !! i = Some f) as Hback.
  { intros i f e. destruct (decide (i = id)) as [->|Hi].
    - rewrite lookup_insert_eq. intros [= <-]. simpl. by intros ?%elem_of_nil.
    - by rewrite lookup_insert_ne. }
  split; [done|]. split.
  - intros i f. destruct (decide (i = id)) as [->|Hi].
    + rewrite lookup_insert_eq. intros [= <-]. simpl. split; constructor.
    + rewrite lookup_insert_ne by done. apply Hfile.
  - intros id1 id2 f1 f2 e1 e2 H1 H2 He1 He2.
    pose proof (Hback id1 f1 e1 H1 He1). pose proof (Hback id2 f2 e2 H2 He2).
    by apply (Hcross id1 id2 f1 f2 e1 e2).
Qed.

Lemma well_numbered_new_record b (dir : gmap string LogFile) id n e :
  sequence_number e = b + 1 →
  well_numbered b dir → well_numbered (b + 1) (alter (with_record n e) id dir).
Proof.
  intros Hseq (H0 & Hfile & Hcross).
  assert (∀ i f, alter (with_record n e) id dir !! i = Some f →
                 ∃ f0, dir !! i = Some f0 ∧
                       (i ≠ id ∧ f = f0 ∨ i = id ∧ records f = records f0 ++ [e]))
    as Hback.
  { intros i f. rewrite lookup_alter. case_decide as Hi.
    - subst i. destruct (dir !! id) as [f0|]; simpl; [|done].
      intros [= <-]. exists f0. split; [done|]. by right.
    - intros Hf. exists f. split; [done|]. by left. }
  assert (∀ i f0 x, dir !! i = Some f0 → x ∈ records f0 →
                    1 ≤ sequence_number x ≤ b) as Hold.
  { intros i f0 x Hf0 Hx. destruct (Hfile i f0 Hf0) as [_ Hall].
    by apply (proj1 (Forall_forall _ _) Hall). }
  split; [lia|]. split.
  - intros i f (f0 & Hf0 & [[Hi ->]|[-> Hrec]])%Hback.
    + destruct (Hfile i f0 Hf0) as [Hs Hall]. split; [done|].
      eapply Forall_impl; [exact Hall|]. simpl. intros x ?. lia.
    + destruct (Hfile id f0 Hf0) as [Hs Hall]. rewrite Hrec. split.
      * apply StronglySorted_app_2; [|done|repeat constructor].
        intros x y Hx ->%list_elem_of_singleton. unfold sequence_lt.
        specialize (Hold id f0 x Hf0 Hx). lia.
      * apply Forall_app. split.
        -- eapply Forall_impl; [exact Hall|]. simpl. intros x ?. lia.
        -- repeat constructor; lia.
  - intros id1 id2 f1 f2 e1 e2 (f01 & H1 & Hc1)%Hback (f02 & H2 & Hc2)%Hback He1 He2 Heq.
    destruct Hc1 as [[Hi1 ->]|[-> Hr1]], Hc2 as [[Hi2 ->]|[-> Hr2]]; [|..|done].
    + by apply (Hcross id1 id2 f01 f02 e1 e2).
    + rewrite Hr2 in He2. apply elem_of_app in He2 as [He2|He2].
      * by apply (Hcross id1 id f01 f02 e1 e2).
      * apply list_elem_of_singleton in He2. subst e2.
        specialize (Hold id1 f01 e1 H1 He1). lia.
    + rewrite Hr1 in He1. apply elem_of_app in He1 as [He1|He1].
      * by apply (Hcross id id2 f01 f02 e1 e2).
      * apply list_elem_of_singleton in He1. subst e1.
        specialize (Hold id2 f02 e2 H2 He2). lia.
Qed.

Lemma open_append_numbered b env id dir st dir' :
  open_append env id dir = (st, dir') → well_numbered b dir → well_numbered b dir'.
Proof.
  unfold open_append. destruct (can_open env); [|by intros; simplify_eq].
  destruct (dir !! id) as [f0|] eqn:Hid; intros ?; simplify_eq; [done|].
  by apply well_numbered_new_file.
Qed.

Lemma stream_write_header_numbered b env n st dir st' dir' :
  stream_write env (with_header n) st dir = (st', dir') →
  well_numbered b dir → well_numbered b dir'.
Proof.
  unfold stream_write. destruct (stream_failed st); [by intros; simplify_eq|].
  destruct (write_succeeds env); intros ?; simplify_eq; [|done].
  by apply well_numbered_same_records.
Qed.

Lemma stream_write_record_numbered b env n e st dir st' dir' :
  sequence_number e = b + 1 →
  stream_write env (with_record n e) st dir = (st', dir') →
  well_numbered b dir → well_numbered (b + 1) dir'.
Proof.
  intros Hseq. unfold stream_write.
  destruct (stream_failed st);
    [intros; simplify_eq; eapply well_numbered_mono; [|done]; lia|].
  destruct (write_succeeds env); intros ?; simplify_eq.
  - by apply well_numbered_new_record.
  - intros. eapply well_numbered_mono; [|done]. lia.
Qed.

Lemma cleanup_numbered b max dir :
  well_numbered b dir → well_numbered b (cleanup max dir).
Proof.
  apply well_numbered_subseteq. unfold cleanup.
  destruct (_ >? _); [apply delete_all_subseteq | done].
Qed.

Lemma RotateLog_numbered b env w :
  well_numbered b (directory w) →
  well_numbered b (directory (RotateLog env w).2) ∧
  last_sequence_ (RotateLog env w).2 = last_sequence_ w.
Proof.
  intros Hok. unfold RotateLog.
  destruct (open_append env _ (directory w)) as [st dir] eqn:Hop.
  pose proof (open_append_numbered b _ _ _ _ _ Hop Hok) as Hok1.
  destruct (negb (stream_open st)); [done|].
  destruct (header_wire_size _ _ _) as [n|]; [|done].
  destruct (stream_write env _ st dir) as [st' dir'] eqn:Hwr. simpl.
  split; [|done]. apply cleanup_numbered.
  by eapply stream_write_header_numbered.
Qed.

Lemma Open_numbered b env w :
  well_numbered b (directory w) →
  well_numbered b (directory (Open env w)) ∧
  last_sequence_ (Open env w) = last_sequence_ w.
Proof.
  intros Hok. unfold Open. destruct (is_open_ w); [done|].
  destruct (open_append env _ (directory w)) as [st dir] eqn:Hop.
  pose proof (open_append_numbered b _ _ _ _ _ Hop Hok) as Hok1.
  destruct (negb (stream_open st)); [done|].
  destruct (_ =? 0); [|done].
  destruct (header_wire_size _ _ _) as [n|]; [|done].
  destruct (stream_write env _ st dir) as [st' dir'] eqn:Hwr. simpl.
  split; [|done]. by eapply stream_write_header_numbered.
Qed.

Lemma WriteEntryToFile_numbered b env entry w :
  sequence_number entry = b + 1 →
  well_numbered b (directory w) →
  well_numbered (b + 1) (directory (WriteEntryToFile env entry w).2) ∧
  last_sequence_ (WriteEntryToFile env entry w).2 = last_sequence_ w.
Proof.
  intros Hseq Hok.
  assert (well_numbered (b + 1) (directory w)) as Hmono
    by (eapply well_numbered_mono; [|done]; lia).
  unfold WriteEntryToFile.
  destruct (log_file_ w) as [st|]; [|done].
  destruct (negb (stream_open st)); [done|].
  destruct (entry_wire_size entry) as [n|]; [|done].
  destruct (stream_write env _ st (directory w)) as [st' dir'] eqn:Hwr. simpl.
  split; [|done]. by eapply stream_write_record_numbered.
Qed.

(** The numbering of a log: [well_numbered] up to its counter. *)
Lemma AppendEntry_numbered env entry w r w' :
  well_numbered (last_sequence_ w) (directory w) →
  AppendEntry env entry w = Returns (r, w') →
  well_numbered (last_sequence_ w') (directory w').
Proof.
  intros Hok. unfold AppendEntry. destruct (is_open_ w); simpl;
    [|by intros; simplify_eq].
  set (w1 := advance_sequence w).
  assert (∃ rotated w2,
            (if ShouldRotate w1 then RotateLog env w1 else (true, w1)) = (rotated, w2)
            ∧ well_numbered (last_sequence_ w) (directory w2)
            ∧ last_sequence_ w2 = last_sequence_ w + 1)
    as (rotated & w2 & -> & Hok2 & Hseq2).
  { destruct (ShouldRotate w1).
    - destruct (RotateLog_numbered (last_sequence_ w) env w1 Hok) as [H1 H2].
      destruct (RotateLog env w1) as [rotated w2]. by exists rotated, w2.
    - by exists true, w1. }
  destruct rotated; simpl.
  2:{ intros ?; simplify_eq. rewrite Hseq2. eapply well_numbered_mono; [|done]. lia. }
  destruct (WriteEntryToFile_numbered (last_sequence_ w) env
              (with_sequence (last_sequence_ w + 1) entry) w2 eq_refl Hok2)
    as [Hok3 Hseq3].
  destruct (WriteEntryToFile env _ w2) as [written w3]. simpl in *.
  destruct written; simpl.
  2:{ intros ?; simplify_eq. by rewrite Hseq3, Hseq2. }
  destruct (sync_on_write (config_ w3)); [done|].
  intros ?; simplify_eq. simpl. by rewrite Hseq3, Hseq2.
Qed.

Lemma perform_numbered c w w' :
  well_numbered (last_sequence_ w) (directory w) →
  perform c w = Returns w' →
  well_numbered (last_sequence_ w') (directory w').
Proof.
  intros Hok. destruct c as [env| |env entry| |env]; simpl.
  - intros [= <-]. destruct (Open_numbered _ env w Hok) as [? ->]. done.
  - intros [= <-]. unfold Close. by destruct (negb (is_open_ w)).
  - destruct (AppendEntry env entry w) as [[r w1]|] eqn:Happ; [|done].
    intros [= <-]. by eapply AppendEntry_numbered.
  - unfold Sync. destruct (log_file_ w) as [st|]; [|by intros [= <-]].
    destruct (stream_open st); by intros [= <-].
  - intros [= <-]. destruct (RotateLog_numbered _ env w Hok) as [? ->]. done.
Qed.

Lemma perform_all_numbered calls : ∀ w0 w,
  well_numbered (last_sequence_ w0) (directory w0) →
  perform_all calls w0 = Returns w →
  well_numbered (last_sequence_ w) (directory w).
Proof.
  induction calls as [|c rest IH]; intros w0 w Hok; simpl.
  - by intros [= <-].
  - destruct (perform c w0) as [w1|] eqn:Hc; [|done].
    apply IH. by eapply perform_numbered.
Qed.

Lemma numbered_bounded w :
  well_numbered (last_sequence_ w) (directory w) → sequence_bounded w.
Proof.
  intros (_ & Hfile & _) e (id & f & Hf & He)%elem_of_dir_records.
  destruct (Hfile id f Hf) as [_ Hall]. rewrite Forall_forall in Hall.
  specialize (Hall e He). simpl in Hall. lia.
Qed.

(** In a log that started on an empty directory the counter bounds the
    number of every record. *)
Lemma started_empty_bounded config calls w :
  perform_all calls (make config ∅) = Returns w → sequence_bounded w.
Proof.
  intros Hrun. apply numbered_bounded.
  eapply perform_all_numbered; [|exact Hrun].
  simpl. split; [done|]. split; [by intros id f; rewrite lookup_empty|].
  intros id1 id2 f1 f2 e1 e2. by rewrite lookup_empty.
Qed.

Lemma Open_keeps_sequence env w : last_sequence_ (Open env w) = last_sequence_ w.
Proof.
  unfold Open. destruct (is_open_ w); [done|].
  destruct (open_append env _ (directory w)) as [st dir].
  destruct (negb (stream_open st)); [done|].
  destruct (_ =? 0); [|done].
  destruct (header_wire_size _ _ _) as [n|]; [|done].
  by destruct (stream_write env _ st dir) as [st' dir'].
Qed.

(** C7 (amended): an append on a log that is not open returns failure and
    leaves the log, its sequence counter included, as it was.  On an open
    log the counter is advanced before anything else: when the following
    rotation fails because the new file cannot be opened, or the record
    cannot be written because the stream is closed or serialization fails,
    the append returns failure with no record added and the counter already
    advanced by one, so the next record written skips that number.  Every
    append that returns on an open log has moved the counter by exactly
    one, and the only record it can have added carries the new number.  In
    a log that started on an empty directory that number is beyond the
    number of every record written before.  A log object made on a
    directory that already holds records starts its counter at 0 again:
    the first record it adds is numbered 1, whatever the directory
    holds. *)
Theorem C7_append_failure_and_the_sequence
    (env : Env) (entry : WALEntry) (w : t) :
  (is_open_ w = false → AppendEntry env entry w = Returns (false, w)) ∧
  (is_open_ w = true → ShouldRotate w = true → can_open env = false →
   ∃ w', AppendEntry env entry w = Returns (false, w') ∧
         last_sequence_ w' = last_sequence_ w + 1 ∧ is_open_ w' = false ∧
         directory w' = directory w) ∧
  (is_open_ w = true → ShouldRotate w = false →
   (∀ st, log_file_ w = Some st → stream_open st = false)
   ∨ entry_wire_size (with_sequence (last_sequence_ w + 1) entry) = None →
   ∃ w', AppendEntry env entry w = Returns (false, w') ∧
         last_sequence_ w' = last_sequence_ w + 1 ∧
         directory w' = directory w) ∧
  (∀ b w', is_open_ w = true → AppendEntry env entry w = Returns (b, w') →
     last_sequence_ w' = last_sequence_ w + 1 ∧
     records_within [with_sequence (last_sequence_ w + 1) entry]
                    (directory w) (directory w')) ∧
  (∀ b w', sequence_bounded w → AppendEntry env entry w = Returns (b, w') →
     sequence_bounded w') ∧
  (∀ config calls b w',
     perform_all calls (make config ∅) = Returns w →
     AppendEntry env entry w = Returns (b, w') →
     ∀ e, e ∈ written_records w' →
       e ∈ written_records w
       ∨ (e = with_sequence (last_sequence_ w + 1) entry
          ∧ ∀ old, old ∈ written_records w →
              sequence_number old < sequence_number e)) ∧
  (∀ config dir env0 b w',
     w = Open env0 (make config dir) → is_open_ w = true →
     AppendEntry env entry w = Returns (b, w') →
     last_sequence_ w' = 1 ∧
     records_within [with_sequence 1 entry] (directory w) (directory w')).
Proof.
  split; [apply AppendEntry_not_open|].
  split; [apply AppendEntry_rotation_fails|].
  split; [|split; [|split; [|split]]].
  - intros Ho Hrot Hbad. exists (advance_sequence w).
    by rewrite AppendEntry_write_fails.
  - intros b w'. apply AppendEntry_open_returns.
  - intros b w'. apply AppendEntry_bounded.
  - intros config calls b w' Hrun Happ e He.
    pose proof (started_empty_bounded config calls w Hrun) as Hbound.
    destruct (is_open_ w) eqn:Ho.
    + destruct (AppendEntry_open_returns env entry w b w' Ho Happ) as [_ Hrec].
      destruct (Hrec e He) as [Hold|Hnew]; [by left|right].
      apply list_elem_of_singleton in Hnew as ->. split; [done|].
      intros old Hin. specialize (Hbound old Hin). simpl. lia.
    + rewrite AppendEntry_not_open in Happ by done. simplify_eq. by left.
  - intros config dir env0 b w' Hw Ho Happ.
    destruct (AppendEntry_open_returns env entry w b w' Ho Happ) as [Hseq Hrec].
    assert (last_sequence_ w = 0) as Hzero by (by rewrite Hw, Open_keeps_sequence).
    rewrite Hzero in Hseq, Hrec. done.
Qed.

(** X18: in a log that starts on an empty directory, after any
    calls of [Open], [Close], the appends, [Sync] and [RotateLog] that
    return, every record in the directory carries a sequence number between
    1 and the counter, each file holds its records in strictly increasing
    order of sequence number, and no two files hold the same number: a
    sequence number names at most one record. *)
Theorem log_records_are_numbered_once_and_in_order
    (config : Config) (calls : list call) (w : t) :
  perform_all calls (make config ∅) = Returns w →
  0 ≤ last_sequence_ w ∧
  (∀ id f, directory w !! id = Some f →
     StronglySorted sequence_lt (records f) ∧
     Forall (λ e, 1 ≤ sequence_number e ≤ last_sequence_ w) (records f)) ∧
  (∀ id1 id2 f1 f2 e1 e2,
     directory w !! id1 = Some f1 → directory w !! id2 = Some f2 →
     e1 ∈ records f1 → e2 ∈ records f2 →
     sequence_number e1 = sequence_number e2 → id1 = id2).
Proof.
  assert (well_numbered (last_sequence_ (make config ∅)) (directory (make config ∅)))
    as Hstart.
  { simpl. split; [done|]. split; [by intros id f; rewrite lookup_empty|].
    intros id1 id2 f1 f2 e1 e2. by rewrite lookup_empty. }
  revert Hstart. generalize (make config ∅).
  induction calls as [|c rest IH]; intros w0 Hok; simpl.
  - by intros [= <-].
  - destruct (perform c w0) as [w1|] eqn:Hc; [|done].
    apply IH. by eapply perform_numbered.
Qed.

(** *** Old files *)

Lemma string_compare_trans (a : string) : ∀ b c,
  String.compare a b ≠ Gt → String.compare b c ≠ Gt → String.compare a c ≠ Gt.
Proof.
  induction a as [|x a IH]; intros [|y b] [|z c]; simpl; try done.
  unfold Ascii.compare.
  destruct (N.compare_spec (Ascii.N_of_ascii x) (Ascii.N_of_ascii y)) as [Hxy|Hxy|Hxy];
    [| |done];
    destruct (N.compare_spec (Ascii.N_of_ascii y) (Ascii.N_of_ascii z)) as [Hyz|Hyz|Hyz];
    try done.
  - rewrite Hxy, Hyz, N.compare_refl. apply IH.
  - intros _ _. rewrite Hxy. by rewrite (proj2 (N.compare_lt_iff _ _) Hyz).
  - intros _ _. rewrite <- Hyz. by rewrite (proj2 (N.compare_lt_iff _ _) Hxy).
  - intros _ _. rewrite (proj2 (N.compare_lt_iff _ _)); [done|]. lia.
Qed.

#[local] Instance string_le_trans : Transitive string_le.
Proof.
  intros a b c. unfold string_le, String.leb.
  pose proof (string_compare_trans a b c) as Htrans.
  destruct (String.compare a b), (String.compare b c), (String.compare a c);
    simpl; try done; intros _ _; by exfalso; apply Htrans.
Qed.

#[local] Instance string_le_total : Total string_le.
Proof.
  intros a b. unfold string_le.
  destruct (String.leb_total a b) as [->| ->]; [by left | by right].
Qed.

Lemma lookup_delete_all (ids : list string) : ∀ (dir : gmap string LogFile) id,
  foldl (λ d id, delete id d) dir ids !! id
  = if decide (id ∈ ids) then None else dir !! id.
Proof.
  induction ids as [|x ids IH]; intros dir id; cbn [foldl].
  - destruct (decide (id ∈ [])) as [Hin|]; [by apply elem_of_nil in Hin | done].
  - rewrite IH.
    destruct (decide (id ∈ ids)) as [Hin|Hnin],
             (decide (id ∈ x :: ids)) as [Hin'|Hnin']; try done.
    + exfalso. apply Hnin'. by right.
    + apply elem_of_cons in Hin' as [->|?]; [|done]. apply lookup_delete_eq.
    + apply lookup_delete_ne. intros ->. apply Hnin'. by left.
Qed.

Lemma size_delete_all (ids : list string) : ∀ (dir : gmap string LogFile),
  NoDup ids → (∀ id, id ∈ ids → is_Some (dir !! id)) →
  size (foldl (λ d id, delete id d) dir ids) = (size dir - length ids)%nat.
Proof.
  induction ids as [|x ids IH]; intros dir Hnd Hin; simpl; [lia|].
  apply NoDup_cons in Hnd as [Hx Hnd].
  rewrite IH; [|done|].
  - rewrite map_size_delete. destruct (Hin x) as [f ->]; [by left|]. lia.
  - intros id Hid. rewrite lookup_delete_ne; [apply Hin; by right|].
    by intros ->.
Qed.

Lemma sorted_ids_spec (dir : gmap string LogFile) :
  NoDup (sorted_ids dir) ∧ StronglySorted string_le (sorted_ids dir) ∧
  length (sorted_ids dir) = size dir ∧
  ∀ id, id ∈ sorted_ids dir ↔ is_Some (dir !! id).
Proof.
  unfold sorted_ids. split; [|split; [|split]].
  - rewrite merge_sort_Permutation. apply NoDup_fst_map_to_list.
  - apply StronglySorted_merge_sort; apply _.
  - by rewrite merge_sort_Permutation, length_fmap, length_map_to_list.
  - intros id. rewrite merge_sort_Permutation, list_elem_of_fmap. split.
    + intros ([i f] & -> & Hin%elem_of_map_to_list). by exists f.
    + intros [f Hf]. exists (id, f). split; [done|]. by apply elem_of_map_to_list.
Qed.

Lemma cleanup_spec max (dir : gmap string LogFile) :
  cleanup max dir ⊆ dir ∧
  Z.of_nat (size (cleanup max dir)) = Z.min (Z.of_nat (size dir)) (Z.max 0 max) ∧
  ∀ id1 id2, is_Some (dir !! id1) → cleanup max dir !! id1 = None →
             is_Some (cleanup max dir !! id2) → string_le id1 id2.
Proof.
  destruct (sorted_ids_spec dir) as (Hnd & Hsorted & Hlen & Hids).
  unfold cleanup. rewrite Hlen.
  destruct (Z.gtb_spec (Z.of_nat (size dir)) max) as [Hgt|Hle].
  2:{ split; [done|]. split; [lia|]. intros id1 id2 [f Hf] Hnone. congruence. }
  set (k := Z.to_nat (Z.of_nat (size dir) - max)).
  split; [apply delete_all_subseteq|]. split.
  - rewrite size_delete_all.
    + rewrite length_take, Hlen. lia.
    + rewrite <- (take_drop k (sorted_ids dir)) in Hnd.
      by apply NoDup_app in Hnd as [? _].
    + intros id Hid. apply Hids. rewrite <- (take_drop k (sorted_ids dir)).
      apply elem_of_app. by left.
  - intros id1 id2 Hin1. rewrite !lookup_delete_all.
    destruct (decide (id1 ∈ take k (sorted_ids dir))) as [Htake|Hntake].
    2:{ intros Hnone. destruct Hin1 as [f Hf]. congruence. }
    intros _. destruct (decide (id2 ∈ take k (sorted_ids dir))) as [?|Hdrop];
      [by intros [? ?]|].
    intros Hin2%Hids. rewrite <- (take_drop k (sorted_ids dir)) in Hin2, Hsorted.
    apply elem_of_app in Hin2 as [?|Hin2]; [done|].
    by eapply StronglySorted_app_1_elem_of.
Qed.

(** X20: after a rotation that returns [true] the directory holds
    at most [max_log_files] files, each of them the new file or a file that
    was there before, and every file removed (the new one included) has a
    name that sorts at or below the names of all files kept. *)
Theorem RotateLog_keeps_the_greatest_names (env : Env) (w w' : t) :
  RotateLog env w = (true, w') →
  let listed := λ id, id = current_log_id_ w' ∨ is_Some (directory w !! id) in
  (∀ id, is_Some (directory w' !! id) → listed id) ∧
  Z.of_nat (size (directory w')) ≤ Z.max 0 (max_log_files (config_ w)) ∧
  (∀ id1 id2, listed id1 → directory w' !! id1 = None →
              is_Some (directory w' !! id2) → string_le id1 id2).
Proof.
  unfold RotateLog, open_append.
  destruct (can_open env) eqn:Hcan; simpl; [|done].
  destruct (header_wire_size _ _ _) as [n|]; [|done].
  set (id := GenerateLogId env w).
  set (dir := match directory w !! id with
              | Some _ => directory w
              | None => <[id := mkLogFile 0 false []]> (directory w)
              end).
  assert (∀ i, is_Some (dir !! i) ↔ i = id ∨ is_Some (directory w !! i)) as Hdir.
  { intros i. unfold dir. destruct (directory w !! id) as [f|] eqn:Hid.
    - split; [by right|]. intros [->|?]; [by eexists|done].
    - rewrite lookup_insert_is_Some. split.
      + intros [?|[_ ?]]; [by left | by right].
      + intros [->|?]; [by left|]. destruct (decide (id = i)); [by left|by right]. }
  assert (∀ dir' : gmap string LogFile,
            (∀ i, is_Some (dir' !! i) ↔ i = id ∨ is_Some (directory w !! i)) →
            let kept := cleanup (max_log_files (config_ w)) dir' in
            (∀ i, is_Some (kept !! i) → i = id ∨ is_Some (directory w !! i)) ∧
            Z.of_nat (size kept) ≤ Z.max 0 (max_log_files (config_ w)) ∧
            (∀ id1 id2, id1 = id ∨ is_Some (directory w !! id1) → kept !! id1 = None →
                        is_Some (kept !! id2) → string_le id1 id2)) as Hgen.
  { intros dir' Hdir' kept.
    destruct (cleanup_spec (max_log_files (config_ w)) dir') as (Hsub & Hsize & Horder).
    fold kept in Hsub, Hsize, Horder.
    split; [|split].
    - intros i [f Hf]. apply Hdir'. exists f. by eapply lookup_weaken.
    - lia.
    - intros id1 id2 Hl%Hdir'. by apply Horder. }
  unfold stream_write. simpl.
  destruct (write_succeeds env) eqn:Hw; intros [= <-]; simpl; apply Hgen; [|done].
  intros i. rewrite <- Hdir, lookup_alter. case_decide; [|done].
  subst. by rewrite fmap_is_Some.
Qed.

(** *** An append that gets past the checks *)

(** X19: an append that needs no rotation, on an open log with an
    open stream and a record that serializes.  With [sync_on_write] (the
    default) it never returns: it ends in [Sync()], which locks the mutex
    the append holds.  Without, it returns [true] with the counter, the
    entry count and the file size moved, whether or not the bytes reached
    the file: when the stream has failed or the write fails the directory
    is unchanged, otherwise the numbered record is the new last record of
    the stream's file. *)
Theorem AppendEntry_blocks_or_reports_success_unchecked
    (env : Env) (entry : WALEntry) (w : t) (st : Stream) (n : Z) :
  is_open_ w = true → ShouldRotate w = false →
  log_file_ w = Some st → stream_open st = true →
  entry_wire_size (with_sequence (last_sequence_ w + 1) entry) = Some n →
  (sync_on_write (config_ w) = true → AppendEntry env entry w = Deadlock) ∧
  (sync_on_write (config_ w) = false →
   ∃ w', AppendEntry env entry w = Returns (true, w') ∧
         last_sequence_ w' = last_sequence_ w + 1 ∧
         total_entries_written_ w' = size_t_wrap (total_entries_written_ w + 1) ∧
         current_file_size_ w' = size_t_wrap (current_file_size_ w + (4 + n)) ∧
         directory w'
         = if stream_failed st || negb (write_succeeds env) then directory w
           else alter (with_record n (with_sequence (last_sequence_ w + 1) entry))
                      (stream_id st) (directory w)).
Proof.
  intros Hopen Hrot Hfile Hstream Hsize.
  unfold AppendEntry. rewrite Hopen. simpl.
  change (ShouldRotate (advance_sequence w)) with (ShouldRotate w). rewrite Hrot.
  simpl. unfold WriteEntryToFile. simpl. rewrite Hfile, Hstream, Hsize. simpl.
  unfold stream_write.
  destruct (stream_failed st) eqn:Hfailed; simpl.
  { split; intros ->; [done|]. by eexists. }
  destruct (write_succeeds env); simpl.
  - split; intros ->; [|by eexists].
    unfold Sync. done.
  - split; intros ->; [done|]. by eexists.
Qed.

End log.

(** C7, as stated, fails: the log's file is past its size cap, the append
    has to rotate, the new file cannot be opened; the append returns
    failure and the counter went from 2 to 3. *)
Lemma C7_rotation_failure_counterexample :
  ¬ failure_keeps_sequence (H := example_wire) (mkEnv 2000 false true)
      (example_record "k3" "v3") wal_due_for_rotation.
Proof.
  intros Hkeep.
  destruct (AppendEntry_rotation_fails (wire := example_wire)
              (mkEnv 2000 false true) (example_record "k3" "v3")
              wal_due_for_rotation) as (w' & Happ & Hseq & _);
    [by vm_compute..|].
  specialize (Hkeep w' Happ). rewrite Hseq in Hkeep. lia.
Qed.

Lemma wal_due_for_rotation_bounded :
  sequence_bounded wal_due_for_rotation.
Proof.
  unfold wal_due_for_rotation, returned.
  pose proof (Open_bounded (wire := example_wire) (mkEnv 1000 true true) _
                (make_bounded example_wal_config)) as H0.
  destruct (AppendEntry _ (example_record "k1" "v1") _) as [[b1 w1]|] eqn:H1;
    [|done].
  pose proof (AppendEntry_bounded _ _ _ _ _ H0 H1) as Hb1.
  destruct (AppendEntry _ (example_record "k2" "v2") w1) as [[b2 w2]|] eqn:H2;
    [|done].
  by eapply AppendEntry_bounded.
Qed.

(** After that failure the log is reopened and takes a record: the
    directory then holds the sequence numbers 1, 2 and 4. *)
Example sequence_gap_after_failed_rotation :
  let failed := returned (AppendEntry (H := example_wire) (mkEnv 2000 false true)
                            (example_record "k3" "v3") wal_due_for_rotation)
                         wal_due_for_rotation in
  let reopened := Open (H := example_wire) (mkEnv 3000 true true) failed in
  let appended := returned (AppendEntry (H := example_wire) (mkEnv 3001 true true)
                              (example_record "k4" "v4") reopened) reopened in
  merge_sort Z.le (sequence_number <$> written_records appended) = [1; 2; 4].
Proof. by vm_compute. Qed.

Lemma C7_append_failure_and_the_sequence_witness :
  is_open_ wal_due_for_rotation = true ∧
  ShouldRotate wal_due_for_rotation = true ∧
  ∃ w', AppendEntry (H := example_wire) (mkEnv 2000 false true)
          (example_record "k3" "v3") wal_due_for_rotation = Returns (false, w') ∧
        last_sequence_ w' = last_sequence_ wal_due_for_rotation + 1 ∧
        is_open_ w' = false ∧
        directory w' = directory wal_due_for_rotation.
Proof.
  assert (Ho : is_open_ wal_due_for_rotation = true) by (by vm_compute).
  assert (Hr : ShouldRotate wal_due_for_rotation = true) by (by vm_compute).
  split; [exact Ho|]. split; [exact Hr|].
  exact (proj1 (proj2 (C7_append_failure_and_the_sequence (wire := example_wire)
                         (mkEnv 2000 false true) (example_record "k3" "v3")
                         wal_due_for_rotation)) Ho Hr eq_refl).
Defined.

Lemma log_records_are_numbered_once_and_in_order_witness :
  perform_all (H := example_wire) example_calls (make example_wal_config ∅)
  = Returns example_log ∧
  last_sequence_ example_log = 3 ∧
  (∀ id f, directory example_log !! id = Some f →
     StronglySorted sequence_lt (records f) ∧
     Forall (λ e, 1 ≤ sequence_number e ≤ 3) (records f)).
Proof.
  assert (Hrun : perform_all (H := example_wire) example_calls
                   (make example_wal_config ∅) = Returns example_log)
    by (by vm_compute).
  split; [exact Hrun|]. split; [by vm_compute|].
  exact (proj1 (proj2 (log_records_are_numbered_once_and_in_order
                         (wire := example_wire) _ _ _ Hrun))).
Defined.

Lemma AppendEntry_blocks_or_reports_success_unchecked_witness :
  is_open_ durable_wal = true ∧ ShouldRotate durable_wal = false ∧
  log_file_ durable_wal = Some (mkStream "wal-node1-1000" true false) ∧
  entry_wire_size (Wire := example_wire)
    (with_sequence (last_sequence_ durable_wal + 1) (example_record "k1" "v1"))
  = Some 34 ∧
  AppendEntry (H := example_wire) (mkEnv 1001 true true) (example_record "k1" "v1")
    durable_wal = Deadlock.
Proof.
  assert (H1 : is_open_ durable_wal = true) by (by vm_compute).
  assert (H2 : ShouldRotate durable_wal = false) by (by vm_compute).
  assert (H3 : log_file_ durable_wal = Some (mkStream "wal-node1-1000" true false))
    by (by vm_compute).
  assert (H4 : entry_wire_size (Wire := example_wire)
                 (with_sequence (last_sequence_ durable_wal + 1)
                    (example_record "k1" "v1")) = Some 34) by (by vm_compute).
  split; [exact H1|]. split; [exact H2|]. split; [exact H3|]. split; [exact H4|].
  exact (proj1 (AppendEntry_blocks_or_reports_success_unchecked (wire := example_wire)
                  (mkEnv 1001 true true) (example_record "k1" "v1") durable_wal
                  _ _ H1 H2 H3 eq_refl H4) eq_refl).
Defined.

(** The file a rotation has just created is not exempt: with one file kept
    and the name of the new file sorting below the old one's, the rotation
    deletes the file it has opened. *)
Lemma RotateLog_keeps_the_greatest_names_witness :
  let w' := (RotateLog (H := example_wire) (mkEnv 1000 true true) single_file_wal).2 in
  RotateLog (H := example_wire) (mkEnv 1000 true true) single_file_wal = (true, w') ∧
  current_log_id_ w' = "wal-node1-1000" ∧
  directory w' !! "wal-node1-1000" = None ∧
  is_Some (directory w' !! "wal-node1-999") ∧
  string_le "wal-node1-1000" "wal-node1-999".
Proof.
  cbv zeta.
  set (w' := (RotateLog (H := example_wire) (mkEnv 1000 true true) single_file_wal).2).
  assert (Hrot : RotateLog (H := example_wire) (mkEnv 1000 true true) single_file_wal
                 = (true, w')) by (by vm_compute).
  assert (Hid : current_log_id_ w' = "wal-node1-1000") by (by vm_compute).
  assert (Hgone : directory w' !! "wal-node1-1000" = None) by (by vm_compute).
  assert (Hkept : is_Some (directory w' !! "wal-node1-999"))
    by (vm_compute; by eexists).
  split; [exact Hrot|]. split; [exact Hid|]. split; [exact Hgone|].
  split; [exact Hkept|].
  exact (proj2 (proj2 (RotateLog_keeps_the_greatest_names (wire := example_wire)
                         _ _ _ Hrot))
           "wal-node1-1000" "wal-node1-999" (or_introl (eq_sym Hid)) Hgone Hkept).
Defined.

End WAL_facts.

(** ** Snapshots and recovery *)

(** *** Retention *)

Module SnapshotManager_facts.
Import SnapshotManager.

#[local] Instance by_timestamp_trans : Transitive by_timestamp.
Proof. intros a b c. unfold by_timestamp. lia. Qed.

#[local] Instance by_timestamp_total : Total by_timestamp.
Proof. intros a b. unfold by_timestamp. lia. Qed.

Lemma lookup_remove_files (removed : list SnapshotMetadata) :
  ∀ (fs : gmap string SnapshotFile) path,
    remove_files removed fs !! path
    = if bool_decide (path ∈ file_path <$> removed) then None else fs !! path.
Proof.
  unfold remove_files.
  induction removed as [|meta removed IH]; intros fs path; cbn [foldl].
  - rewrite bool_decide_false; [done|]. rewrite fmap_nil. apply not_elem_of_nil.
  - rewrite IH, fmap_cons.
    destruct (decide (path = file_path meta)) as [->|Hne].
    + rewrite (bool_decide_true (_ ∈ _ :: _)) by by left.
      rewrite lookup_delete_eq. by case_bool_decide.
    + rewrite lookup_delete_ne by done.
      case_bool_decide as Hin.
      * rewrite bool_decide_true; [done|]. by right.
      * rewrite bool_decide_false; [done|].
        intros [?|?]%elem_of_cons; done.
Qed.

(** X30: [PruneOldSnapshots] leaves the list alone when it holds at
    most [max_snapshots_retained] snapshots.  Otherwise, whatever
    [std::sort] does with equal timestamps, it keeps
    [max_snapshots_retained] snapshots of the list, ordered by timestamp,
    none older than a removed one, and deletes the file of every removed
    snapshot and no other file; so a retained snapshot reads as before
    unless a removed one has the same file path.  The engine and the
    restore counters are not touched. *)
Theorem PruneOldSnapshots_keeps_the_newest
    (std_sort : list SnapshotMetadata → list SnapshotMetadata)
    (max_snapshots_retained : Z) (uninit : Z) (sm : t) :
  sorts_by_timestamp std_sort →
  0 ≤ max_snapshots_retained →
  let sm' := PruneOldSnapshots std_sort max_snapshots_retained sm in
  (Z.of_nat (length (snapshots_ sm)) ≤ max_snapshots_retained → sm' = sm)
  ∧ ∃ removed,
      snapshots_ sm ≡ₚ removed ++ snapshots_ sm'
      ∧ Z.of_nat (length (snapshots_ sm'))
        = Z.min (Z.of_nat (length (snapshots_ sm))) max_snapshots_retained
      ∧ (∀ r k, r ∈ removed → k ∈ snapshots_ sm' → timestamp r ≤ timestamp k)
      ∧ (removed ≠ [] → Sorted by_timestamp (snapshots_ sm'))
      ∧ (∀ path, files sm' !! path
                 = if bool_decide (path ∈ file_path <$> removed) then None
                   else files sm !! path)
      ∧ (∀ k, k ∈ snapshots_ sm' → file_path k ∉ file_path <$> removed →
           ReadSnapshotFromFile uninit (file_path k) (files sm')
           = ReadSnapshotFromFile uninit (file_path k) (files sm))
      ∧ storage_ sm' = storage_ sm
      ∧ total_restores_ sm' = total_restores_ sm
      ∧ total_restores_failed_ sm' = total_restores_failed_ sm.
Proof.
  intros Hsort Hmax sm'. subst sm'. unfold PruneOldSnapshots.
  destruct (Z.leb_spec (Z.of_nat (length (snapshots_ sm))) max_snapshots_retained)
    as [Hfew|Hmany].
  { split; [done|]. exists []. cbn [app fmap list_fmap].
    split; [done|]. split; [lia|]. split; [by intros r k Hr%elem_of_nil|].
    split; [done|]. split; [|done]. intros path. by rewrite bool_decide_false
      by apply not_elem_of_nil. }
  split; [lia|].
  destruct (Hsort (snapshots_ sm)) as [Hperm Hsorted].
  set (sorted := std_sort (snapshots_ sm)) in *.
  assert (length sorted = length (snapshots_ sm)) as Hlen by by rewrite Hperm.
  set (to_delete := Z.to_nat (Z.of_nat (length sorted) - max_snapshots_retained)).
  exists (take to_delete sorted).
  cbn [snapshots_ files storage_ total_restores_ total_restores_failed_].
  apply (Sorted_StronglySorted _) in Hsorted.
  rewrite <- (take_drop to_delete sorted) in Hsorted.
  split; [by rewrite take_drop|].
  split; [rewrite length_drop; lia|].
  split.
  { intros r k Hr Hk. by apply (StronglySorted_app_1_elem_of _ _ _ _ _ Hsorted). }
  split.
  { intros _. apply StronglySorted_Sorted. by eapply StronglySorted_app_1_r. }
  split; [apply lookup_remove_files|].
  split; [|done].
  intros k Hk Hpath. unfold ReadSnapshotFromFile.
  by rewrite lookup_remove_files, bool_decide_false.
Qed.

Lemma merge_sort_sorts_by_timestamp : sorts_by_timestamp (merge_sort by_timestamp).
Proof.
  intros l. split; [apply merge_sort_Permutation|]. apply Sorted_merge_sort. apply _.
Qed.

Lemma PruneOldSnapshots_keeps_the_newest_witness :
  sorts_by_timestamp (merge_sort by_timestamp)
  ∧ 0 ≤ 2
  ∧ ∃ removed,
      snapshots_ example_snapshot_manager
      ≡ₚ removed ++ snapshots_ (PruneOldSnapshots (merge_sort by_timestamp) 2
                                   example_snapshot_manager)
      ∧ Z.of_nat (length (snapshots_ (PruneOldSnapshots (merge_sort by_timestamp) 2
                                        example_snapshot_manager))) = 2.
Proof.
  assert (H2 : 0 ≤ 2) by lia.
  split; [exact merge_sort_sorts_by_timestamp|]. split; [exact H2|].
  destruct (PruneOldSnapshots_keeps_the_newest (merge_sort by_timestamp) 2 0
              example_snapshot_manager merge_sort_sorts_by_timestamp H2)
    as (_ & removed & Hperm & Hlen & _).
  exists removed. split; [exact Hperm | exact Hlen].
Defined.

(** Two snapshots that share a file path: pruning the older one deletes
    the file of the one retained. *)
Example pruning_deletes_a_shared_file :
  let sm :=
    {| snapshots_ :=
         [mkSnapshotMetadata "snapshot-node-a-1000" 1000 0 0 "node-a" ""
                             "snapshots/snapshot-node-a-1000.snapshot";
          mkSnapshotMetadata "snapshot-node-a-1000" 1000 1 0 "node-a" ""
                             "snapshots/snapshot-node-a-1000.snapshot"];
       storage_ := ShardedHashTable.make 4 100000;
       total_restores_ := 0;
       total_restores_failed_ := 0;
       files := {[ "snapshots/snapshot-node-a-1000.snapshot"
                   := mkSnapshotFile "DISTCACHE_SNAPSHOT_V1" "snapshot-node-a-1000" [] ]} |} in
  let sm' := PruneOldSnapshots (merge_sort by_timestamp) 1 sm in
  length (snapshots_ sm') = 1%nat
  ∧ ∀ k, k ∈ snapshots_ sm' → files sm' !! file_path k = None.
Proof.
  split; [by vm_compute|]. intros k Hk. vm_compute in Hk.
  apply list_elem_of_singleton in Hk. subst k. by vm_compute.
Qed.

End SnapshotManager_facts.

Module RecoveryManager_facts.
Import RecoveryManager.

Section restore.
Context {platform : Platform}.

#[local] Instance later_total : Total later.
Proof. intros a b. unfold later. lia. Qed.

(** The snapshots are tried in order of decreasing timestamp. *)
Lemma latest_first_sorted snapshots : Sorted later (latest_first snapshots).
Proof. apply Sorted_merge_sort. apply _. Qed.

Lemma latest_first_permutation snapshots : latest_first snapshots ≡ₚ snapshots.
Proof. apply merge_sort_Permutation. Qed.

(** Without snapshots nothing is restored and the engine is left as it
    was. *)
Lemma RestoreSnapshot_none uninit result sm :
  SnapshotManager.snapshots_ sm = [] →
  RestoreSnapshot uninit result sm = Some (false, result, sm).
Proof. intros Hnil. unfold RestoreSnapshot, SnapshotManager.ListSnapshots. by rewrite Hnil. Qed.

(** When the latest snapshot cannot be read, recovery gives up: the engine
    is left as it was, whatever older snapshots exist. *)
Lemma RestoreSnapshot_latest_unreadable uninit result sm latest rest metadata :
  latest_first (SnapshotManager.snapshots_ sm) = latest :: rest →
  SnapshotManager.GetSnapshotMetadata (SnapshotManager.snapshot_id latest) sm
    = Some metadata →
  SnapshotManager.ReadSnapshotFromFile uninit
    (SnapshotManager.file_path metadata) (SnapshotManager.files sm) = None →
  ∃ sm', RestoreSnapshot uninit result sm = Some (false, result, sm') ∧
         SnapshotManager.storage_ sm' = SnapshotManager.storage_ sm.
Proof.
  intros Hsort Hmeta Hread.
  unfold RestoreSnapshot, SnapshotManager.ListSnapshots. rewrite Hsort.
  unfold SnapshotManager.RestoreFromSnapshot. rewrite Hmeta, Hread. simpl.
  by eauto.
Qed.

(** [RestoreFromSnapshot] does not read the recorded checksum: whatever
    checksum the metadata carry, it answers the same and leaves the same
    engine. *)
Lemma RestoreFromSnapshot_ignores_checksum uninit id c sm :
  (λ r, (r.1, SnapshotManager.storage_ r.2))
    <$> SnapshotManager.RestoreFromSnapshot uninit id (SnapshotManager.relabel c sm)
  = (λ r, (r.1, SnapshotManager.storage_ r.2))
    <$> SnapshotManager.RestoreFromSnapshot uninit id sm.
Proof.
  unfold SnapshotManager.RestoreFromSnapshot.
  assert (SnapshotManager.GetSnapshotMetadata id (SnapshotManager.relabel c sm)
          = SnapshotManager.with_checksum c
              <$> SnapshotManager.GetSnapshotMetadata id sm) as ->.
  { unfold SnapshotManager.GetSnapshotMetadata; simpl.
    induction (SnapshotManager.snapshots_ sm) as [|m l IH]; [done|]. csimpl.
    change (SnapshotManager.snapshot_id (SnapshotManager.with_checksum c m))
      with (SnapshotManager.snapshot_id m).
    case_decide; [done|].
    destruct (list_find _ (SnapshotManager.with_checksum c <$> l)) as [[i m1]|];
      destruct (list_find _ l) as [[j m2]|]; simplify_eq/=; done. }
  destruct (SnapshotManager.GetSnapshotMetadata id sm) as [m|]; simpl; [|done].
  destruct (SnapshotManager.ReadSnapshotFromFile uninit _ _) as [es|]; simpl;
    [|done].
  by destruct (SnapshotManager.set_all es _).
Qed.

End restore.

(** *** Replaying the log *)

Section replay.
Context {platform : Platform}.

#[local] Instance by_sequence_total : Total by_sequence.
Proof. intros a b. unfold by_sequence. lia. Qed.

#[local] Instance by_sequence_trans : Transitive by_sequence.
Proof. intros a b c. unfold by_sequence. lia. Qed.

Lemma ApplyWALEntry_applies uninit entry storage :
  ShardedHashTable.shards_ storage ≠ [] →
  ∃ storage',
    ApplyWALEntry uninit entry storage = Some (true, storage') ∧
    ShardedHashTable.shards_ storage' ≠ [] ∧
    ShardedHashTable.stored (WAL.key entry) storage' = applied_value uninit entry.
Proof.
  intros Hne. unfold ApplyWALEntry, applied_value.
  assert (∃ storage',
    ShardedHashTable.set (WAL.key entry) (recovered_entry uninit entry) storage
      ≫= (λ '(_, storage'), Some (true, storage')) = Some (true, storage') ∧
    ShardedHashTable.shards_ storage' ≠ [] ∧
    ShardedHashTable.stored (WAL.key entry) storage'
    = Some (recovered_entry uninit entry)) as Hset.
  { destruct (ShardedHashTable_facts.set_stores (WAL.key entry)
                (recovered_entry uninit entry) storage Hne)
      as (s' & -> & Hst & Hne'). simpl. by eauto. }
  destruct (WAL.type entry); [done| |done].
  destruct (ShardedHashTable_facts.get_shard_lookup (WAL.key entry) storage Hne)
    as [shard Hi].
  unfold ShardedHashTable.del. rewrite Hi. simpl.
  destruct (ShardedHashTable.data shard !! WAL.key entry) as [e|] eqn:He; simpl.
  - eexists. split; [done|]. split.
    + simpl. intros Hnil. apply (f_equal length) in Hnil.
      rewrite length_insert in Hnil. by destruct (ShardedHashTable.shards_ storage).
    + erewrite (ShardedHashTable_facts.stored_written (WAL.key entry) _ storage);
        [|done|done]. simpl. apply lookup_delete_eq.
  - exists storage. split; [done|]. split; [done|].
    unfold ShardedHashTable.stored. by rewrite Hi.
Qed.

Lemma replay_spec uninit entries : ∀ replayed last_sequence storage,
  ShardedHashTable.shards_ storage ≠ [] →
  size_t_wrap replayed = replayed →
  ∃ storage',
    replay uninit entries (replayed, last_sequence, storage)
    = Some (size_t_wrap (replayed + Z.of_nat (length entries)),
            default last_sequence (WAL.sequence_number <$> last entries),
            storage') ∧
    ShardedHashTable.shards_ storage' ≠ [] ∧
    (entries = [] → storage' = storage) ∧
    (∀ entry, last entries = Some entry →
       ShardedHashTable.stored (WAL.key entry) storage' = applied_value uninit entry).
Proof.
  induction entries as [|entry rest IH]; intros replayed last_sequence storage Hne Hw.
  - exists storage. simpl. rewrite Z.add_0_r, Hw. done.
  - destruct (ApplyWALEntry_applies uninit entry storage Hne) as (s1 & Happly & Hne1 & Hst).
    cbn [replay]. rewrite Happly. cbn [mbind option_bind].
    destruct (IH (size_t_wrap (replayed + 1)) (WAL.sequence_number entry) s1 Hne1)
      as (s2 & -> & Hne2 & Hnil & Hlast).
    { unfold size_t_wrap. by rewrite Zmod_mod. }
    exists s2. split.
    { assert (size_t_wrap (size_t_wrap (replayed + 1) + Z.of_nat (length rest))
              = size_t_wrap (replayed + Z.of_nat (length (entry :: rest)))) as ->.
      { rewrite size_t_wrap_add_l. f_equal. simpl length. lia. }
      assert (default (WAL.sequence_number entry) (WAL.sequence_number <$> last rest)
              = default last_sequence
                  (WAL.sequence_number <$> last (entry :: rest))) as ->; [|done].
      destruct rest as [|e' rest']; [done|]. rewrite last_cons_cons.
      destruct (last (e' :: rest')) eqn:Hl; [done|]. by apply last_None in Hl. }
    split; [done|]. split; [done|].
    intros e. destruct rest as [|e' rest'].
    + simpl. intros [= <-]. by rewrite (Hnil eq_refl).
    + rewrite last_cons_cons. apply Hlast.
Qed.

(** Records come out of the sort in the order of their sequence numbers, so
    the last one carries the greatest. *)
Lemma last_sorted_greatest (ordered : list WAL.WALEntry) entry :
  Sorted by_sequence ordered → last ordered = Some entry →
  ∀ e, e ∈ ordered → WAL.sequence_number e ≤ WAL.sequence_number entry.
Proof.
  intros Hs%Sorted_StronglySorted; [|apply _].
  induction Hs as [|x l Hs IH Hall]; [done|].
  destruct l as [|y l'].
  - simpl. intros [= <-] e ->%list_elem_of_singleton. done.
  - rewrite last_cons_cons. intros Hlast e [->|Hin]%elem_of_cons; [|by apply IH].
    apply (proj1 (Forall_forall _ _) Hall). by apply last_Some_elem_of.
Qed.

Lemma elem_of_collect_entries ReadWALFile wal_files snapshot_sequence entry :
  entry ∈ collect_entries ReadWALFile wal_files snapshot_sequence ↔
  snapshot_sequence < WAL.sequence_number entry ∧
  ∃ wal_file_id entries,
    wal_file_id ∈ wal_files ∧ ReadWALFile wal_file_id = Some entries ∧
    entry ∈ entries.
Proof.
  unfold collect_entries. rewrite list_elem_of_bind. split.
  - intros (id & Hin & Hid). rewrite merge_sort_Permutation in Hid.
    destruct (ReadWALFile id) as [entries|] eqn:Hread; [|by apply elem_of_nil in Hin].
    apply list_elem_of_filter in Hin as [Hseq Hin]. split; [done|].
    by exists id, entries.
  - intros (Hseq & id & entries & Hid & Hread & Hin). exists id.
    rewrite merge_sort_Permutation, Hread. split; [|done].
    by apply list_elem_of_filter.
Qed.

(** X17: [ReplayWAL] on an engine with at least one shard always
    returns [true].  It applies, by [set] and [del], the records of the
    readable files whose sequence number is above [snapshot_sequence], each
    once, in the order of their sequence numbers whatever file they come
    from; unreadable files are skipped.  With no such record the result is
    only marked not replayed and the engine is untouched.  Otherwise the
    result counts the files listed and the records applied, its last
    sequence number is the greatest one, and the engine holds under the key
    of the last record what that record says: nothing for a DELETE, else an
    entry with the record's value, version and TTL whose expiry is the
    record's timestamp plus the [int] product of the TTL and 1000: TTL
    seconds after the timestamp for a TTL of up to 2,147,483 seconds, and
    the timestamp plus the wrapped product beyond. *)
Theorem ReplayWAL_applies_the_log_in_sequence_order
    (std_sort : list WAL.WALEntry → list WAL.WALEntry)
    (ReadWALFile : string → option (list WAL.WALEntry)) (uninit : Z)
    (wal_files : list string) (result : RecoveryResult) (snapshot_sequence : Z)
    (storage : ShardedHashTable.t) :
  sorts_by_sequence std_sort →
  ShardedHashTable.shards_ storage ≠ [] →
  let ordered :=
    std_sort (collect_entries ReadWALFile wal_files snapshot_sequence) in
  ∃ result' storage',
    ReplayWAL std_sort ReadWALFile uninit wal_files result snapshot_sequence storage
    = Some (true, result', storage') ∧
    replay uninit ordered (0, 0, storage)
    = Some (size_t_wrap (Z.of_nat (length ordered)),
            default 0 (WAL.sequence_number <$> last ordered), storage') ∧
    Sorted by_sequence ordered ∧
    (∀ entry, entry ∈ ordered ↔
       snapshot_sequence < WAL.sequence_number entry ∧
       ∃ wal_file_id entries,
         wal_file_id ∈ wal_files ∧ ReadWALFile wal_file_id = Some entries ∧
         entry ∈ entries) ∧
    (ordered = [] → result' = not_replayed result ∧ storage' = storage) ∧
    (∀ entry, last ordered = Some entry →
       wal_replayed result' = true ∧
       wal_files_count result' = Z.of_nat (length wal_files) ∧
       wal_entries_replayed result' = size_t_wrap (Z.of_nat (length ordered)) ∧
       last_sequence_number result' = WAL.sequence_number entry ∧
       (∀ e, e ∈ ordered → WAL.sequence_number e ≤ WAL.sequence_number entry) ∧
       ShardedHashTable.stored (WAL.key entry) storage' = applied_value uninit entry ∧
       (∀ seconds, WAL.type entry ≠ WAL.DELETE →
          WAL.ttl_seconds entry = Some seconds →
          ∃ e, ShardedHashTable.stored (WAL.key entry) storage' = Some e ∧
               CacheEntry.expires_at_ms e
               = Some (WAL.timestamp_ms entry + int32_wrap (seconds * 1000)) ∧
               (-2147483 ≤ seconds ≤ 2147483 →
                CacheEntry.expires_at_ms e
                = Some (WAL.timestamp_ms entry + seconds * 1000)))).
Proof.
  intros Hsort Hne. cbv zeta.
  set (collected := collect_entries ReadWALFile wal_files snapshot_sequence).
  set (ordered := std_sort collected).
  destruct (Hsort collected) as [Hperm Hsorted]. fold ordered in Hperm, Hsorted.
  destruct (replay_spec uninit ordered 0 0 storage Hne eq_refl)
    as (storage' & Hreplay & _ & Hnil & Hlast).
  rewrite Z.add_0_l in Hreplay.
  assert (∀ entry, entry ∈ ordered ↔
            snapshot_sequence < WAL.sequence_number entry ∧
            ∃ wal_file_id entries,
              wal_file_id ∈ wal_files ∧ ReadWALFile wal_file_id = Some entries ∧
              entry ∈ entries) as Hcollected.
  { intros entry. rewrite Hperm. apply elem_of_collect_entries. }
  assert (collected = [] ↔ ordered = []) as Hempty.
  { split; intros Hx; apply Permutation_nil_r; [by rewrite Hperm, Hx|].
    by rewrite <- Hperm, Hx. }
  assert (ordered = [] →
          ReplayWAL std_sort ReadWALFile uninit wal_files result snapshot_sequence
            storage = Some (true, not_replayed result, storage)) as Hnone.
  { intros Ho%Hempty. unfold ReplayWAL. fold collected.
    case_bool_decide; [done|]. by rewrite bool_decide_eq_true_2. }
  destruct (decide (ordered = [])) as [Ho|Ho].
  { exists (not_replayed result), storage. rewrite (Hnil Ho) in Hreplay.
    split; [by apply Hnone|]. split; [done|]. split; [done|]. split; [done|].
    split; [done|]. rewrite Ho. by intros ? [=]. }
  unfold ReplayWAL. fold collected. fold ordered.
  rewrite bool_decide_eq_false_2.
  2:{ intros Hfiles. apply Ho, Hempty. unfold collected, collect_entries.
      by rewrite Hfiles. }
  rewrite bool_decide_eq_false_2 by (by rewrite Hempty).
  rewrite Hreplay. simpl. eexists _, storage'. split; [done|].
  split; [done|]. split; [done|]. split; [done|]. split; [done|].
  intros entry Hentry. simpl.
  split; [done|]. split; [done|]. split; [done|].
  split; [by rewrite Hentry|].
  split; [by apply last_sorted_greatest|]. split; [by apply Hlast|].
  intros seconds Htype Httl. exists (recovered_entry uninit entry).
  rewrite (Hlast entry Hentry). unfold applied_value.
  split; [by destruct (WAL.type entry)|].
  unfold recovered_entry. cbn [CacheEntry.expires_at_ms]. rewrite Httl.
  split; [done|]. intros Hfits. by rewrite ttl_ms_exact.
Qed.

Lemma merge_sort_sorts_by_sequence : sorts_by_sequence (merge_sort by_sequence).
Proof.
  intros l. split; [apply merge_sort_Permutation|]. apply Sorted_merge_sort. apply _.
Qed.

End replay.

Section examples.
#[local] Existing Instance example_platform.

(** C3, on the code.  (1) The newer snapshot's file cannot be read and the
    older snapshot validates: [RestoreSnapshot] returns [false] and
    restores nothing, the engine stays empty, where C3 has recovery fall
    back to the older snapshot.  (2) The newer snapshot's file reads back
    bytes whose checksum is not the recorded one and the older snapshot
    validates: [RestoreSnapshot] restores the newer file all the same
    (the stored value is the altered "X"), where C3 has it skipped. *)
Theorem C3_recovery_tries_only_the_latest_and_checks_no_checksum :
  (SnapshotManager.snapshot_id <$> newest_valid 0 (snapshots_with unreadable_file)
   = Some "snapshot-node1-100" ∧
   ∃ sm', RestoreSnapshot 0 initial_result (snapshots_with unreadable_file)
          = Some (false, initial_result, sm') ∧
          ShardedHashTable.stored "a" (SnapshotManager.storage_ sm') = None ∧
          ShardedHashTable.size (SnapshotManager.storage_ sm') = 0) ∧
  (SnapshotManager.validates 0 (SnapshotManager.files (snapshots_with altered_file))
     new_snapshot = false ∧
   SnapshotManager.snapshot_id <$> newest_valid 0 (snapshots_with altered_file)
   = Some "snapshot-node1-100" ∧
   ∃ result sm', RestoreSnapshot 0 initial_result (snapshots_with altered_file)
                 = Some (true, result, sm') ∧
                 snapshot_id result = "snapshot-node1-200" ∧
                 CacheEntry.value <$> ShardedHashTable.stored "a"
                                        (SnapshotManager.storage_ sm')
                 = Some (bytes "X")).
Proof.
  split.
  - split; [by vm_compute|]. eexists. split; [by vm_compute|]. by vm_compute.
  - split; [by vm_compute|]. split; [by vm_compute|].
    eexists _, _. split; [by vm_compute|]. by vm_compute.
Qed.

(** With both files intact the newer snapshot is the one restored. *)
Example RestoreSnapshot_intact :
  let intact := SnapshotManager.mkSnapshotFile "DISTCACHE_SNAPSHOT_V1"
                  "snapshot-node1-200"
                  [ SnapshotManager.mkTuple "a" (bytes "2") 0 2 150 0 ] in
  (λ r, (r.1.1, CacheEntry.version <$>
                  ShardedHashTable.stored "a" (SnapshotManager.storage_ r.2)))
    <$> RestoreSnapshot 0 initial_result (snapshots_with intact)
  = Some (true, Some 2).
Proof. by vm_compute. Qed.

End examples.

Lemma ReplayWAL_applies_the_log_in_sequence_order_witness :
  sorts_by_sequence (merge_sort by_sequence) ∧
  ShardedHashTable.shards_ (ShardedHashTable.make 4 1000) ≠ [] ∧
  ∃ result' storage',
    ReplayWAL (H := example_platform) (merge_sort by_sequence) example_ReadWALFile 0
      example_wal_files initial_result 0 (ShardedHashTable.make 4 1000)
    = Some (true, result', storage') ∧
    last_sequence_number result' = 3 ∧
    ShardedHashTable.stored (H := example_platform) "b" storage'
    = Some (recovered_entry 0
              (WAL.mkWALEntry WAL.SET 3 1200 "b" (bytes "2") 1 (Some 60) None)).
Proof.
  assert (Hne : ShardedHashTable.shards_ (ShardedHashTable.make 4 1000) ≠ [])
    by (vm_compute; discriminate).
  split; [exact merge_sort_sorts_by_sequence|]. split; [exact Hne|].
  destruct (ReplayWAL_applies_the_log_in_sequence_order (platform := example_platform)
              (merge_sort by_sequence) example_ReadWALFile 0 example_wal_files
              initial_result 0 (ShardedHashTable.make 4 1000)
              merge_sort_sorts_by_sequence Hne)
    as (result' & storage' & Hreplay & _ & _ & _ & _ & Hlast).
  exists result', storage'. split; [exact Hreplay|].
  destruct (Hlast (WAL.mkWALEntry WAL.SET 3 1200 "b" (bytes "2") 1 (Some 60) None))
    as (_ & _ & _ & Hseq & _ & Hst & _); [by vm_compute|].
  split; [exact Hseq | exact Hst].
Defined.

End RecoveryManager_facts.

(** ** The placement ring *)

Module HashRing_facts.
Import HashRing.

(** *** The least entry of a list of virtual nodes *)

Lemma least_None l : least l = None ↔ l = [].
Proof.
  split; [|by intros ->]. destruct l as [|p l]; [done|]. simpl.
  destruct (least l) as [q|]; [|done]. by destruct (p.1 <? q.1).
Qed.

Lemma least_Some l p :
  least l = Some p → p ∈ l ∧ ∀ q, q ∈ l → p.1 ≤ q.1.
Proof.
  revert p. induction l as [|a l IH]; intros p Hp; [done|]. simpl in Hp.
  destruct (least l) as [q|] eqn:Hq.
  - destruct (IH q eq_refl) as [Hin Hmin].
    destruct (Z.ltb_spec a.1 q.1); simplify_eq.
    + split; [by left|]. intros q' [->|Hq']%elem_of_cons; [lia|].
      specialize (Hmin _ Hq'). lia.
    + split; [by right|]. intros q' [->|Hq']%elem_of_cons; [lia|]. by apply Hmin.
  - simplify_eq. apply least_None in Hq as ->. split; [by left|].
    intros q' [->|[]%elem_of_nil]%elem_of_cons. lia.
Qed.

Lemma filter_none {A} (P : A → Prop) `{!∀ x, Decision (P x)} (l : list A) :
  (∀ x, x ∈ l → ¬ P x) → filter P l = [].
Proof.
  induction l as [|a l IH]; intros Hl; [done|]. rewrite filter_cons.
  destruct (decide (P a)) as [Ha|_].
  - exfalso. apply (Hl a); [by left | done].
  - apply IH. intros x Hx. apply Hl. by right.
Qed.

Lemma filter_all {A} (P : A → Prop) `{!∀ x, Decision (P x)} (l : list A) :
  (∀ x, x ∈ l → P x) → filter P l = l.
Proof.
  induction l as [|a l IH]; intros Hl; [done|]. rewrite filter_cons.
  destruct (decide (P a)) as [_|Ha].
  - f_equal. apply IH. intros x Hx. apply Hl. by right.
  - exfalso. apply Ha, Hl. by left.
Qed.

Lemma NoDup_fst_functional {A B} (l : list (A * B)) a x x' :
  NoDup l.*1 → (a, x) ∈ l → (a, x') ∈ l → x = x'.
Proof.
  intros Hnd [i Hi]%list_elem_of_lookup_1 [j Hj]%list_elem_of_lookup_1.
  assert (i = j) as ->.
  { eapply NoDup_lookup; [exact Hnd| |]; rewrite list_lookup_fmap.
    - by rewrite Hi.
    - by rewrite Hj. }
  congruence.
Qed.

Lemma least_is l p :
  NoDup l.*1 → p ∈ l → (∀ q, q ∈ l → p.1 ≤ q.1) → least l = Some p.
Proof.
  intros Hnd Hin Hmin. destruct (least l) as [p'|] eqn:Hl.
  - apply least_Some in Hl as [Hin' Hmin'].
    pose proof (Hmin _ Hin'). pose proof (Hmin' _ Hin).
    f_equal. destruct p as [a x], p' as [a' x']. simpl in *.
    assert (a' = a) as -> by lia. f_equal.
    by eapply NoDup_fst_functional.
  - apply least_None in Hl. subst. by apply elem_of_nil in Hin.
Qed.

Lemma NoDup_fst_filter_map_to_list (P : Z * string → Prop) `{!∀ x, Decision (P x)}
    (m : gmap Z string) :
  NoDup (filter P (map_to_list m)).*1.
Proof.
  eapply sublist_NoDup; [apply (NoDup_fst_map_to_list m)|].
  apply fmap_sublist, sublist_filter.
Qed.

Lemma owner_entry_spec h m p x :
  owner_entry h m = Some (p, x) ↔ m !! p = Some x ∧ first_from h p m.
Proof.
  unfold owner_entry, first_from. split.
  - destruct (least (filter _ _)) as [q|] eqn:Hq.
    + intros [= ->]. apply least_Some in Hq as [Hin Hmin].
      apply list_elem_of_filter in Hin as [Hge Hin%elem_of_map_to_list].
      simpl in *. split; [done|]. left. split; [done|].
      intros q [y Hy] Hhq.
      apply (Hmin (q, y)), list_elem_of_filter. split; [done|].
      by apply elem_of_map_to_list.
    + intros Hl. apply least_None in Hq. apply least_Some in Hl as [Hin Hmin].
      apply elem_of_map_to_list in Hin. split; [done|]. right. split.
      * intros q [y Hy]. destruct (decide (q < h)) as [|Hge]; [done|].
        assert ((q, y) ∈ filter (λ p : Z * string, h ≤ p.1) (map_to_list m)) as Hin'.
        { apply list_elem_of_filter. split; [simpl; lia|].
          by apply elem_of_map_to_list. }
        rewrite Hq in Hin'. by apply elem_of_nil in Hin'.
      * intros q [y Hy]. by apply (Hmin (q, y)), elem_of_map_to_list.
  - intros [Hp [[Hge Hmin]|[Hall Hmin]]].
    + rewrite (least_is _ (p, x)); [done| | |].
      * apply NoDup_fst_filter_map_to_list.
      * apply list_elem_of_filter. split; [done|]. by apply elem_of_map_to_list.
      * intros [q y] [Hq Hin%elem_of_map_to_list]%list_elem_of_filter.
        simpl in *. apply Hmin; [by eexists | done].
    + assert (filter (λ p : Z * string, h ≤ p.1) (map_to_list m) = []) as ->.
      { apply filter_none. intros [q y] Hin%elem_of_map_to_list.
        simpl. assert (q < h) by (apply Hall; by eexists). lia. }
      simpl. apply least_is.
      * apply NoDup_fst_map_to_list.
      * by apply elem_of_map_to_list.
      * intros [q y] Hin%elem_of_map_to_list. simpl. apply Hmin. by eexists.
Qed.

Lemma owner_entry_None h m : owner_entry h m = None ↔ m = ∅.
Proof.
  unfold owner_entry. split.
  - destruct (least (filter _ _)); [done|]. intros Hl%least_None.
    by apply map_to_list_empty_iff.
  - intros ->. by rewrite map_to_list_empty.
Qed.

Lemma get_node_owner key r :
  get_node key r = '(_, node_id) ← owner_entry (hash key) (ring_ r); nodes_ r !! node_id.
Proof.
  unfold get_node, owner_entry, find_next_node, ring_begin.
  case_bool_decide as Hempty; [|done].
  rewrite Hempty, map_to_list_empty. done.
Qed.

(** *** [add_node] and [remove_node] on the map of virtual nodes *)

Lemma lookup_foldl_insert (f : nat → Z) (v : string) (l : list nat)
    (m : gmap Z string) p :
  foldl (λ ring i, <[f i := v]> ring) m l !! p =
    if decide (p ∈ f <$> l) then Some v else m !! p.
Proof.
  revert m. induction l as [|i l IH]; intros m.
  - destruct (decide (p ∈ f <$> [])) as [Hin|_]; [|done].
    by apply elem_of_nil in Hin.
  - change (foldl (λ ring i, <[f i := v]> ring) (<[f i := v]> m) l !! p =
            if decide (p ∈ f i :: (f <$> l)) then Some v else m !! p).
    rewrite IH.
    destruct (decide (p ∈ f <$> l)) as [Hin|Hnin],
             (decide (p ∈ f i :: (f <$> l))) as [Hin'|Hnin']; try done.
    + exfalso. apply Hnin'. by right.
    + apply elem_of_cons in Hin' as [->|?]; [|done]. apply lookup_insert_eq.
    + apply lookup_insert_ne. intros <-. apply Hnin'. by left.
Qed.

Lemma lookup_foldl_delete (f : nat → Z) (l : list nat) (m : gmap Z string) p :
  foldl (λ ring i, delete (f i) ring) m l !! p =
    if decide (p ∈ f <$> l) then None else m !! p.
Proof.
  revert m. induction l as [|i l IH]; intros m.
  - destruct (decide (p ∈ f <$> [])) as [Hin|_]; [|done].
    by apply elem_of_nil in Hin.
  - change (foldl (λ ring i, delete (f i) ring) (delete (f i) m) l !! p =
            if decide (p ∈ f i :: (f <$> l)) then None else m !! p).
    rewrite IH.
    destruct (decide (p ∈ f <$> l)) as [Hin|Hnin],
             (decide (p ∈ f i :: (f <$> l))) as [Hin'|Hnin']; try done.
    + exfalso. apply Hnin'. by right.
    + apply elem_of_cons in Hin' as [->|?]; [|done]. apply lookup_delete_eq.
    + apply lookup_delete_ne. intros <-. apply Hnin'. by left.
Qed.

Lemma add_node_ring node r r' p :
  add_node node r = (true, r') →
  ring_ r' !! p =
    if decide (p ∈ positions_of (id node) r) then Some (id node) else ring_ r !! p.
Proof.
  unfold add_node. destruct (nodes_ r !! id node); [done|]. intros [= <-]. simpl.
  apply (lookup_foldl_insert (λ i, hash (vnode_key (id node) i))).
Qed.

Lemma add_node_nodes node r r' :
  add_node node r = (true, r') →
  nodes_ r !! id node = None ∧ nodes_ r' = <[id node := node]> (nodes_ r) ∧
  virtual_nodes_per_node_ r' = virtual_nodes_per_node_ r.
Proof.
  unfold add_node. destruct (nodes_ r !! id node); [done|]. by intros [= <-].
Qed.

Lemma add_node_known node r :
  is_Some (nodes_ r !! id node) → add_node node r = (false, r).
Proof. unfold add_node. by intros [? ->]. Qed.

Lemma remove_node_ring node_id r r' p :
  remove_node node_id r = (true, r') →
  ring_ r' !! p =
    if decide (p ∈ positions_of node_id r) then None else ring_ r !! p.
Proof.
  unfold remove_node. destruct (nodes_ r !! node_id); [|done]. intros [= <-]. simpl.
  apply (lookup_foldl_delete (λ i, hash (vnode_key node_id i))).
Qed.

Lemma remove_node_nodes node_id r r' :
  remove_node node_id r = (true, r') →
  is_Some (nodes_ r !! node_id) ∧ nodes_ r' = delete node_id (nodes_ r) ∧
  virtual_nodes_per_node_ r' = virtual_nodes_per_node_ r.
Proof.
  unfold remove_node. destruct (nodes_ r !! node_id); [|done]. by intros [= <-].
Qed.

Lemma add_node_cases node r :
  add_node node r = (false, r) ∨ ∃ r', add_node node r = (true, r').
Proof. unfold add_node. destruct (nodes_ r !! id node); eauto. Qed.

Lemma remove_node_cases node_id r :
  remove_node node_id r = (false, r) ∨ ∃ r', remove_node node_id r = (true, r').
Proof. unfold remove_node. destruct (nodes_ r !! node_id); eauto. Qed.

(** *** Rings built by [add_node] and [remove_node] are well formed *)

Lemma positions_of_same x r r' :
  virtual_nodes_per_node_ r' = virtual_nodes_per_node_ r →
  positions_of x r' = positions_of x r.
Proof. unfold positions_of. by intros ->. Qed.

Lemma make_well_formed vn : well_formed (make vn).
Proof. split; intros ? ?; simpl; by rewrite lookup_empty. Qed.

Lemma add_node_well_formed node r r' :
  well_formed r → add_node node r = (true, r') → well_formed r'.
Proof.
  intros [Hring Hnodes] Hadd.
  destruct (add_node_nodes _ _ _ Hadd) as (Hnew & Hn & Hvn). split.
  - intros p x. rewrite (add_node_ring _ _ _ p Hadd), Hn.
    rewrite (positions_of_same x r r' Hvn).
    destruct (decide (p ∈ positions_of (id node) r)) as [Hin|Hnin].
    + intros [= <-]. rewrite lookup_insert_eq. by split; [eexists|].
    + intros Hp. destruct (Hring p x Hp) as [[n Hx] Hpos]. split; [|done].
      destruct (decide (x = id node)) as [->|Hne]; [congruence|].
      rewrite lookup_insert_ne by done. by eexists.
  - intros k n. rewrite Hn. destruct (decide (k = id node)) as [->|Hne].
    + rewrite lookup_insert_eq. by intros [= <-].
    + rewrite lookup_insert_ne by done. apply Hnodes.
Qed.

Lemma remove_node_well_formed node_id r r' :
  well_formed r → remove_node node_id r = (true, r') → well_formed r'.
Proof.
  intros [Hring Hnodes] Hrem.
  destruct (remove_node_nodes _ _ _ Hrem) as (Hold & Hn & Hvn). split.
  - intros p x. rewrite (remove_node_ring _ _ _ p Hrem), Hn.
    rewrite (positions_of_same x r r' Hvn).
    destruct (decide (p ∈ positions_of node_id r)) as [Hin|Hnin]; [done|].
    intros Hp. destruct (Hring p x Hp) as [Hx Hpos]. split; [|done].
    destruct (decide (x = node_id)) as [->|Hne]; [done|].
    by rewrite lookup_delete_ne.
  - intros k n. rewrite Hn. destruct (decide (k = node_id)) as [->|Hne].
    + by rewrite lookup_delete_eq.
    + rewrite lookup_delete_ne by done. apply Hnodes.
Qed.

Lemma ring_step_well_formed r o : well_formed r → well_formed (ring_step r o).
Proof.
  intros Hwf. destruct o as [node|node_id]; simpl.
  - destruct (add_node_cases node r) as [->|[r' Hadd]]; [done|].
    rewrite Hadd. by eapply add_node_well_formed.
  - destruct (remove_node_cases node_id r) as [->|[r' Hrem]]; [done|].
    rewrite Hrem. by eapply remove_node_well_formed.
Qed.

Lemma built_well_formed vn ops : well_formed (built vn ops).
Proof.
  unfold built. generalize (make_well_formed vn). generalize (make vn).
  induction ops as [|o ops IH]; intros r Hwf; simpl; [done|].
  by apply IH, ring_step_well_formed.
Qed.

(** *** Lookups *)

(** X11: on a ring built by any sequence of [add_node] and
    [remove_node] calls, [get_node] returns nothing exactly when the ring
    has no virtual node; a node it returns is registered in [nodes_] under
    its own id and owns the virtual node at the first position at or after
    the key's hash, or, past the last position, at the least position. *)
Theorem get_node_finds_a_registered_owner
    (virtual_nodes_per_node : nat) (ops : list ring_op) (key : string) :
  let r := built virtual_nodes_per_node ops in
  (get_node key r = None ↔ ring_ r = ∅) ∧
  (∀ node, get_node key r = Some node →
           nodes_ r !! id node = Some node ∧
           ∃ p, ring_ r !! p = Some (id node) ∧ first_from (hash key) p (ring_ r)).
Proof.
  cbv zeta. set (r := built virtual_nodes_per_node ops).
  destruct (built_well_formed virtual_nodes_per_node ops) as [Hring Hnodes].
  fold r in Hring, Hnodes. rewrite get_node_owner. split.
  - rewrite <- (owner_entry_None (hash key)).
    destruct (owner_entry (hash key) (ring_ r)) as [[p x]|] eqn:Ho; simpl; [|done].
    apply owner_entry_spec in Ho as [Hp _].
    destruct (Hring p x Hp) as [[n Hn] _]. by rewrite Hn.
  - intros node.
    destruct (owner_entry (hash key) (ring_ r)) as [[p x]|] eqn:Ho; simpl; [|done].
    intros Hx. apply owner_entry_spec in Ho as [Hp Hfirst].
    rewrite (Hnodes x node Hx). split; [done|]. by exists p.
Qed.

(** X12: when [add_node] succeeds, every key keeps the owner it
    had or is owned by the added node: no key moves between two old
    nodes. *)
Theorem add_node_moves_keys_only_to_the_new_node
    (node : Node) (r r' : t) (key : string) :
  add_node node r = (true, r') →
  get_node key r' = get_node key r ∨ get_node key r' = Some node.
Proof.
  intros Hadd. destruct (add_node_nodes _ _ _ Hadd) as (Hnew & Hn & Hvn).
  rewrite !get_node_owner.
  destruct (owner_entry (hash key) (ring_ r')) as [[p x]|] eqn:Ho'; simpl.
  2:{ left. apply owner_entry_None in Ho'.
      assert (ring_ r = ∅) as Hempty.
      { apply map_eq. intros q. rewrite lookup_empty.
        pose proof (add_node_ring _ _ _ q Hadd) as Hq.
        rewrite Ho', lookup_empty in Hq. by destruct (decide _). }
      by rewrite Hempty, (proj2 (owner_entry_None _ ∅)). }
  apply owner_entry_spec in Ho' as [Hp Hfirst].
  rewrite (add_node_ring _ _ _ p Hadd) in Hp. rewrite Hn.
  destruct (decide (p ∈ positions_of (id node) r)) as [Hin|Hnin].
  { right. simplify_eq. apply lookup_insert_eq. }
  destruct (decide (x = id node)) as [->|Hne].
  { right. apply lookup_insert_eq. }
  left.
  assert (∀ q, is_Some (ring_ r !! q) → is_Some (ring_ r' !! q)) as Hsub.
  { intros q Hq. rewrite (add_node_ring _ _ _ q Hadd). by destruct (decide _). }
  assert (owner_entry (hash key) (ring_ r) = Some (p, x)) as ->.
  { apply owner_entry_spec. split; [done|].
    destruct Hfirst as [[Hge Hmin]|[Hall Hmin]]; [left|right]; split; auto. }
  simpl. by rewrite lookup_insert_ne.
Qed.

(** X13: after [remove_node] succeeds on a ring built by [add_node]
    and [remove_node] calls, no key is routed to the removed node; if no
    virtual node of another node shared a position with one of the removed
    node's, every key owned by another node keeps its owner. *)
Theorem remove_node_moves_only_its_own_keys
    (virtual_nodes_per_node : nat) (ops : list ring_op)
    (node_id : string) (r' : t) (key : string) :
  let r := built virtual_nodes_per_node ops in
  remove_node node_id r = (true, r') →
  (∀ node, get_node key r' = Some node → id node ≠ node_id) ∧
  (owns_its_positions node_id r →
   ∀ node, get_node key r = Some node → id node ≠ node_id →
           get_node key r' = Some node).
Proof.
  cbv zeta. set (r := built virtual_nodes_per_node ops).
  destruct (built_well_formed virtual_nodes_per_node ops) as [Hring Hnodes].
  fold r in Hring, Hnodes. intros Hrem.
  destruct (remove_node_nodes _ _ _ Hrem) as (Hold & Hn & Hvn).
  rewrite !get_node_owner. split.
  - intros node.
    destruct (owner_entry (hash key) (ring_ r')) as [[p x]|]; simpl; [|done].
    rewrite Hn. intros Hx. destruct (decide (x = node_id)) as [->|Hne].
    + by rewrite lookup_delete_eq in Hx.
    + rewrite lookup_delete_ne in Hx by done. by rewrite (Hnodes x node Hx).
  - intros Howns node.
    destruct (owner_entry (hash key) (ring_ r)) as [[p x]|] eqn:Ho; simpl; [|done].
    intros Hx Hid. apply owner_entry_spec in Ho as [Hp Hfirst].
    rewrite (Hnodes x node Hx) in Hid.
    assert (p ∉ positions_of node_id r) as Hnin.
    { intros Hin. by apply Hid, (Howns p x Hp). }
    assert (∀ q, is_Some (ring_ r' !! q) → is_Some (ring_ r !! q)) as Hsub.
    { intros q. rewrite (remove_node_ring _ _ _ q Hrem).
      destruct (decide _); [by intros [? ?] | done]. }
    assert (owner_entry (hash key) (ring_ r') = Some (p, x)) as ->.
    { apply owner_entry_spec. split.
      - rewrite (remove_node_ring _ _ _ p Hrem). by rewrite decide_False.
      - destruct Hfirst as [[Hge Hmin]|[Hall Hmin]]; [left|right]; split; auto. }
    simpl. rewrite Hn. by rewrite lookup_delete_ne.
Qed.

(** *** Replicas *)

#[local] Instance position_le_trans : Transitive position_le.
Proof. intros a b c. unfold position_le. lia. Qed.

#[local] Instance position_le_total : Total position_le.
Proof. intros a b. unfold position_le. lia. Qed.

Lemma in_ring_order_sorted r : StronglySorted position_le (in_ring_order r).
Proof. apply StronglySorted_merge_sort; apply _. Qed.

Lemma elem_of_in_ring_order r p x :
  (p, x) ∈ in_ring_order r ↔ ring_ r !! p = Some x.
Proof.
  unfold in_ring_order. rewrite merge_sort_Permutation. apply elem_of_map_to_list.
Qed.

Lemma elem_of_walk_from h r p x :
  (p, x) ∈ walk_from h r ↔ ring_ r !! p = Some x.
Proof.
  unfold walk_from. rewrite elem_of_app, !list_elem_of_filter, elem_of_in_ring_order.
  simpl. split; [by intros [[_ ?]|[_ ?]]|].
  intros Hp. destruct (decide (h ≤ p)); [left | right]; split; [done|done|lia|done].
Qed.

Lemma head_filter_sorted (P : Z * string → Prop) `{!∀ x, Decision (P x)} l a :
  StronglySorted position_le l → head (filter P l) = Some a →
  P a ∧ a ∈ l ∧ ∀ q, q ∈ l → P q → a.1 ≤ q.1.
Proof.
  induction 1 as [|x l Hs IH Hall]; [done|]. rewrite filter_cons.
  destruct (decide (P x)) as [Hx|Hx]; simpl.
  - intros [= <-]. split; [done|]. split; [by left|].
    intros q [->|Hq]%elem_of_cons _; [lia|].
    by apply (proj1 (Forall_forall _ _) Hall).
  - intros (Ha & Hin & Hmin)%IH. split; [done|]. split; [by right|].
    intros q [->|Hq]%elem_of_cons Hq'; [done|]. by apply Hmin.
Qed.

Lemma head_walk_from h r : head (walk_from h r) = owner_entry h (ring_ r).
Proof.
  unfold walk_from. pose proof (in_ring_order_sorted r) as Hsorted.
  destruct (filter (λ p : Z * string, h ≤ p.1) (in_ring_order r)) as [|[p x] l1] eqn:Hf.
  - simpl.
    assert (∀ q, q ∈ in_ring_order r → q.1 < h) as Hall.
    { intros q Hq. destruct (decide (h ≤ q.1)) as [Hge|]; [|lia].
      by destruct (filter_nil_not_elem_of _ _ q Hf Hge). }
    rewrite filter_all by done.
    destruct (in_ring_order r) as [|[p x] l] eqn:Hl.
    + symmetry. apply owner_entry_None. apply map_eq. intros q.
      rewrite lookup_empty. destruct (ring_ r !! q) as [y|] eqn:Hq; [|done].
      apply elem_of_in_ring_order in Hq. rewrite Hl in Hq.
      by apply elem_of_nil in Hq.
    + simpl. symmetry. apply owner_entry_spec.
      assert (∀ q y, ring_ r !! q = Some y → (q, y) ∈ (p, x) :: l) as Hin.
      { intros q y Hq. rewrite <- Hl. by apply elem_of_in_ring_order. }
      split.
      { apply elem_of_in_ring_order. rewrite Hl. by left. }
      right. split.
      * intros q [y Hq]. apply (Hall (q, y)), Hin, Hq.
      * intros q [y Hq]. apply StronglySorted_inv in Hsorted as [_ Hmin].
        apply Hin in Hq as [[= -> ->]|Hq]%elem_of_cons; [lia|].
        by apply (proj1 (Forall_forall _ _) Hmin (q, y)).
  - simpl. symmetry. apply owner_entry_spec.
    destruct (head_filter_sorted (λ p : Z * string, h ≤ p.1) (in_ring_order r) (p, x))
      as (Hge & Hin & Hmin); [done | by rewrite Hf |].
    simpl in *. split; [by apply elem_of_in_ring_order|]. left. split; [done|].
    intros q [y Hq] Hhq. apply (Hmin (q, y)); [|done]. by apply elem_of_in_ring_order.
Qed.

Lemma collect_replicas_spec n nodes walk :
  (∀ k node, nodes !! k = Some node → id node = k) →
  ∀ replicas seen,
    NoDup (id <$> replicas) →
    (∀ x, x ∈ seen ↔ x ∈ id <$> replicas) →
    (length replicas ≤ n)%nat →
    let result := collect_replicas n nodes walk replicas seen in
    NoDup (id <$> result) ∧
    replicas `prefix_of` result ∧
    (length result ≤ n)%nat ∧
    (∀ node, node ∈ result →
             node ∈ replicas ∨
             nodes !! id node = Some node ∧ ∃ p, (p, id node) ∈ walk) ∧
    (length result = n ∨
     ∀ p x, (p, x) ∈ walk → is_Some (nodes !! x) → x ∈ id <$> result).
Proof.
  intros Hids. induction walk as [|[p x] rest IH]; intros replicas seen Hnd Hseen Hlen;
    simpl.
  { split; [done|]. split; [done|]. split; [done|]. split; [by left|].
    right. by intros ? ? ?%elem_of_nil. }
  destruct (Nat.ltb_spec (length replicas) n) as [Hlt|Hge].
  2:{ split; [done|]. split; [done|]. split; [done|]. split; [by left|].
      left. lia. }
  assert (∀ replicas' seen',
    NoDup (id <$> replicas') → (∀ y, y ∈ seen' ↔ y ∈ id <$> replicas') →
    (length replicas' ≤ n)%nat → replicas `prefix_of` replicas' →
    (∀ node, node ∈ replicas' →
             node ∈ replicas ∨ nodes !! id node = Some node ∧ id node = x) →
    (is_Some (nodes !! x) → x ∈ id <$> replicas') →
    let result := collect_replicas n nodes rest replicas' seen' in
    NoDup (id <$> result) ∧ replicas `prefix_of` result ∧ (length result ≤ n)%nat ∧
    (∀ node, node ∈ result →
             node ∈ replicas ∨
             nodes !! id node = Some node ∧ ∃ q, (q, id node) ∈ (p, x) :: rest) ∧
    (length result = n ∨
     ∀ q y, (q, y) ∈ (p, x) :: rest → is_Some (nodes !! y) → y ∈ id <$> result))
    as Hnext.
  { intros replicas' seen' Hnd' Hseen' Hlen' Hpre Hnew Hx.
    destruct (IH replicas' seen' Hnd' Hseen' Hlen') as (H1 & H2 & H3 & H4 & H5).
    split; [done|]. split; [by etrans|]. split; [done|]. split.
    - intros node [Hin|[Hreg [q Hq]]]%H4.
      + destruct (Hnew node Hin) as [?|[? Heq]]; [by left|]. right.
        split; [done|]. exists p. rewrite Heq. by left.
      + right. split; [done|]. exists q. by right.
    - destruct H5 as [?|H5]; [by left|]. right.
      intros q y [[= -> ->]|Hq]%elem_of_cons Hy; [|by eapply H5].
      destruct H2 as [k ->]. rewrite fmap_app, elem_of_app. left. by apply Hx. }
  destruct (decide (x ∈ seen)) as [Hin|Hnin].
  - apply Hnext; try done. 
    + by intros node ?; left.
    + intros _. by apply Hseen.
  - destruct (nodes !! x) as [node|] eqn:Hx.
    + apply Hnext.
      * rewrite fmap_app. apply NoDup_app. split; [done|]. split.
        -- intros y Hy [->|[]%elem_of_nil]%elem_of_cons.
           rewrite (Hids x node Hx) in Hy. by apply Hnin, Hseen.
        -- simpl. apply NoDup_singleton.
      * intros y. rewrite elem_of_union, elem_of_singleton, Hseen, fmap_app, elem_of_app.
        simpl. rewrite list_elem_of_singleton, (Hids x node Hx). tauto.
      * rewrite length_app. simpl. lia.
      * by apply prefix_app_r.
      * intros node' [?|Hn']%elem_of_app; [by left|].
        apply list_elem_of_singleton in Hn'. subst node'.
        right. rewrite (Hids x node Hx). done.
      * intros _. rewrite fmap_app, elem_of_app. right. simpl.
        rewrite (Hids x node Hx). by left.
    + apply Hnext; try done. by intros node ?; left.
Qed.

Lemma elem_of_nodes_on_ring x r :
  x ∈ nodes_on_ring r ↔ ∃ p, ring_ r !! p = Some x.
Proof.
  unfold nodes_on_ring. rewrite elem_of_list_to_set, list_elem_of_fmap. split.
  - intros [[p y] [-> Hin]]. exists p. by apply elem_of_map_to_list.
  - intros [p Hp]. exists (p, x). split; [done|]. by apply elem_of_map_to_list.
Qed.

(** The replicas are distinct registered nodes of the ring, as many as [n]
    and the ring allow. *)
Lemma get_replicas_count (virtual_nodes_per_node : nat) (ops : list ring_op)
    (key : string) (n : Z) :
  let r := built virtual_nodes_per_node ops in
  let replicas := get_replicas key n r in
  NoDup (id <$> replicas) ∧
  (∀ node, node ∈ replicas →
           nodes_ r !! id node = Some node ∧ id node ∈ nodes_on_ring r) ∧
  Z.of_nat (length replicas) = Z.min (Z.max 0 n) (Z.of_nat (size (nodes_on_ring r))).
Proof.
  cbv zeta. set (r := built virtual_nodes_per_node ops).
  destruct (built_well_formed virtual_nodes_per_node ops) as [Hring Hnodes].
  fold r in Hring, Hnodes. unfold get_replicas.
  destruct (bool_decide (ring_ r = ∅)) eqn:Hempty; simpl.
  { apply bool_decide_eq_true in Hempty.
    assert (nodes_on_ring r = ∅) as ->.
    { unfold nodes_on_ring. by rewrite Hempty, map_to_list_empty. }
    split; [constructor|]. split; [by intros ? ?%elem_of_nil|].
    rewrite size_empty. lia. }
  apply bool_decide_eq_false in Hempty.
  destruct (Z.eqb_spec n 0) as [->|Hn0]; simpl.
  { split; [constructor|]. split; [by intros ? ?%elem_of_nil|]. lia. }
  set (count := Z.to_nat (Z.min n (node_count r))).
  destruct (collect_replicas_spec count (nodes_ r) (walk_from (hash key) r) Hnodes [] ∅)
    as (Hnd & _ & Hlen & Hreg & Hfull).
  { constructor. }
  { intros x. simpl. split; [by intros ?%elem_of_empty | by intros ?%elem_of_nil]. }
  { simpl. lia. }
  set (replicas := collect_replicas count (nodes_ r) (walk_from (hash key) r) [] ∅) in *.
  assert (∀ node, node ∈ replicas →
                  nodes_ r !! id node = Some node ∧ id node ∈ nodes_on_ring r) as Hon.
  { intros node [[]%elem_of_nil|[Hnode [p Hp]]]%Hreg. split; [done|].
    apply elem_of_nodes_on_ring. exists p. by apply elem_of_walk_from in Hp. }
  split; [done|]. split; [done|].
  assert (size (nodes_on_ring r) ≤ size (nodes_ r))%nat as Hle1.
  { rewrite <- (size_dom (D := gset string)). apply subseteq_size.
    intros x [p Hp]%elem_of_nodes_on_ring. apply elem_of_dom.
    by destruct (Hring p x Hp). }
  assert (length replicas ≤ size (nodes_on_ring r))%nat as Hle2.
  { rewrite <- (length_fmap id), <- (size_list_to_set (C := gset string)) by done.
    apply subseteq_size. intros x [node [-> Hin]]%elem_of_list_to_set%list_elem_of_fmap.
    by apply Hon. }
  subst count. unfold node_count in *. destruct Hfull as [Hfull|Hfull]; [lia|].
  assert (size (nodes_on_ring r) ≤ length replicas)%nat; [|lia].
  rewrite <- (length_fmap id), <- (size_list_to_set (C := gset string)) by done.
  apply subseteq_size. intros x [p Hp]%elem_of_nodes_on_ring.
  apply elem_of_list_to_set, (Hfull p); [by apply elem_of_walk_from|].
  by destruct (Hring p x Hp).
Qed.

(** X14: on a ring built by [add_node] and [remove_node] calls,
    [get_replicas(key, n)] returns nodes with pairwise distinct ids, each
    registered and holding a virtual node; it returns as many as [n] and
    the number of nodes on the ring allow, and for [n > 0] its first
    element is the node [get_node(key)] returns. *)
Theorem get_replicas_returns_distinct_ring_nodes
    (virtual_nodes_per_node : nat) (ops : list ring_op) (key : string) (n : Z) :
  let r := built virtual_nodes_per_node ops in
  let replicas := get_replicas key n r in
  NoDup (id <$> replicas) ∧
  (∀ node, node ∈ replicas →
           nodes_ r !! id node = Some node ∧ id node ∈ nodes_on_ring r) ∧
  Z.of_nat (length replicas) = Z.min (Z.max 0 n) (Z.of_nat (size (nodes_on_ring r))) ∧
  (0 < n → head replicas = get_node key r).
Proof.
  cbv zeta.
  destruct (get_replicas_count virtual_nodes_per_node ops key n) as (Hnd & Hon & Hlen).
  split; [exact Hnd|]. split; [exact Hon|]. split; [exact Hlen|]. clear Hnd Hon Hlen.
  set (r := built virtual_nodes_per_node ops).
  destruct (built_well_formed virtual_nodes_per_node ops) as [Hring Hnodes].
  fold r in Hring, Hnodes. intros Hn. rewrite get_node_owner, <- head_walk_from.
  unfold get_replicas.
  destruct (bool_decide (ring_ r = ∅)) eqn:Hempty; simpl.
  { apply bool_decide_eq_true in Hempty. rewrite head_walk_from.
    by rewrite (proj2 (owner_entry_None _ _) Hempty). }
  destruct (Z.eqb_spec n 0) as [->|_]; [lia|]. simpl.
  set (count := Z.to_nat (Z.min n (node_count r))).
  destruct (walk_from (hash key) r) as [|[p x] rest] eqn:Hwalk; [done|].
  assert (ring_ r !! p = Some x) as Hp.
  { apply (elem_of_walk_from (hash key)). rewrite Hwalk. by left. }
  destruct (Hring p x Hp) as [[node Hx] _].
  assert (1 ≤ count)%nat as Hcount.
  { subst count. unfold node_count.
    assert (size (nodes_ r) ≠ 0%nat); [|lia].
    intros Hsize%map_size_empty_iff. rewrite Hsize in Hx. by rewrite lookup_empty in Hx. }
  simpl. destruct (Nat.ltb_spec 0 count) as [_|?]; [|lia].
  rewrite decide_False by apply not_elem_of_empty. rewrite Hx. simpl.
  destruct (collect_replicas_spec count (nodes_ r) rest Hnodes [node] ({[x]} ∪ ∅))
    as (_ & [k ->] & _).
  { simpl. apply NoDup_singleton. }
  { intros y. simpl. rewrite (Hnodes x node Hx), list_elem_of_singleton.
    rewrite elem_of_union, elem_of_singleton, elem_of_empty. tauto. }
  { simpl. lia. }
  done.
Qed.

(** *** Worked examples *)

Lemma add_node_moves_keys_only_to_the_new_node_witness :
  add_node (mkNode "node-a" "localhost:50051") ring_b
  = (true, (add_node (mkNode "node-a" "localhost:50051") ring_b).2) ∧
  (get_node "user:2" (add_node (mkNode "node-a" "localhost:50051") ring_b).2
   = get_node "user:2" ring_b ∨
   get_node "user:2" (add_node (mkNode "node-a" "localhost:50051") ring_b).2
   = Some (mkNode "node-a" "localhost:50051")).
Proof.
  assert (add_node (mkNode "node-a" "localhost:50051") ring_b
          = (true, (add_node (mkNode "node-a" "localhost:50051") ring_b).2)) as Hadd
    by (by vm_compute).
  split; [exact Hadd|].
  exact (add_node_moves_keys_only_to_the_new_node _ _ _ "user:2" Hadd).
Defined.

Lemma remove_node_moves_only_its_own_keys_witness :
  let r := built 4 [AddNode (mkNode "node-a" "localhost:50051");
                    AddNode (mkNode "node-b" "localhost:50052")] in
  remove_node "node-a" r = (true, (remove_node "node-a" r).2) ∧
  owns_its_positions "node-a" r ∧
  get_node "user:1" r = Some (mkNode "node-b" "localhost:50052") ∧
  (∀ node, get_node "user:1" (remove_node "node-a" r).2 = Some node →
           id node ≠ "node-a") ∧
  get_node "user:1" (remove_node "node-a" r).2
  = Some (mkNode "node-b" "localhost:50052").
Proof.
  cbv zeta.
  set (r := built 4 [AddNode (mkNode "node-a" "localhost:50051");
                     AddNode (mkNode "node-b" "localhost:50052")]).
  assert (remove_node "node-a" r = (true, (remove_node "node-a" r).2)) as Hrem
    by (by vm_compute).
  assert (owns_its_positions "node-a" r) as Howns.
  { apply (bool_decide_unpack _). vm_compute. exact I. }
  assert (get_node "user:1" r = Some (mkNode "node-b" "localhost:50052")) as Hget
    by (by vm_compute).
  destruct (remove_node_moves_only_its_own_keys 4
              [AddNode (mkNode "node-a" "localhost:50051");
               AddNode (mkNode "node-b" "localhost:50052")]
              "node-a" _ "user:1" Hrem) as [Hnot Hkeep].
  split; [exact Hrem|]. split; [exact Howns|]. split; [exact Hget|].
  split; [exact Hnot|]. apply (Hkeep Howns _ Hget). clear. simpl. discriminate.
Defined.

End HashRing_facts.

(** ** The replication worker *)

Module ReplicationWorker_facts.
Import replication ReplicationWorker.

Lemma collect_batch_spec batch_size queue : ∀ batch,
  ∃ taken,
    collect_batch batch_size queue batch = (batch ++ taken, drop (length taken) queue) ∧
    taken = take (length taken) queue ∧
    (taken = [] ∨ Z.of_nat (length (batch ++ taken)) ≤ batch_size) ∧
    (taken = [] → queue = [] ∨ batch_size ≤ Z.of_nat (length batch)).
Proof.
  induction queue as [|entry rest IH]; intros batch; simpl.
  - exists []. rewrite app_nil_r. split; [done|]. split; [done|].
    split; by left.
  - destruct (Z.ltb_spec (Z.of_nat (length batch)) batch_size) as [Hlt|Hge].
    + destruct (IH (batch ++ [entry])) as (taken & -> & Htake & Hlen & _).
      exists (entry :: taken). rewrite <- app_assoc. simpl.
      split; [done|]. split; [by f_equal|]. split; [|done].
      right. destruct Hlen as [->|Hlen].
      * rewrite length_app. simpl. lia.
      * by rewrite <- app_assoc in Hlen.
    + exists []. rewrite app_nil_r. simpl. split; [done|]. split; [done|].
      split; [by left | by right].
Qed.

Lemma entries_sent_app sent bs b :
  entries_sent sent (bs ++ [b])
  = entries_sent sent bs + (if Bool.eqb b.2 sent then Z.of_nat (length b.1) else 0).
Proof.
  unfold entries_sent, ShardedHashTable.Zsum_with.
  induction bs as [|b' bs IH]; simpl; [lia|]. rewrite IH. lia.
Qed.

Lemma entries_sent_total bs :
  entries_sent true bs + entries_sent false bs = Z.of_nat (length (concat bs.*1)).
Proof.
  unfold entries_sent, ShardedHashTable.Zsum_with.
  induction bs as [|[b sent] bs IH]; [done|].
  rewrite fmap_cons, concat_cons, length_app. cbn [foldr fst snd].
  destruct sent; simpl Bool.eqb; cbv iota; lia.
Qed.

Lemma push_consistent config w tr entry :
  consistent config (w, tr) →
  Z.of_nat (length (queue_ (manager w))) < max_queue_size config →
  consistent config
    (mkWorker (push entry (manager w)) (replicated_ops_ w) (failed_ops_ w)
              (batches_sent_ w),
     mkTrace (accepted tr ++ [entry]) (batches tr)).
Proof.
  intros (Hc & Hq & Hb & Hlen & Hn & Hr & Hf & Hs) Hroom.
  unfold consistent; simpl in *.
  split; [done|]. split; [by rewrite app_assoc, Hq|]. split; [done|].
  split; [rewrite length_app; simpl; lia|].
  split; [|done]. rewrite Hn, !length_app. simpl.
  rewrite Nat2Z.inj_add. apply size_t_wrap_add_l.
Qed.

Lemma happen_consistent config st ev :
  consistent config st → consistent config (happen st ev).
Proof.
  destruct st as [w tr]. intros Hinv.
  pose proof Hinv as (Hc & Hq & Hb & Hlen & Hn & Hr & Hf & Hs). simpl in *.
  destruct ev as [now key value ttl version|now key version|ring now delivered];
    simpl.
  - unfold on_manager, QueueWrite. rewrite Hc.
    destruct (Z.geb_spec (Z.of_nat (length (queue_ (manager w))))
                (max_queue_size config)) as [Hfull|Hroom].
    + by destruct w as [[? ? ?] ? ? ?].
    + by apply push_consistent.
  - unfold on_manager, QueueDelete. rewrite Hc.
    destruct (Z.geb_spec (Z.of_nat (length (queue_ (manager w))))
                (max_queue_size config)) as [Hfull|Hroom].
    + by destruct w as [[? ? ?] ? ? ?].
    + by apply push_consistent.
  - unfold worker_turn. rewrite Hc.
    destruct (collect_batch_spec (batch_size config) (queue_ (manager w)) [])
      as (taken & -> & Htake & Hsize & Hnone). simpl in *.
    case_bool_decide as Hempty.
    + subst taken. unfold consistent; simpl. by rewrite drop_0.
    + unfold consistent; simpl.
      destruct Hsize as [?|Hsize]; [done|].
      set (sent := SendBatch config ring now delivered taken).
      split; [done|]. split.
      { rewrite fmap_app, concat_app. simpl. rewrite app_nil_r, <- app_assoc.
        rewrite <- Hq. f_equal. rewrite Htake at 1. apply take_drop. }
      split.
      { apply Forall_app. split; [done|]. by constructor. }
      split.
      { rewrite length_drop. lia. }
      split; [done|].
      rewrite !entries_sent_app, length_app. simpl.
      split; [|split].
      * destruct sent; simpl; [|by rewrite Z.add_0_r].
        rewrite Hr. apply size_t_wrap_add_l.
      * destruct sent; simpl; [by rewrite Z.add_0_r|].
        rewrite Hf. apply size_t_wrap_add_l.
      * rewrite Hs, Nat2Z.inj_add. apply size_t_wrap_add_l.
Qed.

Lemma size_t_wrap_add3 a b c :
  size_t_wrap (size_t_wrap a + size_t_wrap b + c) = size_t_wrap (a + b + c).
Proof.
  unfold size_t_wrap. change (2 ^ 64) with 18446744073709551616.
  Z.div_mod_to_equations. lia.
Qed.

Lemma history_consistent config events : consistent config (history config events).
Proof.
  unfold history. induction events as [|ev events IH] using rev_ind.
  - unfold consistent; simpl. split; [done|]. split; [done|].
    split; [by constructor|]. split; [lia|]. done.
  - rewrite foldl_app. simpl. by apply happen_consistent.
Qed.

(** X15: over any sequence of [QueueWrite], [QueueDelete] and worker
    turns on a new manager, the batches the worker has sent, put end to end
    and followed by what is still queued, are the accepted entries in the
    order they were accepted: no entry is lost, sent twice or reordered.
    Every batch is non-empty and at most [batch_size] long, the queue never
    exceeds [max_queue_size], and the counters count (modulo 2^64) the
    accepted entries, the entries of the batches [SendBatch] reported sent
    and failed, and the batches; so [queued_ops] is the sum of
    [replicated_ops], [failed_ops] and the queue depth. *)
Theorem worker_sends_each_accepted_entry_once_in_order
    (config : Config) (events : list event) :
  let w := (history config events).1 in
  let tr := (history config events).2 in
  concat (batches tr).*1 ++ queue_ (manager w) = accepted tr ∧
  Forall (λ b, b.1 ≠ [] ∧ Z.of_nat (length b.1) ≤ batch_size config) (batches tr) ∧
  Z.of_nat (length (queue_ (manager w))) ≤ Z.max 0 (max_queue_size config) ∧
  queued_ops_ (manager w) = size_t_wrap (Z.of_nat (length (accepted tr))) ∧
  replicated_ops_ w = size_t_wrap (entries_sent true (batches tr)) ∧
  failed_ops_ w = size_t_wrap (entries_sent false (batches tr)) ∧
  batches_sent_ w = size_t_wrap (Z.of_nat (length (batches tr))) ∧
  queued_ops_ (manager w)
  = size_t_wrap (replicated_ops_ w + failed_ops_ w
                 + Z.of_nat (length (queue_ (manager w)))).
Proof.
  cbv zeta.
  destruct (history_consistent config events)
    as (Hc & Hq & Hb & Hlen & Hn & Hr & Hf & Hs).
  do 7 (split; [done|]).
  rewrite Hn, Hr, Hf, size_t_wrap_add3.
  by rewrite <- Hq, length_app, Nat2Z.inj_add, <- entries_sent_total.
Qed.

End ReplicationWorker_facts.

(** ** Membership and failure detection *)

Module MembershipManager_facts.
Import MembershipManager.

Lemma set_then_update node_id info1 s nodes m0 :
  let m' := (UpdateNodeStatus node_id s
               (set_nodes (<[node_id := info1]> nodes) m0)).1 in
  config_ m' = config_ m0 ∧ nodes_ m' = <[node_id := with_status s info1]> nodes.
Proof.
  cbv zeta. unfold UpdateNodeStatus. simpl. rewrite lookup_insert_eq.
  case_bool_decide as Hs; simpl.
  - split; [done|]. f_equal. destruct info1; simpl in *. by subst.
  - split; [done|]. apply insert_insert_eq.
Qed.

(** What one check does to the map: the entry of the checked node, if it
    is still there, is replaced, all others are left alone. *)
Lemma check_node_nodes now healthy checked m :
  let node_id := HashRing.id (node checked) in
  let m' := (check_node now healthy checked m).1 in
  config_ m' = config_ m ∧
  nodes_ m'
  = match nodes_ m !! node_id with
    | None => nodes_ m
    | Some info => <[node_id := checked_info (config_ m) now healthy info]> (nodes_ m)
    end.
Proof.
  cbv zeta. unfold check_node, CheckNodeHealth, checked_info.
  set (node_id := HashRing.id (node checked)).
  cbn [nodes_ config_].
  destruct (nodes_ m !! node_id) as [info|] eqn:Hl; [|done].
  destruct healthy.
  - case_bool_decide as Hs.
    + destruct (set_then_update node_id
                  (mkNodeInfo (node info) (status info) now 0
                     (size_t_wrap (total_checks info + 1)) (failed_checks info))
                  HEALTHY (nodes_ m)
                  (mk (config_ m) (nodes_ m) (size_t_wrap (health_checks_sent_ m + 1))
                      (health_checks_failed_ m))) as [Hc Hn].
      cbn [nodes_ config_] in *. by rewrite Hc, Hn.
    + simpl. split; [done|]. f_equal. f_equal.
      by destruct (decide (status info = HEALTHY)).
  - set (failures := uint32_wrap (consecutive_failures info + 1)).
    set (info1 := mkNodeInfo (node info) (status info) (last_heartbeat info) failures
                    (size_t_wrap (total_checks info + 1))
                    (size_t_wrap (failed_checks info + 1))).
    set (m0 := mk (config_ m) (nodes_ m) (size_t_wrap (health_checks_sent_ m + 1))
                  (size_t_wrap (health_checks_failed_ m + 1))).
    assert (∀ s, let m' := (UpdateNodeStatus node_id s
                              (set_nodes (<[node_id := info1]> (nodes_ m)) m0)).1 in
                 config_ m' = config_ m ∧
                 nodes_ m' = <[node_id := with_status s info1]> (nodes_ m)) as Hupd.
    { intros s. apply (set_then_update node_id info1 s (nodes_ m) m0). }
    destruct (dead_threshold (config_ m) <=? failures).
    { case_bool_decide as Hs.
      - destruct (Hupd DEAD) as [Hc Hn]. by rewrite Hc, Hn.
      - simpl. split; [done|]. f_equal. unfold info1. f_equal.
        by destruct (decide (status info = DEAD)). }
    destruct (failure_threshold (config_ m) <=? failures).
    { destruct (status info) eqn:Hst; simpl.
      - destruct (Hupd UNHEALTHY) as [Hc Hn]. rewrite Hc, Hn. split; [done|].
        f_equal.
      - split; [done|]. by subst info1.
      - split; [done|]. by subst info1. }
    simpl. done.
Qed.

Lemma checked_info_tracked config now healthy info turns :
  status info = status_of_failures config (consecutive_failures info) →
  0 ≤ consecutive_failures info ≤ turns → turns < 2 ^ 32 - 1 →
  let info' := checked_info config now healthy info in
  node info' = node info ∧
  status info' = status_of_failures config (consecutive_failures info') ∧
  0 ≤ consecutive_failures info' ≤ consecutive_failures info + 1.
Proof.
  intros Hst Hrange Hturns. unfold checked_info. destruct healthy; simpl.
  { split; [done|]. split; [done|]. lia. }
  assert (uint32_wrap (consecutive_failures info + 1) = consecutive_failures info + 1)
    as ->.
  { unfold uint32_wrap. apply Z.mod_small. lia. }
  split; [done|]. split; [|lia].
  rewrite Hst. unfold status_of_failures.
  destruct (Z.eqb_spec (consecutive_failures info + 1) 0); [lia|].
  destruct (Z.leb_spec (dead_threshold config) (consecutive_failures info + 1));
    [done|].
  destruct (Z.leb_spec (dead_threshold config) (consecutive_failures info)); [lia|].
  destruct (Z.leb_spec (failure_threshold config) (consecutive_failures info + 1)).
  - destruct (Z.eqb_spec (consecutive_failures info) 0); [done|].
    by destruct (Z.leb_spec (failure_threshold config) (consecutive_failures info)).
  - destruct (Z.eqb_spec (consecutive_failures info) 0); [done|].
    destruct (Z.leb_spec (failure_threshold config) (consecutive_failures info));
      [lia|done].
Qed.

Lemma tracked_mono config turns turns' m :
  turns ≤ turns' → tracked config turns m → tracked config turns' m.
Proof.
  intros Hle (H0 & Hc & Hall). split; [lia|]. split; [done|]. intros k info Hk.
  destruct (Hall k info Hk) as (? & ? & ? & ?).
  split; [done|]. split; [done|]. split; [lia|done].
Qed.

(** Within a turn: the entries still to check are within [turns], the
    others within [turns + 1]. *)
Lemma check_all_tracked config turns now_at healthy_at to_check : ∀ i m,
  turns < 2 ^ 32 - 1 →
  NoDup ((HashRing.id ∘ node) <$> to_check) →
  (∀ x, x ∈ to_check → HashRing.id (node x) ≠ self_node_id config) →
  tracked config (turns + 1) m →
  (∀ x k info, x ∈ to_check → HashRing.id (node x) = k → nodes_ m !! k = Some info →
               consecutive_failures info ≤ turns) →
  tracked config (turns + 1) (check_all now_at healthy_at i to_check m).1.
Proof.
  induction to_check as [|x rest IH]; intros i m Hturns Hnd Hself Hinv Hpending;
    [done|].
  cbn [check_all].
  destruct (check_node (now_at i) (healthy_at (node x)) x m) as [m1 events] eqn:Hcheck.
  destruct (check_all now_at healthy_at (S i) rest m1) as [m2 more] eqn:Hrest.
  simpl. replace m2 with (check_all now_at healthy_at (S i) rest m1).1
    by (by rewrite Hrest).
  apply NoDup_cons in Hnd as [Hx Hnd].
  destruct (check_node_nodes (now_at i) (healthy_at (node x)) x m) as [Hc1 Hn1].
  rewrite Hcheck in Hc1, Hn1. simpl in Hc1, Hn1.
  destruct Hinv as (H0 & Hcfg & Hall).
  apply IH; [done|done|by intros y Hy; apply Hself; right| |].
  - split; [done|]. split; [congruence|]. intros k info. rewrite Hn1.
    destruct (nodes_ m !! HashRing.id (node x)) as [info0|] eqn:Hl; [|apply Hall].
    destruct (decide (k = HashRing.id (node x))) as [->|Hk].
    + rewrite lookup_insert_eq. intros [= <-].
      destruct (Hall _ _ Hl) as (Hid & Hst & Hrange & _).
      pose proof (Hpending x _ info0 ltac:(by left) eq_refl Hl) as Hle.
      destruct (checked_info_tracked config (now_at i) (healthy_at (node x)) info0
                  turns Hst ltac:(lia) Hturns) as (Hnode & Hst' & Hrange').
      rewrite Hcfg. rewrite Hnode. split; [done|]. split; [done|]. split; [lia|].
      intros Heq. destruct (Hself x ltac:(by left)). done.
    + rewrite lookup_insert_ne by done. apply Hall.
  - intros y k info Hy Hk. rewrite Hn1.
    destruct (nodes_ m !! HashRing.id (node x)) as [info0|] eqn:Hl.
    + destruct (decide (k = HashRing.id (node x))) as [->|Hne].
      * destruct Hx. simpl. rewrite <- Hk. apply list_elem_of_fmap. by exists y.
      * rewrite lookup_insert_ne by done. apply (Hpending y); [by right|done].
    + apply (Hpending y); [by right|done].
Qed.

Lemma ids_of_entries (m : t) :
  (∀ k info, nodes_ m !! k = Some info → HashRing.id (node info) = k) →
  (HashRing.id ∘ node) <$> (map_to_list (nodes_ m)).*2 = (map_to_list (nodes_ m)).*1.
Proof.
  intros Hid.
  assert (Forall (λ p, HashRing.id (node p.2) = p.1) (map_to_list (nodes_ m))) as Hall.
  { apply Forall_forall. intros [k info] Hin%elem_of_map_to_list. by apply Hid. }
  induction Hall as [|[k info] l Hp Hall IH]; [done|].
  rewrite !fmap_cons. simpl in *. by f_equal.
Qed.

Lemma HeartbeatWorker_turn_tracked config turns now_at healthy_at stopped_after m :
  turns < 2 ^ 32 - 1 → tracked config turns m →
  tracked config (turns + 1)
    (HeartbeatWorker_turn now_at healthy_at stopped_after m).1.
Proof.
  intros Hturns Hinv. pose proof Hinv as (H0 & Hcfg & Hall).
  unfold HeartbeatWorker_turn.
  set (to_check := match stopped_after with
                   | Some n => take n (nodes_to_check m)
                   | None => nodes_to_check m
                   end).
  assert (to_check `sublist_of` (map_to_list (nodes_ m)).*2) as Hsub.
  { unfold to_check, nodes_to_check. destruct stopped_after as [n|].
    - etrans; [apply sublist_take | apply sublist_filter].
    - apply sublist_filter. }
  assert (∀ x, x ∈ to_check → x ∈ nodes_to_check m) as Hin.
  { intros x. unfold to_check. destruct stopped_after as [n|]; [|done].
    intros Hx. rewrite <- (take_drop n (nodes_to_check m)). apply elem_of_app. by left. }
  apply check_all_tracked; [done| | | |].
  - apply (sublist_NoDup _ ((HashRing.id ∘ node) <$> (map_to_list (nodes_ m)).*2));
      [|by apply fmap_sublist].
    rewrite ids_of_entries by (by intros k info (? & _)%Hall).
    apply NoDup_fst_map_to_list.
  - intros x Hx%Hin. unfold nodes_to_check in Hx.
    apply list_elem_of_filter in Hx as [Hx _]. by rewrite Hcfg in Hx.
  - eapply tracked_mono; [|done]. lia.
  - intros x k info _ _ Hk. destruct (Hall k info Hk) as (_ & _ & ? & _). lia.
Qed.

Lemma happen_tracked config turns ev m :
  turns + turn_of ev < 2 ^ 32 →
  tracked config turns m → tracked config (turns + turn_of ev) (happen m ev).
Proof.
  intros Hturns Hinv. destruct ev as [now n|node_id|now_at healthy_at stopped_after];
    simpl in *.
  - rewrite Z.add_0_r. pose proof Hinv as (H0 & Hcfg & Hall). unfold AddNode.
    destruct (nodes_ m !! HashRing.id n) eqn:Hn; [done|]. split; [done|].
    split; [done|]. intros k info. simpl.
    destruct (decide (k = HashRing.id n)) as [->|Hk].
    + rewrite lookup_insert_eq. intros [= <-]. simpl. by repeat split.
    + rewrite lookup_insert_ne by done. apply Hall.
  - rewrite Z.add_0_r. destruct Hinv as (H0 & Hcfg & Hall). unfold RemoveNode.
    destruct (nodes_ m !! node_id) eqn:Hn; [|done]. split; [done|]. split; [done|].
    intros k info. simpl. intros [Hk Hl]%lookup_delete_Some. by apply Hall.
  - apply HeartbeatWorker_turn_tracked; [lia|done].
Qed.

Lemma worker_turns_app events ev :
  worker_turns (events ++ [ev]) = worker_turns events + turn_of ev.
Proof.
  unfold worker_turns, ShardedHashTable.Zsum_with.
  induction events as [|e events IH]; simpl; [lia|]. rewrite IH. lia.
Qed.

Lemma worker_turns_nonneg events : 0 ≤ worker_turns events.
Proof.
  unfold worker_turns, ShardedHashTable.Zsum_with.
  induction events as [|e events IH]; simpl; [done|]. destruct e; simpl; lia.
Qed.

Lemma history_tracked config events :
  worker_turns events < 2 ^ 32 →
  tracked config (worker_turns events) (history config events).
Proof.
  unfold history. induction events as [|ev events IH] using rev_ind; intros Hturns.
  - split; [done|]. split; [done|]. intros k info. simpl. by rewrite lookup_empty.
  - rewrite foldl_app, worker_turns_app in *. simpl.
    apply happen_tracked; [done|]. apply IH.
    pose proof (worker_turns_nonneg events). destruct ev; simpl in *; lia.
Qed.

(** X21: over any sequence of [AddNode], [RemoveNode] and worker
    turns (fewer than 2^32 of them), a node's status is a function of its
    count of consecutive failed checks alone: [HEALTHY] at zero, [DEAD] from
    [dead_threshold] on, [UNHEALTHY] from [failure_threshold] on, [HEALTHY]
    below both; so one successful check returns any node, a dead one
    included, to [HEALTHY].  Each entry sits under its node's id, and the
    manager never checks itself: its own entry stays [HEALTHY] with no
    checks counted. *)
Theorem status_follows_the_consecutive_failures
    (config : Config) (events : list event) (node_id : string) (info : NodeInfo) :
  worker_turns events < 2 ^ 32 →
  GetNodeInfo node_id (history config events) = Some info →
  HashRing.id (node info) = node_id ∧
  status info = status_of_failures config (consecutive_failures info) ∧
  (IsNodeHealthy node_id (history config events) = true ↔
   consecutive_failures info = 0 ∨
   consecutive_failures info < dead_threshold config ∧
   consecutive_failures info < failure_threshold config) ∧
  (node_id = self_node_id config →
   status info = HEALTHY ∧ total_checks info = 0).
Proof.
  intros Hturns Hinfo.
  destruct (history_tracked config events Hturns) as (_ & _ & Hall).
  destruct (Hall node_id info Hinfo) as (Hid & Hst & Hrange & Hself).
  split; [done|]. split; [done|]. split.
  - unfold IsNodeHealthy. unfold GetNodeInfo in Hinfo. rewrite Hinfo, Hst.
    rewrite bool_decide_eq_true. unfold status_of_failures.
    destruct (Z.eqb_spec (consecutive_failures info) 0); [by split; [left|]|].
    destruct (Z.leb_spec (dead_threshold config) (consecutive_failures info)).
    { split; [done|]. intros [?|[? ?]]; [done|lia]. }
    destruct (Z.leb_spec (failure_threshold config) (consecutive_failures info)).
    { split; [done|]. intros [?|[? ?]]; [done|lia]. }
    split; [|done]. intros _. by right.
  - intros Hk. destruct (Hself Hk) as [Hc Ht]. split; [|done].
    rewrite Hst, Hc. done.
Qed.

Lemma status_follows_the_consecutive_failures_witness :
  worker_turns example_membership_events < 2 ^ 32 ∧
  GetNodeInfo "node2" (history example_membership_config example_membership_events)
  = Some (mkNodeInfo (HashRing.mkNode "node2" "localhost:50052") UNHEALTHY 0 3 3 3) ∧
  IsNodeHealthy "node2" (history example_membership_config example_membership_events)
  = false.
Proof.
  assert (Hturns : worker_turns example_membership_events < 2 ^ 32) by (by vm_compute).
  assert (Hinfo : GetNodeInfo "node2"
                    (history example_membership_config example_membership_events)
                  = Some (mkNodeInfo (HashRing.mkNode "node2" "localhost:50052")
                            UNHEALTHY 0 3 3 3)) by (by vm_compute).
  split; [exact Hturns|]. split; [exact Hinfo|].
  destruct (status_follows_the_consecutive_failures _ _ _ _ Hturns Hinfo)
    as (_ & _ & Hhealthy & _).
  destruct (IsNodeHealthy "node2" _); [|done].
  destruct (proj1 Hhealthy eq_refl) as [H0|[H1 H2]]; simpl in *; lia.
Defined.

End MembershipManager_facts.

(** ** The coordinator *)

Module CoordinatorServer_facts.
Import CoordinatorServer.

Lemma add_to_ring node_id addr (c : t) config :
  in_step config c → nodes_ c !! node_id = None →
  let ring := (HashRing.add_node (HashRing.mkNode node_id addr) (ring_ c)).2 in
  (∃ ops, ring = HashRing.built (virtual_nodes_per_node config) ops ∧
          ring_version_ c + 1 = 1 + Z.of_nat (length ops)) ∧
  HashRing.nodes_ ring = <[node_id := HashRing.mkNode node_id addr]>
                           (HashRing.nodes_ (ring_ c)).
Proof.
  intros (Hcfg & (ops & Hring & Hver) & Hdom & Hst) Hnew. cbv zeta.
  assert (HashRing.nodes_ (ring_ c) !! node_id = None) as Hnone.
  { apply eq_None_not_Some. rewrite <- Hdom, Hnew. by intros [? ?]. }
  split.
  - exists (ops ++ [HashRing.AddNode (HashRing.mkNode node_id addr)]). split.
    + rewrite Hring. unfold HashRing.built. by rewrite foldl_app.
    + rewrite length_app. simpl. lia.
  - unfold HashRing.add_node. simpl. by rewrite Hnone.
Qed.

Lemma perform_in_step config c x : in_step config c → in_step config (perform c x).
Proof.
  intros Hinv. pose proof Hinv as (Hcfg & (ops & Hring & Hver) & Hdom & Hst).
  assert (∀ now request nodes version ring h r,
            nodes_ c !! req_node_id request = None →
            nodes = <[req_node_id request :=
                        mkNodeState (req_node_id request) (req_address request)
                          "HEALTHY" now (req_metadata request)]> (nodes_ c) →
            version = ring_version_ c + 1 →
            ring = (HashRing.add_node
                      (HashRing.mkNode (req_node_id request) (req_address request))
                      (ring_ c)).2 →
            in_step config (mk (config_ c) nodes version ring h r)) as Hadd.
  { intros now request nodes version ring h r Hnew -> -> ->.
    destruct (add_to_ring (req_node_id request) (req_address request) c config Hinv Hnew)
      as [Hops Hnodes].
    split; [done|]. split; [done|]. simpl. split.
    - intros k. rewrite Hnodes, !lookup_insert_is_Some. rewrite Hdom. done.
    - intros k state. destruct (decide (k = req_node_id request)) as [->|Hk].
      + rewrite lookup_insert_eq. by intros [= <-].
      + rewrite lookup_insert_ne by done. apply Hst. }
  destruct x as [now request|now node_id|now request|node_id]; simpl.
  - unfold RegisterNode. case_bool_decide as Hnew; simpl.
    + by eapply Hadd.
    + split; [done|]. split; [by exists ops|]. simpl. split.
      * intros k. rewrite lookup_insert_is_Some, <- Hdom.
        destruct (decide (req_node_id request = k)) as [<-|Hk].
        -- split; [intros _|by left]. by apply not_eq_None_Some.
        -- split; [by intros [?|[_ ?]] | by right].
      * intros k state. destruct (decide (k = req_node_id request)) as [->|Hk].
        -- rewrite lookup_insert_eq. by intros [= <-].
        -- rewrite lookup_insert_ne by done. apply Hst.
  - unfold Heartbeat. destruct (nodes_ c !! node_id) as [state|] eqn:Hl; [|done].
    simpl. destruct (Hst node_id state Hl) as [Hid Hh].
    split; [done|]. split; [by exists ops|]. simpl. split.
    + intros k. rewrite lookup_insert_is_Some, <- Hdom.
      destruct (decide (node_id = k)) as [<-|Hk].
      * split; [intros _; by eexists | by left].
      * split; [by intros [?|[_ ?]] | by right].
    + intros k st. destruct (decide (k = node_id)) as [->|Hk].
      * rewrite lookup_insert_eq. intros [= <-]. simpl. split; [done|].
        by case_bool_decide.
      * rewrite lookup_insert_ne by done. apply Hst.
  - unfold AddNode. destruct (nodes_ c !! req_node_id request) eqn:Hl; [done|].
    simpl. by eapply Hadd.
  - unfold RemoveNode. destruct (nodes_ c !! node_id) as [state|] eqn:Hl; [|done].
    simpl.
    assert (is_Some (HashRing.nodes_ (ring_ c) !! node_id)) as [node Hnode].
    { apply Hdom. by eexists. }
    split; [done|]. split; [|split].
    + exists (ops ++ [HashRing.RemoveNode node_id]). split.
      * rewrite Hring. unfold HashRing.built. by rewrite foldl_app.
      * rewrite length_app. simpl. lia.
    + intros k. simpl. unfold HashRing.remove_node. rewrite Hnode. simpl.
      rewrite !lookup_delete_is_Some, Hdom. done.
    + intros k st. simpl. intros [_ ?]%lookup_delete_Some. by apply Hst.
Qed.

Lemma history_in_step config calls : in_step config (history config calls).
Proof.
  unfold history. induction calls as [|x calls IH] using rev_ind.
  - split; [done|]. split; [by exists []|]. simpl. split.
    + intros k. by rewrite !lookup_empty.
    + intros k state. by rewrite lookup_empty.
  - rewrite foldl_app. simpl. by apply perform_in_step.
Qed.

Lemma perform_ring_change c x :
  ring_ (perform c x) = foldl HashRing.ring_step (ring_ c) (ring_change c x) ∧
  ring_version_ (perform c x)
  = ring_version_ c + Z.of_nat (length (ring_change c x)).
Proof.
  destruct x as [now request|now node_id|now request|node_id]; cbn [perform ring_change].
  - unfold RegisterNode. case_bool_decide; cbn; split; [done|lia|done|lia].
  - unfold Heartbeat. destruct (nodes_ c !! node_id); cbn; split; [done|lia|done|lia].
  - unfold AddNode. case_bool_decide as Hnew.
    + rewrite Hnew. cbn. split; [done|lia].
    + destruct (nodes_ c !! req_node_id request); [|done]. cbn. split; [done|lia].
  - unfold RemoveNode. case_bool_decide as Hnone.
    + rewrite Hnone. cbn. split; [done|lia].
    + destruct (nodes_ c !! node_id); [|done]. cbn. split; [done|lia].
Qed.

Lemma foldl_perform_ring_changes calls : ∀ c,
  ring_ (foldl perform c calls)
  = foldl HashRing.ring_step (ring_ c) (ring_changes c calls) ∧
  ring_version_ (foldl perform c calls)
  = ring_version_ c + Z.of_nat (length (ring_changes c calls)).
Proof.
  induction calls as [|x calls IH]; intros c; cbn [foldl ring_changes].
  - split; [done|]. cbn. lia.
  - destruct (IH (perform c x)) as [-> ->].
    destruct (perform_ring_change c x) as [-> ->].
    rewrite foldl_app, length_app. split; [done|lia].
Qed.

Lemma count_where_partition (l : list string) :
  count_where (λ s, bool_decide (s = "HEALTHY")) l
  + count_where (λ s, negb (bool_decide (s = "HEALTHY"))
                      && bool_decide (s = "UNHEALTHY")) l
  + count_where (λ s, negb (bool_decide (s = "HEALTHY"))
                      && negb (bool_decide (s = "UNHEALTHY"))) l
  = Z.of_nat (length l).
Proof.
  unfold count_where. induction l as [|s l IH]; [done|].
  rewrite !filter_cons. simpl length.
  destruct (bool_decide (s = "HEALTHY")), (bool_decide (s = "UNHEALTHY")); simpl;
    repeat (destruct (decide _) as [?|?]; try done); simpl length; lia.
Qed.

(** X22: after any sequence of [RegisterNode], [Heartbeat], [AddNode]
    and [RemoveNode] calls on a new coordinator, the table of nodes and the
    ring name the same nodes; the ring is the result of the changes the
    calls asked for, in order (an addition for each [RegisterNode] or
    [AddNode] of an id the table did not hold, a removal for each
    [RemoveNode] of an id it held, nothing for any other call), and the
    ring version is one more than the number of those changes;
    every stored status is ["HEALTHY"], so [GetRing] hands out every
    registered node however old its heartbeat, and [GetClusterStatus]
    derives the status it reports from the age of the heartbeat alone, its
    three counts adding up to the number of nodes.  Registering a known
    node again changes the address in the table and leaves the ring, and
    the address the ring holds, as they were. *)
Theorem coordinator_table_and_ring_stay_in_step
    (config : Config) (calls : list call) :
  let c := history config calls in
  let changes := ring_changes (make config) calls in
  ring_ c = HashRing.built (virtual_nodes_per_node config) changes ∧
  ring_version_ c = 1 + Z.of_nat (length changes) ∧
  (∀ node_id, is_Some (nodes_ c !! node_id)
              ↔ is_Some (HashRing.nodes_ (ring_ c) !! node_id)) ∧
  (∀ node_id state, nodes_ c !! node_id = Some state →
                    id state = node_id ∧ status state = "HEALTHY") ∧
  (∀ current_version,
     ring_response_nodes (GetRing current_version c) = info_of <$> states c) ∧
  (∀ now,
     let r := GetClusterStatus now c in
     healthy_nodes r + unhealthy_nodes r + dead_nodes r = total_nodes r ∧
     cluster_nodes r
     = (λ state, mkNodeInfo (id state) (address state)
                   (status_by_age config now (last_heartbeat state))
                   (last_heartbeat state)) <$> states c) ∧
  (∀ now request,
     is_Some (nodes_ c !! req_node_id request) →
     let c' := (RegisterNode now request c).2 in
     ring_ c' = ring_ c ∧ ring_version_ c' = ring_version_ c ∧
     address <$> nodes_ c' !! req_node_id request = Some (req_address request)).
Proof.
  cbv zeta. set (c := history config calls).
  destruct (history_in_step config calls) as (Hcfg & Hops & Hdom & Hst).
  fold c in Hcfg, Hops, Hdom, Hst.
  assert (∀ state, state ∈ states c → status state = "HEALTHY") as Hall.
  { intros state ([k st] & -> & Hin%elem_of_map_to_list)%list_elem_of_fmap.
    by apply (Hst k). }
  destruct (foldl_perform_ring_changes calls (make config)) as [Hring Hversion].
  split; [exact Hring|]. split; [exact Hversion|].
  split; [done|]. split; [done|]. split; [|split].
  - intros current_version. unfold GetRing. simpl. f_equal.
    induction (states c) as [|state l IH]; [done|]. rewrite filter_cons.
    rewrite decide_True by (apply Hall; by left). f_equal. apply IH.
    intros st Hin. apply Hall. by right.
  - intros now. unfold GetClusterStatus. simpl. split.
    + rewrite count_where_partition, length_fmap. unfold states.
      by rewrite length_fmap, length_map_to_list.
    + apply list_fmap_ext. intros i state Hi. f_equal.
      unfold current_status, status_by_age. rewrite Hcfg.
      rewrite (Hall state) by (by eapply list_elem_of_lookup_2). done.
  - intros now request [state Hl]. unfold RegisterNode.
    rewrite bool_decide_eq_false_2 by (by rewrite Hl). simpl.
    by rewrite lookup_insert_eq.
Qed.

End CoordinatorServer_facts.

(** ** Failover *)

Module FailoverManager_facts.
Import FailoverManager.

(** On a ring built by additions and removals, [get_node] returns only
    registered nodes. *)
Lemma get_node_registered vn ops key node :
  HashRing.get_node key (HashRing.built vn ops) = Some node →
  HashRing.nodes_ (HashRing.built vn ops) !! HashRing.id node = Some node.
Proof.
  destruct (HashRing_facts.built_well_formed vn ops) as [_ Hnodes].
  rewrite HashRing_facts.get_node_owner.
  destruct (HashRing.owner_entry _ _) as [[p x]|]; simpl; [|done].
  intros Hx. by rewrite (Hnodes x node Hx).
Qed.

(** Two replicas with distinct ids leave one that is not the failed
    node. *)
Lemma another_replica (failed : string) (replicas : list HashRing.Node) :
  NoDup (HashRing.id <$> replicas) → (2 ≤ length replicas)%nat →
  ∃ replica rest,
    filter (λ replica, HashRing.id replica ≠ failed) replicas = replica :: rest ∧
    replica ∈ replicas ∧ HashRing.id replica ≠ failed.
Proof.
  intros Hnd Hlen.
  destruct (filter (λ replica, HashRing.id replica ≠ failed) replicas)
    as [|replica rest] eqn:Hf.
  - exfalso. destruct replicas as [|a [|b l]]; simpl in Hlen; [lia|lia|].
    assert (HashRing.id a = failed) as Ha.
    { destruct (decide (HashRing.id a = failed)) as [|Hne]; [done|].
      by destruct (filter_nil_not_elem_of _ _ a Hf Hne); left. }
    assert (HashRing.id b = failed) as Hb.
    { destruct (decide (HashRing.id b = failed)) as [|Hne]; [done|].
      by destruct (filter_nil_not_elem_of _ _ b Hf Hne); right; left. }
    rewrite !fmap_cons, Ha, Hb in Hnd. apply NoDup_cons in Hnd as [Hin _].
    apply Hin. by left.
  - exists replica, rest. split; [done|].
    assert (replica ∈ filter (λ replica, HashRing.id replica ≠ failed) replicas) as Hin
      by (rewrite Hf; by left).
    by apply list_elem_of_filter in Hin as [? ?].
Qed.

(** X23: on a ring built by additions and removals that holds at
    least two nodes, none with an empty id, with automatic failover on and
    a replication factor of at least 2, [InitiateFailover] succeeds: it
    returns the generated id, promotes a registered node other than the
    failed one (the first such replica of the failed node's id, taken as a
    key), removes the failed node from the ring, so that no key is routed
    to it any more, calls the callback once with the failed and the
    promoted node when a callback is set and not at all otherwise, and
    leaves the failover recorded as complete and not in progress, with the
    total and the successful counters moved by one. *)
Theorem failover_promotes_another_ring_node
    (virtual_nodes_per_node : nat) (ops : list HashRing.ring_op)
    (timestamp started completed : Z) (failed : string) (m : t) :
  ring_ m = HashRing.built virtual_nodes_per_node ops →
  auto_failover_enabled (config_ m) = true →
  2 ≤ replication_factor (config_ m) →
  (2 ≤ size (HashRing.nodes_on_ring (ring_ m)))%nat →
  HashRing.nodes_ (ring_ m) !! "" = None →
  let id := GenerateFailoverId timestamp m in
  ∃ new_primary node m',
    InitiateFailover timestamp started completed failed m
    = (id, m', if callback_ m then [(failed, new_primary)] else []) ∧
    callback_ m' = callback_ m ∧
    id ≠ "" ∧ new_primary ≠ failed ∧
    HashRing.nodes_ (ring_ m) !! new_primary = Some node ∧
    ring_ m' = (HashRing.remove_node failed (ring_ m)).2 ∧
    HashRing.nodes_ (ring_ m') !! new_primary = Some node ∧
    HashRing.nodes_ (ring_ m') !! failed = None ∧
    (∀ key owner, HashRing.get_node key (ring_ m') = Some owner →
                  HashRing.id owner ≠ failed) ∧
    GetFailoverStatus id m'
    = Some (mkFailoverInfo id failed new_primary started completed false 0 "complete") ∧
    IsFailoverInProgress id m' = false ∧
    total_failovers_ m' = size_t_wrap (total_failovers_ m + 1) ∧
    successful_failovers_ m' = size_t_wrap (successful_failovers_ m + 1) ∧
    failed_failovers_ m' = failed_failovers_ m.
Proof.
  intros Hring Hauto Hrf Hsize Hempty. cbv zeta.
  destruct (HashRing_facts.get_replicas_count virtual_nodes_per_node ops failed
              (replication_factor (config_ m))) as (Hnd & Hreg & Hlen).
  rewrite <- Hring in Hnd, Hreg, Hlen.
  destruct (another_replica failed _ Hnd ltac:(lia)) as (replica & rest & Hf & Hin & Hne).
  destruct (Hreg replica Hin) as [Hnode _].
  assert (SelectNewPrimary failed m = HashRing.id replica) as Hsel.
  { unfold SelectNewPrimary. by rewrite Hf. }
  assert (HashRing.id replica ≠ "") as Hnonempty.
  { intros Heq. rewrite Heq in Hnode. congruence. }
  set (ring' := (HashRing.remove_node failed (ring_ m)).2).
  assert (HashRing.nodes_ ring' !! HashRing.id replica = Some replica ∧
          HashRing.nodes_ ring' !! failed = None) as [Hkept Hgone].
  { unfold ring', HashRing.remove_node.
    destruct (HashRing.nodes_ (ring_ m) !! failed) eqn:Hfailed; simpl.
    - by rewrite lookup_delete_ne, lookup_delete_eq.
    - done. }
  exists (HashRing.id replica), replica.
  unfold InitiateFailover. rewrite Hauto, Hsel. simpl.
  rewrite bool_decide_eq_false_2 by done.
  unfold ExecuteFailover. simpl. rewrite lookup_insert_eq. simpl.
  eexists. split; [done|]. simpl. fold ring'.
  split; [done|].
  split; [done|]. split; [done|]. split; [done|]. split; [done|]. split; [done|].
  split; [done|]. split.
  { intros key owner Hget. unfold ring' in Hget. rewrite Hring in Hget.
    change ((HashRing.remove_node failed (HashRing.built virtual_nodes_per_node ops)).2)
      with (HashRing.ring_step (HashRing.built virtual_nodes_per_node ops)
              (HashRing.RemoveNode failed)) in Hget.
    assert (HashRing.ring_step (HashRing.built virtual_nodes_per_node ops)
              (HashRing.RemoveNode failed)
            = HashRing.built virtual_nodes_per_node (ops ++ [HashRing.RemoveNode failed]))
      as Hbuilt by (unfold HashRing.built; by rewrite foldl_app).
    rewrite Hbuilt in Hget. apply get_node_registered in Hget.
    rewrite <- Hbuilt in Hget. simpl in Hget. rewrite <- Hring in Hget.
    fold ring' in Hget. intros Heq. rewrite Heq in Hget. congruence. }
  unfold GetFailoverStatus, IsFailoverInProgress. simpl.
  rewrite lookup_insert_eq. done.
Qed.

Lemma failover_promotes_another_ring_node_witness :
  ring_ example_failover_manager
  = HashRing.built 4 [HashRing.AddNode (HashRing.mkNode "node-a" "localhost:50051");
                      HashRing.AddNode (HashRing.mkNode "node-b" "localhost:50052")] ∧
  (2 ≤ size (HashRing.nodes_on_ring (ring_ example_failover_manager)))%nat ∧
  HashRing.nodes_ (ring_ example_failover_manager) !! "" = None ∧
  ∃ new_primary m',
    InitiateFailover 5000 10 20 "node-a" example_failover_manager
    = ("failover-5000-0000", m', [("node-a", new_primary)]) ∧
    new_primary ≠ "node-a" ∧
    HashRing.nodes_ (ring_ m') !! "node-a" = None.
Proof.
  assert (H1 : ring_ example_failover_manager
               = HashRing.built 4
                   [HashRing.AddNode (HashRing.mkNode "node-a" "localhost:50051");
                    HashRing.AddNode (HashRing.mkNode "node-b" "localhost:50052")])
    by reflexivity.
  assert (H2 : (2 ≤ size (HashRing.nodes_on_ring (ring_ example_failover_manager)))%nat)
    by (vm_compute; lia).
  assert (H3 : HashRing.nodes_ (ring_ example_failover_manager) !! "" = None)
    by (by vm_compute).
  split; [exact H1|]. split; [exact H2|]. split; [exact H3|].
  destruct (failover_promotes_another_ring_node 4 _ 5000 10 20 "node-a"
              example_failover_manager H1 eq_refl ltac:(simpl; lia) H2 H3)
    as (new_primary & node & m' & Hrun & _ & _ & Hne & _ & _ & _ & Hgone & _).
  exists new_primary, m'. split; [exact Hrun|]. split; [exact Hne | exact Hgone].
Defined.

End FailoverManager_facts.

(** ** Quorum reads and writes *)

Module QuorumCoordinator_facts.
Import QuorumCoordinator.

Lemma collect_read_spec (replicas : list (string * reply string)) responses errors :
  ∃ more,
    foldl collect_read (responses, errors) replicas
    = (responses ++ answers replicas, errors ++ more)
    ∧ (length more + length (answers replicas) = length replicas)%nat.
Proof.
  revert responses errors.
  induction replicas as [|[address answer] replicas IH]; intros responses errors.
  - exists []. by rewrite !app_nil_r.
  - cbn [foldl]. unfold answers. cbn [omap list_omap snd]. fold (answers replicas).
    assert (∀ x, ∃ more,
              foldl collect_read (responses, errors ++ [x]) replicas
              = (responses ++ answers replicas, errors ++ more)
              ∧ (length more + length (answers replicas) = S (length replicas))%nat)
      as Hfailed.
    { intros x. destruct (IH responses (errors ++ [x])) as (more & -> & Hlen).
      exists (x :: more). rewrite <- app_assoc. split; [done|simpl; lia]. }
    destruct answer as [| |what|result]; cbn [collect_read length]; try apply Hfailed.
    destruct (success result); [destruct (value result) as [v|]|];
      cbn [fmap option_fmap option_map]; try apply Hfailed.
    destruct (IH (responses ++ [mkReplicaResponse v (version result)
                    (timestamp_ms result) (version_vector result)]) errors)
      as (more & -> & Hlen).
    exists more. rewrite <- app_assoc. split; [done|simpl; lia].
Qed.

Lemma older_spec a b : older a b = true ↔ ¬ not_newer b a.
Proof.
  unfold older, not_newer.
  destruct a as [va na ta wa], b as [vb nb tb wb]. cbn.
  case_bool_decide as Hne; rewrite Z.ltb_lt; (split; [intros ? [?|[? ?]]; lia|intros; lia]).
Qed.

Lemma max_element_older responses latest :
  max_element older responses = Some latest → first_newest responses latest.
Proof.
  destruct responses as [|first rest]; [done|]. cbn [max_element]. intros [= <-].
  induction rest as [|x rest IH] using rev_ind.
  - cbn [foldl]. exists 0%nat. split; [done|]. split.
    + intros r ->%list_elem_of_singleton. unfold not_newer. lia.
    + intros j r Hj. lia.
  - rewrite foldl_app. cbn [foldl].
    destruct IH as (i & Hi & Hall & Hbefore).
    set (largest := foldl _ first rest) in *.
    destruct (older largest x) eqn:Hless.
    + apply older_spec in Hless.
      exists (length (first :: rest)). split.
      { rewrite app_comm_cons. by rewrite lookup_app_r, Nat.sub_diag. }
      split.
      * intros r Hr. rewrite app_comm_cons in Hr. apply elem_of_app in Hr as [Hr|Hr].
        -- specialize (Hall r Hr). unfold not_newer in *. lia.
        -- apply list_elem_of_singleton in Hr. subst. unfold not_newer. lia.
      * intros j r Hj Hr. rewrite app_comm_cons in Hr.
        rewrite lookup_app_l in Hr by done.
        apply list_elem_of_lookup_2 in Hr. specialize (Hall r Hr).
        unfold not_newer in *. lia.
    + assert (not_newer x largest) as Hx.
      { destruct (decide (not_newer x largest)) as [|Hn]; [done|].
        apply older_spec in Hn. congruence. }
      exists i. split.
      { rewrite app_comm_cons. rewrite lookup_app_l; [done|].
        by apply lookup_lt_Some in Hi. }
      split.
      * intros r Hr. rewrite app_comm_cons in Hr. apply elem_of_app in Hr as [Hr|Hr].
        -- by apply Hall.
        -- apply list_elem_of_singleton in Hr. by subst.
      * intros j r Hj Hr. rewrite app_comm_cons in Hr.
        apply lookup_lt_Some in Hi.
        rewrite lookup_app_l in Hr by lia. by eapply Hbefore.
Qed.

Lemma elem_of_stale_replicas addresses responses latest_version address :
  address ∈ stale_replicas addresses responses latest_version
  ↔ ∃ (i : nat) r, responses !! i = Some r ∧ resp_version r < latest_version
                   ∧ addresses !! i = Some address.
Proof.
  unfold stale_replicas. rewrite list_elem_of_omap. split.
  - intros ([i r] & Hin & Hsome). cbn [fst snd] in Hsome.
    apply list_elem_of_lookup in Hin as [k Hk].
    rewrite list_lookup_imap in Hk.
    destruct (responses !! k) as [r'|] eqn:Hr; [|done]. injection Hk as <- <-.
    destruct (resp_version r' <? latest_version) eqn:Hlt; [|done].
    apply Z.ltb_lt in Hlt. by exists k, r'.
  - intros (i & r & Hr & Hlt & Ha). exists (i, r). split.
    + apply list_elem_of_lookup. exists i. by rewrite list_lookup_imap, Hr.
    + cbn [fst snd]. apply Z.ltb_lt in Hlt. by rewrite Hlt.
Qed.

Lemma greatest_version_step acks v ack :
  greatest_version acks v → greatest_version (acks ++ [ack]) (Z.max v (version ack)).
Proof.
  intros (Hpos & Hall & Hex). split; [lia|]. split.
  - intros a [Ha| ->%list_elem_of_singleton]%elem_of_app; [specialize (Hall a Ha)|]; lia.
  - destruct (Z.max_spec v (version ack)) as [[Hlt ->]|[Hle ->]].
    + right. exists ack. split; [|done]. apply elem_of_app. right.
      by apply list_elem_of_singleton.
    + destruct Hex as [->|(a & Ha & Hv)]; [by left|].
      right. exists a. split; [|done]. apply elem_of_app. by left.
Qed.

Lemma collect_write_spec (replicas : list (string * reply bool)) seen v acknowledged errors :
  greatest_version seen v →
  ∃ v' more,
    foldl collect_write (v, acknowledged, errors) replicas
    = (v', acknowledged + Z.of_nat (length (acknowledgements replicas)), errors ++ more)
    ∧ greatest_version (seen ++ acknowledgements replicas) v'
    ∧ (length more + length (acknowledgements replicas) = length replicas)%nat.
Proof.
  revert seen v acknowledged errors.
  induction replicas as [|[address answer] replicas IH]; intros seen v acknowledged errors Hv.
  - exists v, []. rewrite !app_nil_r. cbn. split; [f_equal; f_equal; lia|done].
  - cbn [foldl]. unfold acknowledgements. cbn [omap list_omap snd].
    fold (acknowledgements replicas).
    assert (∀ x, ∃ v' more,
              foldl collect_write (v, acknowledged, errors ++ [x]) replicas
              = (v', acknowledged + Z.of_nat (length (acknowledgements replicas)),
                 errors ++ more)
              ∧ greatest_version (seen ++ acknowledgements replicas) v'
              ∧ (length more + length (acknowledgements replicas)
                 = S (length replicas))%nat) as Hfailed.
    { intros x. destruct (IH seen v acknowledged (errors ++ [x]) Hv)
        as (v' & more & -> & Hv' & Hlen).
      exists v', (x :: more). rewrite <- app_assoc. split; [done|]. split; [done|].
      simpl; lia. }
    destruct answer as [| |what|result]; cbn [collect_write length]; try apply Hfailed.
    destruct (success result); try apply Hfailed.
    destruct (IH (seen ++ [result]) (Z.max v (version result)) (acknowledged + 1) errors)
      as (v' & more & -> & Hv' & Hlen).
    { by apply greatest_version_step. }
    exists v', more. rewrite <- app_assoc in Hv'. split; [|split; [done|simpl; lia]].
    f_equal. f_equal. cbn [length]. lia.
Qed.

Lemma collect_cas_spec (replicas : list (string * reply bool)) seen v acknowledged
    mismatch errors :
  greatest_version seen v →
  ∃ v' more,
    foldl collect_cas (v, acknowledged, mismatch, errors) replicas
    = (v', acknowledged + Z.of_nat (length (acknowledgements replicas)),
       mismatch || existsb tells_mismatch (refusals replicas), errors ++ more)
    ∧ greatest_version (seen ++ acknowledgements replicas) v'
    ∧ (length more + length (acknowledgements replicas) = length replicas)%nat.
Proof.
  revert seen v acknowledged mismatch errors.
  induction replicas as [|[address answer] replicas IH];
    intros seen v acknowledged mismatch errors Hv.
  - exists v, []. rewrite !app_nil_r, orb_false_r. cbn.
    split; [f_equal; f_equal; f_equal; lia|done].
  - cbn [foldl]. unfold acknowledgements, refusals. cbn [omap list_omap snd].
    fold (acknowledgements replicas). fold (refusals replicas).
    assert (∀ x, ∃ v' more,
              foldl collect_cas (v, acknowledged, mismatch, errors ++ [x]) replicas
              = (v', acknowledged + Z.of_nat (length (acknowledgements replicas)),
                 mismatch || existsb tells_mismatch (refusals replicas), errors ++ more)
              ∧ greatest_version (seen ++ acknowledgements replicas) v'
              ∧ (length more + length (acknowledgements replicas)
                 = S (length replicas))%nat) as Hfailed.
    { intros x. destruct (IH seen v acknowledged mismatch (errors ++ [x]) Hv)
        as (v' & more & -> & Hv' & Hlen).
      exists v', (x :: more). rewrite <- app_assoc. split; [done|]. split; [done|].
      simpl; lia. }
    destruct answer as [| |what|result]; cbn [collect_cas length]; try apply Hfailed.
    destruct (success result).
    + destruct (IH (seen ++ [result]) (Z.max v (version result)) (acknowledged + 1)
                   mismatch errors) as (v' & more & -> & Hv' & Hlen).
      { by apply greatest_version_step. }
      exists v', more. rewrite <- app_assoc in Hv'. split; [|split; [done|simpl; lia]].
      f_equal. f_equal. f_equal. cbn [length]. lia.
    + fold (tells_mismatch (error result)).
      destruct (IH seen v acknowledged
                   (if tells_mismatch (error result) then true else mismatch)
                   (errors ++ [("CAS failed on " +:+ address +:+ ": "
                                +:+ error result)%string]) Hv)
        as (v' & more & -> & Hv' & Hlen).
      eexists v', (_ :: more). rewrite <- app_assoc. split; [|split; [done|simpl; lia]].
      f_equal. f_equal. cbn [existsb].
      destruct (tells_mismatch (error result)), mismatch; done.
Qed.

Lemma greatest_version_nil : greatest_version [] 0.
Proof.
  split; [done|]. split; [|by left]. intros ack Hin. by apply elem_of_nil in Hin.
Qed.

Lemma QuorumRead_unfold (config_ : QuorumConfig) (replicas : list (string * reply string)) :
  replicas ≠ [] →
  ∃ errors,
    (length errors + length (answers replicas) = length replicas)%nat
    ∧ QuorumRead config_ replicas
      = let responded := Z.of_nat (length (answers replicas)) in
        if responded <? read_quorum config_ then
          (mkReadResult false None 0 0 ∅ responded errors, None)
        else
          match max_element older (answers replicas) with
          | None => (mkReadResult false None 0 0 ∅ responded errors, None)
          | Some latest =>
              let stale :=
                stale_replicas replicas.*1 (answers replicas) (resp_version latest) in
              (mkReadResult true (Some (resp_value latest)) (resp_version latest)
                            (resp_timestamp_ms latest) (resp_version_vector latest)
                            responded errors,
               match stale with
               | [] => None
               | _ => Some (mkRepair (resp_value latest) (resp_version latest) stale)
               end)
          end.
Proof.
  intros Hne. destruct replicas as [|replica replicas]; [done|].
  set (all := replica :: replicas). unfold QuorumRead.
  change (match all with [] => _ | _ :: _ => ?x end) with x.
  destruct (collect_read_spec all [] []) as (more & -> & Hlen).
  exists more. by rewrite !app_nil_l.
Qed.

(** X24: [QuorumRead] counts as responses the replicas that answered
    with a value, in the order of the address list, and reports one error
    for each of the others.  It succeeds exactly when at least
    [read_quorum] replicas responded and at least one did; a failed read
    carries no value and starts no repair.  A successful read returns the
    value, version, timestamp and version vector of the first response
    that no other exceeds in (version, timestamp), and starts a repair
    with that value when some response has a lower version: the repair is
    sent, for each such response, to the address standing in the address
    list at the position the response has among the responses. *)
Theorem QuorumRead_returns_the_first_newest_response
    (config_ : QuorumConfig) (replicas : list (string * reply string)) :
  let result := (QuorumRead config_ replicas).1 in
  let repair := (QuorumRead config_ replicas).2 in
  let responses := answers replicas in
  replicas_responded result = Z.of_nat (length responses)
  ∧ (replicas ≠ [] →
     (length (read_errors result) + length responses = length replicas)%nat)
  ∧ (read_success result = true
     ↔ read_quorum config_ ≤ Z.of_nat (length responses) ∧ responses ≠ [])
  ∧ (read_success result = false →
     read_value result = None ∧ read_version result = 0 ∧ repair = None)
  ∧ (read_success result = true →
     ∃ latest stale,
       first_newest responses latest
       ∧ read_value result = Some (resp_value latest)
       ∧ read_version result = resp_version latest
       ∧ read_timestamp_ms result = resp_timestamp_ms latest
       ∧ read_version_vector result = resp_version_vector latest
       ∧ (∀ address,
            address ∈ stale
            ↔ ∃ (i : nat) r, responses !! i = Some r
                             ∧ resp_version r < resp_version latest
                             ∧ replicas.*1 !! i = Some address)
       ∧ repair = match stale with
                  | [] => None
                  | _ => Some (mkRepair (resp_value latest) (resp_version latest) stale)
                  end).
Proof.
  intros result repair responses. subst result repair responses.
  destruct (decide (replicas = [])) as [->|Hne].
  { cbn. repeat split; try done; try (intros [_ Hne]; done). }
  destruct (QuorumRead_unfold config_ replicas Hne) as (errors & Hlen & ->).
  cbn zeta.
  destruct (Z.ltb_spec (Z.of_nat (length (answers replicas))) (read_quorum config_))
    as [Hlt|Hge].
  { cbn [fst snd read_success read_value read_version replicas_responded read_errors].
    repeat split; try done; try lia. }
  destruct (max_element older (answers replicas)) as [latest|] eqn:Hmax.
  - apply max_element_older in Hmax.
    cbn [fst snd read_success read_value read_version replicas_responded read_errors
         read_timestamp_ms read_version_vector].
    split; [done|]. split; [done|]. split.
    { split; [|done]. intros _. split; [done|].
      destruct Hmax as (i & Hi & _). intros Hnil. by rewrite Hnil in Hi. }
    split; [done|]. intros _.
    exists latest, (stale_replicas replicas.*1 (answers replicas) (resp_version latest)).
    repeat split; try done.
    all: by apply elem_of_stale_replicas.
  - assert (answers replicas = []) as Hnil.
    { destruct (answers replicas); [done|discriminate Hmax]. }
    cbn [fst snd read_success read_value read_version replicas_responded read_errors].
    repeat split; try done. intros [_ Hne']. done.
Qed.

(** X25: when the first of three replicas gives no answer and the
    other two answer with versions [vb < vc], a read with a quorum of at
    most 2 returns the newer value and sends the repair to the first
    replica, the one that did not answer: the stale replica, second in the
    address list but first among the responses, is not repaired. *)
Theorem read_repair_goes_to_the_replica_at_the_response_position
    (config_ : QuorumConfig) (a b c : string) (failed : reply string)
    (rb rc : OperationResult string) (value_b value_c : string) :
  read_quorum config_ ≤ 2 →
  answers [(a, failed)] = [] →
  success rb = true → value rb = Some value_b →
  success rc = true → value rc = Some value_c →
  version rb < version rc →
  let outcome := QuorumRead config_ [(a, failed); (b, Replied rb); (c, Replied rc)] in
  read_success outcome.1 = true
  ∧ read_value outcome.1 = Some value_c
  ∧ read_version outcome.1 = version rc
  ∧ replicas_responded outcome.1 = 2
  ∧ outcome.2 = Some (mkRepair value_c (version rc) [a]).
Proof.
  intros Hquorum Hfailed Hb Hvb Hc Hvc Hlt outcome. subst outcome.
  destruct (QuorumRead_unfold config_ [(a, failed); (b, Replied rb); (c, Replied rc)])
    as (errors & _ & ->); [done|].
  assert (answers [(a, failed); (b, Replied rb); (c, Replied rc)]
          = [mkReplicaResponse value_b (version rb) (timestamp_ms rb) (version_vector rb);
             mkReplicaResponse value_c (version rc) (timestamp_ms rc) (version_vector rc)])
    as ->.
  { unfold answers in *. cbn [omap list_omap snd] in *.
    destruct (match failed with Replied _ => _ | _ => None end); [done|].
    by rewrite Hb, Hc, Hvb, Hvc. }
  cbn zeta. cbn [length].
  destruct (Z.ltb_spec (Z.of_nat 2) (read_quorum config_)) as [?|_]; [lia|].
  assert ((version rb <? version rc) = true) as Hstale by by apply Z.ltb_lt.
  assert (older (mkReplicaResponse value_b (version rb) (timestamp_ms rb)
                                   (version_vector rb))
                (mkReplicaResponse value_c (version rc) (timestamp_ms rc)
                                   (version_vector rc)) = true) as Holder.
  { unfold older. cbn [resp_version resp_timestamp_ms].
    by rewrite bool_decide_true by lia. }
  unfold max_element. cbn [foldl]. rewrite Holder.
  unfold stale_replicas. cbn. by rewrite Hstale, Z.ltb_irrefl.
Qed.

Lemma QuorumWrite_unfold (config_ : QuorumConfig) (replicas : list (string * reply bool)) :
  replicas ≠ [] →
  ∃ v errors,
    greatest_version (acknowledgements replicas) v
    ∧ (length errors + length (acknowledgements replicas) = length replicas)%nat
    ∧ QuorumWrite config_ replicas
      = mkWriteResult
          (write_quorum config_ <=? Z.of_nat (length (acknowledgements replicas)))
          v (Z.of_nat (length (acknowledgements replicas))) errors.
Proof.
  intros Hne. destruct replicas as [|replica replicas]; [done|].
  set (all := replica :: replicas). unfold QuorumWrite.
  change (match all with [] => _ | _ :: _ => ?x end) with x.
  destruct (collect_write_spec all [] 0 0 [] greatest_version_nil)
    as (v & more & -> & Hv & Hlen).
  exists v, more. by rewrite !app_nil_l, Z.add_0_l in *.
Qed.

Lemma QuorumCAS_unfold (config_ : QuorumConfig) (replicas : list (string * reply bool)) :
  replicas ≠ [] →
  ∃ v errors,
    greatest_version (acknowledgements replicas) v
    ∧ (length errors + length (acknowledgements replicas) = length replicas)%nat
    ∧ QuorumCAS config_ replicas
      = mkWriteResult
          ((write_quorum config_ <=? Z.of_nat (length (acknowledgements replicas)))
           && negb (existsb tells_mismatch (refusals replicas)))
          v (Z.of_nat (length (acknowledgements replicas))) errors.
Proof.
  intros Hne. destruct replicas as [|replica replicas]; [done|].
  set (all := replica :: replicas). unfold QuorumCAS.
  change (match all with [] => _ | _ :: _ => ?x end) with x.
  destruct (collect_cas_spec all [] 0 0 false [] greatest_version_nil)
    as (v & more & -> & Hv & Hlen).
  exists v, more. by rewrite !app_nil_l, Z.add_0_l, orb_false_l in *.
Qed.

(** X26: [QuorumWrite] and [QuorumCAS] count as acknowledged the
    replicas whose call succeeded and report one error for each of the
    others; the version they return is the greatest version acknowledged,
    or 0 when none exceeds 0.  With no replica address both fail with the
    single error "No replica addresses provided".  Otherwise [QuorumWrite]
    succeeds exactly when at least [write_quorum] replicas acknowledged,
    and [QuorumCAS] exactly when in addition no replica refused with an
    error text that contains "version" or "mismatch": one such refusal
    makes it fail however many replicas have applied the change. *)
Theorem quorum_write_counts_the_acknowledgements
    (config_ : QuorumConfig) (replicas : list (string * reply bool)) :
  let written := QuorumWrite config_ replicas in
  let swapped := QuorumCAS config_ replicas in
  let acks := acknowledgements replicas in
  replicas_acknowledged written = Z.of_nat (length acks)
  ∧ replicas_acknowledged swapped = Z.of_nat (length acks)
  ∧ greatest_version acks (write_version written)
  ∧ greatest_version acks (write_version swapped)
  ∧ (replicas = [] →
     written = mkWriteResult false 0 0 ["No replica addresses provided"]
     ∧ swapped = written)
  ∧ (replicas ≠ [] →
     (length (write_errors written) + length acks = length replicas)%nat
     ∧ (length (write_errors swapped) + length acks = length replicas)%nat)
  ∧ (write_success written = true
     ↔ replicas ≠ [] ∧ write_quorum config_ ≤ Z.of_nat (length acks))
  ∧ (write_success swapped = true
     ↔ replicas ≠ [] ∧ write_quorum config_ ≤ Z.of_nat (length acks)
       ∧ ∀ error_text, error_text ∈ refusals replicas →
           contains "version" error_text = false
           ∧ contains "mismatch" error_text = false).
Proof.
  intros written swapped acks. subst written swapped acks.
  destruct (decide (replicas = [])) as [->|Hne].
  { cbn. pose proof greatest_version_nil.
    do 6 (split; [done|]). split; split; try done; by intros [? _]. }
  destruct (QuorumWrite_unfold config_ replicas Hne) as (v & errors & Hv & Hlen & ->).
  destruct (QuorumCAS_unfold config_ replicas Hne) as (v' & errors' & Hv' & Hlen' & ->).
  cbn [replicas_acknowledged write_version write_errors write_success].
  split; [done|]. split; [done|]. split; [done|]. split; [done|].
  split; [done|]. split; [done|]. split.
  - rewrite Z.leb_le. by split; [|intros [_ ?]].
  - rewrite andb_true_iff, Z.leb_le, negb_true_iff.
    rewrite <- not_true_iff_false, existsb_exists.
    split.
    + intros [Hq Hnone]. split; [done|]. split; [done|].
      intros e He. apply orb_false_iff.
      destruct (tells_mismatch e) eqn:Htells; [|done].
      destruct Hnone. exists e. split; [|done]. by apply list_elem_of_In.
    + intros (_ & Hq & Hall). split; [done|].
      intros (e & He%list_elem_of_In & Htells).
      destruct (Hall e He) as [H1 H2]. unfold tells_mismatch in Htells.
      by rewrite H1, H2 in Htells.
Qed.

Lemma shared_replica (addresses : list string) (writes : list (reply bool))
    (reads : list (reply string)) :
  length writes = length addresses →
  length reads = length addresses →
  (length addresses
   < length (acknowledgements (zip addresses writes))
     + length (answers (zip addresses reads)))%nat →
  ∃ (i : nat) w r v,
    writes !! i = Some (Replied w) ∧ success w = true
    ∧ reads !! i = Some (Replied r) ∧ success r = true ∧ value r = Some v
    ∧ mkReplicaResponse v (version r) (timestamp_ms r) (version_vector r)
      ∈ answers (zip addresses reads).
Proof.
  revert writes reads.
  induction addresses as [|address addresses IH]; intros writes reads Hw Hr Hcount.
  { destruct writes, reads; try done. cbn in Hcount. lia. }
  destruct writes as [|write writes]; [done|]. destruct reads as [|read reads]; [done|].
  injection Hw as Hw. injection Hr as Hr.
  unfold acknowledgements, answers in Hcount |- *.
  cbn [zip zip_with omap list_omap snd] in Hcount |- *.
  fold (acknowledgements (zip addresses writes)) in Hcount.
  fold (answers (zip addresses reads)) in Hcount |- *.
  assert ((length addresses < length (acknowledgements (zip addresses writes))
                              + length (answers (zip addresses reads)))%nat →
          ∃ (i : nat) w r v,
            (write :: writes) !! i = Some (Replied w) ∧ success w = true
            ∧ (read :: reads) !! i = Some (Replied r) ∧ success r = true
            ∧ value r = Some v
            ∧ mkReplicaResponse v (version r) (timestamp_ms r) (version_vector r)
              ∈ match
                  match read with
                  | Replied result =>
                      if success result then
                        (λ v, mkReplicaResponse v (version result) (timestamp_ms result)
                                                (version_vector result)) <$> value result
                      else None
                  | _ => None
                  end
                with
                | Some y => y :: answers (zip addresses reads)
                | None => answers (zip addresses reads)
                end) as Hrest.
  { intros Hlt. destruct (IH writes reads Hw Hr Hlt) as (i & w & r & v & ? & ? & ? & ? & ? & Hin).
    exists (S i), w, r, v. repeat split; try done.
    destruct (match read with Replied _ => _ | _ => None end); [by right|done]. }
  destruct write as [| |what|w]; [| | |destruct (success w) eqn:Hsw];
    (destruct read as [| |what'|r];
     [| | |destruct (success r) eqn:Hsr; [destruct (value r) as [v|] eqn:Hvr|]]);
    cbn [length fmap option_fmap option_map] in Hcount, Hrest |- *;
    try (apply Hrest; lia).
  exists 0%nat, w, r, v. repeat split; try done. by left.
Qed.

(** X27: when a write and a read over the same [N] replica addresses
    both succeed and [write_quorum + read_quorum > N], some replica both
    acknowledged the write and answered the read, and the read returns
    nothing older than that replica's answer: its (version, timestamp) is
    at most the one returned. *)
Theorem write_and_read_quorums_share_a_replica
    (config_ : QuorumConfig) (addresses : list string) (writes : list (reply bool))
    (reads : list (reply string)) :
  length writes = length addresses →
  length reads = length addresses →
  Z.of_nat (length addresses) < write_quorum config_ + read_quorum config_ →
  write_success (QuorumWrite config_ (zip addresses writes)) = true →
  read_success (QuorumRead config_ (zip addresses reads)).1 = true →
  let result := (QuorumRead config_ (zip addresses reads)).1 in
  ∃ (i : nat) address w r v,
    addresses !! i = Some address
    ∧ writes !! i = Some (Replied w) ∧ success w = true
    ∧ reads !! i = Some (Replied r) ∧ success r = true ∧ value r = Some v
    ∧ (version r < read_version result
       ∨ (version r = read_version result
          ∧ timestamp_ms r ≤ read_timestamp_ms result)).
Proof.
  intros Hw Hr Hquorums Hwritten Hread result. subst result.
  destruct addresses as [|address0 addresses].
  { destruct writes; [|done]. cbn in Hwritten. done. }
  destruct writes as [|write writes]; [done|]. destruct reads as [|read reads]; [done|].
  set (targets := address0 :: addresses) in *.
  destruct (QuorumWrite_unfold config_ (zip targets (write :: writes)))
    as (v & errors & _ & _ & Hwrite); [done|].
  rewrite Hwrite in Hwritten. cbn [write_success] in Hwritten.
  apply Z.leb_le in Hwritten.
  destruct (QuorumRead_unfold config_ (zip targets (read :: reads)))
    as (errors' & _ & Hresult); [done|].
  rewrite Hresult in Hread |- *. cbn zeta in Hread |- *.
  destruct (Z.ltb_spec (Z.of_nat (length (answers (zip targets (read :: reads)))))
                       (read_quorum config_)) as [?|Hresponded]; [done|].
  destruct (max_element older (answers (zip targets (read :: reads))))
    as [latest|] eqn:Hmax; [|done].
  apply max_element_older in Hmax as (_ & _ & Hall & _).
  destruct (shared_replica targets (write :: writes) (read :: reads) Hw Hr)
    as (i & w & r & value_r & Hwi & Hsw & Hri & Hsr & Hvr & Hin); [lia|].
  destruct (lookup_lt_is_Some_2 targets i) as [address Haddress].
  { rewrite <- Hw. by apply lookup_lt_Some in Hwi. }
  exists i, address, w, r, value_r. repeat split; try done.
  apply (Hall _ Hin).
Qed.

Lemma read_repair_goes_to_the_replica_at_the_response_position_witness :
  read_quorum example_quorum_config ≤ 2
  ∧ answers [("localhost:50051", TimedOut)] = []
  ∧ (QuorumRead example_quorum_config
       [("localhost:50051", TimedOut);
        ("localhost:50052", Replied (found "node-b" "old" 1 100));
        ("localhost:50053", Replied (found "node-c" "new" 2 200))]).2
    = Some (mkRepair "new" 2 ["localhost:50051"]).
Proof.
  assert (H1 : read_quorum example_quorum_config ≤ 2) by (simpl; lia).
  assert (H2 : answers [("localhost:50051", @TimedOut string)] = []) by reflexivity.
  split; [exact H1|]. split; [exact H2|].
  exact (proj2 (proj2 (proj2 (proj2
    (read_repair_goes_to_the_replica_at_the_response_position
       example_quorum_config "localhost:50051" "localhost:50052" "localhost:50053"
       TimedOut (found "node-b" "old" 1 100) (found "node-c" "new" 2 200) "old" "new"
       H1 H2 eq_refl eq_refl eq_refl eq_refl ltac:(simpl; lia)))))).
Defined.

Lemma write_and_read_quorums_share_a_replica_witness :
  Z.of_nat (length example_replicas)
  < write_quorum example_quorum_config + read_quorum example_quorum_config
  ∧ write_success
      (QuorumWrite example_quorum_config
         (zip example_replicas
              [Replied (stored "node-a" 2); TimedOut; Replied (stored "node-c" 2)]))
    = true
  ∧ read_success
      (QuorumRead example_quorum_config
         (zip example_replicas
              [TimedOut; Replied (found "node-b" "old" 1 100);
               Replied (found "node-c" "new" 2 200)])).1
    = true
  ∧ ∃ (i : nat) address w r v,
      example_replicas !! i = Some address
      ∧ [Replied (stored "node-a" 2); TimedOut; Replied (stored "node-c" 2)] !! i
        = Some (Replied w)
      ∧ [TimedOut; Replied (found "node-b" "old" 1 100);
         Replied (found "node-c" "new" 2 200)] !! i = Some (Replied r)
      ∧ value r = Some v.
Proof.
  assert (H1 : Z.of_nat (length example_replicas)
               < write_quorum example_quorum_config + read_quorum example_quorum_config)
    by (simpl; lia).
  assert (H2 : write_success
                 (QuorumWrite example_quorum_config
                    (zip example_replicas
                         [Replied (stored "node-a" 2); TimedOut;
                          Replied (stored "node-c" 2)])) = true) by reflexivity.
  assert (H3 : read_success
                 (QuorumRead example_quorum_config
                    (zip example_replicas
                         [TimedOut; Replied (found "node-b" "old" 1 100);
                          Replied (found "node-c" "new" 2 200)])).1 = true)
    by reflexivity.
  split; [exact H1|]. split; [exact H2|]. split; [exact H3|].
  destruct (write_and_read_quorums_share_a_replica example_quorum_config
              example_replicas
              [Replied (stored "node-a" 2); TimedOut; Replied (stored "node-c" 2)]
              [TimedOut; Replied (found "node-b" "old" 1 100);
               Replied (found "node-c" "new" 2 200)] eq_refl eq_refl H1 H2 H3)
    as (i & address & w & r & v & Ha & Hw & _ & Hr & _ & Hv & _).
  exists i, address, w, r, v. split; [exact Ha|]. split; [exact Hw|].
  split; [exact Hr | exact Hv].
Defined.

End QuorumCoordinator_facts.

(** ** Authentication tokens *)

Module TokenValidator_facts.
Import TokenValidator.

Lemma code_range c : 0 ≤ code c < 256.
Proof.
  unfold code. pose proof (N_ascii_bounded c) as H. lia.
Qed.

Lemma char_code c : char (code c) = c.
Proof. unfold char, code. by rewrite N2Z.id, ascii_N_embedding. Qed.

Lemma char_eq x c : x = code c → char x = c.
Proof. intros ->. apply char_code. Qed.

Lemma list_ind3 {A} (P : list A → Prop) :
  P [] → (∀ a, P [a]) → (∀ a b, P [a; b]) →
  (∀ a b c l, P l → P (a :: b :: c :: l)) →
  ∀ l, P l.
Proof.
  intros H0 H1 H2 H3 l.
  assert (P l ∧ (∀ a, P (a :: l)) ∧ (∀ a b, P (a :: b :: l))) as [? _]; [|done].
  induction l as [|x l (IH0 & IH1 & IH2)]; [done|].
  split; [apply IH1|]. split; [intros a; apply IH2|]. intros a b. by apply H3.
Qed.

Lemma land_63 x : Z.land x 63 = x mod 64.
Proof. apply (Z.land_ones x 6). lia. Qed.

Lemma land_255 x : Z.land x 255 = x mod 256.
Proof. apply (Z.land_ones x 8). lia. Qed.

Ltac bits :=
  unfold int_wrap;
  rewrite ?land_63, ?land_255, ?Z.shiftr_div_pow2, ?Z.shiftl_mul_pow2 by lia;
  change (2 ^ (-4 + 8)) with 16; change (2 ^ (-2 + 8)) with 64;
  change (2 ^ 0) with 1; change (2 ^ 2) with 4; change (2 ^ 4) with 16;
  change (2 ^ 6) with 64; change (2 ^ 8) with 256;
  change (2 ^ 31) with 2147483648; change (2 ^ 32) with 4294967296;
  Z.div_mod_to_equations; lia.

Lemma encode_step_0 val out c :
  encode_step (val, -6, out) c
  = (int_wrap (Z.shiftl val 8) + code c, -4, out ++ [base64_char (code c / 4)]).
Proof.
  pose proof (code_range c).
  unfold encode_step. change (Z.to_nat ((-6 + 8) / 6 + 1)) with 1%nat.
  cbn [emit]. change (0 <=? -6 + 8) with true. cbv iota.
  f_equal. f_equal. f_equal. f_equal. bits.
Qed.

Lemma encode_step_1 val out c :
  encode_step (val, -4, out) c
  = (int_wrap (Z.shiftl val 8) + code c, -2,
     out ++ [base64_char (val mod 4 * 16 + code c / 16)]).
Proof.
  pose proof (code_range c).
  unfold encode_step. change (Z.to_nat ((-4 + 8) / 6 + 1)) with 1%nat.
  cbn [emit]. change (0 <=? -4 + 8) with true. cbv iota.
  f_equal. f_equal. f_equal. f_equal. bits.
Qed.

Lemma encode_step_2 val out c :
  encode_step (val, -2, out) c
  = (int_wrap (Z.shiftl val 8) + code c, -6,
     out ++ [base64_char (val mod 16 * 4 + code c / 64); base64_char (code c mod 64)]).
Proof.
  pose proof (code_range c).
  unfold encode_step. change (Z.to_nat ((-2 + 8) / 6 + 1)) with 2%nat.
  cbn [emit]. change (0 <=? -2 + 8) with true. change (0 <=? -2 + 8 - 6) with true.
  cbv iota. rewrite <- app_assoc. cbn [app].
  f_equal. f_equal. f_equal; [f_equal; bits|]. f_equal. f_equal. bits.
Qed.

Lemma decoded_base64_char i : 0 ≤ i < 64 → decoded (base64_char i) = i.
Proof.
  intros Hi. rewrite <- (Z2Nat.id i) by lia.
  assert (Z.to_nat i < 64)%nat as Hn by lia.
  generalize dependent (Z.to_nat i). clear i Hi. intros n Hn.
  do 64 (destruct n as [|n]; [by vm_compute|]). lia.
Qed.

Lemma decoded_pad : decoded (char 61) = -1.
Proof. by vm_compute. Qed.

Lemma decode_loop_0 val out i rest :
  0 ≤ i < 64 →
  decode_loop val (-8) out (base64_char i :: rest)
  = decode_loop (int_wrap (Z.shiftl val 6) + i) (-2) out rest.
Proof.
  intros Hi. cbn [decode_loop]. rewrite decoded_base64_char by done.
  destruct (Z.eqb_spec i (-1)) as [?|_]; [lia|]. done.
Qed.

Lemma decode_loop_1 val out i rest :
  0 ≤ i < 64 →
  decode_loop val (-2) out (base64_char i :: rest)
  = decode_loop (int_wrap (Z.shiftl val 6) + i) (-4)
                (out ++ [char (val mod 64 * 4 + i / 16)]) rest.
Proof.
  intros Hi. cbn [decode_loop]. rewrite decoded_base64_char by done.
  destruct (Z.eqb_spec i (-1)) as [?|_]; [lia|].
  change (0 <=? -2 + 6) with true. cbv iota. change (-2 + 6 - 8) with (-4).
  f_equal. f_equal. f_equal. f_equal. bits.
Qed.

Lemma decode_loop_2 val out i rest :
  0 ≤ i < 64 →
  decode_loop val (-4) out (base64_char i :: rest)
  = decode_loop (int_wrap (Z.shiftl val 6) + i) (-6)
                (out ++ [char (val mod 16 * 16 + i / 4)]) rest.
Proof.
  intros Hi. cbn [decode_loop]. rewrite decoded_base64_char by done.
  destruct (Z.eqb_spec i (-1)) as [?|_]; [lia|].
  change (0 <=? -4 + 6) with true. cbv iota. change (-4 + 6 - 8) with (-6).
  f_equal. f_equal. f_equal. f_equal. bits.
Qed.

Lemma decode_loop_3 val out i rest :
  0 ≤ i < 64 →
  decode_loop val (-6) out (base64_char i :: rest)
  = decode_loop (int_wrap (Z.shiftl val 6) + i) (-8)
                (out ++ [char (val mod 4 * 64 + i)]) rest.
Proof.
  intros Hi. cbn [decode_loop]. rewrite decoded_base64_char by done.
  destruct (Z.eqb_spec i (-1)) as [?|_]; [lia|].
  change (0 <=? -6 + 6) with true. cbv iota. change (-6 + 6 - 8) with (-8).
  f_equal. f_equal. f_equal. f_equal. bits.
Qed.

Lemma decode_loop_pad val valb out rest :
  decode_loop val valb out (char 61 :: rest) = out.
Proof. cbn [decode_loop]. by rewrite decoded_pad. Qed.

Ltac lens :=
  rewrite ?length_app; cbn [length]; rewrite ?Nat2Z.inj_add;
  Z.div_mod_to_equations; lia.

Lemma pad_full out : Z.of_nat (length out) mod 4 = 0 → pad 3 out = out.
Proof. intros H. cbn [pad]. by rewrite bool_decide_false by lia. Qed.

Lemma pad_one out a b c :
  Z.of_nat (length out) mod 4 = 0 →
  pad 3 (out ++ [a; b; c]) = out ++ [a; b; c; char 61].
Proof.
  intros H. cbn [pad].
  rewrite bool_decide_true by lens.
  rewrite <- app_assoc. cbn [app].
  by rewrite bool_decide_false by lens.
Qed.

Lemma pad_two out a b :
  Z.of_nat (length out) mod 4 = 0 →
  pad 3 (out ++ [a; b]) = out ++ [a; b; char 61; char 61].
Proof.
  intros H. cbn [pad].
  rewrite bool_decide_true by lens.
  rewrite <- app_assoc. cbn [app].
  rewrite bool_decide_true by lens.
  rewrite <- app_assoc. cbn [app].
  by rewrite bool_decide_false by lens.
Qed.

(** The encoder emits the groups of [quads]. *)
Lemma encode_quads input : ∀ val out,
  Z.of_nat (length out) mod 4 = 0 →
  finish (foldl encode_step (val, -6, out) input) = out ++ quads input.
Proof.
  induction input as [|a|a b|a b c input IH] using list_ind3; intros val out Hlen.
  - cbn [foldl finish quads]. change (-6 <? -6) with false. cbv iota.
    rewrite app_nil_r. by apply pad_full.
  - cbn [foldl quads]. rewrite encode_step_0. cbn [finish].
    change (-6 <? -4) with true. cbv iota. rewrite <- app_assoc. cbn [app].
    rewrite pad_two by done. pose proof (code_range a).
    do 4 f_equal. bits.
  - cbn [foldl quads]. rewrite encode_step_0, encode_step_1. cbn [finish].
    change (-6 <? -2) with true. cbv iota. rewrite <- !app_assoc. cbn [app].
    rewrite pad_one by done. pose proof (code_range a). pose proof (code_range b).
    f_equal. f_equal. f_equal; [f_equal; bits|]. do 2 f_equal. bits.
  - cbn [foldl quads]. rewrite encode_step_0, encode_step_1, encode_step_2.
    rewrite <- !app_assoc. cbn [app].
    rewrite (IH _ (out ++ [_; _; _; _])).
    + rewrite <- !app_assoc. cbn [app].
      pose proof (code_range a). pose proof (code_range b). pose proof (code_range c).
      f_equal. f_equal. f_equal; [f_equal; bits|]. f_equal. f_equal. bits.
    + lens.
Qed.

(** The decoder reads the groups of [quads] back. *)
Lemma decode_quads input : ∀ val out,
  decode_loop val (-8) out (quads input) = out ++ input.
Proof.
  induction input as [|a|a b|a b c input IH] using list_ind3; intros val out.
  - cbn. by rewrite app_nil_r.
  - pose proof (code_range a). cbn [quads].
    rewrite decode_loop_0, decode_loop_1, decode_loop_pad
      by (Z.div_mod_to_equations; lia).
    do 2 f_equal. apply char_eq. bits.
  - pose proof (code_range a). pose proof (code_range b). cbn [quads].
    rewrite decode_loop_0, decode_loop_1, decode_loop_2, decode_loop_pad
      by (Z.div_mod_to_equations; lia).
    rewrite <- app_assoc. cbn [app]. f_equal.
    f_equal; [apply char_eq; bits|]. f_equal. apply char_eq. bits.
  - pose proof (code_range a). pose proof (code_range b). pose proof (code_range c).
    cbn [quads app].
    rewrite decode_loop_0, decode_loop_1, decode_loop_2, decode_loop_3
      by (Z.div_mod_to_equations; lia).
    rewrite IH. rewrite <- !app_assoc. cbn [app]. f_equal.
    f_equal; [apply char_eq; bits|]. f_equal; [apply char_eq; bits|].
    f_equal. apply char_eq. bits.
Qed.

Lemma length_quads input :
  Z.of_nat (length (quads input)) = 4 * ((Z.of_nat (length input) + 2) / 3).
Proof.
  induction input as [|a|a b|a b c input IH] using list_ind3; try done.
  cbn [quads]. rewrite length_app. cbn [length].
  rewrite !Nat2Z.inj_succ, Nat2Z.inj_add, IH. cbn [length Z.of_nat].
  Z.div_mod_to_equations. lia.
Qed.

Lemma length_string_of_list_ascii (l : list ascii) :
  String.length (String.string_of_list_ascii l) = length l.
Proof. induction l as [|c l IH]; [done|]. cbn. by rewrite IH. Qed.

Lemma encode_chars_quads input : encode_chars input = quads input.
Proof.
  unfold encode_chars.
  pose proof (encode_quads input 0 [] eq_refl) as Hquads. unfold finish in Hquads.
  by destruct (foldl encode_step (0, -6, []) input) as [[val valb] output].
Qed.

(** X28: [base64_decode] inverts [base64_encode] on every
    string, of whatever length and bytes; the encoding of [n] bytes has
    [4 * ceil(n / 3)] characters. *)
Theorem base64_decode_inverts_base64_encode (input : string) :
  base64_decode (base64_encode input) = input
  ∧ Z.of_nat (String.length (base64_encode input))
    = 4 * ((Z.of_nat (String.length input) + 2) / 3).
Proof.
  unfold base64_decode, base64_encode.
  rewrite String.list_ascii_of_string_of_list_ascii, encode_chars_quads. split.
  - unfold decode_chars. rewrite decode_quads. cbn [app].
    apply String.string_of_list_ascii_of_string.
  - rewrite length_string_of_list_ascii, length_quads.
    by rewrite <- (String.string_of_list_ascii_of_string input) at 2;
      rewrite length_string_of_list_ascii.
Qed.

End TokenValidator_facts.

(** ** Rate limiting *)

Module RateLimiter_facts.
Import RateLimiter.

Section table.
Variable ticks_per_us : Z.
Variable iteration : gmap string Z → list (string * Z).
Hypothesis iteration_lists : ∀ m, iteration m ≡ₚ map_to_list m.

Lemma without_in_step client_id r :
  in_step r →
  in_step (without client_id r)
  ∧ (size (client_buckets_ (without client_id r)) ≤ size (client_buckets_ r))%nat.
Proof.
  intros (Hdom & Hempty & Htimes). split; [split; [|split]|]; cbn.
  - by rewrite !dom_delete_L, Hdom.
  - apply lookup_delete_None. by right.
  - by apply map_Forall_delete.
  - rewrite map_size_delete.
    destruct (client_buckets_ r !! client_id); [apply Nat.le_pred_l|done].
Qed.

Lemma without_tracked client_id r :
  in_step r → is_Some (last_access_ r !! client_id) →
  (S (size (client_buckets_ (without client_id r))) = size (client_buckets_ r))%nat.
Proof.
  intros (Hdom & _ & _) Hsome. cbn. rewrite map_size_delete.
  apply elem_of_dom in Hsome. rewrite <- Hdom in Hsome. apply elem_of_dom in Hsome.
  destruct Hsome as [b Hb]. rewrite Hb.
  apply Nat.succ_pred.
  intros Hzero%map_size_empty_iff. by rewrite Hzero in Hb.
Qed.

Lemma cleanup_as_without now r :
  ∃ removed,
    cleanup_inactive_clients ticks_per_us iteration now r = foldl (flip without) r removed.
Proof. by eexists. Qed.

Lemma foldl_without_in_step removed r :
  in_step r →
  in_step (foldl (flip without) r removed)
  ∧ (size (client_buckets_ (foldl (flip without) r removed))
     ≤ size (client_buckets_ r))%nat
  ∧ config_ (foldl (flip without) r removed) = config_ r.
Proof.
  revert r. induction removed as [|k removed IH]; intros r Hr; [done|].
  cbn [foldl flip]. destruct (without_in_step k r Hr) as [Hstep Hsize].
  destruct (IH _ Hstep) as (? & ? & ?). split; [done|]. split; [lia|done].
Qed.

Lemma oldest_found entries :
  entries ≠ [] → Forall (λ p, p.2 < time_point_max) entries →
  oldest entries ∈ entries.
Proof.
  induction entries as [|x entries IH] using rev_ind; [done|].
  intros _ [Hentries Hx]%Forall_app. rewrite Forall_singleton in Hx. unfold oldest in *. rewrite foldl_app. cbn [foldl].
  destruct entries as [|y entries].
  - cbn [foldl snd]. destruct (Z.ltb_spec x.2 time_point_max) as [_|?]; [|lia].
    by left.
  - destruct (_ <? _).
    + apply elem_of_app. right. by left.
    + apply elem_of_app. left. by apply IH.
Qed.

Lemma get_or_create_bucket_in_step client_id now r :
  client_id ≠ "" → at_created now < time_point_max →
  1 ≤ max_clients (config_ r) →
  in_step r → Z.of_nat (size (client_buckets_ r)) ≤ max_clients (config_ r) →
  let r' := get_or_create_bucket ticks_per_us iteration client_id now r in
  in_step r'
  ∧ Z.of_nat (size (client_buckets_ r')) ≤ max_clients (config_ r)
  ∧ config_ r' = config_ r
  ∧ is_Some (client_buckets_ r' !! client_id).
Proof.
  intros Hid Htime Hmax Hr Hsize r'. subst r'. unfold get_or_create_bucket.
  destruct (client_buckets_ r !! client_id) as [b|] eqn:Hb; [by eauto|].
  (* the limiter after the room has been made *)
  set (made := if max_clients (config_ r) <=? Z.of_nat (size (client_buckets_ r)) then _
               else r).
  assert (in_step made
          ∧ Z.of_nat (size (client_buckets_ made)) < max_clients (config_ r)
          ∧ config_ made = config_ r
          ∧ client_buckets_ made !! client_id = None) as (Hmade & Hroom & Hconfig & Hnew).
  { subst made.
    destruct (Z.leb_spec (max_clients (config_ r)) (Z.of_nat (size (client_buckets_ r))))
      as [Hfull|?]; [|done].
    destruct (cleanup_as_without (at_cleanup now) r) as [removed ->].
    destruct (foldl_without_in_step removed r Hr) as (Hclean & Hle & Hcfg).
    set (cleaned := foldl (flip without) r removed) in *.
    assert (client_buckets_ cleaned !! client_id = None) as Hnone.
    { subst cleaned. clear -Hb. revert r Hb.
      induction removed as [|k removed IH]; intros r Hb; [done|].
      cbn [foldl flip]. apply IH. cbn. apply lookup_delete_None. by right. }
    destruct (Z.leb_spec (max_clients (config_ cleaned))
                         (Z.of_nat (size (client_buckets_ cleaned)))) as [Hstill|Hroom];
      [rewrite Hcfg in Hstill|rewrite Hcfg in Hroom; done].
    assert (oldest (iteration (last_access_ cleaned)) ∈ map_to_list (last_access_ cleaned))
      as Hold.
    { rewrite <- iteration_lists. apply oldest_found.
      - intros Hnil. pose proof (iteration_lists (last_access_ cleaned)) as Hperm.
        rewrite Hnil in Hperm. symmetry in Hperm. apply Permutation_nil_r in Hperm.
        apply map_to_list_empty_iff in Hperm.
        destruct Hclean as (Hdom & _ & _). rewrite Hperm, dom_empty_L in Hdom.
        apply dom_empty_iff_L in Hdom. rewrite Hdom, map_size_empty in Hstill. lia.
      - rewrite iteration_lists. apply Forall_forall. intros [k time] Hin.
        apply elem_of_map_to_list in Hin. destruct Hclean as (_ & _ & Htimes).
        apply (Htimes k time Hin). }
    destruct (oldest (iteration (last_access_ cleaned))) as [k time].
    apply elem_of_map_to_list in Hold. cbn [fst].
    assert (k ≠ "") as Hk.
    { intros ->. destruct Hclean as (_ & Hempty & _). by rewrite Hempty in Hold. }
    rewrite bool_decide_true by done.
    fold (without k cleaned).
    destruct (without_in_step k cleaned Hclean) as [Hstep _].
    pose proof (without_tracked k cleaned Hclean (mk_is_Some _ _ Hold)) as Hpred.
    split; [done|]. split; [lia|]. split; [done|].
    cbn. apply lookup_delete_None. by right. }
  cbn [client_buckets_ last_access_ config_]. rewrite Hconfig.
  destruct Hmade as (Hdom & Hempty & Htimes).
  split; [split; [|split]|split; [|split]]; cbn.
  - by rewrite !dom_insert_L, Hdom.
  - by rewrite lookup_insert_ne.
  - by apply map_Forall_insert_2.
  - rewrite map_size_insert, Hnew. cbn. lia.
  - done.
  - rewrite lookup_insert_eq. by eexists.
Qed.

Lemma allow_request_within config client_id tokens now r :
  1 ≤ max_clients config →
  named (CallAllowRequest client_id tokens now) →
  within config r →
  within config (allow_request ticks_per_us iteration client_id tokens now r).2.
Proof.
  intros Hmax (Hid & Hcreated & Hallowed) Hr. unfold allow_request.
  (* the global bucket leaves the tables alone *)
  set (global := match enable_global (config_ r), global_bucket_ r with
                 | true, Some bucket => _
                 | _, _ => (true, r)
                 end).
  assert (within config global.2) as Hglobal.
  { subst global. destruct (enable_global (config_ r)), (global_bucket_ r) as [bucket|];
      try done.
    by destruct (TokenBucket.try_consume ticks_per_us tokens (at_global now) bucket). }
  destruct global as [ok r1]. cbn [snd] in Hglobal. clear Hr r.
  destruct ok; cbn [negb]; [|done].
  destruct (enable_per_client (config_ r1)); [|done].
  destruct Hglobal as (Hstep & Hsize & Hconfig).
  destruct (get_or_create_bucket_in_step client_id now r1 Hid Hcreated)
    as (Hstep2 & Hsize2 & Hconfig2 & [bucket Hbucket]);
    [by rewrite Hconfig|done|by rewrite Hconfig|].
  set (r2 := get_or_create_bucket ticks_per_us iteration client_id now r1) in *.
  rewrite Hbucket.
  destruct (TokenBucket.try_consume ticks_per_us tokens (at_client now) bucket)
    as [ok bucket'].
  destruct Hstep2 as (Hdom & Hempty & Htimes).
  assert (is_Some (last_access_ r2 !! client_id)) as Haccess.
  { apply elem_of_dom. rewrite <- Hdom. apply elem_of_dom. by eexists. }
  destruct ok; cbn [negb snd client_buckets_ last_access_ config_].
  - split; [split; [|split]|split]; cbn.
    + rewrite !dom_insert_lookup_L; [done|done|by eexists].
    + by rewrite lookup_insert_ne.
    + by apply map_Forall_insert_2.
    + rewrite map_size_insert, Hbucket. cbn. rewrite <- Hconfig, <- Hconfig2.
      by rewrite Hconfig2.
    + by rewrite Hconfig2.
  - split; [split; [|split]|split]; cbn.
    + rewrite dom_insert_lookup_L; [done|by eexists].
    + done.
    + done.
    + rewrite map_size_insert, Hbucket. cbn. by rewrite <- Hconfig.
    + by rewrite Hconfig2.
Qed.

Lemma perform_within config r c :
  1 ≤ max_clients config → named c → within config r →
  within config (perform ticks_per_us iteration r c).
Proof.
  intros Hmax Hnamed Hr. destruct c as [client_id tokens now|now|now]; cbn [perform].
  - by apply allow_request_within.
  - destruct (cleanup_as_without now r) as [removed ->].
    destruct Hr as (Hstep & Hsize & Hconfig).
    destruct (foldl_without_in_step removed r Hstep) as (? & ? & ?).
    split; [done|]. split; [lia|congruence].
  - destruct Hr as (_ & _ & Hconfig). split; [|split]; cbn; [| |done].
    + split; [done|]. split; [done|]. apply map_Forall_empty.
    + rewrite map_size_empty. lia.
Qed.

(** X29: with [max_clients] at least 1, over any sequence of
    [allow_request] calls for clients with a non-empty id (the clock below
    its greatest time point), [cleanup_inactive_clients] and [clear] on a
    new limiter, and whatever order the loops go through the table in,
    the bucket table and the access table hold the same clients and never
    more than [max_clients] of them: a request of a new client at a full
    table first removes the inactive clients and then, if the table is
    still full, a client with the oldest access time. *)
Theorem client_table_stays_within_max_clients
    (config : Config) (now : Z) (calls : list call) :
  1 ≤ max_clients config →
  Forall named calls →
  let r := history ticks_per_us iteration config now calls in
  dom (client_buckets_ r) = dom (last_access_ r)
  ∧ client_count r ≤ max_clients config
  ∧ config_ r = config.
Proof.
  intros Hmax Hcalls r.
  assert (within config r) as ((Hdom & _ & _) & Hsize & Hconfig); [|done].
  subst r. unfold history.
  induction calls as [|c calls IH] using rev_ind.
  - cbn. split; [|split; [cbn; rewrite map_size_empty; lia|done]].
    split; [done|]. split; [done|]. apply map_Forall_empty.
  - apply Forall_app in Hcalls as [Hcalls Hc]. rewrite Forall_singleton in Hc.
    rewrite foldl_app. cbn [foldl]. apply perform_within; [done|done|].
    by apply IH.
Qed.

End table.

Lemma client_table_stays_within_max_clients_witness :
  (∀ m : gmap string Z, map_to_list m ≡ₚ map_to_list m)
  ∧ 1 ≤ max_clients example_limiter_config
  ∧ Forall named example_limiter_calls
  ∧ client_count (history 1000 map_to_list example_limiter_config 0 example_limiter_calls)
    ≤ max_clients example_limiter_config.
Proof.
  assert (H1 : ∀ m : gmap string Z, map_to_list m ≡ₚ map_to_list m) by done.
  assert (H2 : 1 ≤ max_clients example_limiter_config) by (simpl; lia).
  assert (H3 : Forall named example_limiter_calls).
  { repeat constructor; try done; by vm_compute. }
  split; [exact H1|]. split; [exact H2|]. split; [exact H3|].
  exact (proj1 (proj2 (client_table_stays_within_max_clients 1000 map_to_list H1
                         example_limiter_config 0 example_limiter_calls H2 H3))).
Defined.

(** The precondition on the ids is needed: a client with the empty id
    that holds the oldest access time is never evicted, and the table
    outgrows [max_clients]. *)
Example empty_client_id_is_never_evicted :
  client_count
    (history 1000 map_to_list example_limiter_config 0
       [CallAllowRequest "" 1 (at_time 1000000000);
        CallAllowRequest "10.0.0.2" 1 (at_time 2000000000);
        CallAllowRequest "10.0.0.3" 1 (at_time 3000000000)])
  = 3.
Proof. by vm_compute. Qed.

End RateLimiter_facts.

(** ** The rebalance orchestrator *)

Module RebalanceOrchestrator_facts.
Import RebalanceOrchestrator.

(** Every key on a path of [group_keys_by_migration_path] is one of the
    given keys and has that path as its migration path. *)
Lemma group_keys_sound (keys : list string) (o : t) path ks k :
  group_keys_by_migration_path keys o !! path = Some ks → k ∈ ks →
  k ∈ keys ∧ migration_path k o = Some path.
Proof.
  unfold group_keys_by_migration_path. revert path ks k.
  induction keys as [|key keys IH] using rev_ind; intros path ks k; simpl.
  - by rewrite lookup_empty.
  - rewrite foldl_app; simpl.
    set (paths := foldl _ ∅ keys) in *.
    destruct (migration_path key o) as [p|] eqn:Hp.
    + destruct (decide (p = path)) as [->|Hne].
      * rewrite lookup_insert_eq. intros [= <-] [Hin|Hin]%elem_of_app.
        -- destruct (paths !! path) as [ks0|] eqn:Hks0; simpl in Hin;
             [|by apply elem_of_nil in Hin].
           destruct (IH path ks0 k Hks0 Hin) as [? ?].
           split; [|done]. apply elem_of_app. by left.
        -- apply list_elem_of_singleton in Hin as ->.
           split; [|done]. apply elem_of_app. right. by apply list_elem_of_singleton.
      * rewrite lookup_insert_ne by done. intros Hl Hin.
        destruct (IH path ks k Hl Hin) as [? ?].
        split; [|done]. apply elem_of_app. by left.
    + intros Hl Hin. destruct (IH path ks k Hl Hin) as [? ?].
      split; [|done]. apply elem_of_app. by left.
Qed.

Lemma group_keys_nonempty (keys : list string) (o : t) path ks :
  group_keys_by_migration_path keys o !! path = Some ks → ks ≠ [].
Proof.
  unfold group_keys_by_migration_path. revert path ks.
  induction keys as [|key keys IH] using rev_ind; intros path ks; simpl.
  - by rewrite lookup_empty.
  - rewrite foldl_app; simpl.
    destruct (migration_path key o) as [p|]; [|by apply IH].
    destruct (decide (p = path)) as [->|Hne].
    + rewrite lookup_insert_eq. intros [= <-] Hnil. by apply app_nil in Hnil as [_ ?].
    + rewrite lookup_insert_ne by done. by apply IH.
Qed.

(** Every given key that moves is on its migration path. *)
Lemma group_keys_complete (keys : list string) (o : t) path k :
  k ∈ keys → migration_path k o = Some path →
  ∃ ks, group_keys_by_migration_path keys o !! path = Some ks ∧ k ∈ ks.
Proof.
  unfold group_keys_by_migration_path.
  induction keys as [|key keys IH] using rev_ind; intros Hin Hpath.
  - by apply elem_of_nil in Hin.
  - rewrite foldl_app; simpl.
    set (paths := foldl _ ∅ keys) in *.
    apply elem_of_app in Hin as [Hin|Hin].
    + destruct (IH Hin Hpath) as (ks & Hks & Hk).
      destruct (migration_path key o) as [p|] eqn:Hp; [|by eauto].
      destruct (decide (p = path)) as [->|Hne].
      * rewrite lookup_insert_eq, Hks. simpl. eexists. split; [done|].
        apply elem_of_app. by left.
      * rewrite lookup_insert_ne by done. by eauto.
    + apply list_elem_of_singleton in Hin as ->. rewrite Hpath.
      rewrite lookup_insert_eq. eexists. split; [done|].
      apply elem_of_app. right. by apply list_elem_of_singleton.
Qed.

(** The jobs handed over are the given paths, one job per path. *)
Lemma create_jobs_spawned clock paths :
  ∀ first o job,
    job ∈ (create_jobs clock paths first o).1.2 →
    ∃ keys, ((source_node_id job, target_node_id job), keys) ∈ paths.
Proof.
  induction paths as [|[[src tgt] ks] rest IH]; intros first o job; simpl.
  - by intros ?%elem_of_nil.
  - destruct (create_jobs clock rest _ _) as [[first' spawned] o3] eqn:Hrest.
    simpl. intros [Heq|Hin]%elem_of_cons.
    + simplify_eq. simpl. exists ks. by left.
    + match type of Hrest with
      | create_jobs _ _ ?f ?o2 = _ => pose proof (IH f o2 job) as IH'
      end.
      rewrite Hrest in IH'. destruct (IH' Hin) as [keys Hkeys].
      exists keys. by right.
Qed.

Lemma create_jobs_complete clock paths :
  ∀ first o source target keys,
    ((source, target), keys) ∈ paths →
    ∃ job, job ∈ (create_jobs clock paths first o).1.2 ∧
           source_node_id job = source ∧ target_node_id job = target.
Proof.
  induction paths as [|[[src tgt] ks] rest IH]; intros first o source target keys; simpl.
  - by intros ?%elem_of_nil.
  - destruct (create_jobs clock rest _ _) as [[first' spawned] o3] eqn:Hrest.
    simpl. intros [Heq|Hin]%elem_of_cons.
    + simplify_eq. eexists. split; [by left|]. done.
    + match type of Hrest with
      | create_jobs _ _ ?f ?o2 = _ =>
          pose proof (IH f o2 source target keys Hin) as (job & Hjob & ?)
      end.
      rewrite Hrest in Hjob. exists job. split; [by right|done].
Qed.

(** Planning changes neither the engine, nor the rings, nor the batch
    size. *)
Lemma create_jobs_frame clock paths :
  ∀ first o,
    let o' := (create_jobs clock paths first o).2 in
    storage_ o' = storage_ o ∧ old_ring_ o' = old_ring_ o ∧
    new_ring_ o' = new_ring_ o ∧ batch_size_ o' = batch_size_ o.
Proof.
  induction paths as [|[[src tgt] ks] rest IH]; intros first o; simpl; [done|].
  destruct (create_jobs clock rest _ _) as [[first' spawned] o3] eqn:Hrest.
  simpl.
  match type of Hrest with create_jobs _ _ ?f ?o2 = _ => specialize (IH f o2) end.
  rewrite Hrest in IH. exact IH.
Qed.

Lemma start_drain_frame clock timeout o :
  let o' := (start_drain clock timeout o).2 in
  storage_ o' = storage_ o ∧ old_ring_ o' = old_ring_ o ∧
  new_ring_ o' = new_ring_ o ∧ batch_size_ o' = batch_size_ o.
Proof.
  unfold start_drain.
  destruct ((ShardedHashTable.for_each _ _).*1) as [|key keys]; [done|].
  unfold plan.
  pose proof (create_jobs_frame clock
                (in_path_order (group_keys_by_migration_path (key :: keys) o)) "" o)
    as Hframe.
  destruct (create_jobs clock _ "" o) as [[first spawned] o']. exact Hframe.
Qed.

(** The targets of the jobs of a plan are the new owners of the keys that
    move. *)
Lemma plan_targets clock keys o target :
  (∃ job, job ∈ (plan clock keys o).1.2 ∧ target_node_id job = target) ↔
  (∃ mover source, mover ∈ keys ∧ migration_path mover o = Some (source, target)).
Proof.
  unfold plan.
  destruct (create_jobs clock _ "" o) as [[first spawned] o'] eqn:Hjobs. simpl.
  split.
  - intros (job & Hin & <-).
    assert (job ∈ (create_jobs clock
              (in_path_order (group_keys_by_migration_path keys o)) "" o).1.2)
      as Hin' by (by rewrite Hjobs).
    apply create_jobs_spawned in Hin' as [ks Hks].
    unfold in_path_order in Hks. rewrite merge_sort_Permutation in Hks.
    apply elem_of_map_to_list in Hks.
    destruct ks as [|k ks']; [by apply group_keys_nonempty in Hks|].
    destruct (group_keys_sound keys o _ _ k Hks) as [? ?]; [by left|].
    by exists k, (source_node_id job).
  - intros (mover & source & Hin & Hpath).
    destruct (group_keys_complete keys o _ mover Hin Hpath) as (ks & Hks & _).
    apply elem_of_map_to_list in Hks.
    rewrite <- (merge_sort_Permutation path_le) in Hks.
    destruct (create_jobs_complete clock _ "" o _ _ _ Hks) as (job & Hjob & _ & Htgt).
    fold (in_path_order (group_keys_by_migration_path keys o)) in Hjob.
    rewrite Hjobs in Hjob. by exists job.
Qed.

Lemma start_drain_targets clock timeout o target :
  (∃ job, job ∈ (start_drain clock timeout o).1.2 ∧ target_node_id job = target) ↔
  (∃ mover source,
     mover ∈ (ShardedHashTable.for_each (expiry_check_at clock) (storage_ o)).*1 ∧
     migration_path mover o = Some (source, target)).
Proof.
  unfold start_drain.
  destruct ((ShardedHashTable.for_each _ _).*1) as [|key keys] eqn:Hkeys.
  - simpl. split.
    + intros (job & Hin & _). by apply elem_of_nil in Hin.
    + intros (mover & source & Hin & _). by apply elem_of_nil in Hin.
  - apply plan_targets.
Qed.

(** What a drain assigns: a key is collected by one of the jobs exactly
    when it is unexpired at the scan of the job and some key of the engine
    moves to the node that owns it in the new ring. *)
Lemma start_drain_assigned clock scan_at timeout o key :
  assigned scan_at (start_drain clock timeout o).1.2 o key ↔
  key ∈ (ShardedHashTable.for_each scan_at (storage_ o)).*1 ∧
  ∃ mover source target,
    mover ∈ (ShardedHashTable.for_each (expiry_check_at clock) (storage_ o)).*1 ∧
    migration_path mover o = Some (source, target) ∧
    HashRing.id <$> HashRing.get_node key (new_ring_ o) = Some target.
Proof.
  unfold assigned, keys_to_migrate. split.
  - intros (job & Hjob & Hkey).
    apply list_elem_of_fmap in Hkey as ([k e] & -> & [Howner Hin]%list_elem_of_filter).
    simpl in *. split; [apply list_elem_of_fmap; by exists (k, e)|].
    destruct (proj1 (start_drain_targets clock timeout o (target_node_id job)))
      as (mover & source & ? & ?); [by exists job|].
    by exists mover, source, (target_node_id job).
  - intros [Hkey (mover & source & target & Hmover & Hpath & Howner)].
    destruct (proj2 (start_drain_targets clock timeout o target))
      as (job & Hjob & <-); [by exists mover, source|].
    exists job. split; [done|].
    apply list_elem_of_fmap in Hkey as ([k e] & -> & Hin).
    apply list_elem_of_fmap. exists (k, e). split; [done|].
    by apply list_elem_of_filter.
Qed.

Section jobs.
Context {platform : Platform}.

Lemma cleanup_returns keys : ∀ storage,
  ShardedHashTable.shards_ storage ≠ [] →
  ∃ storage', cleanup_migrated_keys keys storage = Some (true, storage') ∧
              ShardedHashTable.shards_ storage' ≠ [].
Proof.
  induction keys as [|key rest IH]; intros storage Hne; simpl; [by eauto|].
  destruct (ShardedHashTable_facts.del_returns key storage Hne) as (r & s' & -> & Hlen).
  simpl. apply IH. by eapply ShardedHashTable_facts.nonempty_of_length.
Qed.

Lemma cleanup_keeps keys key : ∀ storage b storage',
  cleanup_migrated_keys keys storage = Some (b, storage') → key ∉ keys →
  ShardedHashTable.stored key storage' = ShardedHashTable.stored key storage.
Proof.
  induction keys as [|k rest IH]; intros storage b storage' Hrun Hnot; simpl in Hrun.
  - by simplify_eq.
  - apply not_elem_of_cons in Hnot as [Hne Hnot].
    destruct (ShardedHashTable.del k storage) as [[r s1]|] eqn:Hdel; [|done].
    simpl in Hrun. rewrite (IH _ _ _ Hrun Hnot).
    apply ShardedHashTable_facts.del_reshaped in Hdel.
    by destruct (ShardedHashTable_facts.reshaped_stored _ _ _ _ key Hdel Hne)
      as [?|(? & _)].
Qed.

(** With a batch size above zero the batch loop ends within one turn per
    key. *)
Lemma migrate_batches_returns client o fuel : ∀ remaining job storage calls,
  0 < batch_size_ o → (length remaining ≤ fuel)%nat →
  ShardedHashTable.shards_ storage ≠ [] →
  ∃ job' storage' calls',
    migrate_batches fuel client remaining job storage calls o
    = Some (job', storage', calls') ∧
    ShardedHashTable.shards_ storage' ≠ [].
Proof.
  induction fuel as [|fuel IH]; intros remaining job storage calls Hsize Hlen Hne.
  - destruct remaining; [|simpl in Hlen; lia]. simpl. by eauto.
  - destruct remaining as [|p rest]; [simpl; by eauto|].
    cbn [migrate_batches].
    destruct (failed job); [by eauto|].
    destruct (migrate_batch client _ (target_node_id job) o) as [[] sent]; [|by eauto].
    destruct (cleanup_returns (take (Z.to_nat (batch_size_ o)) (p :: rest)).*1
                storage Hne) as (s' & -> & Hne'). simpl.
    apply IH; [done| |done].
    rewrite length_drop. simpl in *. lia.
Qed.

(** The batch loop deletes only keys it was given. *)
Lemma migrate_batches_keeps client o key fuel :
  ∀ remaining job storage calls job' storage' calls',
    migrate_batches fuel client remaining job storage calls o
    = Some (job', storage', calls') →
    key ∉ remaining.*1 →
    ShardedHashTable.stored key storage' = ShardedHashTable.stored key storage.
Proof.
  induction fuel as [|fuel IH];
    intros remaining job storage calls job' storage' calls' Hrun Hnot.
  - destruct remaining; simpl in Hrun; by simplify_eq.
  - destruct remaining as [|p rest]; [simpl in Hrun; by simplify_eq|].
    cbn [migrate_batches] in Hrun.
    destruct (failed job); [by simplify_eq|].
    destruct (migrate_batch client _ (target_node_id job) o) as [[] sent];
      [|by simplify_eq].
    destruct (cleanup_migrated_keys _ storage) as [[b s1]|] eqn:Hclean; [|done].
    simpl in Hrun.
    rewrite (IH _ _ _ _ _ _ _ Hrun).
    + eapply cleanup_keeps; [exact Hclean|].
      intros Hin. apply Hnot.
      rewrite <- (take_drop (Z.to_nat (batch_size_ o)) (p :: rest)), fmap_app.
      apply elem_of_app. by left.
    + intros Hin. apply Hnot.
      rewrite <- (take_drop (Z.to_nat (batch_size_ o)) (p :: rest)), fmap_app.
      apply elem_of_app. by right.
Qed.

(** A job leaves alone the keys that its target does not own in the new
    ring. *)
Lemma execute_job_keeps scan_at client job o job' calls o' key :
  execute_job scan_at client job o = Some (job', calls, o') →
  HashRing.id <$> HashRing.get_node key (new_ring_ o) ≠ Some (target_node_id job) →
  ShardedHashTable.stored key (storage_ o') = ShardedHashTable.stored key (storage_ o).
Proof.
  unfold execute_job. intros Hrun Howner.
  destruct (migrate_batches _ client _ _ (storage_ o) [] o) as [[[job2 s'] cs]|] eqn:Hloop;
    [|done].
  simpl in Hrun. simplify_eq. simpl.
  eapply migrate_batches_keeps; [exact Hloop|].
  unfold keys_to_migrate. intros ([k e] & -> & [Hk _]%list_elem_of_filter)%list_elem_of_fmap.
  by apply Howner.
Qed.

Lemma execute_job_returns scan_at client job o :
  0 < batch_size_ o → ShardedHashTable.shards_ (storage_ o) ≠ [] →
  ∃ job' calls o',
    execute_job scan_at client job o = Some (job', calls, o') ∧
    ShardedHashTable.shards_ (storage_ o') ≠ [] ∧
    new_ring_ o' = new_ring_ o ∧ batch_size_ o' = batch_size_ o.
Proof.
  intros Hsize Hne. unfold execute_job.
  edestruct (migrate_batches_returns client o) as (job2 & s' & cs & -> & Hne');
    [exact Hsize|reflexivity|exact Hne|].
  simpl. by eexists _, _, _.
Qed.

(** A drain returns, and leaves alone the keys whose owner in the new ring
    is the target of none of its jobs. *)
Lemma run_jobs_keeps scan_at client key jobs : ∀ o,
  0 < batch_size_ o → ShardedHashTable.shards_ (storage_ o) ≠ [] →
  (∀ job, job ∈ jobs →
     HashRing.id <$> HashRing.get_node key (new_ring_ o) ≠ Some (target_node_id job)) →
  ∃ calls o',
    run_jobs scan_at client jobs o = Some (calls, o') ∧
    ShardedHashTable.stored key (storage_ o') = ShardedHashTable.stored key (storage_ o).
Proof.
  induction jobs as [|job rest IH]; intros o Hsize Hne Htargets; simpl; [by eauto|].
  destruct (execute_job_returns scan_at client job o Hsize Hne)
    as (job' & calls & o1 & Hrun & Hne1 & Hring & Hsize1).
  rewrite Hrun. simpl.
  destruct (IH o1) as (calls' & o2 & -> & Hkept); [lia|done| |].
  { intros j Hj. rewrite Hring. apply Htargets. by right. }
  simpl. eexists _, _. split; [done|]. rewrite Hkept.
  eapply execute_job_keeps; [exact Hrun|]. apply Htargets. by left.
Qed.

End jobs.

Section examples.
#[local] Existing Instance example_platform.

(** In the cluster of [node-a] and [node-b], the drain of [node-a] plans
    one job, to [node-b], for the one key that moves, ["user:2"].  Run,
    the job collects every key of the engine that [node-b] owns in the new
    ring: ["user:1"], which [node-b] owns in both rings, is sent and
    deleted along with ["user:2"]. *)
Example drain_job_collects_the_keys_of_its_target :
  (start_drain example_clock 30 draining_node_a).1
  = ("job-5-0000",
     [mkRebalanceJob "job-5-0000" "node-a" "node-b" 5000 0 1 false false ""]) ∧
  (λ r, (r.1, ShardedHashTable.stored "user:1" (storage_ r.2),
         ShardedHashTable.stored "user:2" (storage_ r.2),
         jobs_ r.2 !! "job-5-0000", stats_ r.2))
    <$> drain example_clock (λ _, 6000) (λ _ _ _, true) 30 draining_node_a
  = Some ("job-5-0000", [("user:2", "Bob", None); ("user:1", "Alice", None)],
          None, None,
          Some (mkRebalanceJob "job-5-0000" "node-a" "node-b" 5000 2 2 true false ""),
          mkStatistics 1 1 0 0 2).
Proof. split; by vm_compute. Qed.

(** C8, on the code.  The jobs of a drain are planned from the keys whose
    owner changes, and a job, once run, collects the keys of the engine
    that its target owns in the new ring: a key is assigned exactly when
    some key of the engine moves to the node that owns it in the new ring.
    So [node-a], drained in a cluster of three with ["user:14"] (its own,
    [node-b]'s in the new ring) and ["user:2"] ([node-c]'s in both rings)
    in its engine, hands over one job, to [node-b]; ["user:2"], present in
    the engine, is assigned to no job, and whatever the remote calls
    return, the drain ends with ["user:2"] still in the engine of
    [node-a]. *)
Theorem C8_drain_leaves_out_keys_with_unchanged_owner :
  (∀ clock scan_at timeout o key,
     assigned scan_at (start_drain clock timeout o).1.2 o key ↔
     key ∈ (ShardedHashTable.for_each scan_at (storage_ o)).*1 ∧
     ∃ mover source target,
       mover ∈ (ShardedHashTable.for_each (expiry_check_at clock) (storage_ o)).*1 ∧
       migration_path mover o = Some (source, target) ∧
       HashRing.id <$> HashRing.get_node key (new_ring_ o) = Some target) ∧
  is_Some (ShardedHashTable.stored "user:2" (storage_ draining_node_a_of_three)) ∧
  HashRing.id <$> HashRing.get_node "user:2" (old_ring_ draining_node_a_of_three)
    = Some "node-c" ∧
  HashRing.id <$> HashRing.get_node "user:2" (new_ring_ draining_node_a_of_three)
    = Some "node-c" ∧
  (start_drain example_clock 30 draining_node_a_of_three).1
  = ("job-5-0000",
     [mkRebalanceJob "job-5-0000" "node-a" "node-b" 5000 0 1 false false ""]) ∧
  (∀ scan_at,
     ¬ assigned scan_at (start_drain example_clock 30 draining_node_a_of_three).1.2
         draining_node_a_of_three "user:2") ∧
  (∀ scan_at, ¬ drain_covers_engine example_clock scan_at 30 draining_node_a_of_three) ∧
  (∀ scan_at client, ∃ first calls o',
     drain example_clock scan_at client 30 draining_node_a_of_three
     = Some (first, calls, o') ∧
     ShardedHashTable.stored "user:2" (storage_ o')
     = ShardedHashTable.stored "user:2" (storage_ draining_node_a_of_three)) ∧
  (λ r, (r.1, ShardedHashTable.stored "user:14" (storage_ r.2),
         CacheEntry.value <$> ShardedHashTable.stored "user:2" (storage_ r.2),
         jobs_ r.2 !! "job-5-0000", stats_ r.2))
    <$> drain example_clock (λ _, 6000) (λ _ _ _, true) 30 draining_node_a_of_three
  = Some ("job-5-0000", [("user:14", "Carol", None)],
          None, Some (bytes "Bob"),
          Some (mkRebalanceJob "job-5-0000" "node-a" "node-b" 5000 1 1 true false ""),
          mkStatistics 1 1 0 0 1).
Proof.
  assert (Hstored : is_Some (ShardedHashTable.stored "user:2"
                               (storage_ draining_node_a_of_three)))
    by (vm_compute; by eexists).
  assert (Hplan : (start_drain example_clock 30 draining_node_a_of_three).1
                  = ("job-5-0000",
                     [mkRebalanceJob "job-5-0000" "node-a" "node-b" 5000 0 1
                                     false false ""]))
    by (by vm_compute).
  assert (Howner : HashRing.id <$> HashRing.get_node "user:2"
                                     (new_ring_ draining_node_a_of_three)
                   = Some "node-c") by (by vm_compute).
  assert (Hnot : ∀ scan_at,
             ¬ assigned scan_at
                 (start_drain example_clock 30 draining_node_a_of_three).1.2
                 draining_node_a_of_three "user:2").
  { intros scan_at (job & Hjob & Hkey). rewrite Hplan in Hjob. simpl in Hjob.
    apply list_elem_of_singleton in Hjob as ->.
    unfold keys_to_migrate in Hkey.
    apply list_elem_of_fmap in Hkey as ([k e] & Hk & [Hb _]%list_elem_of_filter).
    cbn [fst] in Hk, Hb. subst k. rewrite Howner in Hb.
    clear -Hb. cbn [target_node_id] in Hb. discriminate. }
  split; [intros; by apply start_drain_assigned|].
  split; [exact Hstored|]. split; [by vm_compute|]. split; [exact Howner|].
  split; [exact Hplan|]. split; [exact Hnot|].
  split; [intros scan_at Hall; by apply (Hnot scan_at), Hall|].
  split.
  - intros scan_at client. unfold drain.
    pose proof (start_drain_frame example_clock 30 draining_node_a_of_three)
      as (Hstorage & _ & Hring & Hsize).
    destruct (start_drain example_clock 30 draining_node_a_of_three)
      as [[first spawned] o1]. cbn [fst snd] in Hplan, Hstorage, Hring, Hsize.
   
    injection Hplan as -> ->.
    destruct (run_jobs_keeps scan_at client "user:2"
                [mkRebalanceJob "job-5-0000" "node-a" "node-b" 5000 0 1 false false ""]
                o1) as (calls & o2 & -> & Hkept).
    + rewrite Hsize. by vm_compute.
    + rewrite Hstorage. by vm_compute.
    + intros job ->%list_elem_of_singleton. rewrite Hring, Howner.
      cbn [target_node_id]. clear. discriminate.
    + eexists _, _, _. split; [reflexivity|]. rewrite Hkept. rewrite Hstorage. reflexivity.
  - clear. by vm_compute.
Qed.

End examples.

End RebalanceOrchestrator_facts.
